(** * ddsearch: chunking, incremental indexing and hybrid retrieval

    A shallow embedding of the retrieval core of ddsearch
    (src/chunker.js, src/utils.js, src/db.js, src/indexer.js,
    src/collections.js, src/search.js) together with the properties the
    specification states about it.

    Modelling conventions.
    - A JavaScript string is the list of its UTF-16 code units ([jsstring]).
    - Line numbers, token counts and array indices are [nat]; SQLite INTEGER
      columns are [Z].
    - Scores are JavaScript numbers; they are idealised as exact rationals
      ([Q]): rounding, NaN and infinities are outside the model.
    - A Float32Array element is the JavaScript value it denotes: NaN, or a
      number given by its binary32 bit pattern.
    - The SQLite store is a record of tables (lists of rows, in rowid order);
      a statement is a function on that record.  Foreign keys are enforced
      (better-sqlite3 turns them on), so ON DELETE CASCADE is part of DELETE.
    - Collaborators that are not code of the repository (the file system, the
      glob library, SHA-256, UTF-8 decoding, the FTS5 ranking, the embedding
      provider, Math.sqrt) are Section variables. *)

From Stdlib Require Import Ascii String.
From Stdlib Require Import List ZArith NArith QArith Qabs Qminmax Lia Bool Permutation Sorted.
Import ListNotations.

Close Scope Q_scope.
Open Scope nat_scope.

Set Implicit Arguments.

(* ------------------------------------------------------------------ *)
(** ** JavaScript strings *)

Module JS.

Definition jsstring := list N.

(** A readable way to write literal code-unit strings. *)
Definition str (s : string) : jsstring := map N_of_ascii (list_ascii_of_string s).

Definition str_eqb (a b : jsstring) : bool :=
if list_eq_dec N.eq_dec a b then true else false.

(** WhiteSpace and LineTerminator of ECMAScript: what [\s] matches and what
    [String.prototype.trim] strips. *)
Definition isWhiteSpace (c : N) : bool :=
  ((9 <=? c) && (c <=? 13) || (c =? 32) || (c =? 160) || (c =? 5760)
   || (8192 <=? c) && (c <=? 8202) || (c =? 8232) || (c =? 8233)
   || (c =? 8239) || (c =? 8287) || (c =? 12288) || (c =? 65279))%N.

Fixpoint dropWhile (A : Type) (p : A -> bool) (l : list A) : list A :=
  match l with
  | [] => []
  | x :: r => if p x then dropWhile p r else l
  end.

Fixpoint takeWhile (A : Type) (p : A -> bool) (l : list A) : list A :=
  match l with
  | [] => []
  | x :: r => if p x then x :: takeWhile p r else []
  end.

Definition trimStart (s : jsstring) : jsstring := dropWhile isWhiteSpace s.
Definition trimEnd (s : jsstring) : jsstring := rev (dropWhile isWhiteSpace (rev s)).

(** [s.trim()] *)
Definition trim (s : jsstring) : jsstring := trimEnd (trimStart s).

(** [arr.join(sep)] *)
Fixpoint join (sep : jsstring) (l : list jsstring) : jsstring :=
  match l with
  | [] => []
  | [x] => x
  | x :: r => x ++ sep ++ join sep r
  end.

(** [s.split(c)] for a one-character separator [c]: the empty string splits
    into one empty piece. *)
Fixpoint splitOn (sep : N) (s : jsstring) : list jsstring :=
  match s with
  | [] => [[]]
  | c :: r =>
      if (c =? sep)%N then [] :: splitOn sep r
      else match splitOn sep r with
           | p :: ps => (c :: p) :: ps
           | [] => [[c]]
           end
  end.

(** [s.split(/\s+/)]: the pieces between maximal runs of white space; a
    leading or trailing run leaves an empty first or last piece.
    [inSep] tells that the previous character belonged to a separator. *)
Fixpoint splitWsFrom (inSep : bool) (s : jsstring) : list jsstring :=
  match s with
  | [] => [[]]
  | c :: r =>
      if isWhiteSpace c then
        (if inSep then splitWsFrom true r else [] :: splitWsFrom true r)
      else match splitWsFrom false r with
           | p :: ps => (c :: p) :: ps
           | [] => [[c]]
           end
  end.

Definition splitWs (s : jsstring) : list jsstring := splitWsFrom false s.

(** [s.replace(/c/g, by)] for a single character [c]. *)
Definition replaceAll (c : N) (by_ : jsstring) (s : jsstring) : jsstring :=
  flat_map (fun x => if (x =? c)%N then by_ else [x]) s.

(** [s.startsWith(p)] *)
Fixpoint startsWith (p s : jsstring) : bool :=
  match p, s with
  | [], _ => true
  | _ :: _, [] => false
  | a :: p', b :: s' => (a =? b)%N && startsWith p' s'
  end.

(** [s.includes(p)] *)
Fixpoint includes (p s : jsstring) : bool :=
  startsWith p s || match s with [] => false | _ :: s' => includes p s' end.

End JS.

Import JS.

(* ------------------------------------------------------------------ *)
(** ** src/utils.js *)

Module Utils.

(** [Math.ceil(text.length / 4)] *)
Definition estimateTokens (text : jsstring) : nat := (length text + 3) / 4.

(** A Buffer is the list of its bytes. *)
Definition buffer := list N.

(** What JavaScript sees of a Float32Array element: NaN (all NaN bit
    patterns are one value), or the number with binary32 pattern [bits]. *)
Inductive f32 : Type :=
| F32NaN
| F32Bits (bits : N).

(** A binary32 pattern denotes NaN when its exponent is all ones and its
    fraction is not zero. *)
Definition isNaNPattern (b : N) : bool :=
  (N.land (N.shiftr b 23) 255 =? 255)%N && negb (N.land b 8388607 =? 0)%N.

(** The quiet NaN the engine stores for the value NaN. *)
Definition canonicalNaN : N := 2143289344.

Definition f32_valid (v : f32) : Prop :=
  match v with
  | F32NaN => True
  | F32Bits b => (b < 2 ^ 32)%N /\ isNaNPattern b = false
  end.

(** The pattern stored for a value.  For a number it is its own; for NaN the
    engine chooses which NaN pattern it stores, and the model takes the
    quiet NaN. *)
Definition f32_pattern (v : f32) : N :=
  match v with
  | F32NaN => canonicalNaN
  | F32Bits b => b
  end.

Definition f32_of_pattern (b : N) : f32 :=
  if isNaNPattern b then F32NaN else F32Bits b.

(** [l[i] = x] on an array of fixed length. *)
Fixpoint setAt (A : Type) (i : nat) (x : A) (l : list A) : list A :=
  match l, i with
  | [], _ => []
  | _ :: r, O => x :: r
  | y :: r, S i' => y :: setAt i' x r
  end.

(** [buffer.writeFloatLE(value, offset)]; [None] is the RangeError for an
    offset outside the buffer. *)
Definition writeFloatLE (value : f32) (offset : nat) (buf : buffer) : option buffer :=
  if offset + 4 <=? length buf then
    let b := f32_pattern value in
    Some (setAt offset (N.land b 255)
         (setAt (offset + 1) (N.land (N.shiftr b 8) 255)
         (setAt (offset + 2) (N.land (N.shiftr b 16) 255)
         (setAt (offset + 3) (N.land (N.shiftr b 24) 255) buf))))
  else None.

(** [buffer.readFloatLE(offset)] *)
Definition readFloatLE (offset : nat) (buf : buffer) : option f32 :=
  if offset + 4 <=? length buf then
    let byte k := nth (offset + k) buf 0%N in
    Some (f32_of_pattern
            (N.lor (byte 0)
            (N.lor (N.shiftl (byte 1) 8)
            (N.lor (N.shiftl (byte 2) 16) (N.shiftl (byte 3) 24)))))
  else None.

(** [for (let i = 0; i < n; i++) acc = body(i, acc)], stopping at the first
    exception. *)
Fixpoint forUpTo (A : Type) (n : nat) (body : nat -> A -> option A) (i : nat) (acc : A)
  : option A :=
  match n with
  | O => Some acc
  | S n' =>
      match body i acc with
      | Some acc' => forUpTo n' body (S i) acc'
      | None => None
      end
  end.

(** [float32ArrayToBuffer(arr)].  [Buffer.allocUnsafe] hands out memory that
    is not cleared: [junk] is what it holds, of length [arr.length * 4]. *)
Definition float32ArrayToBuffer (arr : list f32) (junk : buffer) : option buffer :=
  forUpTo (length arr)
    (fun i buf => writeFloatLE (nth i arr F32NaN) (i * 4) buf) 0 junk.

(** [bufferToFloat32Array(buffer)]: a zero-filled array of
    [buffer.length / 4] elements (the length is truncated), filled in order. *)
Definition bufferToFloat32Array (buf : buffer) : option (list f32) :=
  let n := length buf / 4 in
  forUpTo n
    (fun i arr =>
       match readFloatLE (i * 4) buf with
       | Some v => Some (setAt i v arr)
       | None => None
       end) 0 (repeat (F32Bits 0) n).

(** [isProbablyBinary(buffer)].  The final test
    [nonPrintable / sampleSize > 0.3] is written on integers; for an empty
    sample the quotient is NaN and the test is false. *)
Definition isPrintable (byte : N) : bool :=
  ((byte =? 9) || (byte =? 10) || (byte =? 13)
   || (32 <=? byte) && (byte <=? 126))%N.

Fixpoint binaryScan (sample : list N) (nonPrintable : nat) : option nat :=
  match sample with
  | [] => Some nonPrintable
  | byte :: r =>
      if (byte =? 0)%N then None
      else binaryScan r (if isPrintable byte then nonPrintable else S nonPrintable)
  end.

Definition isProbablyBinary (buf : buffer) : bool :=
  let sampleSize := Nat.min (length buf) 8000 in
  match binaryScan (firstn sampleSize buf) 0 with
  | None => true
  | Some nonPrintable => 3 * sampleSize <? 10 * nonPrintable
  end.

Section Cosine.

(** [Math.sqrt] on the idealised numbers. *)
Variable sqrt : Q -> Q.

Definition Qeqb (x y : Q) : bool := Qeq_bool x y.

(** The accumulation loop of [cosineSimilarity]. *)
Fixpoint cosineSums (a b : list Q) (acc : Q * Q * Q) : Q * Q * Q :=
  match a, b with
  | x :: a', y :: b' =>
      let '(dotProduct, normA, normB) := acc in
      cosineSums a' b' (dotProduct + x * y, normA + x * x, normB + y * y)%Q
  | _, _ => acc
  end.

(** [cosineSimilarity(a, b)]; [None] is the error
    'Vectors must have the same length'. *)
Definition cosineSimilarity (a b : list Q) : option Q :=
  if negb (length a =? length b) then None
  else
    let '(dotProduct, normA, normB) := cosineSums a b (0, 0, 0)%Q in
    if Qeqb normA 0 || Qeqb normB 0 then Some 0%Q
    else Some (dotProduct / (sqrt normA * sqrt normB))%Q.

End Cosine.

End Utils.

(* ------------------------------------------------------------------ *)
(** ** src/chunker.js *)

Module Chunker.

Definition TARGET_CHUNK_SIZE : nat := 300.
Definition MIN_CHUNK_SIZE : nat := 100.

Record chunk := mkChunk {
  text : jsstring;
  startLine : nat;
  endLine : nat;
  tokenCount : nat
}.

(** The variables the closure [flushChunk] shares with the loop. *)
Record state := mkState {
  chunks : list chunk;
  currentChunk : list jsstring;
  currentTokens : nat;
  chunkStartLine : nat
}.

Definition init : state := mkState [] [] 0 1.

Definition LF : jsstring := [10%N].

(** [/^#{1,6}\s/.test(line)] *)
Definition isHeading (line : jsstring) : bool :=
  let n := length (takeWhile (N.eqb 35) line) in
  (1 <=? n) && (n <=? 6) &&
  match skipn n line with
  | c :: _ => isWhiteSpace c
  | [] => false
  end.

(** [/^```/.test(line)] *)
Definition isCodeFence (line : jsstring) : bool :=
  match line with
  | 96%N :: 96%N :: 96%N :: _ => true
  | _ => false
  end.

(** [/^(-{3,}|\*{3,}|_{3,})$/.test(line)] *)
Definition isHorizontalRule (line : jsstring) : bool :=
  match line with
  | [] => false
  | c :: _ =>
      ((c =? 45)%N || (c =? 42)%N || (c =? 95)%N)
      && (3 <=? length line) && forallb (N.eqb c) line
  end.

(** [line.trim().length === 0] *)
Definition isBlankLine (line : jsstring) : bool := length (trim line) =? 0.

(** [flushChunk(nextStartLine = null)] *)
Definition flushChunk (nextStartLine : option nat) (s : state) : state :=
  if length (currentChunk s) =? 0 then s
  else
    let text := trim (join LF (currentChunk s)) in
    if length text =? 0 then
      mkState (chunks s) [] 0 (chunkStartLine s)
    else
      let endLine := chunkStartLine s + length (currentChunk s) - 1 in
      mkState
        (chunks s ++ [mkChunk text (chunkStartLine s) endLine (Utils.estimateTokens text)])
        [] 0
        (match nextStartLine with Some n => n | None => endLine + 1 end).

(** [currentChunk.push(line); currentTokens += estimateTokens(line)] *)
Definition pushLine (line : jsstring) (s : state) : state :=
  mkState (chunks s) (currentChunk s ++ [line])
          (currentTokens s + Utils.estimateTokens line) (chunkStartLine s).

(** The inner [while (j < lines.length && !/^```/.test(lines[j]))] loop,
    run on the lines from index [j] on.  It returns the final [j]. *)
Fixpoint fenceBody (rest : list jsstring) (j : nat) (s : state) : nat * state :=
  match rest with
  | [] => (j, s)
  | l :: rest' =>
      if isCodeFence l then (j, s)
      else fenceBody rest' (S j) (pushLine l s)
  end.

(** One iteration of the [for] loop at index [i]; it returns the value of [i]
    at the end of the body (the fence case moves it to the closing fence). *)
Definition loopBody (lines : list jsstring) (i : nat) (line : jsstring)
  (s : state) : nat * state :=
  let s1 :=
    if isHeading line && (0 <? length (currentChunk s))
       && (MIN_CHUNK_SIZE <=? currentTokens s)
    then flushChunk (Some (i + 1)) s else s in
  let s2 := pushLine line s1 in
  if isCodeFence line then
    let '(j, s3) := fenceBody (skipn (i + 1) lines) (i + 1) s2 in
    let '(i', s4) :=
      match nth_error lines j with
      | Some closing => (j, pushLine closing s3)
      | None => (i, s3)
      end in
    let s5 :=
      if TARGET_CHUNK_SIZE <=? currentTokens s4
      then flushChunk (Some (i' + 2)) s4 else s4 in
    (i', s5)
  else
    let s3 :=
      if TARGET_CHUNK_SIZE <=? currentTokens s2 then
        if isBlankLine line || isHorizontalRule line || (i =? length lines - 1)
        then flushChunk (Some (i + 2)) s2 else s2
      else s2 in
    (i, s3).

(** [for (let i = 0; i < lines.length; i++) { ... }], at most [fuel]
    iterations. *)
Fixpoint forLoop (fuel : nat) (lines : list jsstring) (i : nat) (s : state) : state :=
  match fuel with
  | O => s
  | S fuel' =>
      match nth_error lines i with
      | None => s
      | Some line =>
          let '(i', s') := loopBody lines i line s in
          forLoop fuel' lines (S i') s'
      end
  end.

(** The chunker on the lines of a document.  Every iteration advances [i],
    so [length lines] iterations are enough (see [forLoop_fuel]). *)
Definition chunkLines (lines : list jsstring) : list chunk :=
  chunks (flushChunk None (forLoop (length lines) lines 0 init)).

(** [chunkMarkdown(content)] *)
Definition chunkMarkdown (content : jsstring) : list chunk :=
  chunkLines (splitOn 10 content).

Record fileChunk := mkFileChunk {
  fc_chunk : chunk;
  filePath : jsstring;
  chunkIndex : nat
}.

(** [rawChunks.map((chunk, index) => ...)] *)
Fixpoint mapi (A B : Type) (f : A -> nat -> B) (i : nat) (l : list A) : list B :=
  match l with
  | [] => []
  | x :: r => f x i :: mapi f (S i) r
  end.

(** [chunkFile(filePath, content)] *)
Definition chunkFile (path content : jsstring) : list fileChunk :=
  mapi (fun c index => mkFileChunk c path index) 0 (chunkMarkdown content).

End Chunker.

Import Chunker.

(* ------------------------------------------------------------------ *)
(** ** src/db.js: the schema of [initSchema] *)

Module Store.

Record collection_row := mkCollection {
  col_id : Z;
  col_name : jsstring;
  col_base_path : jsstring;
  col_glob_mask : jsstring;
  col_created_at : Z
}.

Record file_metadata_row := mkFileMetadata {
  fm_id : Z;
  fm_collection_id : Z;
  fm_file_path : jsstring;
  fm_file_hash : jsstring;
  fm_indexed_at : Z
}.

Record chunk_row := mkChunkRow {
  ch_id : Z;
  ch_file_metadata_id : Z;
  ch_chunk_index : Z;
  ch_chunk_text : jsstring;
  ch_start_line : Z;
  ch_end_line : Z;
  ch_token_count : Z
}.

Record embedding_row := mkEmbedding {
  em_chunk_id : Z;
  em_embedding : Utils.buffer;
  em_embedding_model : jsstring;
  em_created_at : Z
}.

(** The tables, and for the two AUTOINCREMENT tables the code inserts into,
    the largest rowid ever handed out (sqlite_sequence).  The FTS5 table
    [chunks_fts] is kept equal to [chunks] by the triggers of the schema and
    is not a table of its own here. *)
Record db := mkDb {
  db_collections : list collection_row;
  db_file_metadata : list file_metadata_row;
  db_chunks : list chunk_row;
  db_embeddings : list embedding_row;
  seq_file_metadata : Z;
  seq_chunks : Z
}.

Definition maxId (ids : list Z) : Z := fold_right Z.max 0%Z ids.

(** The rowid AUTOINCREMENT picks: one more than the largest that ever
    existed in the table. *)
Definition nextRowid (seq : Z) (ids : list Z) : Z := (Z.max seq (maxId ids) + 1)%Z.

Definition memZ (x : Z) (l : list Z) : bool := existsb (Z.eqb x) l.

(** [DELETE FROM file_metadata WHERE id = ?], with the cascades declared on
    [chunks.file_metadata_id] and on [embeddings.chunk_id]. *)
Definition deleteFileMetadata (id : Z) (d : db) : db :=
  let deadChunks :=
    map ch_id (filter (fun c => (ch_file_metadata_id c =? id)%Z) (db_chunks d)) in
  mkDb (db_collections d)
       (filter (fun f => negb (fm_id f =? id)%Z) (db_file_metadata d))
       (filter (fun c => negb (ch_file_metadata_id c =? id)%Z) (db_chunks d))
       (filter (fun e => negb (memZ (em_chunk_id e) deadChunks)) (db_embeddings d))
       (seq_file_metadata d) (seq_chunks d).

(** [INSERT INTO file_metadata (collection_id, file_path, file_hash)];
    returns [lastInsertRowid].  [now] is [unixepoch()]. *)
Definition insertFileMetadata (now collectionId : Z) (path hash : jsstring) (d : db)
  : Z * db :=
  let id := nextRowid (seq_file_metadata d) (map fm_id (db_file_metadata d)) in
  (id,
   mkDb (db_collections d)
        (db_file_metadata d ++ [mkFileMetadata id collectionId path hash now])
        (db_chunks d) (db_embeddings d) id (seq_chunks d)).

(** [INSERT INTO chunks (file_metadata_id, chunk_index, chunk_text,
    start_line, end_line, token_count)] *)
Definition insertChunk (fileMetadataId : Z) (c : fileChunk) (d : db) : db :=
  let id := nextRowid (seq_chunks d) (map ch_id (db_chunks d)) in
  mkDb (db_collections d) (db_file_metadata d)
       (db_chunks d ++
        [mkChunkRow id fileMetadataId (Z.of_nat (chunkIndex c))
           (text (fc_chunk c)) (Z.of_nat (startLine (fc_chunk c)))
           (Z.of_nat (endLine (fc_chunk c))) (Z.of_nat (tokenCount (fc_chunk c)))])
       (db_embeddings d) (seq_file_metadata d) id.

(** JavaScript truthiness of an optional string parameter. *)
Definition truthy (s : option jsstring) : option jsstring :=
  match s with
  | Some (c :: r) => Some (c :: r)
  | _ => None
  end.

(** A stable sort: [x] is moved behind [y] only when [after x y].  It is what
    [Array.prototype.sort] and ORDER BY compute for a consistent order. *)
Fixpoint insertBy (A : Type) (after : A -> A -> bool) (x : A) (l : list A) : list A :=
  match l with
  | [] => [x]
  | y :: r => if after x y then y :: insertBy after x r else x :: l
  end.

Definition sortBy (A : Type) (after : A -> A -> bool) (l : list A) : list A :=
  fold_right (insertBy after) [] l.

(** The code points of the text that is bound for a string: a surrogate pair
    is one code point, and a surrogate without its partner is stored as
    U+FFFD. *)
Definition isHighSurrogate (c : N) : bool := ((55296 <=? c) && (c <=? 56319))%N.
Definition isLowSurrogate (c : N) : bool := ((56320 <=? c) && (c <=? 57343))%N.

Fixpoint codePoints (s : jsstring) : list N :=
  match s with
  | [] => []
  | c :: r =>
      match r with
      | c' :: r' =>
          if isHighSurrogate c && isLowSurrogate c'
          then (65536 + (c - 55296) * 1024 + (c' - 56320))%N :: codePoints r'
          else (if isHighSurrogate c || isLowSurrogate c then 65533%N else c) :: codePoints r
      | [] => [if isHighSurrogate c || isLowSurrogate c then 65533%N else c]
      end
  end.

(** [memcmp], then the shorter first: [a > b]. *)
Fixpoint gtb (a b : list N) : bool :=
  match a, b with
  | [], _ => false
  | _ :: _, [] => true
  | x :: a', y :: b' => (y <? x)%N || (x =? y)%N && gtb a' b'
  end.

(** Binary collation, [a > b]: SQLite compares the UTF-8 bytes of the two
    texts, and UTF-8 keeps the order of the code points. *)
Definition str_gtb (a b : jsstring) : bool := gtb (codePoints a) (codePoints b).

End Store.

Import Store.

(* ------------------------------------------------------------------ *)
(** ** src/collections.js and src/indexer.js *)

Module Indexer.

(** What [readFileSync] gives: the bytes of the file, or an exception. *)
Inductive readResult : Type :=
| ReadOk (bytes : Utils.buffer)
| ReadThrows (message : jsstring).

Inductive reason : Type := not_found | binary | read_error | unchanged.

(** The object [indexFile] returns. *)
Inductive fileResult : Type :=
| NotIndexed (why : reason)
| Indexed (chunks : nat).

Record collectionResult := mkCollectionResult {
  cr_name : jsstring;
  cr_files : nat;
  cr_indexed : nat;
  cr_skipped : nat;
  cr_removed : nat;
  cr_chunks : nat
}.

Record results := mkResults {
  r_collections : list collectionResult;
  totalFiles : nat;
  totalChunks : nat;
  indexed : nat;
  skipped : nat;
  removed : nat
}.

(** [{ error: 'No collections found' }] or the totals. *)
Inductive indexOutcome : Type :=
| NoCollections
| Done (r : results).

Record options := mkOptions {
  collectionName : option jsstring;
  full : bool
}.

(** [getCollection(name)]: the first row with that name. *)
Definition getCollection (name : jsstring) (d : db) : option collection_row :=
  find (fun c => str_eqb (col_name c) name) (db_collections d).

(** [getCollections(nameFilter)] *)
Definition getCollections (nameFilter : option jsstring) (d : db) : list collection_row :=
  match truthy nameFilter with
  | Some name =>
      match getCollection name d with
      | Some c => [c]
      | None => []
      end
  | None => sortBy (fun a b => str_gtb (col_name a) (col_name b)) (db_collections d)
  end.

Section Disk.

(** The file system and the libraries the indexer calls. *)
Variable existsSync : jsstring -> bool.
Variable readFileSync : jsstring -> readResult.
Variable toStringUtf8 : Utils.buffer -> jsstring.
Variable hashContent : jsstring -> jsstring.
Variable pathJoin : jsstring -> jsstring -> jsstring.
Variable fgSync : jsstring -> list jsstring.

(** [discoverFiles(collection)] *)
Definition discoverFiles (c : collection_row) : list jsstring :=
  fgSync (pathJoin (col_base_path c) (col_glob_mask c)).

(** [readFileSafe(filePath)]: [None] when the file is binary. *)
Definition readFileSafe (bytes : Utils.buffer) : option jsstring :=
  if Utils.isProbablyBinary bytes then None else Some (toStringUtf8 bytes).

(** [SELECT id, file_hash FROM file_metadata WHERE collection_id = ? AND
    file_path = ?], first row. *)
Definition selectExisting (collectionId : Z) (path : jsstring) (d : db)
  : option file_metadata_row :=
  find (fun f => (fm_collection_id f =? collectionId)%Z && str_eqb (fm_file_path f) path)
       (db_file_metadata d).

Definition deleteExisting (existing : option file_metadata_row) (d : db) : db :=
  match existing with
  | Some e => deleteFileMetadata (fm_id e) d
  | None => d
  end.

(** [indexFile(collectionId, filePath, forceReindex)].  [console.warn] has no
    effect on the store or on the result and is left out. *)
Definition indexFile (now collectionId : Z) (path : jsstring) (forceReindex : bool)
  (d : db) : fileResult * db :=
  if negb (existsSync path) then (NotIndexed not_found, d)
  else
    let existing := selectExisting collectionId path d in
    match readFileSync path with
    | ReadThrows _ => (NotIndexed read_error, d)
    | ReadOk bytes =>
        match readFileSafe bytes with
        | None => (NotIndexed binary, deleteExisting existing d)
        | Some content =>
            let contentHash := hashContent content in
            if match existing with
               | Some e => str_eqb (fm_file_hash e) contentHash && negb forceReindex
               | None => false
               end
            then (NotIndexed unchanged, d)
            else
              let d1 := deleteExisting existing d in
              let '(fileMetadataId, d2) :=
                insertFileMetadata now collectionId path contentHash d1 in
              let chunks := chunkFile path content in
              let d3 := fold_left (fun acc c => insertChunk fileMetadataId c acc) chunks d2 in
              (Indexed (length chunks), d3)
        end
    end.

(** The counters of one collection pass. *)
Record counters := mkCounters {
  collectionIndexed : nat;
  collectionSkipped : nat;
  collectionChunks : nat;
  collectionRemoved : nat
}.

(** The first loop of the transaction: remove deleted files from the index. *)
Definition removeDeleted (files : list jsstring) (existingFiles : list file_metadata_row)
  (st : counters * db) : counters * db :=
  fold_left
    (fun '(k, d) existing =>
       if negb (existsb (str_eqb (fm_file_path existing)) files) then
         (mkCounters (collectionIndexed k) (collectionSkipped k) (collectionChunks k)
                     (S (collectionRemoved k)),
          deleteFileMetadata (fm_id existing) d)
       else (k, d))
    existingFiles st.

(** The second loop: index every discovered file. *)
Definition indexFiles (now collectionId : Z) (forceReindex : bool) (files : list jsstring)
  (st : counters * db) : counters * db :=
  fold_left
    (fun '(k, d) file =>
       match indexFile now collectionId file forceReindex d with
       | (Indexed n, d') =>
           (mkCounters (S (collectionIndexed k)) (collectionSkipped k)
                       (collectionChunks k + n) (collectionRemoved k), d')
       | (NotIndexed _, d') =>
           (mkCounters (collectionIndexed k) (S (collectionSkipped k))
                       (collectionChunks k) (collectionRemoved k), d')
       end)
    files st.

(** The body of [db.transaction(() => { ... })] for one collection.  No
    statement in it fails on a store that satisfies the constraints of the
    schema, so the transaction commits. *)
Definition indexCollection (now : Z) (forceReindex : bool) (c : collection_row) (d : db)
  : counters * db :=
  let files := discoverFiles c in
  let existingFiles :=
    filter (fun f => (fm_collection_id f =? col_id c)%Z) (db_file_metadata d) in
  indexFiles now (col_id c) forceReindex files
    (removeDeleted files existingFiles (mkCounters 0 0 0 0, d)).

Definition emptyResults : results := mkResults [] 0 0 0 0 0.

(** The loop of [indexCollections] over the collections. *)
Definition indexEach (now : Z) (forceReindex : bool) (cs : list collection_row)
  (st : results * db) : results * db :=
  fold_left
    (fun '(r, d) c =>
       let files := discoverFiles c in
       let '(k, d') := indexCollection now forceReindex c d in
       (mkResults
          (r_collections r ++
           [mkCollectionResult (col_name c) (length files) (collectionIndexed k)
              (collectionSkipped k) (collectionRemoved k) (collectionChunks k)])
          (totalFiles r + length files)
          (totalChunks r + collectionChunks k)
          (indexed r + collectionIndexed k)
          (skipped r + collectionSkipped k)
          (removed r + collectionRemoved k),
        d'))
    cs st.

(** [indexCollections(options)] *)
Definition indexCollections (now : Z) (o : options) (d : db) : indexOutcome * db :=
  let collections := getCollections (collectionName o) d in
  if length collections =? 0 then (NoCollections, d)
  else
    let '(r, d') := indexEach now (full o) collections (emptyResults, d) in
    (Done r, d').

End Disk.

End Indexer.

(* ------------------------------------------------------------------ *)
(** ** src/search.js *)

Module Search.

(** What a search touches outside the process, in call order. *)
Inductive event : Type :=
| StoreQuery (sql : jsstring)
| EmbedCall (query : jsstring)
| ConsoleWarn.

Inductive outcome (A : Type) : Type :=
| Ok (a : A)
| Throw (message : jsstring).

Arguments Throw {A} message.

(** A computation: the calls it made, and its value or the exception that
    ended it. *)
Definition comp (A : Type) : Type := list event * outcome A.

Definition ret (A : Type) (a : A) : comp A := ([], Ok a).

Definition bind (A B : Type) (m : comp A) (k : A -> comp B) : comp B :=
  match m with
  | (ev, Ok a) => let '(ev', r) := k a in (ev ++ ev', r)
  | (ev, Throw msg) => (ev, Throw msg)
  end.

Definition call (A : Type) (e : event) (r : outcome A) : comp A := ([e], r).

Notation "x <- m ;; k" := (bind m (fun x => k))
  (at level 61, m at next level, right associativity).

Record SearchResult := mkResult {
  chunkId : Z;
  text : jsstring;
  filePath : jsstring;
  startLine : Z;
  endLine : Z;
  collection : jsstring;
  score : Q;
  rawScore : Q
}.

(** A value of [scoreMap]: [{ ...result, bm25Score, vectorScore }]. *)
Record fusionEntry := mkEntry {
  e_result : SearchResult;
  e_bm25Score : Q;
  e_vectorScore : Q
}.

(** What [searchHybrid] returns: the fields of the entry with [score]
    replaced by the fused score and [rawScore] by [{ bm25, vector }]. *)
Record HybridResult := mkHybrid {
  h_chunkId : Z;
  h_text : jsstring;
  h_filePath : jsstring;
  h_startLine : Z;
  h_endLine : Z;
  h_collection : jsstring;
  h_score : Q;
  h_rawScore : Q * Q;
  bm25Score : Q;
  vectorScore : Q
}.

(** Reading a field of an array element that does not exist. *)
Definition undefinedResult : SearchResult := mkResult 0 [] [] 0 0 [] 0 0.

Record options := mkOptions {
  limit : option Z;
  collectionName : option jsstring;
  bm25Weight : option Q;
  vectorWeight : option Q
}.

Definition orDefault (A : Type) (d : A) (o : option A) : A :=
  match o with Some a => a | None => d end.

(** [clampLimit(limit, max = 100)] on an integer limit. *)
Definition clampLimit (limit : Z) : Z := Z.max 1 (Z.min 100 limit).

Definition QUOTE : N := 34.
Definition AND : jsstring := str " AND ".

(** The token list [escapeFtsQuery] builds before the final join. *)
Definition ftsTokens (query : jsstring) : list jsstring :=
  map (replaceAll QUOTE [QUOTE; QUOTE])
      (filter (fun t => negb (length t =? 0)) (map trim (splitWs query))).

(** [escapeFtsQuery(query)] *)
Definition escapeFtsQuery (query : jsstring) : jsstring :=
  let tokens := ftsTokens query in
  if length tokens =? 0 then []
  else join AND (map (fun t => [QUOTE] ++ t ++ [QUOTE]) tokens).

Definition Qltb (x y : Q) : bool := negb (Qle_bool y x).

(** [Math.max(...scores, 1)] *)
Definition maxWith1 (scores : list Q) : Q := fold_right Qmax 1%Q scores.

(** A row of the joins the three searches select. *)
Record joined := mkJoined {
  j_chunk : chunk_row;
  j_file : file_metadata_row;
  j_collection : collection_row
}.

(** [chunks c JOIN file_metadata fm ON c.file_metadata_id = fm.id
     JOIN collections col ON fm.collection_id = col.id
     [WHERE col.name = ?]] for the chunk with rowid [id]. *)
Definition joinChunk (d : db) (name : option jsstring) (id : Z) : list joined :=
  flat_map (fun c =>
    flat_map (fun fm =>
      flat_map (fun col =>
        if match truthy name with
           | Some n => str_eqb (col_name col) n
           | None => true
           end
        then [mkJoined c fm col] else [])
        (filter (fun col => (fm_collection_id fm =? col_id col)%Z) (db_collections d)))
      (filter (fun fm => (ch_file_metadata_id c =? fm_id fm)%Z) (db_file_metadata d)))
    (filter (fun c => (ch_id c =? id)%Z) (db_chunks d)).

Definition resultOf (j : joined) (score rawScore : Q) : SearchResult :=
  mkResult (ch_id (j_chunk j)) (ch_chunk_text (j_chunk j)) (fm_file_path (j_file j))
           (ch_start_line (j_chunk j)) (ch_end_line (j_chunk j))
           (col_name (j_collection j)) score rawScore.

Section Collaborators.

(** FTS5: for a MATCH expression, either an error, or for every chunk rowid
    whether it matches and with which [bm25] value. *)
Variable fts5 : list chunk_row -> jsstring -> outcome (Z -> option Q).

(** The embedding provider behind [generateQueryEmbedding]. *)
Variable generateQueryEmbedding : jsstring -> outcome (list Utils.f32).

(** The number a Float32Array element reads as, and [Math.sqrt]. *)
Variable numberOf : Utils.f32 -> Q.
Variable sqrt : Q -> Q.

(** The order in which the store delivers the rows of a SELECT that has no
    ORDER BY.  It is the query planner's choice (the rowid order of
    [embeddings] without a collection filter, the order of an index of
    [file_metadata] with one): [planAfter a b] says that the row [a] comes
    after the row [b]. *)
Variable planAfter : embedding_row * joined -> embedding_row * joined -> bool.

Definition BM25_SQL : jsstring := str "SELECT ... FROM chunks_fts ... WHERE chunks_fts MATCH ?".
Definition COUNT_SQL : jsstring := str "SELECT COUNT(*) as count FROM embeddings e".
Definition VECTOR_SQL : jsstring := str "SELECT ... FROM embeddings e JOIN chunks c ...".

(** The rows of the BM25 statement: [... WHERE chunks_fts MATCH ?
    [AND col.name = ?] ORDER BY bm25(chunks_fts) LIMIT ?]. *)
Definition bm25Rows (d : db) (rank : Z -> option Q) (name : option jsstring) (lim : Z)
  : list (joined * Q) :=
  let matched :=
    flat_map (fun c =>
      match rank (ch_id c) with
      | Some s => map (fun j => (j, s)) (joinChunk d name (ch_id c))
      | None => []
      end) (db_chunks d) in
  firstn (Z.to_nat lim) (sortBy (fun a b => Qltb (snd b) (snd a)) matched).

(** [searchBM25(query, options)] *)
Definition searchBM25 (d : db) (query : jsstring) (o : options) : comp (list SearchResult) :=
  let lim := clampLimit (orDefault 10%Z (limit o)) in
  let escapedQuery := escapeFtsQuery query in
  if length escapedQuery =? 0 then ret []
  else
    match fts5 (db_chunks d) escapedQuery with
    | Throw message =>
        if includes (str "fts5") message then ([StoreQuery BM25_SQL], Ok [])
        else ([StoreQuery BM25_SQL], Throw message)
    | Ok rank =>
        results <- call (StoreQuery BM25_SQL) (Ok (bm25Rows d rank (collectionName o) lim)) ;;
        let scores := map (fun r => Qabs (snd r)) results in
        let maxScore := maxWith1 scores in
        ret (map (fun r => resultOf (fst r) (Qabs (snd r) / maxScore) (snd r)) results)
    end.

(** The rows of [embeddings e JOIN chunks c ON e.chunk_id = c.id JOIN ...
    [WHERE col.name = ?]], listed by the embeddings table. *)
Definition embeddingRows (d : db) (name : option jsstring)
  : list (embedding_row * joined) :=
  flat_map (fun e => map (fun j => (e, j)) (joinChunk d name (em_chunk_id e)))
           (db_embeddings d).

(** The same rows as [db.prepare(sql).iterate(...params)] yields them: the
    statement has no ORDER BY, so they come in the planner's order, which
    [planAfter] stands for.  No order is left out: see
    [every_order_is_delivered]. *)
Definition deliveredRows (d : db) (name : option jsstring)
  : list (embedding_row * joined) :=
  sortBy planAfter (embeddingRows d name).

(** [SELECT COUNT( * ) ...]: all embeddings without a collection, the joined
    ones with it. *)
Definition countEmbeddings (d : db) (name : option jsstring) : nat :=
  match truthy name with
  | Some _ => length (embeddingRows d name)
  | None => length (db_embeddings d)
  end.

Definition clamp01 (x : Q) : Q := Qmax 0 (Qmin 1 x).

(** The index of the current minimum: the loop [for (let i = 1; ...)]. *)
Definition minIndex (top : list SearchResult) : nat :=
  fold_left
    (fun m i =>
       if Qltb (score (nth i top undefinedResult)) (score (nth m top undefinedResult))
       then i else m)
    (seq 1 (length top - 1)) 0.

(** The bounded candidate set, one step. *)
Definition offer (lim : Z) (top : list SearchResult) (entry : SearchResult)
  : list SearchResult :=
  if (Z.of_nat (length top) <? lim)%Z then top ++ [entry]
  else
    let m := minIndex top in
    if Qltb (score (nth m top undefinedResult)) (score entry)
    then Utils.setAt m entry top
    else top.

(** The entry built for one row; it throws when the dimensions differ.
    ([bufferToFloat32Array] reads inside the buffer and never throws, see
    [bufferToFloat32Array_total].) *)
Definition entryOf (queryEmbedding : list Utils.f32) (row : embedding_row * joined)
  : outcome SearchResult :=
  match Utils.bufferToFloat32Array (em_embedding (fst row)) with
  | None => Throw (str "out of range")
  | Some embedding =>
      match Utils.cosineSimilarity sqrt (map numberOf queryEmbedding) (map numberOf embedding) with
      | None => Throw (str "Vectors must have the same length")
      | Some similarity =>
          Ok (resultOf (snd row) (clamp01 ((similarity + 1) / 2)) similarity)
      end
  end.

(** The scan [for (const candidate of db.prepare(sql).iterate(...))]. *)
Fixpoint scan (lim : Z) (queryEmbedding : list Utils.f32)
  (rows : list (embedding_row * joined)) (top : list SearchResult)
  : outcome (list SearchResult) :=
  match rows with
  | [] => Ok top
  | row :: rest =>
      match entryOf queryEmbedding row with
      | Throw message => Throw message
      | Ok entry => scan lim queryEmbedding rest (offer lim top entry)
      end
  end.

(** [top.sort((a, b) => b.score - a.score)] *)
Definition sortDescending (A : Type) (sc : A -> Q) (l : list A) : list A :=
  sortBy (fun a b => Qltb 0 (sc b - sc a)) l.

(** [searchVector(query, options)] *)
Definition searchVector (d : db) (query : jsstring) (o : options) : comp (list SearchResult) :=
  let lim := clampLimit (orDefault 10%Z (limit o)) in
  count <- call (StoreQuery COUNT_SQL) (Ok (countEmbeddings d (collectionName o))) ;;
  if count =? 0 then ret []
  else
    queryEmbedding <- call (EmbedCall query) (generateQueryEmbedding query) ;;
    top <- call (StoreQuery VECTOR_SQL)
                (scan lim queryEmbedding (deliveredRows d (collectionName o)) []) ;;
    ret (sortDescending score top).

(** [scoreMap]: a Map keeps its keys in insertion order, and [set] on a key
    that is present replaces the value in place. *)
Definition scoreMap := list (Z * fusionEntry).

Fixpoint mapSet (k : Z) (v : fusionEntry) (m : scoreMap) : scoreMap :=
  match m with
  | [] => [(k, v)]
  | (k', v') :: r => if (k' =? k)%Z then (k, v) :: r else (k', v') :: mapSet k v r
  end.

Fixpoint mapGet (k : Z) (m : scoreMap) : option fusionEntry :=
  match m with
  | [] => None
  | (k', v') :: r => if (k' =? k)%Z then Some v' else mapGet k r
  end.

(** [bm25Results.forEach(result => scoreMap.set(...))] *)
Definition addBm25 (m : scoreMap) (result : SearchResult) : scoreMap :=
  mapSet (chunkId result) (mkEntry result (score result) 0) m.

(** [vectorResults.forEach(result => ...)]: the entry of a chunk that is
    present gets its [vectorScore] assigned. *)
Definition addVector (m : scoreMap) (result : SearchResult) : scoreMap :=
  match mapGet (chunkId result) m with
  | Some existing =>
      mapSet (chunkId result)
        (mkEntry (e_result existing) (e_bm25Score existing) (score result)) m
  | None => mapSet (chunkId result) (mkEntry result 0 (score result)) m
  end.

(** [Array.from(scoreMap.values()).map(result => ({ ...result, score, rawScore }))] *)
Definition combine (bm25W vectorW : Q) (e : fusionEntry) : HybridResult :=
  let r := e_result e in
  mkHybrid (chunkId r) (text r) (filePath r) (startLine r) (endLine r) (collection r)
           (e_bm25Score e * bm25W + e_vectorScore e * vectorW)
           (e_bm25Score e, e_vectorScore e)
           (e_bm25Score e) (e_vectorScore e).

(** The fusion: from the two result lists to the ranked list. *)
Definition fuse (bm25W vectorW : Q) (lim : Z)
  (bm25Results vectorResults : list SearchResult) : list HybridResult :=
  let m := fold_left addVector vectorResults (fold_left addBm25 bm25Results []) in
  let combined := map (fun kv => combine bm25W vectorW (snd kv)) m in
  firstn (Z.to_nat (clampLimit lim)) (sortDescending h_score combined).

(** [searchHybrid(query, options)] *)
Definition searchHybrid (d : db) (query : jsstring) (o : options) : comp (list HybridResult) :=
  let lim := orDefault 10%Z (limit o) in
  let bm25W := orDefault (4 # 10)%Q (bm25Weight o) in
  let vectorW := orDefault (6 # 10)%Q (vectorWeight o) in
  let legOptions := mkOptions (Some (lim * 3)%Z) (collectionName o) None None in
  bm25Results <- searchBM25 d query legOptions ;;
  vectorResults <-
    match searchVector d query legOptions with
    | (ev, Ok results) => (ev, Ok results)
    | (ev, Throw _) => (ev ++ [ConsoleWarn], Ok [])
    end ;;
  ret (fuse bm25W vectorW lim bm25Results vectorResults).

End Collaborators.

End Search.

(* ------------------------------------------------------------------ *)
(** * The vocabulary of the properties *)

Unset Implicit Arguments.

(** ** Chunks and line ranges *)

Module ChunkerSpec.

(** The line ranges of [cs], in order, are [from .. e1], [e1 + 1 .. e2], ...
    and end just before line [upto]: they cover the lines [from .. upto - 1]
    without a gap or an overlap, and no range is empty. *)
Fixpoint tiles (cs : list chunk) (from upto : nat) : Prop :=
  match cs with
  | [] => from = upto
  | c :: r => startLine c = from /\ from <= endLine c /\ tiles r (S (endLine c)) upto
  end.

(** Every code fence that is opened is closed: the fence lines of the
    document pair up. *)
Definition fencesClosed (lines : list jsstring) : Prop :=
  Nat.even (length (filter isCodeFence lines)) = true.

Definition evenFences (l : list jsstring) : Prop :=
  Nat.even (length (filter isCodeFence l)) = true.

(** The sum [currentTokens] keeps of the pending lines. *)
Definition tokensOf (pending : list jsstring) : nat :=
  fold_right (fun l n => Utils.estimateTokens l + n) 0 pending.

Definition allWs (s : jsstring) : bool := forallb isWhiteSpace s.

(** The state of the scan before line [i + 1] is read: the chunks made so far
    tile the lines before [chunkStartLine], and the pending lines are the
    lines from there to line [i]. *)
Record Inv (lines : list jsstring) (i : nat) (s : state) : Prop := mkInv {
  inv_start : 1 <= chunkStartLine s <= i + 1;
  inv_tiles : tiles (chunks s) 1 (chunkStartLine s);
  inv_pending : currentChunk s = skipn (chunkStartLine s - 1) (firstn i lines);
  inv_tokens : currentTokens s = tokensOf (currentChunk s)
}.

(** The pending chunk has text after trimming: a flush makes a chunk of it. *)
Definition hasText (s : state) : Prop :=
  currentChunk s <> [] /\ trim (join LF (currentChunk s)) <> [].

(** The [n] lines from line [i + 1] on are whitespace-only. *)
Definition blankBlock (lines : list jsstring) (i n : nat) : Prop :=
  forallb isBlankLine (firstn n (skipn i lines)) = true.

(** No block of whitespace-only lines adds up to the target size, and none
    that a heading follows adds up to the minimum size: no flush inside the
    document finds only white space pending. *)
Definition blankBlocksSmall (lines : list jsstring) : Prop :=
  (forall i n, blankBlock lines i n ->
     tokensOf (firstn n (skipn i lines)) < TARGET_CHUNK_SIZE) /\
  (forall i n heading,
     blankBlock lines i n ->
     nth_error lines (i + n) = Some heading -> isHeading heading = true ->
     tokensOf (firstn n (skipn i lines)) < MIN_CHUNK_SIZE).

(** The same, as a check over the blocks inside the document. *)
Definition blockOk (lines : list jsstring) (i n : nat) : bool :=
  let block := firstn n (skipn i lines) in
  negb (forallb isBlankLine block) ||
  (tokensOf block <? TARGET_CHUNK_SIZE) &&
  match nth_error lines (i + n) with
  | Some next => negb (isHeading next) || (tokensOf block <? MIN_CHUNK_SIZE)
  | None => true
  end.

Definition blocksOk (lines : list jsstring) : bool :=
  forallb (fun i => forallb (blockOk lines i) (seq 0 (S (length lines))))
          (seq 0 (S (length lines))).

(** A file with CRLF line ends: a paragraph of 300 tokens, a blank line, a
    heading and a last line. *)
Definition crlfDocument : jsstring :=
  repeat 97%N 1200 ++ [13; 10; 13; 10]%N ++ str "## Next" ++ [13; 10]%N ++ str "The end.".

(** A paragraph of 300 tokens followed by two empty lines. *)
Definition trailingBlankDocument : jsstring := repeat 97%N 1200 ++ [10; 10]%N.

(** A line of 1200 spaces followed by a line of text. *)
Definition leadingSpacesDocument : jsstring := repeat 32%N 1200 ++ [10]%N ++ str "text".

(** A line of 400 spaces followed by a heading and a line of text. *)
Definition spacesBeforeHeadingDocument : jsstring :=
  repeat 32%N 400 ++ [10]%N ++ str "# Title" ++ [10]%N ++ str "text".

End ChunkerSpec.

(** ** The byte codec *)

Module CodecSpec.
Import Utils.

(** The four bytes [writeFloatLE] stores, lowest first. *)
Definition bytesOf (v : f32) : list N :=
  let b := f32_pattern v in
  [N.land b 255; N.land (N.shiftr b 8) 255;
   N.land (N.shiftr b 16) 255; N.land (N.shiftr b 24) 255].

End CodecSpec.

(** ** Queries, scores and rankings *)

Module SearchSpec.
Import Search.










(** The place of the key [k] in [keys]: the number of keys before its first
    occurrence. *)
Fixpoint placeIn (keys : list Z) (k : Z) : nat :=
  match keys with
  | [] => 0
  | x :: r => if (x =? k)%Z then 0 else S (placeIn r k)
  end.

(** [a] comes before [b] in the order of [keys]. *)
Definition before {A : Type} (key : A -> Z) (keys : list Z) (a b : A) : Prop :=
  placeIn keys (key a) < placeIn keys (key b).

(** The planner that delivers the rows of a scan in the order of [order]. *)
Definition planOf (order : list (embedding_row * joined))
  (a b : embedding_row * joined) : bool :=
  let keys := map (fun row => em_chunk_id (fst row)) order in
  placeIn keys (em_chunk_id (fst b)) <? placeIn keys (em_chunk_id (fst a)).

(** Descending by [sc]. *)
Definition descending {A : Type} (sc : A -> Q) (l : list A) : Prop :=
  StronglySorted (fun a b => (sc b <= sc a)%Q) l.

(** The entry of a chunk that only the lexical leg returned, fused. *)
Definition lexicalOnly (bm25W vectorW : Q) (r : SearchResult) : HybridResult :=
  combine bm25W vectorW (mkEntry r (score r) 0).

(** The options [searchHybrid] hands to both legs. *)
Definition legOptions (o : options) : options :=
  mkOptions (Some (orDefault 10 (limit o) * 3)%Z) (collectionName o) None None.

(** What [searchHybrid] keeps of the vector leg. *)
Definition caught (leg : comp (list SearchResult)) : list SearchResult :=
  match leg with
  | (_, Ok results) => results
  | (_, Throw _) => []
  end.

(** What a leg contributes to the chunk [k]: the score of a result of the
    leg for that chunk, and 0 when the leg has none. *)
Definition contribution (leg : list SearchResult) (k : Z) (x : Q) : Prop :=
  (In k (map chunkId leg) -> exists l, In l leg /\ chunkId l = k /\ x = score l) /\
  (~ In k (map chunkId leg) -> x = 0%Q).

Definition keysOf (m : scoreMap) : list Z := map fst m.

(** The score map after the results [lex] and [vec] went in. *)
Definition fused (lex vec : list SearchResult) (m : scoreMap) : Prop :=
  NoDup (keysOf m) /\
  (forall k, In k (keysOf m) <-> In k (map chunkId lex) \/ In k (map chunkId vec)) /\
  forall k e, In (k, e) m ->
    chunkId (e_result e) = k /\
    contribution lex k (e_bm25Score e) /\
    contribution vec k (e_vectorScore e).

(** [row] was scored as [e] against the query embedding [qe]: its blob
    decodes, the cosine similarity [sim] is defined, and [e] carries [sim] as
    raw score and [(sim + 1) / 2], kept inside [0, 1], as score. *)
Definition scoredAs (numberOf : Utils.f32 -> Q) (sqrt : Q -> Q) (qe : list Utils.f32)
  (row : embedding_row * joined) (e : SearchResult) : Prop :=
  exists embedding sim,
    Utils.bufferToFloat32Array (em_embedding (fst row)) = Some embedding /\
    Utils.cosineSimilarity sqrt (map numberOf qe) (map numberOf embedding) = Some sim /\
    e = resultOf (snd row) (clamp01 ((sim + 1) / 2)) sim.

(** [top] holds the best of [entries], at most [k] of them; [rest] is what
    was left out. *)
Definition selected (k : nat) (entries top rest : list SearchResult) : Prop :=
  Permutation (top ++ rest) entries /\
  length top = Nat.min k (length entries) /\
  forall t x, In t top -> In x rest -> (score x <= score t)%Q.

Definition scoreAt (top : list SearchResult) (i : nat) : Q :=
  score (nth i top undefinedResult).

End SearchSpec.

(** ** The store and its documents *)

Module StoreSpec.

(** The key constraints of the schema: the PRIMARY KEYs, the UNIQUE
    constraint of [file_metadata], and sqlite_sequence never below a rowid
    in use. *)
Record keys (d : db) : Prop := mkKeys {
  key_collections : NoDup (map col_id (db_collections d));
  key_file_metadata : NoDup (map fm_id (db_file_metadata d));
  unique_file_path :
    NoDup (map (fun f => (fm_collection_id f, fm_file_path f)) (db_file_metadata d));
  key_chunks : NoDup (map ch_id (db_chunks d));
  seq_file_metadata_bound :
    Forall (fun f => (fm_id f <= seq_file_metadata d)%Z) (db_file_metadata d);
  seq_chunks_bound :
    Forall (fun c => (ch_id c <= seq_chunks d)%Z) (db_chunks d)
}.

(** The documents of a collection. *)
Definition rowsOf (collectionId : Z) (d : db) : list file_metadata_row :=
  filter (fun f => (fm_collection_id f =? collectionId)%Z) (db_file_metadata d).

(** The documents of a collection whose path is not among [files]. *)
Definition missingFrom (files : list jsstring) (collectionId : Z) (d : db)
  : list file_metadata_row :=
  filter (fun f => negb (existsb (str_eqb (fm_file_path f)) files)) (rowsOf collectionId d).

(** The ids of the chunks a document owns. *)
Definition chunksOf (t : file_metadata_row) (d : db) : list Z :=
  map ch_id (filter (fun c => (ch_file_metadata_id c =? fm_id t)%Z) (db_chunks d)).

(** The document [X] and what it owned are not in the store: no record with
    its id, no chunk of it, none of the chunks [owned] it had, and no
    embedding of such a chunk. *)
Definition gone (X : Z) (owned : list Z) (d : db) : Prop :=
  (forall f, In f (db_file_metadata d) -> fm_id f <> X) /\
  (forall c, In c (db_chunks d) -> ch_file_metadata_id c <> X /\ ~ In (ch_id c) owned) /\
  (forall e, In e (db_embeddings d) -> ~ In (em_chunk_id e) owned).

(** The document [t] is still there with exactly the chunks [owned]. *)
Definition intact (t : file_metadata_row) (owned : list Z) (d : db) : Prop :=
  In t (db_file_metadata d) /\
  map ch_id (filter (fun c => (ch_file_metadata_id c =? fm_id t)%Z) (db_chunks d)) = owned /\
  (forall c, In c (db_chunks d) -> In (ch_id c) owned -> ch_file_metadata_id c = fm_id t).

(** Rowids handed out from now on differ from [X] and from [owned]. *)
Definition retired (X : Z) (owned : list Z) (d : db) : Prop :=
  (X <= seq_file_metadata d)%Z /\ forall id, In id owned -> (id <= seq_chunks d)%Z.

(** What is known of the document [t] during a run: its rowids are retired,
    and it is either gone or still intact. *)
Definition tracked (t : file_metadata_row) (owned : list Z) (d : db) : Prop :=
  retired (fm_id t) owned d /\ (gone (fm_id t) owned d \/ intact t owned d).

Definition removedFor (t : file_metadata_row) (owned : list Z) (d : db) : Prop :=
  retired (fm_id t) owned d /\ gone (fm_id t) owned d.

(** The INSERT of a document followed by the INSERTs of its chunks. *)
Definition insertDocument (now cid : Z) (p h : jsstring) (cs : list fileChunk) (d : db) : db :=
  fold_left (fun acc c => insertChunk (fst (insertFileMetadata now cid p h d)) c acc)
            cs (snd (insertFileMetadata now cid p h d)).

(** A property of the store that every statement of the indexer keeps: a
    DELETE of a document, and an INSERT of a document with its chunks. *)
Definition kept (P : db -> Prop) : Prop :=
  (forall id d, P d -> P (deleteFileMetadata id d)) /\
  (forall now cid p h cs d, P d -> P (insertDocument now cid p h cs d)).

(** The deletions of the first loop of a collection pass, in order. *)
Definition deleteAll (dead : list file_metadata_row) (d : db) : db :=
  fold_left (fun acc e => deleteFileMetadata (fm_id e) acc) dead d.

Definition hasKey (cid : Z) (p : jsstring) (f : file_metadata_row) : bool :=
  (fm_collection_id f =? cid)%Z && str_eqb (fm_file_path f) p.

End StoreSpec.

(** ** The indexer *)

Module IndexerSpec.
Import StoreSpec Indexer.

Definition addRemoved (n : nat) (k : counters) : counters :=
  mkCounters (collectionIndexed k) (collectionSkipped k) (collectionChunks k)
             (collectionRemoved k + n).

Definition addSkipped (n : nat) (k : counters) : counters :=
  mkCounters (collectionIndexed k) (collectionSkipped k + n) (collectionChunks k)
             (collectionRemoved k).

(** What [indexFile] does to the store: nothing, or it deletes the record it
    found, or it deletes it and inserts a new record with its chunks. *)
Inductive fileStep (hashContent : jsstring -> jsstring) (now cid : Z) (p : jsstring) (d : db)
  : fileResult -> db -> Prop :=
| StepSame (why : reason) :
    why <> binary -> fileStep hashContent now cid p d (NotIndexed why) d
| StepBinary :
    fileStep hashContent now cid p d (NotIndexed binary)
             (deleteExisting (selectExisting cid p d) d)
| StepIndexed (content : jsstring) :
    let d1 := deleteExisting (selectExisting cid p d) d in
    let ins := insertFileMetadata now cid p (hashContent content) d1 in
    let cs := chunkFile p content in
    fileStep hashContent now cid p d (Indexed (length cs))
             (fold_left (fun acc c => insertChunk (fst ins) c acc) cs (snd ins)).

(** The record of [p] in the collection agrees with the file on disk: none
    for a binary file, one with the hash of the content for a text file. *)
Definition fileCurrent (existsSync : jsstring -> bool) (readFileSync : jsstring -> readResult)
  (toStringUtf8 : Utils.buffer -> jsstring) (hashContent : jsstring -> jsstring)
  (cid : Z) (p : jsstring) (d : db) : Prop :=
  existsSync p = true ->
  forall bytes, readFileSync p = ReadOk bytes ->
    match readFileSafe toStringUtf8 bytes with
    | None => selectExisting cid p d = None
    | Some content =>
        exists e, selectExisting cid p d = Some e /\ fm_file_hash e = hashContent content
    end.

(** The collection is indexed as it is on disk. *)
Definition upToDate (existsSync : jsstring -> bool) (readFileSync : jsstring -> readResult)
  (toStringUtf8 : Utils.buffer -> jsstring) (hashContent : jsstring -> jsstring)
  (discover : collection_row -> list jsstring) (c : collection_row) (d : db) : Prop :=
  (forall f, In f (rowsOf (col_id c) d) -> In (fm_file_path f) (discover c)) /\
  (forall p, In p (discover c) ->
     fileCurrent existsSync readFileSync toStringUtf8 hashContent (col_id c) p d).

(** The number of files matched over the collections [cs]. *)
Definition filesOf (discover : collection_row -> list jsstring) (cs : list collection_row)
  : nat :=
  fold_right (fun c n => length (discover c) + n) 0 cs.

(** The number of documents, over the collections [cs], whose path
    [discover] does not list any more. *)
Definition missingTotal (discover : collection_row -> list jsstring)
  (cs : list collection_row) (d : db) : nat :=
  fold_right (fun c n => length (missingFrom (discover c) (col_id c) d) + n) 0 cs.

End IndexerSpec.

(** ** A small corpus, for the examples *)

Module Samples.
Import Search SearchSpec Indexer.

Definition notes : collection_row :=
  mkCollection 1 (str "notes") (str "/notes") (str "*.md") 0.

(** [a.md] is on disk with the content its record was hashed from;
    [old.md] has been deleted from disk. *)
Definition docA : file_metadata_row :=
  mkFileMetadata 1 1 (str "/notes/a.md") (str "alpha beta") 0.
Definition docOld : file_metadata_row :=
  mkFileMetadata 2 1 (str "/notes/old.md") (str "gone") 0.

(** An embedding of two components whose patterns are [x] and [y]. *)
Definition blob (x y : N) : Utils.buffer := [x; 0; 0; 0; y; 0; 0; 0]%N.

Definition sampleStore : db :=
  mkDb [notes] [docA; docOld]
       [mkChunkRow 1 1 0 (str "alpha") 1 1 2; mkChunkRow 2 1 1 (str "beta") 2 2 1;
        mkChunkRow 3 1 2 (str "gamma") 3 3 2; mkChunkRow 4 2 0 (str "old") 1 1 1;
        mkChunkRow 5 2 1 (str "older") 2 2 2]
       [mkEmbedding 1 (blob 1 0) (str "m") 0; mkEmbedding 2 (blob 0 1) (str "m") 0;
        mkEmbedding 3 (blob 3 4) (str "m") 0; mkEmbedding 4 (blob 4 3) (str "m") 0;
        mkEmbedding 5 (blob 5 12) (str "m") 0]
       2 5.

(** The same documents before any embedding pass. *)
Definition unembeddedStore : db :=
  mkDb [notes] [docA] [mkChunkRow 1 1 0 (str "alpha") 1 1 2] [] 1 1.

(** The disk: every path exists and reads as the text "alpha beta"; the hash
    of a text is the text; the glob matches [a.md] only. *)
Definition diskExists (p : jsstring) : bool := true.
Definition diskRead (p : jsstring) : readResult := ReadOk (str "alpha beta").
Definition utf8 (bytes : Utils.buffer) : jsstring := bytes.
Definition textHash (content : jsstring) : jsstring := content.
Definition joinPath (a b : jsstring) : jsstring := a ++ [47%N] ++ b.
Definition glob (pattern : jsstring) : list jsstring := [str "/notes/a.md"].

Definition incremental : Indexer.options := Indexer.mkOptions None false.

Definition firstRun : indexOutcome * db :=
  Eval vm_compute in
    indexCollections diskExists diskRead utf8 textHash joinPath glob 1000 incremental sampleStore.

Definition runResults : results :=
  Eval vm_compute in
    match fst firstRun with Done r => r | NoCollections => emptyResults end.

Definition afterRun : db := Eval vm_compute in snd firstRun.

(** The collaborators of a search: FTS5 matches chunks 1 and 4, the
    provider returns the embedding (1, 0), a float pattern reads as the
    integer it spells, and the square root is that of perfect squares. *)
Definition ranking (chunks : list chunk_row) (q : jsstring) : outcome (Z -> option Q) :=
  Ok (fun id => if (id =? 1)%Z then Some (-2)%Q
                else if (id =? 4)%Z then Some (-1 # 2)%Q else None).
Definition provider (q : jsstring) : outcome (list Utils.f32) :=
  Ok [Utils.F32Bits 1; Utils.F32Bits 0].
Definition noProvider (q : jsstring) : outcome (list Utils.f32) :=
  Throw (str "OpenAI API key not found").
Definition reading (v : Utils.f32) : Q :=
  match v with
  | Utils.F32Bits b => inject_Z (Z.of_N b)
  | Utils.F32NaN => 0%Q
  end.
Definition root (x : Q) : Q :=
  (inject_Z (Z.sqrt (Qnum x)) / inject_Z (Z.sqrt (Zpos (Qden x))))%Q.

(** Two orders in which the store may deliver the rows of the vector scan:
    that of the embeddings table, and the reverse of it. *)
Definition tableOrder (a b : embedding_row * joined) : bool := false.
Definition reverseOrder (a b : embedding_row * joined) : bool :=
  (em_chunk_id (fst a) <? em_chunk_id (fst b))%Z.

Definition query : jsstring := str "alpha old".
Definition top2 : Search.options := Search.mkOptions (Some 2%Z) None None None.
Definition top3 : Search.options := Search.mkOptions (Some 3%Z) None None None.

Definition lexicalLeg : comp (list SearchResult) :=
  Eval vm_compute in searchBM25 ranking sampleStore query (legOptions top2).
Definition lexicalEvents : list event := Eval vm_compute in fst lexicalLeg.
Definition lexicalResults : list SearchResult :=
  Eval vm_compute in match snd lexicalLeg with Ok l => l | Throw _ => [] end.

Definition vectorRun : comp (list SearchResult) :=
  Eval vm_compute in searchVector provider reading root tableOrder sampleStore query top3.
Definition vectorEvents : list event := Eval vm_compute in fst vectorRun.
Definition vectorResults : list SearchResult :=
  Eval vm_compute in match snd vectorRun with Ok l => l | Throw _ => [] end.

Definition failedLeg : comp (list SearchResult) :=
  Eval vm_compute in
    searchVector noProvider reading root tableOrder sampleStore query (legOptions top2).

End Samples.

(* ------------------------------------------------------------------ *)
(** * More of the code *)

(** ** src/search.js: [search] and [getUniqueFiles] *)

Module Dispatch.
Import Search.

(** What [search] returns: the results of [searchBM25] and [searchVector],
    or the fused results of [searchHybrid]. *)
Inductive result : Type :=
| Plain (r : SearchResult)
| Fused (r : HybridResult).

Definition filePathOf (r : result) : jsstring :=
  match r with Plain r => filePath r | Fused r => h_filePath r end.

Definition collectionOf (r : result) : jsstring :=
  match r with Plain r => collection r | Fused r => h_collection r end.

Definition scoreOf (r : result) : Q :=
  match r with Plain r => score r | Fused r => h_score r end.

(** The options object of [search]: [mode] and [minScore], and the fields
    the three searches read from the same object. *)
Record options := mkOptions {
  mode : option jsstring;
  minScore : option Q;
  legs : Search.options
}.

Section Collaborators.

Variable fts5 : list chunk_row -> jsstring -> outcome (Z -> option Q).
Variable generateQueryEmbedding : jsstring -> outcome (list Utils.f32).
Variable numberOf : Utils.f32 -> Q.
Variable sqrt : Q -> Q.
Variable planAfter : embedding_row * joined -> embedding_row * joined -> bool.

(** [search(query, options)] *)
Definition search (d : db) (query : jsstring) (o : options) : comp (list result) :=
  let mode := orDefault (str "hybrid") (mode o) in
  let minScore := orDefault 0%Q (minScore o) in
  results <-
    (if str_eqb mode (str "bm25") then
       r <- searchBM25 fts5 d query (legs o) ;; ret (map Plain r)
     else if str_eqb mode (str "vector") then
       r <- searchVector generateQueryEmbedding numberOf sqrt planAfter d query (legs o) ;;
       ret (map Plain r)
     else if str_eqb mode (str "hybrid") then
       r <- searchHybrid fts5 generateQueryEmbedding numberOf sqrt planAfter d query (legs o) ;;
       ret (map Fused r)
     else ([], Throw (str "Invalid search mode: " ++ mode))) ;;
  ret (if Qltb 0 minScore
       then filter (fun r => Qle_bool minScore (scoreOf r)) results
       else results).

End Collaborators.

(** An element of the array [getUniqueFiles] returns. *)
Record fileHit := mkFileHit {
  hit_path : jsstring;
  hit_collection : jsstring;
  hit_score : Q
}.

(** [getUniqueFiles(results)]; [fileSet] is the Set of the paths seen. *)
Definition getUniqueFiles (results : list result) : list fileHit :=
  snd (fold_left
         (fun '(fileSet, files) result =>
            if existsb (str_eqb (filePathOf result)) fileSet then (fileSet, files)
            else (fileSet ++ [filePathOf result],
                  files ++ [mkFileHit (filePathOf result) (collectionOf result)
                              (scoreOf result)]))
         results ([], [])).

End Dispatch.

(** ** src/indexer.js: [getUnembbeddedChunks] and [storeEmbeddings] *)

Module IndexerEmbeddings.
Import Search.

(** [LIMIT ?]: a negative limit is no limit. *)
Definition sqlLimit {A : Type} (lim : Z) (rows : list A) : list A :=
  if (lim <? 0)%Z then rows else firstn (Z.to_nat lim) rows.

(** [getUnembbeddedChunks(limit = 1000)]: of [chunks c LEFT JOIN embeddings e
    ON e.chunk_id = c.id], the rows [WHERE e.chunk_id IS NULL], which are the
    chunks that no embedding matches. *)
Definition getUnembbeddedChunks (limit : option Z) (d : db) : list (Z * jsstring) :=
  sqlLimit (orDefault 1000%Z limit)
    (flat_map
       (fun c =>
          match filter (fun e => (em_chunk_id e =? ch_id c)%Z) (db_embeddings d) with
          | [] => [(ch_id c, ch_chunk_text c)]
          | _ :: _ => []
          end)
       (db_chunks d)).

(** An element of the array [storeEmbeddings] takes. *)
Record chunkEmbedding := mkChunkEmbedding {
  ce_chunkId : Z;
  ce_embedding : Utils.buffer;
  ce_model : jsstring
}.

(** The place of a row in the table [embeddings]: [chunk_id] is its rowid. *)
Fixpoint insertRow (e : embedding_row) (rows : list embedding_row) : list embedding_row :=
  match rows with
  | [] => [e]
  | r :: rest =>
      if (em_chunk_id e <? em_chunk_id r)%Z then e :: rows else r :: insertRow e rest
  end.

(** One [stmt.run(chunkId, embedding, model)] of [INSERT OR REPLACE INTO
    embeddings (chunk_id, embedding, embedding_model)]: a row with the same
    [chunk_id] is replaced.  [None] is the FOREIGN KEY error for a chunk that
    does not exist. *)
Definition replaceEmbedding (now : Z) (x : chunkEmbedding) (d : db) : option db :=
  if memZ (ce_chunkId x) (map ch_id (db_chunks d)) then
    Some (mkDb (db_collections d) (db_file_metadata d) (db_chunks d)
            (insertRow (mkEmbedding (ce_chunkId x) (ce_embedding x) (ce_model x) now)
               (filter (fun e => negb (em_chunk_id e =? ce_chunkId x)%Z) (db_embeddings d)))
            (seq_file_metadata d) (seq_chunks d))
  else None.

(** The loop of the transaction. *)
Fixpoint runAll (now : Z) (embeddings : list chunkEmbedding) (d : db) : option db :=
  match embeddings with
  | [] => Some d
  | x :: rest =>
      match replaceEmbedding now x d with
      | Some d' => runAll now rest d'
      | None => None
      end
  end.

(** [storeEmbeddings(chunkEmbeddings)]: the transaction commits, or it rolls
    back and the error is thrown again. *)
Definition storeEmbeddings (now : Z) (chunkEmbeddings : list chunkEmbedding) (d : db)
  : outcome unit * db :=
  match runAll now chunkEmbeddings d with
  | Some d' => (Ok tt, d')
  | None => (Throw (str "FOREIGN KEY constraint failed"), d)
  end.

End IndexerEmbeddings.

(** ** src/embeddings.js: [generateEmbeddings] *)

Module Provider.
Import Search.

Definition BATCH_SIZE : nat := 100.

(** [texts.slice(from, upto)] *)
Definition slice {A : Type} (from upto : nat) (l : list A) : list A :=
  firstn (upto - from) (skipn from l).

(** [for (let i = 0; i < texts.length; i += BATCH_SIZE)
       batches.push(texts.slice(i, i + BATCH_SIZE))], at most [fuel] rounds. *)
Fixpoint batchLoop (fuel i : nat) (texts : list jsstring) : list (list jsstring) :=
  match fuel with
  | O => []
  | S fuel' =>
      if i <? length texts
      then slice i (i + BATCH_SIZE) texts :: batchLoop fuel' (i + BATCH_SIZE) texts
      else []
  end.

(** Every round moves [i] forward, so [texts.length] rounds are enough. *)
Definition batchesOf (texts : list jsstring) : list (list jsstring) :=
  batchLoop (length texts) 0 texts.

Section Api.

(** [getApiKey()]: the key, or the error that none was found. *)
Variable getApiKey : outcome jsstring.

(** One POST to the embeddings endpoint with its checks: a network error, a
    status that is not ok, or the vectors of [data.data] as Float32Arrays. *)
Variable embeddingsApi : jsstring -> list jsstring -> outcome (list (list Utils.f32)).

(** [for (const batch of batches)]: the batches sent, in order, and the
    outcome.  The first error ends the loop. *)
Fixpoint requestAll (apiKey : jsstring) (batches : list (list jsstring))
  (allEmbeddings : list (list Utils.f32))
  : list (list jsstring) * outcome (list (list Utils.f32)) :=
  match batches with
  | [] => ([], Ok allEmbeddings)
  | batch :: rest =>
      match embeddingsApi apiKey batch with
      | Throw message => ([batch], Throw message)
      | Ok embeddings =>
          let '(sent, r) := requestAll apiKey rest (allEmbeddings ++ embeddings) in
          (batch :: sent, r)
      end
  end.

(** [generateEmbeddings(texts)] *)
Definition generateEmbeddings (texts : list jsstring)
  : list (list jsstring) * outcome (list (list Utils.f32)) :=
  if length texts =? 0 then ([], Ok [])
  else
    match getApiKey with
    | Throw message => ([], Throw message)
    | Ok apiKey => requestAll apiKey (batchesOf texts) []
    end.

(** [generateQueryEmbedding(query)]: [embeddings[0]], which is undefined
    ([None]) when the provider returned no vector. *)
Definition generateQueryEmbedding (query : jsstring)
  : list (list jsstring) * outcome (option (list Utils.f32)) :=
  let '(sent, r) := generateEmbeddings [query] in
  (sent,
   match r with
   | Ok embeddings => Ok (nth_error embeddings 0)
   | Throw message => Throw message
   end).

End Api.

End Provider.

(** ** src/ddsearch.js: the [embed] command *)

Module Cli.
Import Search IndexerEmbeddings.

Definition MODEL : jsstring := str "text-embedding-3-small".

Section Embed.

(** [generateEmbeddings] as the command sees it, and the memory
    [Buffer.allocUnsafe] hands out. *)
Variable generateEmbeddings : list jsstring -> outcome (list (list Utils.f32)).
Variable allocUnsafe : nat -> Utils.buffer.

(** [chunks.map((chunk, i) => ({ chunkId: chunk.id, embedding:
    float32ArrayToBuffer(embeddings[i]), model }))].  Past the end of
    [embeddings] the element is undefined and reading its length throws. *)
Fixpoint chunkEmbeddingsFrom (i : nat) (chunks : list (Z * jsstring))
  (embeddings : list (list Utils.f32)) : outcome (list chunkEmbedding) :=
  match chunks with
  | [] => Ok []
  | chunk :: rest =>
      match nth_error embeddings i with
      | None => Throw (str "Cannot read properties of undefined (reading 'length')")
      | Some arr =>
          match Utils.float32ArrayToBuffer arr (allocUnsafe (length arr * 4)) with
          | None => Throw (str "The value of offset is out of range")
          | Some buffer =>
              match chunkEmbeddingsFrom (S i) rest embeddings with
              | Ok l => Ok (mkChunkEmbedding (fst chunk) buffer MODEL :: l)
              | Throw message => Throw message
              end
          end
      end
  end.

(** [while (true) { ... }], at most [fuel] rounds ([None] when they are used
    up).  The value is [totalEmbedded], or the error the command reports. *)
Fixpoint embedLoop (fuel : nat) (now batchSize : Z) (totalEmbedded : nat) (d : db)
  : option (outcome nat * db) :=
  match fuel with
  | O => None
  | S fuel' =>
      let chunks := getUnembbeddedChunks (Some batchSize) d in
      if length chunks =? 0 then Some (Ok totalEmbedded, d)
      else
        match generateEmbeddings (map snd chunks) with
        | Throw message => Some (Throw message, d)
        | Ok embeddings =>
            match chunkEmbeddingsFrom 0 chunks embeddings with
            | Throw message => Some (Throw message, d)
            | Ok chunkEmbeddings =>
                match storeEmbeddings now chunkEmbeddings d with
                | (Throw message, d') => Some (Throw message, d')
                | (Ok _, d') =>
                    embedLoop fuel' now batchSize (totalEmbedded + length chunks) d'
                end
            end
        end
  end.

(** [parseInt(options.batchSize, 10) || 100], from what [parseInt] returned:
    an integer, or NaN ([None]). *)
Definition batchSizeOf (parsed : option Z) : Z :=
  match parsed with
  | Some n => if (n =? 0)%Z then 100%Z else n
  | None => 100%Z
  end.

(** The chunks without an embedding, all of them. *)
Definition unembedded (d : db) : list (Z * jsstring) :=
  getUnembbeddedChunks (Some (-1)%Z) d.

(** The [embed] action.  Every round that does not end the loop embeds a
    chunk that had no embedding, so one round for each of them and a last
    one are enough. *)
Definition embed (now : Z) (parsed : option Z) (d : db) : option (outcome nat * db) :=
  embedLoop (S (length (unembedded d))) now (batchSizeOf parsed) 0 d.

End Embed.

End Cli.

(** ** src/collections.js *)

Module Collections.
Import Search Indexer.

(** The store together with the sqlite_sequence entry of [collections]. *)
Record catalog := mkCatalog {
  tables : db;
  seq_collections : Z
}.

(** The object [addCollection] returns. *)
Record added := mkAdded {
  a_name : jsstring;
  a_basePath : jsstring;
  a_globMask : jsstring
}.

(** [INSERT INTO collections (name, base_path, glob_mask)]; [None] is the
    error 'UNIQUE constraint failed: collections.name'. *)
Definition insertCollection (now : Z) (name basePath globMask : jsstring) (s : catalog)
  : option catalog :=
  let d := tables s in
  if existsb (fun c => str_eqb (col_name c) name) (db_collections d) then None
  else
    let id := nextRowid (seq_collections s) (map col_id (db_collections d)) in
    Some (mkCatalog
            (mkDb (db_collections d ++ [mkCollection id name basePath globMask now])
                  (db_file_metadata d) (db_chunks d) (db_embeddings d)
                  (seq_file_metadata d) (seq_chunks d))
            id).

(** [DELETE FROM collections WHERE id = ?]: the delete cascades to the
    documents of the collection, each with its own cascades. *)
Definition deleteCollection (id : Z) (d : db) : db :=
  let d' :=
    fold_left (fun acc f => deleteFileMetadata (fm_id f) acc)
              (filter (fun f => (fm_collection_id f =? id)%Z) (db_file_metadata d)) d in
  mkDb (filter (fun c => negb (col_id c =? id)%Z) (db_collections d'))
       (db_file_metadata d') (db_chunks d') (db_embeddings d')
       (seq_file_metadata d') (seq_chunks d').

(** [removeCollection(name)] *)
Definition removeCollection (name : jsstring) (d : db) : outcome jsstring * db :=
  match getCollection name d with
  | None =>
      (Throw (str "Collection " ++ [QUOTE] ++ name ++ [QUOTE] ++ str " not found"), d)
  | Some collection => (Ok name, deleteCollection (col_id collection) d)
  end.

(** A row of [listCollections]. *)
Record listed := mkListed {
  l_collection : collection_row;
  file_count : nat;
  chunk_count : nat;
  embedded_count : nat
}.

(** [a LEFT JOIN table ON on]: the rows that match, or one NULL row; a NULL
    on the left matches nothing. *)
Definition leftJoin {A B : Type} (on : A -> B -> bool) (a : option A) (table : list B)
  : list (option B) :=
  match a with
  | None => [None]
  | Some x =>
      match filter (on x) table with
      | [] => [None]
      | m => map Some m
      end
  end.

(** The rows of [collections c LEFT JOIN file_metadata fm ... LEFT JOIN
    chunks ch ... LEFT JOIN embeddings e ...] for one collection. *)
Definition joinedRows (c : collection_row) (d : db)
  : list (option file_metadata_row * option chunk_row * option embedding_row) :=
  flat_map
    (fun fm =>
       flat_map
         (fun ch =>
            map (fun e => (fm, ch, e))
                (leftJoin (fun ch e => (em_chunk_id e =? ch_id ch)%Z) ch (db_embeddings d)))
         (leftJoin (fun fm ch => (ch_file_metadata_id ch =? fm_id fm)%Z) fm (db_chunks d)))
    (leftJoin (fun c fm => (fm_collection_id fm =? col_id c)%Z) (Some c)
              (db_file_metadata d)).

(** [COUNT(x)]: the rows where [x] is not NULL. *)
Definition count {A B : Type} (x : A -> option B) (rows : list A) : nat :=
  length (filter (fun r => match x r with Some _ => true | None => false end) rows).

(** [COUNT(DISTINCT x)] for an integer [x]. *)
Definition countDistinct {A : Type} (x : A -> option Z) (rows : list A) : nat :=
  length (nodup Z.eq_dec
            (flat_map (fun r => match x r with Some v => [v] | None => [] end) rows)).

(** [listCollections()]: [c.id] is the primary key, so every group of
    [GROUP BY c.id] is one collection. *)
Definition listCollections (d : db) : list listed :=
  map (fun c =>
         let rows := joinedRows c d in
         mkListed c
           (countDistinct (fun r => option_map fm_id (fst (fst r))) rows)
           (count (fun r => option_map ch_id (snd (fst r))) rows)
           (count (fun r => option_map em_chunk_id (snd r)) rows))
      (sortBy (fun a b => str_gtb (col_name a) (col_name b)) (db_collections d)).

Section Fs.

(** [path.resolve], [fs.existsSync], [fs.statSync(p).isDirectory()],
    [fs.realpathSync] and [path.sep]. *)
Variable resolve : jsstring -> jsstring.
Variable existsSync : jsstring -> bool.
Variable isDirectory : jsstring -> outcome bool.
Variable realpathSync : jsstring -> outcome jsstring.
Variable sep : jsstring.

(** [addCollection(name, basePath, globMask = '**/*.md')] *)
Definition addCollection (now : Z) (name basePath : jsstring) (globMask : option jsstring)
  (s : catalog) : outcome added * catalog :=
  let globMask := orDefault (str "**/*.md") globMask in
  let absolutePath := resolve basePath in
  if negb (existsSync absolutePath) then
    (Throw (str "Base path does not exist: " ++ absolutePath), s)
  else
    match isDirectory absolutePath with
    | Throw message => (Throw message, s)
    | Ok false => (Throw (str "Base path is not a directory: " ++ absolutePath), s)
    | Ok true =>
        match insertCollection now name absolutePath globMask s with
        | Some s' => (Ok (mkAdded name absolutePath globMask), s')
        | None =>
            (Throw (str "Collection " ++ [QUOTE] ++ name ++ [QUOTE] ++ str " already exists"),
             s)
        end
    end.

(** The loop of [resolveFileInCollections] over the collections. *)
Fixpoint firstContaining (resolvedFile : jsstring) (collections : list collection_row)
  : outcome (option (collection_row * jsstring)) :=
  match collections with
  | [] => Ok None
  | collection :: rest =>
      match realpathSync (col_base_path collection) with
      | Throw message => Throw message
      | Ok basePath =>
          if str_eqb resolvedFile basePath || startsWith (basePath ++ sep) resolvedFile
          then Ok (Some (collection, resolvedFile))
          else firstContaining resolvedFile rest
      end
  end.

(** [resolveFileInCollections(filePath)] *)
Definition resolveFileInCollections (filePath : jsstring) (d : db)
  : outcome (option (collection_row * jsstring)) :=
  let collections := getCollections None d in
  if length collections =? 0 then Ok None
  else if negb (existsSync filePath) then Ok None
  else
    match realpathSync filePath with
    | Throw message => Throw message
    | Ok resolvedFile => firstContaining resolvedFile collections
    end.

End Fs.

End Collections.

(* ------------------------------------------------------------------ *)
(** * The vocabulary of the further properties *)

Module UtilsSpec.
Import Utils.

(** The bytes of a sample that [isProbablyBinary] counts. *)
Definition nonPrintableIn (sample : list N) : nat :=
  length (filter (fun byte => negb (isPrintable byte)) sample).

(** The four bytes of a 32-bit pattern, lowest first. *)
Definition littleEndian (b : N) : list N :=
  [b mod 256; (b / 256) mod 256; (b / 65536) mod 256; (b / 16777216) mod 256]%N.

End UtilsSpec.

Module ChunkSpec.

(** What every chunk of the chunker is: its text is trimmed and not empty,
    its token count is the estimate of its text, and its line range starts at
    line 1 or later and is not empty. *)
Definition wellFormed (c : chunk) : Prop :=
  text c <> [] /\ trim (text c) = text c /\
  tokenCount c = Utils.estimateTokens (text c) /\ 1 <= tokenCount c /\
  1 <= startLine c <= endLine c.

Definition sound (s : state) : Prop :=
  Forall wellFormed (chunks s) /\ 1 <= chunkStartLine s.

(** Nothing was flushed and only blank lines are pending. *)
Definition blankSoFar (s : state) : Prop :=
  chunks s = [] /\ forallb ChunkerSpec.allWs (currentChunk s) = true.

(** Nothing was flushed and the first [i] lines are pending. *)
Definition pendingAll (lines : list jsstring) (i : nat) (s : state) : Prop :=
  chunks s = [] /\ currentChunk s = firstn i lines /\
  currentTokens s = ChunkerSpec.tokensOf (firstn i lines) /\ chunkStartLine s = 1.

End ChunkSpec.

Module DispatchSpec.
Import Search Dispatch.

(** The entry [getUniqueFiles] makes of a result. *)
Definition hitOf (r : result) : fileHit :=
  mkFileHit (filePathOf r) (collectionOf r) (scoreOf r).

(** The results whose path no earlier result had, given the paths [seen]. *)
Fixpoint firstHits (seen : list jsstring) (results : list result) : list result :=
  match results with
  | [] => []
  | r :: rest =>
      if existsb (str_eqb (filePathOf r)) seen then firstHits seen rest
      else r :: firstHits (seen ++ [filePathOf r]) rest
  end.

(** The fields a fused result copies from the result of a leg. *)
Definition copyOf (l : SearchResult) (r : HybridResult) : Prop :=
  h_chunkId r = chunkId l /\ h_text r = text l /\ h_filePath r = filePath l /\
  h_startLine r = startLine l /\ h_endLine r = endLine l /\
  h_collection r = collection l.

End DispatchSpec.

Module EmbeddingSpec.
Import IndexerEmbeddings.

(** The row [INSERT OR REPLACE] writes for an element. *)
Definition rowOf (now : Z) (x : chunkEmbedding) : embedding_row :=
  mkEmbedding (ce_chunkId x) (ce_embedding x) (ce_model x) now.

Definition embeddedIds (d : db) : list Z := map em_chunk_id (db_embeddings d).

(** The chunk of a row of [getUnembbeddedChunks] has no embedding. *)
Definition notIn (ids : list Z) (row : Z * jsstring) : bool := negb (memZ (fst row) ids).

(** The chunks without an embedding, in the order of the table. *)
Definition withoutEmbedding (d : db) : list (Z * jsstring) :=
  filter (notIn (embeddedIds d)) (map (fun c => (ch_id c, ch_chunk_text c)) (db_chunks d)).

(** Only the table [embeddings] differs. *)
Definition sameDocuments (d d' : db) : Prop :=
  db_collections d' = db_collections d /\
  db_file_metadata d' = db_file_metadata d /\
  db_chunks d' = db_chunks d /\
  seq_file_metadata d' = seq_file_metadata d /\
  seq_chunks d' = seq_chunks d.

(** The constraints of the table [embeddings]: its PRIMARY KEY and its
    FOREIGN KEY. *)
Definition embeddingKeys (d : db) : Prop :=
  NoDup (embeddedIds d) /\
  forall e, In e (db_embeddings d) -> In (em_chunk_id e) (map ch_id (db_chunks d)).

(** The row the [embed] command stores for a chunk whose text the provider
    answers with [embedOne]. *)
Definition encoded (embedOne : jsstring -> list Utils.f32) (now : Z) (row : Z * jsstring)
  : embedding_row :=
  mkEmbedding (fst row) (flat_map CodecSpec.bytesOf (embedOne (snd row))) Cli.MODEL now.

End EmbeddingSpec.

Module CollectionSpec.
Import Collections.

(** The key constraints of the table [collections]: its PRIMARY KEY, the
    UNIQUE names, and sqlite_sequence never below a rowid in use. *)
Definition catalogKeys (s : catalog) : Prop :=
  NoDup (map col_id (db_collections (tables s))) /\
  NoDup (map col_name (db_collections (tables s))) /\
  Forall (fun c => (col_id c <= seq_collections s)%Z) (db_collections (tables s)).

(** The ids of the documents of a collection, and of their chunks. *)
Definition documentIds (cid : Z) (d : db) : list Z :=
  map fm_id (StoreSpec.rowsOf cid d).

Definition chunkIdsOf (files : list Z) (d : db) : list Z :=
  map ch_id (filter (fun c => memZ (ch_file_metadata_id c) files) (db_chunks d)).

(** [p] is the directory [base] or lies below it. *)
Definition inside (sep base p : jsstring) : Prop :=
  p = base \/ exists rest, p = base ++ sep ++ rest.

End CollectionSpec.

Module IndexSpec.
Import StoreSpec.

(** The columns of a stored chunk beside its keys, and the same of a chunk
    that [chunkFile] produced. *)
Definition storedChunk (c : chunk_row) : Z * jsstring * Z * Z * Z :=
  (ch_chunk_index c, ch_chunk_text c, ch_start_line c, ch_end_line c, ch_token_count c).

Definition producedChunk (c : fileChunk) : Z * jsstring * Z * Z * Z :=
  (Z.of_nat (chunkIndex c), text (fc_chunk c), Z.of_nat (startLine (fc_chunk c)),
   Z.of_nat (endLine (fc_chunk c)), Z.of_nat (tokenCount (fc_chunk c))).

(** The FOREIGN KEYs of [chunks] and of [embeddings]. *)
Definition references (d : db) : Prop :=
  (forall c, In c (db_chunks d) ->
             In (ch_file_metadata_id c) (map fm_id (db_file_metadata d))) /\
  (forall e, In e (db_embeddings d) -> In (em_chunk_id e) (map ch_id (db_chunks d))).

(** The chunks of the document [X] and the embeddings of the chunks [owned]. *)
Definition chunkRows (X : Z) (d : db) : list chunk_row :=
  filter (fun c => (ch_file_metadata_id c =? X)%Z) (db_chunks d).

Definition embeddingRowsOf (owned : list Z) (d : db) : list embedding_row :=
  filter (fun e => memZ (em_chunk_id e) owned) (db_embeddings d).

(** What is known during a run of a document the run does not index: it is
    gone, or it still has the chunks [C] with the embeddings [Y]. *)
Definition untouched (t : file_metadata_row) (owned : list Z) (C : list chunk_row)
  (Y : list embedding_row) (d : db) : Prop :=
  tracked t owned d /\
  (gone (fm_id t) owned d \/
   (chunkRows (fm_id t) d = C /\ embeddingRowsOf owned d = Y)).

End IndexSpec.

Module ListingSpec.
Import StoreSpec IndexSpec Collections.

(** The chunks of the documents of a collection, and whether a chunk has an
    embedding. *)
Definition chunksIn (cid : Z) (d : db) : list chunk_row :=
  flat_map (fun fm => chunkRows (fm_id fm) d) (rowsOf cid d).

Definition hasEmbedding (d : db) (ch : chunk_row) : bool :=
  memZ (ch_id ch) (map em_chunk_id (db_embeddings d)).

(** The columns [fm.id], [ch.id] and [e.chunk_id] of a joined row. *)
Definition fmCol (r : option file_metadata_row * option chunk_row * option embedding_row)
  : option Z := option_map fm_id (fst (fst r)).
Definition chCol (r : option file_metadata_row * option chunk_row * option embedding_row)
  : option Z := option_map ch_id (snd (fst r)).
Definition eCol (r : option file_metadata_row * option chunk_row * option embedding_row)
  : option Z := option_map em_chunk_id (snd r).

(** The two inner joins of [joinedRows]. *)
Definition embeddingsJoined (d : db) (fm : option file_metadata_row) (ch : option chunk_row)
  : list (option file_metadata_row * option chunk_row * option embedding_row) :=
  map (fun e => (fm, ch, e))
      (leftJoin (fun ch e => (em_chunk_id e =? ch_id ch)%Z) ch (db_embeddings d)).

Definition chunksJoined (d : db) (fm : option file_metadata_row)
  : list (option file_metadata_row * option chunk_row * option embedding_row) :=
  flat_map (embeddingsJoined d fm)
           (leftJoin (fun fm ch => (ch_file_metadata_id ch =? fm_id fm)%Z) fm (db_chunks d)).

(** The values [COUNT(DISTINCT fm.id)] looks at. *)
Definition idsOf (rows : list (option file_metadata_row * option chunk_row * option embedding_row))
  : list Z :=
  flat_map (fun r => match fmCol r with Some v => [v] | None => [] end) rows.

End ListingSpec.

(** ** Sample inputs of the further properties *)

Module Cases.
Import Search SearchSpec Indexer Samples Dispatch IndexerEmbeddings Collections.

(** A search in the default mode for two results of the collection [notes]. *)
Definition inNotes : Dispatch.options :=
  Dispatch.mkOptions None None (Search.mkOptions (Some 2%Z) (Some (str "notes")) None None).

Definition searchRun : comp (list result) :=
  Eval vm_compute in search ranking provider reading root tableOrder sampleStore query inNotes.
Definition searchEvents : list event := Eval vm_compute in fst searchRun.
Definition searchResults : list result :=
  Eval vm_compute in match snd searchRun with Ok l => l | Throw _ => [] end.

(** A search in the mode bm25 whose lexical weight is 2. *)
Definition heavyLexical : Dispatch.options :=
  Dispatch.mkOptions (Some (str "bm25")) None
    (Search.mkOptions (Some 2%Z) None (Some 2%Q) None).

Definition heavyRun : comp (list result) :=
  Eval vm_compute in
    search ranking provider reading root tableOrder sampleStore query heavyLexical.
Definition heavyEvents : list event := Eval vm_compute in fst heavyRun.
Definition heavyResults : list result :=
  Eval vm_compute in match snd heavyRun with Ok l => l | Throw _ => [] end.

Definition hybridRun : comp (list HybridResult) :=
  Eval vm_compute in
    searchHybrid ranking provider reading root tableOrder sampleStore query top2.
Definition hybridEvents : list event := Eval vm_compute in fst hybridRun.
Definition hybridResults : list HybridResult :=
  Eval vm_compute in match snd hybridRun with Ok l => l | Throw _ => [] end.

(** A second collection with one document, one chunk and its embedding,
    beside the collection [notes]. *)
Definition docs : collection_row :=
  mkCollection 2 (str "docs") (str "/docs") (str "*.md") 0.
Definition docB : file_metadata_row :=
  mkFileMetadata 3 2 (str "/docs/b.md") (str "delta") 0.

Definition twoCollections : db :=
  mkDb [notes; docs] [docA; docOld; docB]
       [mkChunkRow 1 1 0 (str "alpha") 1 1 2; mkChunkRow 4 2 0 (str "old") 1 1 1;
        mkChunkRow 6 3 0 (str "delta") 1 1 2]
       [mkEmbedding 1 (blob 1 0) (str "m") 0; mkEmbedding 6 (blob 0 1) (str "m") 0]
       3 6.

Definition onlyNotes : Indexer.options := Indexer.mkOptions (Some (str "notes")) false.

(** A disk on which every file starts with a zero byte. *)
Definition binaryRead (p : jsstring) : readResult := ReadOk [0; 1; 2]%N.

(** One embedding to store, for the chunk of [unembeddedStore]. *)
Definition oneEmbedding : list chunkEmbedding :=
  [mkChunkEmbedding 1 (blob 1 0) (str "m")].

Definition stored : db :=
  Eval vm_compute in snd (storeEmbeddings 7 oneEmbedding unembeddedStore).

(** A provider that answers every text with the vector (1, 0), and an
    allocator whose memory is full of ones. *)
Definition unitVector (text : jsstring) : list Utils.f32 :=
  [Utils.F32Bits 1; Utils.F32Bits 0].
Definition answering (texts : list jsstring) : outcome (list (list Utils.f32)) :=
  Ok (map unitVector texts).
Definition api (apiKey : jsstring) (batch : list jsstring) : outcome (list (list Utils.f32)) :=
  Ok (map unitVector batch).
Definition dirty (n : nat) : Utils.buffer := repeat 1%N n.
Definition key : outcome jsstring := Ok (str "sk").

(** No key is found. *)
Definition noKey : outcome jsstring := Throw (str "no key").

(** A provider that refuses every batch of fewer than 100 texts, and 150
    texts, which make a full batch and a short one. *)
Definition fullBatches (apiKey : jsstring) (batch : list jsstring)
  : outcome (list (list Utils.f32)) :=
  if length batch <? 100 then Throw (str "short") else Ok (map unitVector batch).
Definition manyTexts : list jsstring := repeat (str "a") 100 ++ repeat (str "b") 50.

(** A file system on which every path exists, is a directory and is its own
    real path. *)
Definition asGiven (p : jsstring) : jsstring := p.
Definition isDir (p : jsstring) : outcome bool := Ok true.
Definition realPath (p : jsstring) : outcome jsstring := Ok p.
Definition slash : jsstring := str "/".

Definition catalogue : catalog := mkCatalog sampleStore 1.
Definition withDocs : catalog :=
  Eval vm_compute in
    snd (addCollection asGiven diskExists isDir 5 (str "docs") (str "/docs") None catalogue).

End Cases.

(* ------------------------------------------------------------------ *)
(** * Facts and theorems *)

(** ** Lists *)

Module ListFacts.

Lemma in_firstn {A : Type} (n : nat) (l : list A) (x : A) :
  In x (firstn n l) -> In x l.
Proof.
  revert n. induction l as [|y l IH]; intros [|n]; simpl; try tauto.
  intros [H|H]; [now left | right; eauto].
Qed.

Lemma length_firstn_le {A : Type} (n : nat) (l : list A) : length (firstn n l) <= n.
Proof. rewrite length_firstn. lia. Qed.

Lemma NoDup_map_firstn {A B : Type} (f : A -> B) (n : nat) (l : list A) :
  NoDup (map f l) -> NoDup (map f (firstn n l)).
Proof.
  intros H. rewrite <- (firstn_skipn n l), map_app in H.
  now apply NoDup_app_remove_r in H.
Qed.

Lemma NoDup_map_filter {A B : Type} (f : A -> B) (p : A -> bool) (l : list A) :
  NoDup (map f l) -> NoDup (map f (filter p l)).
Proof.
  induction l as [|x l IH]; simpl; [auto|].
  intros H. inversion H as [|? ? Hx Hl]; subst.
  destruct (p x); simpl; [|auto].
  constructor; [|auto].
  intros Hin. apply Hx. apply in_map_iff in Hin.
  destruct Hin as [y [Hy Hin]]. apply filter_In in Hin.
  apply in_map_iff. exists y. tauto.
Qed.

Lemma length_setAt {A : Type} (i : nat) (x : A) (l : list A) :
  length (Utils.setAt i x l) = length l.
Proof.
  revert i. induction l as [|y l IH]; intros [|i]; simpl; auto.
Qed.

End ListFacts.

(** ** The byte codec of embeddings (src/utils.js) *)

Module CodecFacts.
Import Utils CodecSpec.

Lemma testbit_255 (n : N) : N.testbit 255 n = (n <? 8)%N.
Proof.
  change 255%N with (N.ones 8).
  destruct (N.ltb_spec n 8) as [H|H].
  - now apply N.ones_spec_low.
  - now apply N.ones_spec_high.
Qed.

Lemma pattern_of_bytes (b : N) :
  (b < 2 ^ 32)%N ->
  N.lor (N.land b 255)
    (N.lor (N.shiftl (N.land (N.shiftr b 8) 255) 8)
       (N.lor (N.shiftl (N.land (N.shiftr b 16) 255) 16)
              (N.shiftl (N.land (N.shiftr b 24) 255) 24))) = b.
Proof.
  intros Hb. apply N.bits_inj. intros n.
  rewrite !N.lor_spec.
  assert (Hhigh : (32 <= n)%N -> N.testbit b n = false).
  { intros Hn. destruct (N.eq_dec b 0) as [->|Hz]; [apply N.bits_0|].
    apply N.bits_above_log2. apply N.log2_lt_pow2; [lia|].
    eapply N.lt_le_trans; [exact Hb|]. apply N.pow_le_mono_r; lia. }
  destruct (N.ltb_spec n 8) as [H8|H8].
  { rewrite N.land_spec, testbit_255.
    rewrite !N.shiftl_spec_low by lia.
    destruct (N.ltb_spec n 8); [|lia]. now rewrite andb_true_r, !orb_false_r. }
  rewrite N.land_spec, testbit_255.
  destruct (N.ltb_spec n 8) as [?|_]; [lia|]. rewrite andb_false_r, orb_false_l.
  destruct (N.ltb_spec n 16) as [H16|H16].
  { rewrite N.shiftl_spec_high' by lia. rewrite !N.shiftl_spec_low by lia.
    rewrite N.land_spec, testbit_255, N.shiftr_spec'.
    destruct (N.ltb_spec (n - 8) 8); [|lia].
    rewrite andb_true_r, !orb_false_r. f_equal. lia. }
  rewrite (N.shiftl_spec_high' _ 8) by lia.
  rewrite N.land_spec, testbit_255.
  destruct (N.ltb_spec (n - 8) 8) as [?|_]; [lia|]. rewrite andb_false_r, orb_false_l.
  destruct (N.ltb_spec n 24) as [H24|H24].
  { rewrite N.shiftl_spec_high' by lia. rewrite !N.shiftl_spec_low by lia.
    rewrite N.land_spec, testbit_255, N.shiftr_spec'.
    destruct (N.ltb_spec (n - 16) 8); [|lia].
    rewrite andb_true_r, !orb_false_r. f_equal. lia. }
  rewrite (N.shiftl_spec_high' _ 16) by lia.
  rewrite N.land_spec, testbit_255.
  destruct (N.ltb_spec (n - 16) 8) as [?|_]; [lia|]. rewrite andb_false_r, orb_false_l.
  rewrite N.shiftl_spec_high' by lia.
  rewrite N.land_spec, testbit_255, N.shiftr_spec'.
  destruct (N.ltb_spec (n - 24) 8) as [H32|H32].
  - rewrite andb_true_r. f_equal. lia.
  - rewrite andb_false_r. symmetry. apply Hhigh. lia.
Qed.

Lemma f32_of_pattern_pattern (v : f32) :
  f32_valid v -> f32_of_pattern (f32_pattern v) = v.
Proof.
  destruct v as [|b]; simpl.
  - reflexivity.
  - intros [_ Hn]. unfold f32_of_pattern. now rewrite Hn.
Qed.

Lemma pattern_lt (v : f32) : f32_valid v -> (f32_pattern v < 2 ^ 32)%N.
Proof. destruct v; simpl; [reflexivity | tauto]. Qed.

Lemma setAt_app {A : Type} (pre l : list A) (k : nat) (x : A) :
  setAt (length pre + k) x (pre ++ l) = pre ++ setAt k x l.
Proof.
  induction pre as [|y pre IH]; simpl; [reflexivity|].
  now rewrite IH.
Qed.

Lemma length_bytes (l : list f32) : length (flat_map bytesOf l) = 4 * length l.
Proof. induction l as [|v l IH]; simpl; [reflexivity | rewrite IH; lia]. Qed.

Lemma write_spec (v : f32) (pre post : list N) (a b c d : N) :
  writeFloatLE v (length pre) (pre ++ a :: b :: c :: d :: post)
  = Some (pre ++ bytesOf v ++ post).
Proof.
  unfold writeFloatLE.
  replace (length pre + 4 <=? length (pre ++ a :: b :: c :: d :: post)) with true
    by (symmetry; apply Nat.leb_le; rewrite length_app; simpl; lia).
  rewrite !setAt_app. rewrite <- (Nat.add_0_r (length pre)) at 1.
  rewrite setAt_app. reflexivity.
Qed.

Lemma read_spec (v : f32) (pre post : list N) :
  f32_valid v ->
  readFloatLE (length pre) (pre ++ bytesOf v ++ post) = Some v.
Proof.
  intros Hv. unfold readFloatLE.
  replace (length pre + 4 <=? length (pre ++ bytesOf v ++ post)) with true
    by (symmetry; apply Nat.leb_le; rewrite !length_app; simpl; lia).
  rewrite !app_nth2_plus. unfold bytesOf. cbn [nth app].
  rewrite pattern_of_bytes by now apply pattern_lt.
  now rewrite f32_of_pattern_pattern.
Qed.

Lemma encode_loop (todo : list f32) :
  forall (done : list f32) (junk : buffer),
    length junk = 4 * length todo ->
    forUpTo (length todo)
      (fun i buf => writeFloatLE (nth i (done ++ todo) F32NaN) (i * 4) buf)
      (length done) (flat_map bytesOf done ++ junk)
    = Some (flat_map bytesOf (done ++ todo)).
Proof.
  induction todo as [|v todo IH]; intros done junk Hlen.
  - destruct junk; [|discriminate]. simpl. now rewrite !app_nil_r.
  - destruct junk as [|a [|b [|c [|d junk]]]]; simpl in Hlen; try lia.
    cbn [length forUpTo].
    rewrite app_nth2, Nat.sub_diag by lia. cbn [nth].
    replace (length done * 4) with (length (flat_map bytesOf done))
      by (rewrite length_bytes; lia).
    rewrite write_spec.
    specialize (IH (done ++ [v]) junk).
    rewrite <- app_assoc in IH. cbn [app] in IH.
    rewrite length_app, Nat.add_1_r in IH. cbn [length] in IH.
    rewrite flat_map_app in IH. cbn [flat_map] in IH.
    rewrite app_nil_r, <- app_assoc in IH.
    apply IH. simpl in Hlen. lia.
Qed.

Lemma decode_loop (all : list f32) (todo : list f32) :
  forall done : list f32,
    all = done ++ todo ->
    Forall f32_valid all ->
    forUpTo (length todo)
      (fun i arr =>
         match readFloatLE (i * 4) (flat_map bytesOf all) with
         | Some v => Some (setAt i v arr)
         | None => None
         end)
      (length done) (done ++ repeat (F32Bits 0) (length todo))
    = Some all.
Proof.
  induction todo as [|v todo IH]; intros done Hall Hvalid.
  - simpl. now rewrite Hall.
  - cbn [length forUpTo repeat].
    assert (Hv : f32_valid v).
    { rewrite Hall in Hvalid. apply Forall_app in Hvalid.
      destruct Hvalid as [_ Hvalid]. now inversion Hvalid. }
    replace (readFloatLE (length done * 4) (flat_map bytesOf all)) with (Some v).
    2:{ rewrite Hall, flat_map_app. cbn [flat_map].
        replace (length done * 4) with (length (flat_map bytesOf done))
          by (rewrite length_bytes; lia).
        symmetry. now apply read_spec. }
    rewrite <- (Nat.add_0_r (length done)) at 2. rewrite setAt_app. cbn [setAt].
    specialize (IH (done ++ [v])).
    rewrite <- !app_assoc, length_app, Nat.add_1_r in IH. cbn [app length] in IH.
    now apply IH.
Qed.

Lemma decode_total (buf : buffer) (n : nat) :
  forall (i : nat) (arr : list f32),
    (i + n) * 4 <= length buf ->
    exists out,
      forUpTo n
        (fun i arr =>
           match readFloatLE (i * 4) buf with
           | Some v => Some (setAt i v arr)
           | None => None
           end) i arr = Some out.
Proof.
  induction n as [|n IH]; intros i arr Hin; cbn [forUpTo].
  - now exists arr.
  - unfold readFloatLE at 1.
    replace (i * 4 + 4 <=? length buf) with true
      by (symmetry; apply Nat.leb_le; lia).
    apply IH. lia.
Qed.

Lemma decode_keeps_length (buf : buffer) (n : nat) :
  forall (i : nat) (arr out : list f32),
    forUpTo n
      (fun i arr =>
         match readFloatLE (i * 4) buf with
         | Some v => Some (setAt i v arr)
         | None => None
         end) i arr = Some out ->
    length out = length arr.
Proof.
  induction n as [|n IH]; intros i arr out; cbn [forUpTo].
  - now intros [= <-].
  - destruct (readFloatLE (i * 4) buf) as [v|]; [|discriminate].
    intros H. apply IH in H. now rewrite ListFacts.length_setAt in H.
Qed.

(** The decoded array has [buffer.length / 4] elements, rounded down. *)
Lemma bufferToFloat32Array_length (buf : buffer) (arr : list f32) :
  bufferToFloat32Array buf = Some arr -> length arr = length buf / 4.
Proof.
  unfold bufferToFloat32Array. intros H.
  apply decode_keeps_length in H. now rewrite repeat_length in H.
Qed.

(** Decoding reads inside the buffer only, whatever its length. *)
Lemma bufferToFloat32Array_total (buf : buffer) :
  exists arr, bufferToFloat32Array buf = Some arr.
Proof.
  unfold bufferToFloat32Array. apply decode_total.
  pose proof (Nat.Div0.mul_div_le (length buf) 4). lia.
Qed.

End CodecFacts.

Import Utils CodecSpec CodecFacts.

(** C10. The byte codec of embeddings round-trips: whatever the unallocated
    memory [junk] held, encoding a Float32Array [v] fills a buffer of
    [4 * v.length] bytes, and decoding that buffer gives an array of the same
    length whose elements are those of [v]. *)
Theorem float32_buffer_roundtrip (v : list f32) (junk : buffer) :
  Forall f32_valid v ->
  length junk = length v * 4 ->
  exists buf,
    float32ArrayToBuffer v junk = Some buf /\
    length buf = length v * 4 /\
    bufferToFloat32Array buf = Some v.
Proof.
  intros Hvalid Hjunk.
  exists (flat_map bytesOf v).
  assert (Henc : float32ArrayToBuffer v junk = Some (flat_map bytesOf v)).
  { unfold float32ArrayToBuffer.
    apply (encode_loop v [] junk). lia. }
  split; [exact Henc|]. split; [rewrite length_bytes; lia|].
  unfold bufferToFloat32Array.
  rewrite length_bytes, Nat.mul_comm, Nat.div_mul by lia.
  now apply (decode_loop v v []).
Qed.

Lemma float32_buffer_roundtrip_witness :
  exists buf,
    float32ArrayToBuffer [F32Bits 1065353216; F32NaN; F32Bits 3212836864]
      [7; 7; 7; 7; 7; 7; 7; 7; 7; 7; 7; 7]%N = Some buf /\
    length buf = 3 * 4 /\
    bufferToFloat32Array buf = Some [F32Bits 1065353216; F32NaN; F32Bits 3212836864].
Proof.
  apply (float32_buffer_roundtrip
           [F32Bits 1065353216; F32NaN; F32Bits 3212836864]
           [7; 7; 7; 7; 7; 7; 7; 7; 7; 7; 7; 7]%N).
  - repeat constructor.
  - reflexivity.
Defined.

(** ** Lexical search (src/search.js) *)

Module StringFacts.
Import SearchSpec.











End StringFacts.

Module ScoreFacts.
Import Search.

Lemma maxWith1_ge_1 (scores : list Q) : (1 <= maxWith1 scores)%Q.
Proof.
  induction scores as [|x l IH]; simpl.
  - apply Qle_refl.
  - eapply Qle_trans; [exact IH|]. apply Q.le_max_r.
Qed.

Lemma maxWith1_upper (scores : list Q) (x : Q) :
  In x scores -> (x <= maxWith1 scores)%Q.
Proof.
  induction scores as [|y l IH]; simpl; [tauto|].
  intros [->|H].
  - apply Q.le_max_l.
  - eapply Qle_trans; [apply IH, H|]. apply Q.le_max_r.
Qed.

Lemma normalized_in_unit (x m : Q) :
  (0 <= x)%Q -> (x <= m)%Q -> (1 <= m)%Q -> (0 <= x / m <= 1)%Q.
Proof.
  intros Hx Hxm Hm.
  assert (Hpos : (0 < m)%Q) by (eapply Qlt_le_trans; [|exact Hm]; reflexivity).
  split.
  - apply Qle_shift_div_l; [exact Hpos|]. now rewrite Qmult_0_l.
  - apply Qle_shift_div_r; [exact Hpos|]. now rewrite Qmult_1_l.
Qed.

End ScoreFacts.

Section LexicalSearch.
Import Search SearchSpec StringFacts ScoreFacts.

Variable fts5 : list chunk_row -> jsstring -> outcome (Z -> option Q).



Lemma bm25_scores (rows : list (joined * Q)) :
  let results :=
    map (fun r => resultOf (fst r)
                    (Qabs (snd r) / maxWith1 (map (fun r => Qabs (snd r)) rows)) (snd r))
        rows in
  let m := maxWith1 (map (fun r => Qabs (rawScore r)) results) in
  (1 <= m)%Q /\
  forall r, In r results ->
    score r = (Qabs (rawScore r) / m)%Q /\ (0 <= score r <= 1)%Q.
Proof.
  intros results m.
  assert (Hm : m = maxWith1 (map (fun r => Qabs (snd r)) rows)).
  { unfold m, results. now rewrite map_map. }
  split; [apply maxWith1_ge_1|].
  intros r Hr. unfold results in Hr. apply in_map_iff in Hr.
  destruct Hr as [row [<- Hrow]]. cbn [score rawScore resultOf].
  rewrite Hm. split; [reflexivity|].
  apply normalized_in_unit.
  - apply Qabs_nonneg.
  - apply maxWith1_upper. apply in_map_iff. now exists row.
  - apply maxWith1_ge_1.
Qed.

End LexicalSearch.

Section VectorGuard.
Import Search.

Variable generateQueryEmbedding : jsstring -> outcome (list Utils.f32).
Variable numberOf : Utils.f32 -> Q.
Variable sqrt : Q -> Q.
Variable planAfter : embedding_row * joined -> embedding_row * joined -> bool.

(** C9. When the store holds no embedding for the collection filter, vector
    search answers with an empty list after the one counting query: the
    embedding provider is not called and nothing is thrown. *)
Theorem vector_search_without_embeddings (d : db) (q : jsstring) (o : options) :
  countEmbeddings d (collectionName o) = 0 ->
  searchVector generateQueryEmbedding numberOf sqrt planAfter d q o
  = ([StoreQuery COUNT_SQL], Ok []) /\
  forall q', ~ In (EmbedCall q')
               (fst (searchVector generateQueryEmbedding numberOf sqrt planAfter d q o)).
Proof.
  intros Hcount.
  assert (H : searchVector generateQueryEmbedding numberOf sqrt planAfter d q o
              = ([StoreQuery COUNT_SQL], Ok [])).
  { unfold searchVector. cbn. rewrite Hcount. reflexivity. }
  split; [exact H|].
  intros q' Hin. rewrite H in Hin. cbn in Hin.
  destruct Hin as [Hin|[]]. discriminate.
Qed.

End VectorGuard.

(** ** Fusion (src/search.js) *)

Module SortFacts.
Import Search SearchSpec ListFacts.

Lemma Qltb_lt (x y : Q) : Qltb x y = true <-> (x < y)%Q.
Proof.
  unfold Qltb. rewrite negb_true_iff. split.
  - intros H. apply Qnot_le_lt. intros Hle.
    apply Qle_bool_iff in Hle. congruence.
  - intros H. destruct (Qle_bool y x) eqn:E; [|reflexivity].
    apply Qle_bool_iff in E. exfalso. now apply (Qlt_not_le x y).
Qed.

Lemma Qltb_ge (x y : Q) : Qltb x y = false <-> (y <= x)%Q.
Proof.
  unfold Qltb. rewrite negb_false_iff. apply Qle_bool_iff.
Qed.

Lemma insertBy_perm {A : Type} (after : A -> A -> bool) (x : A) (l : list A) :
  Permutation (insertBy after x l) (x :: l).
Proof.
  induction l as [|y l IH]; simpl; [reflexivity|].
  destruct (after x y); [|reflexivity].
  rewrite IH. apply perm_swap.
Qed.

Lemma sortBy_perm {A : Type} (after : A -> A -> bool) (l : list A) :
  Permutation (sortBy after l) l.
Proof.
  induction l as [|x l IH]; simpl; [reflexivity|].
  rewrite insertBy_perm. now constructor.
Qed.

Lemma sortBy_length {A : Type} (after : A -> A -> bool) (l : list A) :
  length (sortBy after l) = length l.
Proof. apply Permutation_length, sortBy_perm. Qed.

Lemma after_descending {A : Type} (sc : A -> Q) (x y : A) :
  Qltb 0 (sc y - sc x) = true <-> (sc x < sc y)%Q.
Proof.
  rewrite Qltb_lt. split; intros H.
  - apply Qlt_minus_iff. exact H.
  - apply Qlt_minus_iff in H. exact H.
Qed.

Lemma insert_descending {A : Type} (sc : A -> Q) (x : A) (l : list A) :
  descending sc l ->
  descending sc (insertBy (fun a b => Qltb 0 (sc b - sc a)) x l).
Proof.
  unfold descending. induction 1 as [|y l Hl IH Hy]; simpl.
  - repeat constructor.
  - destruct (Qltb 0 (sc y - sc x)) eqn:E.
    + apply after_descending in E. constructor; [exact IH|].
      eapply Permutation_Forall; [symmetry; apply insertBy_perm|].
      constructor; [now apply Qlt_le_weak | exact Hy].
    + assert (Hle : (sc y <= sc x)%Q).
      { apply Qnot_lt_le. intros Hlt. apply after_descending in Hlt. congruence. }
      constructor; [now constructor|].
      constructor; [exact Hle|].
      eapply Forall_impl; [|exact Hy]. intros z Hz. cbn in Hz.
      now apply Qle_trans with (sc y).
Qed.

Lemma sortDescending_descending {A : Type} (sc : A -> Q) (l : list A) :
  descending sc (sortDescending sc l).
Proof.
  unfold sortDescending, sortBy.
  induction l as [|x l IH]; simpl; [constructor|].
  now apply insert_descending.
Qed.




Lemma descending_split {A : Type} (sc : A -> Q) (n : nat) (l : list A) :
  descending sc l ->
  forall r x, In r (firstn n l) -> In x (skipn n l) -> (sc x <= sc r)%Q.
Proof.
  unfold descending. intros H. revert n.
  induction H as [|y l Hl IH Hy]; intros [|n] r x Hr Hx; simpl in Hr, Hx; try tauto.
  destruct Hr as [<-|Hr].
  - rewrite Forall_forall in Hy. apply Hy.
    rewrite <- (firstn_skipn n l). apply in_app_iff. now right.
  - now apply (IH n).
Qed.

Lemma descending_firstn {A : Type} (sc : A -> Q) (n : nat) (l : list A) :
  descending sc l -> descending sc (firstn n l).
Proof.
  unfold descending. intros H. revert n.
  induction H as [|x l Hl IH Hx]; intros [|n]; simpl; try constructor.
  - apply IH.
  - rewrite Forall_forall in *. intros y Hy. apply Hx.
    eapply in_firstn; eauto.
Qed.

End SortFacts.

(** ** The orders in which a scan can deliver its rows *)

Module OrderFacts.
Import Store Search SearchSpec SortFacts.

Section Orders.

Variable A : Type.
Variable key : A -> Z.

Lemma sorted_on {R R' : A -> A -> Prop} (l : list A) :
  (forall x y, In x l -> In y l -> R x y -> R' x y) ->
  StronglySorted R l -> StronglySorted R' l.
Proof.
  intros Hsub Hs. induction Hs as [|x l Hs IH Hall]; constructor.
  - apply IH. intros a b Ha Hb. apply Hsub; now right.
  - apply Forall_forall. intros y Hy. apply Hsub; [now left | now right |].
    now apply (proj1 (Forall_forall _ _) Hall).
Qed.

Lemma order_sorted (t : list A) :
  NoDup (map key t) -> StronglySorted (before key (map key t)) t.
Proof.
  induction t as [|a t IH]; intros Hnd; [constructor|].
  cbn [map] in *. inversion Hnd as [|k ks Hnotin Hnd' E]; subst.
  constructor.
  - apply (sorted_on (R := before key (map key t))); [|now apply IH].
    intros x y Hx Hy Hxy. unfold before in *. cbn [placeIn].
    destruct (Z.eqb_spec (key a) (key x)) as [E|_].
    { exfalso. apply Hnotin. rewrite E. now apply in_map. }
    destruct (Z.eqb_spec (key a) (key y)) as [E|_].
    { exfalso. apply Hnotin. rewrite E. now apply in_map. }
    lia.
  - apply Forall_forall. intros y Hy. unfold before. cbn [placeIn].
    rewrite Z.eqb_refl.
    destruct (Z.eqb_spec (key a) (key y)) as [E|_]; [|lia].
    exfalso. apply Hnotin. rewrite E. now apply in_map.
Qed.

Lemma placeIn_inj (keys : list Z) (k k' : Z) :
  In k keys -> placeIn keys k = placeIn keys k' -> k = k'.
Proof.
  induction keys as [|x keys IH]; [intros []|]. cbn [placeIn].
  intros Hin.
  destruct (Z.eqb_spec x k) as [Ek|Hk]; destruct (Z.eqb_spec x k') as [Ek'|Hk'];
    intros E; [congruence | discriminate | discriminate |].
  injection E as E. destruct Hin as [Hin|Hin]; [contradiction|]. now apply IH.
Qed.

Lemma insert_sorted (keys : list Z) (x : A) (l : list A) :
  In (key x) keys -> ~ In (key x) (map key l) ->
  StronglySorted (before key keys) l ->
  StronglySorted (before key keys)
    (insertBy (fun a b => placeIn keys (key b) <? placeIn keys (key a)) x l).
Proof.
  intros Hx Hfresh Hs. induction Hs as [|y l Hs IH Hall]; cbn [insertBy].
  - repeat constructor.
  - cbn [map In] in Hfresh.
    destruct (Nat.ltb_spec (placeIn keys (key y)) (placeIn keys (key x))) as [Hlt|Hge].
    + constructor; [apply IH; tauto|].
      apply Forall_forall. intros z Hz.
      apply (Permutation_in z (insertBy_perm _ x l)) in Hz.
      destruct Hz as [<-|Hz]; [exact Hlt|].
      now apply (proj1 (Forall_forall _ _) Hall).
    + assert (Hxy : before key keys x y).
      { unfold before.
        destruct (Nat.eq_dec (placeIn keys (key x)) (placeIn keys (key y))) as [E|Hne]; [|lia].
        apply placeIn_inj in E; [|exact Hx]. exfalso. apply Hfresh. now left. }
      constructor; [now constructor|].
      constructor; [exact Hxy|].
      apply Forall_forall. intros z Hz.
      pose proof (proj1 (Forall_forall _ _) Hall z Hz) as Hyz.
      unfold before in *. lia.
Qed.

Lemma sorted_unique (keys : list Z) (l t : list A) :
  StronglySorted (before key keys) l -> StronglySorted (before key keys) t ->
  Permutation l t -> l = t.
Proof.
  intros Hl. revert t. induction Hl as [|x l Hl IH Hall]; intros t Ht Hp.
  - apply Permutation_nil in Hp. now subst.
  - destruct t as [|y t]; [apply Permutation_sym, Permutation_nil in Hp; discriminate|].
    inversion Ht as [|y' t' Ht' Hall' E]; subst.
    assert (Hxy : x = y).
    { assert (Hx : In x (y :: t)) by (apply (Permutation_in x Hp); now left).
      assert (Hy : In y (x :: l))
        by (apply (Permutation_in y (Permutation_sym Hp)); now left).
      destruct Hx as [->|Hx]; [reflexivity|].
      destruct Hy as [->|Hy]; [reflexivity|].
      pose proof (proj1 (Forall_forall _ _) Hall y Hy) as H1.
      pose proof (proj1 (Forall_forall _ _) Hall' x Hx) as H2.
      unfold before in *. lia. }
    subst y. f_equal. apply IH; [exact Ht'|]. now apply Permutation_cons_inv in Hp.
Qed.

(** Sorting rows of distinct keys by their places in [t], one of their
    orders, gives [t]. *)
Lemma sortBy_order (l t : list A) :
  NoDup (map key l) -> Permutation t l ->
  sortBy (fun a b => placeIn (map key t) (key b) <? placeIn (map key t) (key a)) l = t.
Proof.
  intros Hnd Hp.
  assert (Hndt : NoDup (map key t)).
  { apply (Permutation_NoDup (l := map key l)); [|exact Hnd].
    apply Permutation_sym, Permutation_map, Hp. }
  apply (@sorted_unique (map key t)).
  - assert (Hin : forall x, In x l -> In (key x) (map key t)).
    { intros x Hx. apply in_map. now apply (Permutation_in x (Permutation_sym Hp)). }
    clear Hp Hndt. induction l as [|x l IH]; [constructor|].
    cbn [sortBy fold_right]. cbn [map] in Hnd. inversion Hnd as [|k ks Hnotin Hnd' E]; subst.
    apply insert_sorted.
    + apply Hin. now left.
    + intros H. apply Hnotin.
      fold (sortBy (fun a b => placeIn (map key t) (key b) <? placeIn (map key t) (key a)) l)
        in H.
      now rewrite sortBy_perm in H.
    + apply IH; [exact Hnd'|]. intros y Hy. apply Hin. now right.
  - now apply order_sorted.
  - rewrite sortBy_perm. now apply Permutation_sym.
Qed.

End Orders.

(** The embeddings table has one row for a chunk, so the rows of the scan
    have distinct chunks; every order of them is the order in which some
    planner delivers them. *)
Lemma every_order_is_delivered (d : db) (name : option jsstring)
  (order : list (embedding_row * joined)) :
  NoDup (map (fun row => em_chunk_id (fst row)) (embeddingRows d name)) ->
  Permutation order (embeddingRows d name) ->
  deliveredRows (planOf order) d name = order.
Proof.
  intros Hnd Hp. unfold deliveredRows, planOf.
  now apply (sortBy_order (embedding_row * joined) (fun row => em_chunk_id (fst row))).
Qed.

End OrderFacts.

Module FusionFacts.
Import Search SearchSpec ListFacts SortFacts.

Lemma mapGet_None (k : Z) (m : scoreMap) :
  mapGet k m = None <-> ~ In k (keysOf m).
Proof.
  induction m as [|[k' v'] m IH]; simpl; [tauto|].
  destruct (Z.eqb_spec k' k) as [->|Hne].
  - split; [discriminate | tauto].
  - rewrite IH. tauto.
Qed.

Lemma mapGet_Some (k : Z) (m : scoreMap) (e : fusionEntry) :
  mapGet k m = Some e -> In (k, e) m.
Proof.
  induction m as [|[k' v'] m IH]; simpl; [discriminate|].
  destruct (Z.eqb_spec k' k) as [->|Hne].
  - intros [= ->]. now left.
  - intros H. right. auto.
Qed.

Lemma mapSet_fresh (k : Z) (v : fusionEntry) (m : scoreMap) :
  ~ In k (keysOf m) -> mapSet k v m = m ++ [(k, v)].
Proof.
  induction m as [|[k' v'] m IH]; simpl; [reflexivity|].
  intros H. destruct (Z.eqb_spec k' k) as [->|Hne]; [tauto|].
  rewrite IH by tauto. reflexivity.
Qed.

Lemma mapSet_keys (k k' : Z) (v : fusionEntry) (m : scoreMap) :
  In k' (keysOf (mapSet k v m)) <-> k' = k \/ In k' (keysOf m).
Proof.
  induction m as [|[k0 v0] m IH]; simpl; [intuition|].
  destruct (Z.eqb_spec k0 k) as [->|Hne]; simpl.
  - intuition.
  - rewrite IH. intuition.
Qed.

Lemma mapSet_NoDup (k : Z) (v : fusionEntry) (m : scoreMap) :
  NoDup (keysOf m) -> NoDup (keysOf (mapSet k v m)).
Proof.
  induction m as [|[k0 v0] m IH]; simpl; intros H.
  - repeat constructor. tauto.
  - inversion H as [|? ? Hk0 Hm]; subst.
    destruct (Z.eqb_spec k0 k) as [->|Hne]; simpl.
    + now constructor.
    + constructor; [|auto]. rewrite mapSet_keys. intuition.
Qed.

Lemma mapSet_in (k k' : Z) (v e' : fusionEntry) (m : scoreMap) :
  NoDup (keysOf m) ->
  In (k', e') (mapSet k v m) ->
  (k' = k /\ e' = v) \/ (k' <> k /\ In (k', e') m).
Proof.
  induction m as [|[k0 v0] m IH]; simpl; intros Hnd Hin.
  - destruct Hin as [[= <- <-]|[]]. now left.
  - inversion Hnd as [|? ? Hk0 Hm]; subst.
    destruct (Z.eqb_spec k0 k) as [->|Hne]; simpl in Hin.
    + destruct Hin as [[= <- <-]|Hin]; [now left|].
      right. split; [|now right].
      intros ->. apply Hk0. change k with (fst (k, e')). now apply in_map.
    + destruct Hin as [[= <- <-]|Hin]; [right; split; [congruence | now left]|].
      destruct (IH Hm Hin) as [?|[? ?]]; [now left | right; split; [|right]; assumption].
Qed.

Lemma contribution_new (leg : list SearchResult) (l : SearchResult) :
  contribution (leg ++ [l]) (chunkId l) (score l).
Proof.
  split.
  - intros _. exists l. rewrite in_app_iff. simpl. tauto.
  - intros H. exfalso. apply H. rewrite map_app, in_app_iff. simpl. tauto.
Qed.

Lemma contribution_other (leg : list SearchResult) (l : SearchResult) (k : Z) (x : Q) :
  k <> chunkId l -> contribution leg k x -> contribution (leg ++ [l]) k x.
Proof.
  intros Hne [Hin Hout]. split.
  - rewrite map_app, in_app_iff. simpl. intros [H|[H|[]]]; [|congruence].
    destruct (Hin H) as [l' [? ?]]. exists l'. rewrite in_app_iff. tauto.
  - rewrite map_app, in_app_iff. simpl. intros H. apply Hout. tauto.
Qed.

Lemma contribution_nil (k : Z) : contribution [] k 0%Q.
Proof. split; [intros [] | reflexivity]. Qed.

Lemma fused_empty : fused [] [] [].
Proof.
  split; [constructor|]. split; [simpl; tauto|]. intros k e [].
Qed.

Lemma fused_bm25 (lex : list SearchResult) (m : scoreMap) (l : SearchResult) :
  fused lex [] m -> fused (lex ++ [l]) [] (addBm25 m l).
Proof.
  intros [Hnd [Hkeys Hent]]. unfold addBm25. split; [now apply mapSet_NoDup|]. split.
  - intros k. rewrite mapSet_keys, Hkeys, map_app, in_app_iff. simpl. intuition.
  - intros k e Hin. apply mapSet_in in Hin; [|exact Hnd].
    destruct Hin as [[-> ->]|[Hne Hin]]; simpl.
    + split; [reflexivity|]. split; [apply contribution_new | apply contribution_nil].
    + destruct (Hent k e Hin) as [Hk [Hb Hv]].
      split; [exact Hk|]. split; [now apply contribution_other | exact Hv].
Qed.

Lemma fused_vector (lex vec : list SearchResult) (m : scoreMap) (v : SearchResult) :
  fused lex vec m -> fused lex (vec ++ [v]) (addVector m v).
Proof.
  intros [Hnd [Hkeys Hent]]. unfold addVector.
  destruct (mapGet (chunkId v) m) as [existing|] eqn:Hget.
  - apply mapGet_Some in Hget. destruct (Hent _ _ Hget) as [Hk [Hb Hv]].
    split; [now apply mapSet_NoDup|]. split.
    + intros k. rewrite mapSet_keys, Hkeys, map_app, in_app_iff. simpl. intuition.
    + intros k e Hin. apply mapSet_in in Hin; [|exact Hnd].
      destruct Hin as [[-> ->]|[Hne Hin]]; simpl.
      * split; [exact Hk|]. split; [exact Hb | apply contribution_new].
      * destruct (Hent k e Hin) as [Hk' [Hb' Hv']].
        split; [exact Hk'|]. split; [exact Hb' | now apply contribution_other].
  - apply mapGet_None in Hget.
    split; [now apply mapSet_NoDup|]. split.
    + intros k. rewrite mapSet_keys, Hkeys, map_app, in_app_iff. simpl. intuition.
    + intros k e Hin. apply mapSet_in in Hin; [|exact Hnd].
      destruct Hin as [[-> ->]|[Hne Hin]]; simpl.
      * split; [reflexivity|]. split; [|apply contribution_new].
        split; [|reflexivity]. intros Hlex. exfalso. apply Hget, Hkeys. now left.
      * destruct (Hent k e Hin) as [Hk' [Hb' Hv']].
        split; [exact Hk'|]. split; [exact Hb' | now apply contribution_other].
Qed.

Lemma fused_bm25_all (ls lex : list SearchResult) (m : scoreMap) :
  fused lex [] m -> fused (lex ++ ls) [] (fold_left addBm25 ls m).
Proof.
  revert lex m. induction ls as [|l ls IH]; intros lex m H; simpl.
  - now rewrite app_nil_r.
  - replace (lex ++ l :: ls) with ((lex ++ [l]) ++ ls) by now rewrite <- app_assoc.
    apply IH. now apply fused_bm25.
Qed.

Lemma fused_vector_all (vs lex vec : list SearchResult) (m : scoreMap) :
  fused lex vec m -> fused lex (vec ++ vs) (fold_left addVector vs m).
Proof.
  revert vec m. induction vs as [|v vs IH]; intros vec m H; simpl.
  - now rewrite app_nil_r.
  - replace (vec ++ v :: vs) with ((vec ++ [v]) ++ vs) by now rewrite <- app_assoc.
    apply IH. now apply fused_vector.
Qed.

Lemma fused_legs (lex vec : list SearchResult) :
  fused lex vec (fold_left addVector vec (fold_left addBm25 lex [])).
Proof.
  apply (fused_vector_all vec lex []).
  apply (fused_bm25_all lex [] []). apply fused_empty.
Qed.

(** Without a vector leg, and when the lexical results name each chunk once,
    the map holds one entry per lexical result, in order. *)
Lemma addBm25_distinct (ls : list SearchResult) (m : scoreMap) :
  NoDup (map chunkId ls) ->
  (forall l, In l ls -> ~ In (chunkId l) (keysOf m)) ->
  fold_left addBm25 ls m
  = m ++ map (fun l => (chunkId l, mkEntry l (score l) 0)) ls.
Proof.
  revert m. induction ls as [|l ls IH]; intros m Hnd Hfresh; simpl.
  - now rewrite app_nil_r.
  - inversion Hnd as [|? ? Hl Hls]; subst.
    unfold addBm25 at 2. rewrite mapSet_fresh by (apply Hfresh; now left).
    rewrite IH; [now rewrite <- app_assoc | exact Hls |].
    intros l' Hl'. unfold keysOf. rewrite map_app, in_app_iff. simpl.
    intros [H|[H|[]]].
    + apply (Hfresh l'); [now right | exact H].
    + apply Hl. rewrite H. now apply in_map.
Qed.

End FusionFacts.

Module LegFacts.
Import Search SearchSpec StoreSpec ListFacts SortFacts FusionFacts.

Lemma clampLimit_bounds (x : Z) : (1 <= clampLimit x <= 100)%Z.
Proof. unfold clampLimit. lia. Qed.

Lemma clampLimit_le (x : Z) : (1 <= x)%Z -> (clampLimit x <= x)%Z.
Proof. unfold clampLimit. lia. Qed.

Lemma clampLimit_id (x : Z) : (1 <= x <= 100)%Z -> clampLimit x = x.
Proof. unfold clampLimit. lia. Qed.

Lemma offer_length (lim : Z) (top : list SearchResult) (e : SearchResult) :
  length top <= Z.to_nat lim -> length (offer lim top e) <= Z.to_nat lim.
Proof.
  intros H. unfold offer.
  destruct (Z.ltb_spec (Z.of_nat (length top)) lim) as [Hlt|Hge].
  - rewrite length_app. simpl. lia.
  - destruct (Qltb _ _); [rewrite length_setAt|]; exact H.
Qed.

Section Legs.

Variable fts5 : list chunk_row -> jsstring -> outcome (Z -> option Q).
Variable generateQueryEmbedding : jsstring -> outcome (list Utils.f32).
Variable numberOf : Utils.f32 -> Q.
Variable sqrt : Q -> Q.
Variable planAfter : embedding_row * joined -> embedding_row * joined -> bool.

Lemma scan_length (lim : Z) (qe : list Utils.f32) (rows : list (embedding_row * joined)) :
  forall top top',
    scan numberOf sqrt lim qe rows top = Ok top' ->
    length top <= Z.to_nat lim -> length top' <= Z.to_nat lim.
Proof.
  induction rows as [|row rows IH]; simpl; intros top top' H Hlen.
  - injection H as <-. exact Hlen.
  - destruct (entryOf numberOf sqrt qe row) as [entry|]; [|discriminate].
    eapply IH; [exact H|]. now apply offer_length.
Qed.

Lemma searchVector_length (d : db) (q : jsstring) (o : options)
  (ev : list event) (results : list SearchResult) :
  searchVector generateQueryEmbedding numberOf sqrt planAfter d q o = (ev, Ok results) ->
  length results <= Z.to_nat (clampLimit (orDefault 10%Z (limit o))).
Proof.
  unfold searchVector. cbn.
  destruct (countEmbeddings d (collectionName o) =? 0).
  { intros H. injection H as _ <-. simpl. lia. }
  destruct (generateQueryEmbedding q) as [qe|]; cbn; [|discriminate].
  destruct (scan _ _ _ _ _ _) as [top|] eqn:Hscan; cbn; [|discriminate].
  intros H. injection H as _ <-.
  unfold sortDescending. rewrite sortBy_length.
  eapply scan_length; [exact Hscan|]. simpl. lia.
Qed.

Lemma searchBM25_rows (d : db) (q : jsstring) (o : options)
  (ev : list event) (results : list SearchResult) :
  searchBM25 fts5 d q o = (ev, Ok results) ->
  results = [] \/
  exists rank m,
    results = map (fun r => resultOf (fst r) (Qabs (snd r) / m) (snd r))
                  (bm25Rows d rank (collectionName o)
                     (clampLimit (orDefault 10%Z (limit o)))).
Proof.
  unfold searchBM25.
  destruct (length (escapeFtsQuery q) =? 0).
  { intros H. injection H as _ <-. now left. }
  destruct (fts5 (db_chunks d) (escapeFtsQuery q)) as [rank|message].
  - cbn. intros H. injection H as _ <-. right. eauto.
  - destruct (includes (str "fts5") message); intros H; [|discriminate].
    injection H as _ <-. now left.
Qed.

Lemma searchBM25_length (d : db) (q : jsstring) (o : options)
  (ev : list event) (results : list SearchResult) :
  searchBM25 fts5 d q o = (ev, Ok results) ->
  length results <= Z.to_nat (clampLimit (orDefault 10%Z (limit o))).
Proof.
  intros H. apply searchBM25_rows in H. destruct H as [->|[rank [m ->]]].
  - simpl. lia.
  - rewrite length_map. unfold bm25Rows. apply length_firstn_le.
Qed.

End Legs.

Lemma filter_key_le1 {A : Type} (key : A -> Z) (k : Z) (l : list A) :
  NoDup (map key l) -> length (filter (fun x => (key x =? k)%Z) l) <= 1.
Proof.
  induction l as [|x l IH]; simpl; [lia|].
  intros H. inversion H as [|? ? Hx Hl]; subst.
  destruct (Z.eqb_spec (key x) k) as [E|E]; [|auto].
  simpl. assert (Hnone : filter (fun x => (key x =? k)%Z) l = []).
  { destruct (filter _ l) as [|y r] eqn:Ef; [reflexivity|]. exfalso.
    assert (Hy : In y (filter (fun x => (key x =? k)%Z) l)) by (rewrite Ef; now left).
    apply filter_In in Hy. destruct Hy as [Hy Hk]. apply Z.eqb_eq in Hk.
    apply Hx. rewrite E, <- Hk. now apply in_map. }
  rewrite Hnone. simpl. lia.
Qed.

Lemma filter_key_le1' {A : Type} (key : A -> Z) (k : Z) (l : list A) :
  NoDup (map key l) -> length (filter (fun x => (k =? key x)%Z) l) <= 1.
Proof.
  intros H. erewrite filter_ext; [now apply (filter_key_le1 key k)|].
  intros x. apply Z.eqb_sym.
Qed.

Lemma flat_map_le1 {A B : Type} (f : A -> list B) (l : list A) :
  length l <= 1 -> (forall x, length (f x) <= 1) -> length (flat_map f l) <= 1.
Proof.
  destruct l as [|x [|y l]]; simpl; intros Hl Hf; try lia.
  rewrite app_nil_r. apply Hf.
Qed.

Lemma joinChunk_le1 (d : db) (name : option jsstring) (id : Z) :
  keys d -> length (joinChunk d name id) <= 1.
Proof.
  intros K. unfold joinChunk.
  apply flat_map_le1; [apply filter_key_le1, (key_chunks d K)|]. intros c.
  apply flat_map_le1; [apply filter_key_le1', (key_file_metadata d K)|]. intros fm.
  apply flat_map_le1; [apply filter_key_le1', (key_collections d K)|]. intros col.
  destruct (match truthy name with Some n => _ | None => _ end); simpl; lia.
Qed.

Lemma joinChunk_id (d : db) (name : option jsstring) (id : Z) (j : joined) :
  In j (joinChunk d name id) -> ch_id (j_chunk j) = id.
Proof.
  unfold joinChunk. rewrite in_flat_map. intros [c [Hc Hj]].
  apply filter_In in Hc. destruct Hc as [_ Hc]. apply Z.eqb_eq in Hc.
  apply in_flat_map in Hj. destruct Hj as [fm [_ Hj]].
  apply in_flat_map in Hj. destruct Hj as [col [_ Hj]].
  destruct (match truthy name with Some n => _ | None => _ end); [|destruct Hj].
  destruct Hj as [<-|[]]. exact Hc.
Qed.

Lemma NoDup_flat_map_keys {A B : Type} (key : A -> Z) (g : B -> Z)
  (f : A -> list B) (l : list A) :
  NoDup (map key l) ->
  (forall x, length (f x) <= 1) ->
  (forall x y, In y (f x) -> g y = key x) ->
  NoDup (map g (flat_map f l)).
Proof.
  intros Hnd Hlen Hkey. induction l as [|x l IH]; simpl; [constructor|].
  inversion Hnd as [|? ? Hx Hl]; subst.
  specialize (Hlen x). pose proof (Hkey x) as Hkx.
  destruct (f x) as [|y [|z r]]; simpl in *; [auto | | lia].
  constructor; [|auto].
  rewrite (Hkx y) by now left. intros Hin. apply Hx.
  apply in_map_iff in Hin. destruct Hin as [y' [Hy' Hin]].
  apply in_flat_map in Hin. destruct Hin as [x' [Hx' Hin]].
  rewrite <- Hy', (Hkey x' y' Hin). now apply in_map.
Qed.

Lemma bm25Rows_NoDup (d : db) (rank : Z -> option Q) (name : option jsstring) (lim : Z) :
  keys d ->
  NoDup (map (fun r => ch_id (j_chunk (fst r))) (bm25Rows d rank name lim)).
Proof.
  intros K. unfold bm25Rows. apply NoDup_map_firstn.
  eapply Permutation_NoDup.
  { apply Permutation_map. symmetry. apply sortBy_perm. }
  apply (NoDup_flat_map_keys ch_id); [apply (key_chunks d K) | |].
  - intros c. destruct (rank (ch_id c)); [|simpl; lia].
    rewrite length_map. now apply joinChunk_le1.
  - intros c y. destruct (rank (ch_id c)); [|intros []].
    rewrite in_map_iff. intros [j [<- Hj]]. simpl. eapply joinChunk_id, Hj.
Qed.

Lemma searchBM25_NoDup (fts5 : list chunk_row -> jsstring -> outcome (Z -> option Q))
  (d : db) (q : jsstring) (o : options) (ev : list event) (results : list SearchResult) :
  keys d ->
  searchBM25 fts5 d q o = (ev, Ok results) ->
  NoDup (map chunkId results).
Proof.
  intros K H. apply searchBM25_rows in H. destruct H as [->|[rank [m ->]]].
  - constructor.
  - rewrite map_map. cbn. now apply bm25Rows_NoDup.
Qed.

End LegFacts.

Section LexicalContract.
Import Search SearchSpec StoreSpec ListFacts SortFacts LegFacts StringFacts ScoreFacts.

Variable fts5 : list chunk_row -> jsstring -> outcome (Z -> option Q).



End LexicalContract.

Section Hybrid.
Import Search SearchSpec StoreSpec ListFacts SortFacts FusionFacts LegFacts.

Variable fts5 : list chunk_row -> jsstring -> outcome (Z -> option Q).
Variable generateQueryEmbedding : jsstring -> outcome (list Utils.f32).
Variable numberOf : Utils.f32 -> Q.
Variable sqrt : Q -> Q.
Variable planAfter : embedding_row * joined -> embedding_row * joined -> bool.

Lemma searchHybrid_fuse (d : db) (q : jsstring) (o : options)
  (evb : list event) (lex : list SearchResult) :
  searchBM25 fts5 d q (legOptions o) = (evb, Ok lex) ->
  exists ev,
    searchHybrid fts5 generateQueryEmbedding numberOf sqrt planAfter d q o
    = (ev,
       Ok (fuse (orDefault (4 # 10)%Q (bm25Weight o)) (orDefault (6 # 10)%Q (vectorWeight o))
             (orDefault 10%Z (limit o)) lex
             (caught (searchVector generateQueryEmbedding numberOf sqrt planAfter d q
                        (legOptions o))))) /\
    ev = evb ++
         match searchVector generateQueryEmbedding numberOf sqrt planAfter d q
                 (legOptions o) with
         | (evv, Ok _) => evv
         | (evv, Throw _) => evv ++ [ConsoleWarn]
         end.
Proof.
  intros Hlex. unfold searchHybrid. fold (legOptions o). rewrite Hlex.
  destruct (searchVector generateQueryEmbedding numberOf sqrt planAfter d q (legOptions o))
    as [evv [vec|msg]]; cbn; rewrite app_nil_r; eexists; split; reflexivity.
Qed.

(** C2. Hybrid search runs both legs with the limit [3k]; a leg answers
    with at most [3k] results and never more than 100.  The score map it
    builds has one entry for every chunk that a leg returned, and the results
    are the [k] best of these entries, or all of them when there are fewer:
    they are in descending order of score and no entry left out scores higher
    than one returned.  The score of an entry is its normalized lexical score
    times the lexical weight plus its normalized vector score times the vector
    weight, the score of a leg that did not return the chunk being 0; the
    weights default to 0.4 and 0.6. *)
Theorem hybrid_fusion_contract (d : db) (q : jsstring) (o : options)
  (evb : list event) (lex : list SearchResult) :
  let k := orDefault 10%Z (limit o) in
  let wLex := orDefault (4 # 10)%Q (bm25Weight o) in
  let wVec := orDefault (6 # 10)%Q (vectorWeight o) in
  let asked := mkOptions (Some (k * 3)%Z) (collectionName o) None None in
  let vectorLeg := searchVector generateQueryEmbedding numberOf sqrt planAfter d q asked in
  let vec := caught vectorLeg in
  (1 <= k <= 100)%Z ->
  searchBM25 fts5 d q asked = (evb, Ok lex) ->
  length lex <= Z.to_nat (Z.min 100 (k * 3)) /\
  length vec <= Z.to_nat (Z.min 100 (k * 3)) /\
  exists m results rest,
    searchHybrid fts5 generateQueryEmbedding numberOf sqrt planAfter d q o
    = (evb ++ fst vectorLeg ++
       match snd vectorLeg with Ok _ => [] | Throw _ => [ConsoleWarn] end,
       Ok results) /\
    fused lex vec m /\
    results
    = firstn (Z.to_nat k)
        (sortDescending h_score (map (fun kv => combine wLex wVec (snd kv)) m)) /\
    Permutation (results ++ rest) (map (fun kv => combine wLex wVec (snd kv)) m) /\
    length results = Nat.min (Z.to_nat k) (length m) /\
    (forall r x, In r results -> In x rest -> (h_score x <= h_score r)%Q) /\
    (forall r, In r results ->
       h_score r = (bm25Score r * wLex + vectorScore r * wVec)%Q /\
       contribution lex (h_chunkId r) (bm25Score r) /\
       contribution vec (h_chunkId r) (vectorScore r)) /\
    descending h_score results.
Proof.
  intros k wLex wVec asked vectorLeg vec Hk Hlex.
  change asked with (legOptions o) in *.
  assert (Hleg : clampLimit (k * 3) = Z.min 100 (k * 3)) by (unfold clampLimit; lia).
  split.
  { rewrite <- Hleg.
    apply (searchBM25_length fts5 d q (legOptions o) evb lex Hlex). }
  split.
  { unfold vec, vectorLeg.
    destruct (searchVector generateQueryEmbedding numberOf sqrt planAfter d q (legOptions o))
      as [evv [res|msg]] eqn:Hvec; simpl; [|lia].
    rewrite <- Hleg.
    apply (searchVector_length generateQueryEmbedding numberOf sqrt planAfter d q
             (legOptions o) evv res Hvec). }
  destruct (searchHybrid_fuse d q o evb lex Hlex) as [ev [Hrun Hev]].
  set (m := fold_left addVector vec (fold_left addBm25 lex [])).
  set (all := map (fun kv => combine wLex wVec (snd kv)) m).
  assert (Hsorted : descending h_score (sortDescending h_score all))
    by apply sortDescending_descending.
  exists m, (firstn (Z.to_nat k) (sortDescending h_score all)),
         (skipn (Z.to_nat k) (sortDescending h_score all)).
  split.
  { rewrite Hrun, Hev. fold k wLex wVec vectorLeg vec. unfold fuse. fold m all.
    rewrite (clampLimit_id k Hk).
    destruct vectorLeg as [evv [res|msg]]; cbn [fst snd]; [now rewrite app_nil_r | reflexivity]. }
  split; [apply fused_legs|]. split; [reflexivity|].
  split; [rewrite firstn_skipn; apply sortBy_perm|].
  split.
  { rewrite length_firstn. unfold sortDescending. rewrite sortBy_length.
    unfold all. now rewrite length_map. }
  split; [now apply descending_split|].
  split; [|now apply descending_firstn].
  intros r Hr. apply in_firstn in Hr.
  apply (Permutation_in r (sortBy_perm _ _)) in Hr.
  apply in_map_iff in Hr. destruct Hr as [[key e] [<- Hin]].
  destruct (fused_legs lex vec) as [_ [_ Hent]].
  destruct (Hent key e Hin) as [Hkey [Hb Hv]]. cbn.
  rewrite Hkey. split; [reflexivity|]. split; assumption.
Qed.

(** C6. When the vector leg throws, hybrid search does not: the exception
    is caught with a warning, and the results are the lexical results with
    vector score 0 and final score equal to the lexical score times the
    lexical weight, ranked by that score and cut to the limit. *)
Theorem hybrid_degrades_to_lexical (d : db) (q : jsstring) (o : options)
  (evb evv : list event) (lex : list SearchResult) (message : jsstring) :
  let k := orDefault 10%Z (limit o) in
  let wLex := orDefault (4 # 10)%Q (bm25Weight o) in
  let wVec := orDefault (6 # 10)%Q (vectorWeight o) in
  keys d ->
  searchBM25 fts5 d q (legOptions o) = (evb, Ok lex) ->
  searchVector generateQueryEmbedding numberOf sqrt planAfter d q (legOptions o)
  = (evv, Throw message) ->
  searchHybrid fts5 generateQueryEmbedding numberOf sqrt planAfter d q o
  = (evb ++ evv ++ [ConsoleWarn],
     Ok (firstn (Z.to_nat (clampLimit k))
           (sortDescending h_score (map (lexicalOnly wLex wVec) lex)))) /\
  forall l, In l lex ->
    let r := lexicalOnly wLex wVec l in
    h_chunkId r = chunkId l /\ bm25Score r = score l /\ vectorScore r = 0%Q /\
    (h_score r == score l * wLex)%Q.
Proof.
  intros k wLex wVec K Hlex Hvec. split.
  - destruct (searchHybrid_fuse d q o evb lex Hlex) as [ev [Hrun Hev]].
    rewrite Hrun, Hev, Hvec. cbn [caught]. unfold fuse. cbn [fold_left].
    rewrite addBm25_distinct.
    + cbn [app]. rewrite map_map. reflexivity.
    + eapply searchBM25_NoDup; eassumption.
    + intros l _ [].
  - intros l _. cbn. repeat split; try reflexivity. ring.
Qed.

End Hybrid.

(** ** Vector search (src/search.js) *)

Module TopKFacts.
Import Search SearchSpec ListFacts SortFacts LegFacts.

Lemma minIndex_loop (top : list SearchResult) (n : nat) :
  forall start m,
    m < start ->
    (forall j, j < start -> (scoreAt top m <= scoreAt top j)%Q) ->
    let m' :=
      fold_left (fun m i => if Qltb (scoreAt top i) (scoreAt top m) then i else m)
                (seq start n) m in
    m' < start + n /\
    forall j, j < start + n -> (scoreAt top m' <= scoreAt top j)%Q.
Proof.
  induction n as [|n IH]; intros start m Hm Hmin; simpl.
  - rewrite Nat.add_0_r. auto.
  - replace (start + S n) with (S start + n) by lia.
    destruct (Qltb (scoreAt top start) (scoreAt top m)) eqn:E.
    + apply Qltb_lt in E. apply IH; [lia|].
      intros j Hj. destruct (Nat.eq_dec j start) as [->|Hne]; [apply Qle_refl|].
      apply Qle_trans with (scoreAt top m); [now apply Qlt_le_weak | apply Hmin; lia].
    + apply Qltb_ge in E. apply IH; [lia|].
      intros j Hj. destruct (Nat.eq_dec j start) as [->|Hne]; [exact E | apply Hmin; lia].
Qed.

Lemma minIndex_min (top : list SearchResult) :
  top <> [] ->
  minIndex top < length top /\
  forall t, In t top -> (scoreAt top (minIndex top) <= score t)%Q.
Proof.
  intros Hne.
  assert (Hpos : 0 < length top) by (destruct top; simpl; [congruence | lia]).
  destruct (minIndex_loop top (length top - 1) 1 0) as [Hlt Hmin];
    [lia | intros j Hj; replace j with 0 by lia; apply Qle_refl |].
  change (minIndex top < 1 + (length top - 1)) in Hlt.
  change (forall j, j < 1 + (length top - 1) ->
                    (scoreAt top (minIndex top) <= scoreAt top j)%Q) in Hmin.
  split; [lia|].
  intros t Ht. destruct (In_nth _ _ undefinedResult Ht) as [j [Hj <-]].
  apply Hmin. lia.
Qed.

Lemma setAt_perm {A : Type} (i : nat) (x d : A) (l : list A) :
  i < length l -> Permutation (nth i l d :: Utils.setAt i x l) (x :: l).
Proof.
  revert i. induction l as [|y l IH]; intros [|i]; simpl; try lia; intros H.
  - apply perm_swap.
  - rewrite perm_swap. rewrite IH by lia. apply perm_swap.
Qed.

Lemma offer_selected (k : Z) (entries top rest : list SearchResult) (e : SearchResult) :
  (1 <= k)%Z ->
  selected (Z.to_nat k) entries top rest ->
  exists rest', selected (Z.to_nat k) (entries ++ [e]) (offer k top e) rest'.
Proof.
  intros Hk [Hperm [Hlen Hle]]. unfold offer.
  pose proof (Permutation_length Hperm) as Hpl. rewrite length_app in Hpl.
  destruct (Z.ltb_spec (Z.of_nat (length top)) k) as [Hlt|Hge].
  - assert (rest = []) by (destruct rest; [reflexivity | simpl in Hpl; lia]). subst rest.
    rewrite app_nil_r in Hperm.
    exists []. split; [|split].
    + rewrite app_nil_r. now apply Permutation_app_tail.
    + rewrite !length_app. simpl. lia.
    + intros t x _ [].
  - assert (Hne : top <> []) by (destruct top; [simpl in Hge; lia | discriminate]).
    destruct (minIndex_min top Hne) as [Hm Hmin]. unfold scoreAt in Hmin.
    set (m := minIndex top) in *.
    destruct (Qltb (score (nth m top undefinedResult)) (score e)) eqn:E.
    + apply Qltb_lt in E.
      exists (nth m top undefinedResult :: rest). split; [|split].
      * rewrite <- Permutation_middle.
        rewrite (Permutation_app_comm entries [e]). cbn [app].
        rewrite <- Hperm. rewrite app_comm_cons.
        change (e :: top ++ rest) with ((e :: top) ++ rest).
        apply Permutation_app_tail. now apply setAt_perm.
      * rewrite length_setAt, length_app. simpl. lia.
      * intros t x Ht Hx.
        assert (Ht' : In t (e :: top)).
        { apply (Permutation_in t (setAt_perm m e undefinedResult top Hm)).
          now right. }
        assert (Hx' : (score x <= score (nth m top undefinedResult))%Q).
        { destruct Hx as [<-|Hx]; [apply Qle_refl|].
          apply Hle; [apply nth_In; exact Hm | exact Hx]. }
        destruct Ht' as [<-|Ht'].
        -- eapply Qle_trans; [exact Hx' | now apply Qlt_le_weak].
        -- eapply Qle_trans; [exact Hx' | now apply Hmin].
    + apply Qltb_ge in E.
      exists (e :: rest). split; [|split].
      * rewrite <- Permutation_middle, (Permutation_app_comm entries [e]). cbn [app].
        now constructor.
      * rewrite length_app. simpl. lia.
      * intros t x Ht [<-|Hx]; [|now apply Hle].
        eapply Qle_trans; [exact E | now apply Hmin].
Qed.

Lemma offer_all_selected (k : Z) (es entries top rest : list SearchResult) :
  (1 <= k)%Z ->
  selected (Z.to_nat k) entries top rest ->
  exists rest',
    selected (Z.to_nat k) (entries ++ es) (fold_left (offer k) es top) rest'.
Proof.
  intros Hk. revert entries top rest.
  induction es as [|e es IH]; intros entries top rest H; simpl.
  - rewrite app_nil_r. eauto.
  - destruct (offer_selected k entries top rest e Hk H) as [rest' H'].
    replace (entries ++ e :: es) with ((entries ++ [e]) ++ es) by now rewrite <- app_assoc.
    eapply IH, H'.
Qed.

Lemma selected_sorted (k : nat) (entries top rest : list SearchResult) :
  selected k entries top rest ->
  selected k entries (sortDescending score top) rest.
Proof.
  intros [Hperm [Hlen Hle]].
  assert (Hp : Permutation (sortDescending score top) top) by apply sortBy_perm.
  split; [|split].
  - now rewrite Hp.
  - now rewrite (Permutation_length Hp).
  - intros t x Ht. apply Hle. now apply (Permutation_in t Hp).
Qed.

Section Scan.

Variable numberOf : Utils.f32 -> Q.
Variable sqrt : Q -> Q.

Lemma entryOf_scored (qe : list Utils.f32) (row : embedding_row * joined) (e : SearchResult) :
  entryOf numberOf sqrt qe row = Ok e -> scoredAs numberOf sqrt qe row e.
Proof.
  unfold entryOf, scoredAs.
  destruct (Utils.bufferToFloat32Array (em_embedding (fst row))) as [emb|]; [|discriminate].
  destruct (Utils.cosineSimilarity sqrt _ _) as [sim|] eqn:Hsim; [|discriminate].
  intros [= <-]. exists emb, sim. repeat split; [exact Hsim].
Qed.

Lemma scan_entries (lim : Z) (qe : list Utils.f32) (rows : list (embedding_row * joined)) :
  forall top top',
    scan numberOf sqrt lim qe rows top = Ok top' ->
    exists entries,
      Forall2 (scoredAs numberOf sqrt qe) rows entries /\
      top' = fold_left (offer lim) entries top.
Proof.
  induction rows as [|row rows IH]; simpl; intros top top' H.
  - injection H as <-. exists []. split; [constructor | reflexivity].
  - destruct (entryOf numberOf sqrt qe row) as [entry|] eqn:E; [|discriminate].
    destruct (IH _ _ H) as [entries [Hall ->]].
    exists (entry :: entries). split; [|reflexivity].
    constructor; [now apply entryOf_scored | exact Hall].
Qed.

(** A row whose blob has the dimension of the query embedding is scored. *)
Lemma entryOf_returns (qe : list Utils.f32) (row : embedding_row * joined) :
  length (em_embedding (fst row)) / 4 = length qe ->
  exists e, entryOf numberOf sqrt qe row = Ok e.
Proof.
  intros Hdim. unfold entryOf.
  destruct (CodecFacts.bufferToFloat32Array_total (em_embedding (fst row))) as [emb Hemb].
  rewrite Hemb. apply CodecFacts.bufferToFloat32Array_length in Hemb.
  unfold Utils.cosineSimilarity. rewrite !length_map, Hemb, Hdim, Nat.eqb_refl.
  cbn [negb].
  destruct (Utils.cosineSums (map numberOf qe) (map numberOf emb) (0, 0, 0)%Q)
    as [[dotProduct normA] normB].
  destruct (Utils.Qeqb normA 0 || Utils.Qeqb normB 0); eexists; reflexivity.
Qed.

Lemma scan_returns (lim : Z) (qe : list Utils.f32) (rows : list (embedding_row * joined)) :
  (forall row, In row rows -> length (em_embedding (fst row)) / 4 = length qe) ->
  forall top, exists top', scan numberOf sqrt lim qe rows top = Ok top'.
Proof.
  induction rows as [|row rows IH]; intros Hdim top; cbn [scan].
  - now exists top.
  - destruct (entryOf_returns qe row) as [e He]; [apply Hdim; now left|].
    rewrite He. apply IH. intros r Hr. apply Hdim. now right.
Qed.

End Scan.

Lemma clamp01_id (x : Q) : (0 <= x <= 1)%Q -> (clamp01 x == x)%Q.
Proof.
  intros [H0 H1]. unfold clamp01.
  rewrite (Q.min_r 1 x) by exact H1. now apply Q.max_r.
Qed.

Lemma half_range (s : Q) : (-1 <= s <= 1)%Q -> (0 <= (s + 1) / 2 <= 1)%Q.
Proof.
  intros [Hl Hu]. split.
  - apply Qle_shift_div_l; [reflexivity|]. rewrite Qmult_0_l.
    apply (Qplus_le_l _ _ (-1)%Q). ring_simplify. exact Hl.
  - apply Qle_shift_div_r; [reflexivity|].
    apply (Qplus_le_l _ _ (-1)%Q). ring_simplify. exact Hu.
Qed.

Lemma half_monotone (a b : Q) :
  ((a + 1) / 2 <= (b + 1) / 2)%Q -> (a <= b)%Q.
Proof.
  intros H. unfold Qdiv in H.
  apply Qmult_le_r in H; [|reflexivity].
  now apply Qplus_le_l in H.
Qed.

End TopKFacts.

Section VectorSearch.
Import Search SearchSpec ListFacts SortFacts LegFacts TopKFacts.

Variable generateQueryEmbedding : jsstring -> outcome (list Utils.f32).
Variable numberOf : Utils.f32 -> Q.
Variable sqrt : Q -> Q.
Variable planAfter : embedding_row * joined -> embedding_row * joined -> bool.

Lemma no_embeddings_no_rows (d : db) (name : option jsstring) :
  countEmbeddings d name = 0 -> embeddingRows d name = [].
Proof.
  unfold countEmbeddings. destruct (truthy name) eqn:E.
  - apply length_zero_iff_nil.
  - intros H. apply length_zero_iff_nil in H. unfold embeddingRows. now rewrite H.
Qed.

Lemma scored_entries (qe : list Utils.f32) (rows : list (embedding_row * joined))
  (entries : list SearchResult) (e : SearchResult) :
  Forall2 (scoredAs numberOf sqrt qe) rows entries ->
  In e entries ->
  score e = clamp01 ((rawScore e + 1) / 2).
Proof.
  induction 1 as [|row e' rows entries Hs _ IH]; simpl; [tauto|].
  intros [<-|Hin]; [|auto].
  destruct Hs as [emb [sim [_ [_ ->]]]]. reflexivity.
Qed.

Lemma deliveredRows_perm (d : db) (name : option jsstring) :
  Permutation (deliveredRows planAfter d name) (embeddingRows d name).
Proof. apply sortBy_perm. Qed.

(** What a vector search that returns has returned, and the rule of the
    scan. *)
Lemma vector_search_selected (d : db) (q : jsstring) (o : options) (k : Z)
  (ev : list event) (results : list SearchResult) :
  limit o = Some k ->
  (1 <= k <= 100)%Z ->
  searchVector generateQueryEmbedding numberOf sqrt planAfter d q o = (ev, Ok results) ->
  (exists qe entries rest,
     (countEmbeddings d (collectionName o) <> 0 -> generateQueryEmbedding q = Ok qe) /\
     Forall2 (scoredAs numberOf sqrt qe) (deliveredRows planAfter d (collectionName o))
             entries /\
     results = sortDescending score (fold_left (offer k) entries []) /\
     selected (Z.to_nat k) entries results rest /\
     descending score results /\
     ((forall e, In e entries -> (-1 <= rawScore e <= 1)%Q) ->
      (forall e, In e entries -> (score e == (rawScore e + 1) / 2)%Q) /\
      (forall r x, In r results -> In x rest -> (rawScore x <= rawScore r)%Q))) /\
  (forall top e, length top < Z.to_nat k -> offer k top e = top ++ [e]) /\
  (forall top e, Z.to_nat k <= length top ->
     let lowest := nth (minIndex top) top undefinedResult in
     (forall t, In t top -> (score lowest <= score t)%Q) /\
     ((score lowest < score e)%Q -> offer k top e = Utils.setAt (minIndex top) e top) /\
     (~ (score lowest < score e)%Q -> offer k top e = top)).
Proof.
  intros Hlimit Hk Hrun. split; [|split].
  - assert (Hgoal : forall qe entries,
              (countEmbeddings d (collectionName o) <> 0 -> generateQueryEmbedding q = Ok qe) ->
              Forall2 (scoredAs numberOf sqrt qe)
                      (deliveredRows planAfter d (collectionName o)) entries ->
              results = sortDescending score (fold_left (offer k) entries []) ->
              exists qe entries rest,
                (countEmbeddings d (collectionName o) <> 0 -> generateQueryEmbedding q = Ok qe) /\
                Forall2 (scoredAs numberOf sqrt qe)
                        (deliveredRows planAfter d (collectionName o)) entries /\
                results = sortDescending score (fold_left (offer k) entries []) /\
                selected (Z.to_nat k) entries results rest /\
                descending score results /\
                ((forall e, In e entries -> (-1 <= rawScore e <= 1)%Q) ->
                 (forall e, In e entries -> (score e == (rawScore e + 1) / 2)%Q) /\
                 (forall r x, In r results -> In x rest -> (rawScore x <= rawScore r)%Q))).
    { intros qe entries Hqe Hscored Hres.
      destruct (offer_all_selected k entries [] [] []) as [rest Hsel]; [lia | |].
      { split; [constructor|]. split; [simpl; lia | intros t x []]. }
      cbn [app] in Hsel. apply selected_sorted in Hsel. rewrite <- Hres in Hsel.
      exists qe, entries, rest.
      split; [exact Hqe|]. split; [exact Hscored|]. split; [exact Hres|].
      split; [exact Hsel|]. split; [rewrite Hres; apply sortDescending_descending|].
      intros Hrange.
      assert (Hhalf : forall e, In e entries -> (score e == (rawScore e + 1) / 2)%Q).
      { intros e He. rewrite (scored_entries qe _ entries e Hscored He).
        apply clamp01_id, half_range, Hrange, He. }
      split; [exact Hhalf|].
      destruct Hsel as [Hperm [_ Hle]]. intros r x Hr Hx.
      apply half_monotone.
      rewrite <- (Hhalf x), <- (Hhalf r).
      - now apply Hle.
      - apply (Permutation_in r Hperm). apply in_app_iff. now left.
      - apply (Permutation_in x Hperm). apply in_app_iff. now right. }
    revert Hrun. unfold searchVector. rewrite Hlimit. cbn.
    rewrite (clampLimit_id k Hk).
    destruct (countEmbeddings d (collectionName o) =? 0) eqn:Hcount.
    + apply Nat.eqb_eq in Hcount. intros H. injection H as _ <-.
      apply (Hgoal [] []).
      * intros Hne. congruence.
      * unfold deliveredRows. rewrite (no_embeddings_no_rows d _ Hcount). constructor.
      * reflexivity.
    + destruct (generateQueryEmbedding q) as [qe|]; cbn; [|discriminate].
      destruct (scan _ _ _ _ _ _) as [top|] eqn:Hscan; cbn; [|discriminate].
      intros H. injection H as _ <-.
      destruct (scan_entries numberOf sqrt k qe _ _ _ Hscan) as [entries [Hscored ->]].
      now apply (Hgoal qe entries).
  - intros top e Hlen. unfold offer.
    destruct (Z.ltb_spec (Z.of_nat (length top)) k); [reflexivity | lia].
  - intros top e Hlen lowest.
    assert (Hne : top <> []) by (destruct top; [simpl in Hlen; lia | discriminate]).
    destruct (minIndex_min top Hne) as [_ Hmin]. unfold scoreAt in Hmin.
    split; [exact Hmin|]. unfold offer.
    destruct (Z.ltb_spec (Z.of_nat (length top)) k); [lia|]. fold lowest.
    split; intros Hcmp.
    + apply Qltb_lt in Hcmp. now rewrite Hcmp.
    + destruct (Qltb (score lowest) (score e)) eqn:E; [|reflexivity].
      apply Qltb_lt in E. contradiction.
Qed.

(** With an answer of the provider and stored embeddings of its dimension,
    the search returns. *)
Lemma searchVector_returns (d : db) (q : jsstring) (o : options) (qe : list Utils.f32) :
  generateQueryEmbedding q = Ok qe ->
  (forall row, In row (embeddingRows d (collectionName o)) ->
     length (em_embedding (fst row)) / 4 = length qe) ->
  exists ev results,
    searchVector generateQueryEmbedding numberOf sqrt planAfter d q o = (ev, Ok results).
Proof.
  intros Hgen Hdim. unfold searchVector. cbn.
  destruct (countEmbeddings d (collectionName o) =? 0); [now eexists; eexists|].
  rewrite Hgen. cbn.
  destruct (scan_returns numberOf sqrt (clampLimit (orDefault 10%Z (limit o))) qe
              (deliveredRows planAfter d (collectionName o))) with (top := @nil SearchResult)
    as [top Htop].
  { intros row Hrow. apply Hdim.
    exact (Permutation_in row (deliveredRows_perm d (collectionName o)) Hrow). }
  rewrite Htop. cbn. now eexists; eexists.
Qed.

(** C3. For a limit [k] between 1 and 100, a query the provider embeds as
    [qe] and stored embeddings of the dimension of [qe], vector search
    returns, in whatever order the store delivers the rows of its scan: the
    rows it scans are the stored embeddings of the filter in some order.  It
    scores every one of them and returns the best: [k] results, or all of
    them when fewer are stored, in descending order of score, and no entry
    left out scores higher than one returned.  The score is
    [(similarity + 1) / 2] kept inside [0, 1], which is [(similarity + 1) / 2]
    itself for a similarity between -1 and 1; then the results are also the
    ones of highest similarity.  During the scan an entry is always taken in
    while fewer than [k] are held; afterwards it replaces the entry of lowest
    score when its own score is strictly greater, and is dropped otherwise. *)
Theorem vector_search_top_k (d : db) (q : jsstring) (o : options) (k : Z)
  (qe : list Utils.f32) :
  limit o = Some k ->
  (1 <= k <= 100)%Z ->
  generateQueryEmbedding q = Ok qe ->
  (forall row, In row (embeddingRows d (collectionName o)) ->
     length (em_embedding (fst row)) / 4 = length qe) ->
  (exists ev results rows entries rest,
     searchVector generateQueryEmbedding numberOf sqrt planAfter d q o = (ev, Ok results) /\
     rows = deliveredRows planAfter d (collectionName o) /\
     Permutation rows (embeddingRows d (collectionName o)) /\
     Forall2 (scoredAs numberOf sqrt qe) rows entries /\
     results = sortDescending score (fold_left (offer k) entries []) /\
     selected (Z.to_nat k) entries results rest /\
     descending score results /\
     ((forall e, In e entries -> (-1 <= rawScore e <= 1)%Q) ->
      (forall e, In e entries -> (score e == (rawScore e + 1) / 2)%Q) /\
      (forall r x, In r results -> In x rest -> (rawScore x <= rawScore r)%Q))) /\
  (forall top e, length top < Z.to_nat k -> offer k top e = top ++ [e]) /\
  (forall top e, Z.to_nat k <= length top ->
     let lowest := nth (minIndex top) top undefinedResult in
     (forall t, In t top -> (score lowest <= score t)%Q) /\
     ((score lowest < score e)%Q -> offer k top e = Utils.setAt (minIndex top) e top) /\
     (~ (score lowest < score e)%Q -> offer k top e = top)).
Proof.
  intros Hlimit Hk Hgen Hdim.
  destruct (searchVector_returns d q o qe Hgen Hdim) as [ev [results Hrun]].
  destruct (vector_search_selected d q o k ev results Hlimit Hk Hrun)
    as [[qe' [entries [rest [Hqe [Hscored Hrest]]]]] Hrules].
  split; [|exact Hrules].
  exists ev, results, (deliveredRows planAfter d (collectionName o)), entries, rest.
  split; [exact Hrun|]. split; [reflexivity|]. split; [apply deliveredRows_perm|].
  split; [|exact Hrest].
  destruct (Nat.eq_dec (countEmbeddings d (collectionName o)) 0) as [Hnone|Hsome].
  - unfold deliveredRows in Hscored |- *.
    rewrite (no_embeddings_no_rows d _ Hnone) in Hscored |- *.
    inversion Hscored. constructor.
  - specialize (Hqe Hsome). rewrite Hgen in Hqe. injection Hqe as <-. exact Hscored.
Qed.

End VectorSearch.

(** ** The chunker (src/chunker.js) *)

Module TrimFacts.
Import ChunkerSpec.

Lemma dropWhile_nil {A : Type} (p : A -> bool) (l : list A) :
  dropWhile p l = [] <-> forallb p l = true.
Proof.
  induction l as [|x l IH]; simpl; [tauto|].
  destruct (p x); simpl; [exact IH | split; discriminate].
Qed.

Lemma dropWhile_stops {A : Type} (p : A -> bool) (l : list A) :
  forallb p (dropWhile p l) = true -> forallb p l = true.
Proof.
  induction l as [|x l IH]; simpl; [auto|].
  destruct (p x) eqn:E; simpl; [exact IH|]. now rewrite E.
Qed.

Lemma forallb_rev {A : Type} (p : A -> bool) (l : list A) :
  forallb p (rev l) = forallb p l.
Proof.
  induction l as [|x l IH]; simpl; [reflexivity|].
  rewrite forallb_app, IH. simpl. rewrite andb_true_r. apply andb_comm.
Qed.

Lemma trim_nil (s : jsstring) : trim s = [] <-> allWs s = true.
Proof.
  unfold trim, trimEnd, trimStart, allWs. split.
  - intros H. apply (f_equal (@rev N)) in H. rewrite rev_involutive in H. simpl in H.
    apply dropWhile_nil in H. rewrite forallb_rev in H.
    now apply dropWhile_stops.
  - intros H. apply dropWhile_nil in H. rewrite H. reflexivity.
Qed.

Lemma isBlankLine_allWs (l : jsstring) : isBlankLine l = allWs l.
Proof.
  unfold isBlankLine. destruct (allWs l) eqn:E.
  - apply trim_nil in E. now rewrite E.
  - destruct (trim l) eqn:T; [|reflexivity].
    apply trim_nil in T. congruence.
Qed.

Lemma allWs_join (ls : list jsstring) :
  allWs (join LF ls) = forallb allWs ls.
Proof.
  induction ls as [|l [|l' ls] IH].
  - reflexivity.
  - simpl. now rewrite andb_true_r.
  - change (join LF (l :: l' :: ls)) with (l ++ LF ++ join LF (l' :: ls)).
    unfold allWs in *. rewrite !forallb_app, IH. reflexivity.
Qed.

End TrimFacts.

Module ChunkerFacts.
Import ChunkerSpec TrimFacts.

Lemma tiles_snoc (cs : list chunk) (c : chunk) (a b : nat) :
  tiles cs a b -> startLine c = b -> b <= endLine c ->
  tiles (cs ++ [c]) a (S (endLine c)).
Proof.
  revert a. induction cs as [|x cs IH]; simpl; intros a H Hs He.
  - subst. auto.
  - destruct H as [H1 [H2 H3]]. auto.
Qed.

Lemma tokensOf_app (p q : list jsstring) : tokensOf (p ++ q) = tokensOf p + tokensOf q.
Proof. induction p as [|l p IH]; simpl; [reflexivity | rewrite IH; lia]. Qed.

Lemma skipn_cons_nth {A : Type} (l : list A) (j : nat) (x : A) (r : list A) :
  skipn j l = x :: r ->
  nth_error l j = Some x /\ skipn (S j) l = r /\ j < length l.
Proof.
  revert j. induction l as [|y l IH]; intros [|j]; simpl; try discriminate.
  - intros [= -> ->]. repeat split. lia.
  - intros H. destruct (IH j H) as [H1 [H2 H3]]. repeat split; auto. lia.
Qed.

Lemma nth_skipn {A : Type} (l : list A) (i : nat) (x : A) :
  nth_error l i = Some x -> skipn i l = x :: skipn (S i) l.
Proof.
  revert i. induction l as [|y l IH]; intros [|i]; simpl; try discriminate.
  - now intros [= ->].
  - intros H. now rewrite (IH i H).
Qed.

Lemma firstn_snoc {A : Type} (l : list A) (i : nat) (x : A) :
  nth_error l i = Some x -> firstn (S i) l = firstn i l ++ [x].
Proof.
  revert i. induction l as [|y l IH]; intros [|i]; simpl; try discriminate.
  - now intros [= ->].
  - intros H. now rewrite <- (IH i H).
Qed.

Section Scan.

Variable lines : list jsstring.

(** No flush inside the document finds only white space pending. *)
Hypothesis blank_blocks_small : blankBlocksSmall lines.

Local Abbreviation Inv := (ChunkerSpec.Inv lines).

Lemma inv_length (i : nat) (s : state) :
  i <= length lines -> Inv i s ->
  chunkStartLine s + length (currentChunk s) = i + 1.
Proof.
  intros Hi [Hs _ Hp _]. rewrite Hp, length_skipn, length_firstn. lia.
Qed.

Lemma inv_block (i : nat) (s : state) :
  Inv i s ->
  currentChunk s
  = firstn (i - (chunkStartLine s - 1)) (skipn (chunkStartLine s - 1) lines).
Proof.
  intros [_ _ Hp _]. rewrite Hp. apply skipn_firstn_comm.
Qed.

Lemma pending_not_blank (s : state) :
  0 < currentTokens s -> currentTokens s = tokensOf (currentChunk s) ->
  forallb isBlankLine (currentChunk s) = false ->
  hasText s.
Proof.
  intros Hpos Htok Hnb. split.
  - intros E. rewrite Htok, E in Hpos. simpl in Hpos. lia.
  - intros E. apply trim_nil in E. rewrite allWs_join in E.
    assert (Hb : forallb isBlankLine (currentChunk s) = true); [|congruence].
    rewrite forallb_forall in E |- *. intros l Hl.
    rewrite isBlankLine_allWs. now apply E.
Qed.

Lemma target_has_text (i : nat) (s : state) :
  Inv i s -> TARGET_CHUNK_SIZE <= currentTokens s -> hasText s.
Proof.
  intros HI Ht. pose proof (inv_tokens lines i s HI) as Htok.
  apply pending_not_blank; [unfold TARGET_CHUNK_SIZE in Ht; lia | exact Htok |].
  destruct (forallb isBlankLine (currentChunk s)) eqn:E; [|reflexivity]. exfalso.
  rewrite (inv_block i s HI) in E, Htok.
  pose proof (proj1 blank_blocks_small _ _ E). lia.
Qed.

Lemma heading_has_text (i : nat) (line : jsstring) (s : state) :
  Inv i s -> nth_error lines i = Some line -> isHeading line = true ->
  MIN_CHUNK_SIZE <= currentTokens s -> hasText s.
Proof.
  intros HI Hnth Hh Ht. pose proof (inv_tokens lines i s HI) as Htok.
  apply pending_not_blank; [unfold MIN_CHUNK_SIZE in Ht; lia | exact Htok |].
  destruct (forallb isBlankLine (currentChunk s)) eqn:E; [|reflexivity]. exfalso.
  rewrite (inv_block i s HI) in E, Htok.
  assert (Hi : chunkStartLine s - 1 + (i - (chunkStartLine s - 1)) = i).
  { destruct HI as [Hs _ _ _]. lia. }
  pose proof (proj2 blank_blocks_small (chunkStartLine s - 1) (i - (chunkStartLine s - 1))
                line E) as H.
  rewrite Hi in H. specialize (H Hnth Hh). lia.
Qed.

Lemma flush_keeps (next : option nat) (s : state) :
  currentChunk s <> [] -> trim (join LF (currentChunk s)) <> [] ->
  flushChunk next s
  = mkState
      (chunks s ++
       [mkChunk (trim (join LF (currentChunk s))) (chunkStartLine s)
          (chunkStartLine s + length (currentChunk s) - 1)
          (Utils.estimateTokens (trim (join LF (currentChunk s))))])
      [] 0
      (match next with
       | Some n => n
       | None => chunkStartLine s + length (currentChunk s) - 1 + 1
       end).
Proof.
  intros Hp Ht. unfold flushChunk.
  destruct (currentChunk s) as [|l p] eqn:E; [congruence|].
  cbn [length Nat.eqb].
  destruct (trim (join LF (l :: p))) as [|c t] eqn:T; [congruence|].
  reflexivity.
Qed.

Lemma flush_inv (i : nat) (s : state) :
  i <= length lines -> Inv i s -> hasText s ->
  Inv i (flushChunk (Some (i + 1)) s).
Proof.
  intros Hi HI [Hp Ht].
  rewrite (flush_keeps _ s Hp Ht).
  pose proof (inv_length i s Hi HI) as Hlen.
  assert (0 < length (currentChunk s)) by (destruct (currentChunk s); simpl; [congruence | lia]).
  destruct HI as [Hs Htiles Hpend Htok].
  constructor; cbn [chunkStartLine chunks currentChunk currentTokens].
  - lia.
  - replace (i + 1) with (S (chunkStartLine s + length (currentChunk s) - 1)) by lia.
    match goal with
    | |- tiles (_ ++ [?c]) _ _ =>
        apply (tiles_snoc (chunks s) c 1 (chunkStartLine s)); simpl;
        [exact Htiles | reflexivity | lia]
    end.
  - symmetry. apply skipn_all2. rewrite length_firstn. lia.
  - reflexivity.
Qed.

Lemma flush_target_inv (i : nat) (s : state) :
  i <= length lines -> Inv i s ->
  Inv i (if TARGET_CHUNK_SIZE <=? currentTokens s then flushChunk (Some (i + 1)) s else s).
Proof.
  intros Hi HI.
  destruct (Nat.leb_spec TARGET_CHUNK_SIZE (currentTokens s)) as [Htarget|]; [|exact HI].
  apply flush_inv; [exact Hi | exact HI | exact (target_has_text i s HI Htarget)].
Qed.

Lemma push_inv (i : nat) (line : jsstring) (s : state) :
  nth_error lines i = Some line -> Inv i s -> Inv (S i) (pushLine line s).
Proof.
  intros Hnth [Hs Htiles Hpend Htok].
  constructor; cbn [pushLine chunkStartLine chunks currentChunk currentTokens].
  - lia.
  - exact Htiles.
  - rewrite (firstn_snoc lines i line Hnth), skipn_app, length_firstn.
    assert (i < length lines) by (apply nth_error_Some; congruence).
    replace (chunkStartLine s - 1 - Nat.min i (length lines)) with 0 by lia.
    now rewrite Hpend.
  - rewrite tokensOf_app, Htok. simpl. lia.
Qed.

(** The inner loop stops at the next fence line or at the end; the lines it
    passes are not fence lines. *)
Lemma fenceBody_inv (rest : list jsstring) :
  forall j s j' s',
    skipn j lines = rest -> j <= length lines -> Inv j s ->
    fenceBody rest j s = (j', s') ->
    j <= j' <= length lines /\ Inv j' s' /\
    length (filter isCodeFence (skipn j' lines)) = length (filter isCodeFence rest) /\
    (j' < length lines ->
     exists closing, nth_error lines j' = Some closing /\ isCodeFence closing = true).
Proof.
  induction rest as [|l rest IH]; intros j s j' s' Hskip Hj HI; simpl.
  - intros [= <- <-]. apply skipn_all_iff in Hskip.
    split; [lia|]. split; [exact HI|]. split; [|intros; lia].
    now rewrite (skipn_all2 lines Hskip).
  - destruct (skipn_cons_nth lines j l rest Hskip) as [Hnth [Hnext Hlt]].
    destruct (isCodeFence l) eqn:Hf.
    + intros [= <- <-]. split; [lia|]. split; [exact HI|]. split.
      * rewrite Hskip. simpl. now rewrite Hf.
      * intros _. exists l. auto.
    + intros Hrun.
      destruct (IH (S j) (pushLine l s) j' s' Hnext Hlt (push_inv j l s Hnth HI) Hrun)
        as [Hle [HI' [Hcount Hclose]]].
      split; [lia|]. split; [exact HI'|]. split; [|exact Hclose].
      rewrite Hcount. reflexivity.
Qed.

Lemma loopBody_inv (i : nat) (line : jsstring) (s : state) (i' : nat) (s' : state) :
  nth_error lines i = Some line ->
  Inv i s -> evenFences (skipn i lines) ->
  loopBody lines i line s = (i', s') ->
  i <= i' < length lines /\ Inv (S i') s' /\ evenFences (skipn (S i') lines).
Proof.
  intros Hnth HI Heven.
  assert (Hi : i < length lines) by (apply nth_error_Some; congruence).
  unfold loopBody.
  set (s1 := if isHeading line && (0 <? length (currentChunk s))
                && (MIN_CHUNK_SIZE <=? currentTokens s)
             then flushChunk (Some (i + 1)) s else s).
  assert (HI1 : Inv i s1).
  { unfold s1.
    destruct (isHeading line) eqn:Hh; cbn [andb]; [|exact HI].
    destruct (0 <? length (currentChunk s)); cbn [andb]; [|exact HI].
    destruct (Nat.leb_spec MIN_CHUNK_SIZE (currentTokens s)) as [Hmin|]; [|exact HI].
    apply flush_inv; [lia | exact HI |].
    exact (heading_has_text i line s HI Hnth Hh Hmin). }
  pose proof (push_inv i line s1 Hnth HI1) as HI2.
  rewrite (nth_skipn lines i line Hnth) in Heven. unfold evenFences in Heven.
  cbn [filter] in Heven.
  destruct (isCodeFence line) eqn:Hfence.
  - replace (i + 1) with (S i) by lia.
    destruct (fenceBody (skipn (S i) lines) (S i) (pushLine line s1)) as [j s3] eqn:Hbody.
    destruct (fenceBody_inv _ _ _ _ _ eq_refl Hi HI2 Hbody)
      as [Hj [HI3 [Hcount Hclose]]].
    cbn [length] in Heven. rewrite <- Hcount in Heven.
    assert (Hjlt : j < length lines).
    { destruct (Nat.lt_ge_cases j (length lines)) as [|Hge]; [assumption|].
      rewrite (skipn_all2 lines Hge) in Heven. discriminate. }
    destruct (Hclose Hjlt) as [closing [Hnj Hcf]]. rewrite Hnj.
    pose proof (push_inv j closing s3 Hnj HI3) as HI4.
    intros [= <- <-]. split; [lia|]. split.
    + replace (j + 2) with (S j + 1) by lia.
      apply (flush_target_inv (S j) (pushLine closing s3)); [lia | exact HI4].
    + rewrite (nth_skipn lines j closing Hnj) in Heven. cbn [filter] in Heven.
      rewrite Hcf in Heven. cbn [length] in Heven.
      unfold evenFences. rewrite Nat.even_succ_succ in Heven. exact Heven.
  - assert (HI3 : Inv (S i)
             (if TARGET_CHUNK_SIZE <=? currentTokens (pushLine line s1) then
                if isBlankLine line || isHorizontalRule line || (i =? length lines - 1)
                then flushChunk (Some (i + 2)) (pushLine line s1) else pushLine line s1
              else pushLine line s1)).
    { destruct (TARGET_CHUNK_SIZE <=? currentTokens (pushLine line s1)) eqn:Ht; [|exact HI2].
      destruct (isBlankLine line || isHorizontalRule line || (i =? length lines - 1));
        [|exact HI2].
      replace (i + 2) with (S i + 1) by lia.
      apply flush_inv; [lia | exact HI2 |].
      apply Nat.leb_le in Ht. exact (target_has_text (S i) _ HI2 Ht). }
    intros [= <- <-]. split; [lia|]. split; [exact HI3 | exact Heven].
Qed.

Lemma forLoop_inv (fuel : nat) :
  forall i s,
    length lines - i <= fuel -> i <= length lines ->
    Inv i s -> evenFences (skipn i lines) ->
    Inv (length lines) (forLoop fuel lines i s).
Proof.
  induction fuel as [|fuel IH]; intros i s Hfuel Hi HI Heven; simpl.
  - replace (length lines) with i by lia. exact HI.
  - destruct (nth_error lines i) as [line|] eqn:Hnth.
    + destruct (loopBody lines i line s) as [i' s'] eqn:Hbody.
      destruct (loopBody_inv i line s i' s' Hnth HI Heven Hbody) as [Hle [HI' Heven']].
      apply IH; [lia | lia | exact HI' | exact Heven'].
    + apply nth_error_None in Hnth. replace (length lines) with i by lia. exact HI.
Qed.

Lemma init_inv : Inv 0 init.
Proof. constructor; simpl; [lia | reflexivity | reflexivity | reflexivity]. Qed.

Lemma last_skipn {A : Type} (n : nat) (l : list A) (d : A) :
  skipn n l <> [] -> last (skipn n l) d = last l d.
Proof.
  revert n. induction l as [|x l IH]; intros [|n]; simpl; try congruence.
  intros H. rewrite (IH n H). destruct l; [|reflexivity].
  rewrite skipn_nil in H. congruence.
Qed.

Lemma last_in {A : Type} (l : list A) (d : A) : l <> [] -> In (last l d) l.
Proof.
  induction l as [|x [|y l] IH]; [congruence | now left |].
  intros _. right. apply IH. discriminate.
Qed.

(** The ranges after the final flush: they tile the document up to a last
    run of whitespace-only lines. *)
Lemma final_flush (s : state) :
  Inv (length lines) s ->
  exists m,
    m <= length lines /\
    tiles (chunks (flushChunk None s)) 1 (S m) /\
    (forall l, In l (skipn m lines) -> isBlankLine l = true) /\
    (isBlankLine (last lines []) = false -> m = length lines).
Proof.
  intros HI. pose proof (inv_length _ s (Nat.le_refl _) HI) as Hlen.
  destruct HI as [Hs Htiles Hpend Htok]. rewrite firstn_all in Hpend.
  destruct (currentChunk s) as [|l0 p] eqn:Ep.
  - exists (length lines). simpl in Hlen.
    unfold flushChunk. rewrite Ep. cbn [length Nat.eqb].
    split; [lia|]. split; [replace (S (length lines)) with (chunkStartLine s) by lia; exact Htiles|].
    split; [rewrite skipn_all; intros l [] | reflexivity].
  - destruct (trim (join LF (l0 :: p))) as [|c t] eqn:Et.
    + exists (chunkStartLine s - 1).
      unfold flushChunk. rewrite Ep. cbn [length Nat.eqb]. rewrite Et.
      cbn [length Nat.eqb chunks].
      split; [lia|]. split; [replace (S (chunkStartLine s - 1)) with (chunkStartLine s) by lia;
                              exact Htiles|].
      apply trim_nil in Et. rewrite allWs_join, forallb_forall in Et.
      split.
      * intros l Hl. rewrite <- Hpend in Hl. rewrite isBlankLine_allWs. now apply Et.
      * intros Hlast. exfalso.
        assert (Hne : skipn (chunkStartLine s - 1) lines <> []) by (rewrite <- Hpend; discriminate).
        assert (Hin : In (last lines []) (skipn (chunkStartLine s - 1) lines)).
        { rewrite <- (last_skipn (chunkStartLine s - 1) lines [] Hne).
          apply last_in. exact Hne. }
        rewrite <- Hpend in Hin.
        apply Et in Hin. rewrite <- isBlankLine_allWs in Hin. congruence.
    + exists (length lines).
      rewrite flush_keeps by (rewrite Ep; try rewrite Et; discriminate).
      cbn [chunks]. rewrite Ep.
      split; [lia|]. split.
      * replace (S (length lines)) with (S (chunkStartLine s + length (l0 :: p) - 1)) by lia.
        match goal with
        | |- tiles (_ ++ [?c]) _ _ =>
            apply (tiles_snoc (chunks s) c 1 (chunkStartLine s)); simpl in *;
            [exact Htiles | reflexivity | lia]
        end.
      * split; [rewrite skipn_all; intros l [] | reflexivity].
Qed.

End Scan.
End ChunkerFacts.

Module ChunkFileFacts.

Lemma mapi_chunks (path : jsstring) (i : nat) (l : list chunk) :
  map fc_chunk (mapi (fun c index => mkFileChunk c path index) i l) = l.
Proof.
  revert i. induction l as [|c l IH]; intros i; simpl; [reflexivity|].
  now rewrite IH.
Qed.

Lemma mapi_indices (path : jsstring) (i : nat) (l : list chunk) :
  map chunkIndex (mapi (fun c index => mkFileChunk c path index) i l) = seq i (length l).
Proof.
  revert i. induction l as [|c l IH]; intros i; simpl; [reflexivity|].
  now rewrite IH.
Qed.

Lemma fenceBody_ge (rest : list jsstring) :
  forall j s, j <= fst (fenceBody rest j s).
Proof.
  induction rest as [|l rest IH]; intros j s; simpl; [lia|].
  destruct (isCodeFence l); simpl; [lia|].
  specialize (IH (S j) (pushLine l s)). lia.
Qed.

Lemma loopBody_ge (lines : list jsstring) (i : nat) (line : jsstring) (s : state) :
  i <= fst (loopBody lines i line s).
Proof.
  unfold loopBody. destruct (isCodeFence line); [|simpl; lia].
  pose proof (fenceBody_ge (skipn (i + 1) lines) (i + 1)
                (pushLine line
                   (if isHeading line && (0 <? length (currentChunk s))
                       && (MIN_CHUNK_SIZE <=? currentTokens s)
                    then flushChunk (Some (i + 1)) s else s))) as H.
  destruct (fenceBody _ _ _) as [j s3]. simpl in H.
  destruct (nth_error lines j); simpl; lia.
Qed.

(** The loop ends because [i] reaches [lines.length], not because the fuel
    runs out: more fuel changes nothing. *)
Lemma forLoop_fuel (lines : list jsstring) (fuel : nat) :
  forall fuel' i s,
    length lines - i <= fuel -> length lines - i <= fuel' ->
    forLoop fuel lines i s = forLoop fuel' lines i s.
Proof.
  induction fuel as [|fuel IH]; intros fuel' i s H H'.
  - assert (Hnone : nth_error lines i = None) by (apply nth_error_None; lia).
    destruct fuel'; simpl; [reflexivity | now rewrite Hnone].
  - destruct fuel' as [|fuel'].
    + assert (Hnone : nth_error lines i = None) by (apply nth_error_None; lia).
      simpl. now rewrite Hnone.
    + simpl. destruct (nth_error lines i) as [line|] eqn:Hnth; [|reflexivity].
      pose proof (loopBody_ge lines i line s) as Hge.
      destruct (loopBody lines i line s) as [i' s']. simpl in Hge.
      apply IH; lia.
Qed.

End ChunkFileFacts.

Section ChunkRanges.
Import ChunkerSpec ChunkerFacts ChunkFileFacts.

(** C5 (amended). For a document whose code fences are all closed and in
    which no flush finds only white space pending (no block of
    whitespace-only lines adds up to 300 tokens, and none that a heading
    follows adds up to 100), the line ranges of the chunks, in sequence
    order, start at line 1 and follow each other without a gap or an overlap
    up to a line [m]; the lines after [m] are all blank, and [m] is the last
    line of the document when that line is not blank.  The chunks of
    [chunkFile] are those of [chunkMarkdown], numbered 0, 1, 2, ... *)
Theorem chunk_ranges_tile (path content : jsstring) :
  let lines := splitOn 10 content in
  fencesClosed lines ->
  blankBlocksSmall lines ->
  (exists m,
     m <= length lines /\
     tiles (chunkMarkdown content) 1 (S m) /\
     (forall l, In l (skipn m lines) -> isBlankLine l = true) /\
     (isBlankLine (last lines []) = false -> m = length lines)) /\
  map fc_chunk (chunkFile path content) = chunkMarkdown content /\
  map chunkIndex (chunkFile path content) = seq 0 (length (chunkMarkdown content)).
Proof.
  intros lines Hclosed Hblank. split; [|split].
  - unfold chunkMarkdown, chunkLines. fold lines.
    apply (final_flush lines).
    apply (forLoop_inv lines Hblank); [lia | lia | apply init_inv | exact Hclosed].
  - apply mapi_chunks.
  - apply mapi_indices.
Qed.

End ChunkRanges.

Import ChunkerSpec.

Lemma block_clipped (lines : list jsstring) (i n : nat) :
  firstn n (skipn i lines)
  = firstn (Nat.min n (length lines)) (skipn (Nat.min i (length lines)) lines).
Proof.
  destruct (Nat.le_ge_cases i (length lines)) as [Hi|Hi].
  - rewrite (Nat.min_l i) by exact Hi.
    destruct (Nat.le_ge_cases n (length lines)) as [Hn|Hn].
    + now rewrite Nat.min_l.
    + rewrite (Nat.min_r n) by exact Hn.
      rewrite !firstn_all2; [reflexivity | |]; rewrite length_skipn; lia.
  - rewrite (Nat.min_r i) by exact Hi.
    rewrite (skipn_all2 lines Hi), skipn_all. now rewrite !firstn_nil.
Qed.

Lemma blocksOk_at (lines : list jsstring) (i n : nat) :
  blocksOk lines = true -> i <= length lines -> n <= length lines ->
  blockOk lines i n = true.
Proof.
  unfold blocksOk. rewrite forallb_forall. intros H Hi Hn.
  specialize (H i). rewrite forallb_forall in H.
  apply H; apply in_seq; lia.
Qed.

(** The check decides the condition of the theorem. *)
Lemma blocksOk_small (lines : list jsstring) :
  blocksOk lines = true -> blankBlocksSmall lines.
Proof.
  intros H. split.
  - intros i n Hb. unfold blankBlock in Hb. rewrite block_clipped in Hb |- *.
    pose proof (blocksOk_at lines (Nat.min i (length lines)) (Nat.min n (length lines)) H
                  (Nat.le_min_r _ _) (Nat.le_min_r _ _)) as Hok.
    unfold blockOk in Hok. rewrite Hb in Hok. cbn [negb orb] in Hok.
    apply andb_true_iff in Hok. destruct Hok as [Hok _]. now apply Nat.ltb_lt in Hok.
  - intros i n heading Hb Hnth Hh. unfold blankBlock in Hb.
    assert (Hlt : i + n < length lines) by (apply nth_error_Some; congruence).
    pose proof (blocksOk_at lines i n H) as Hok.
    unfold blockOk in Hok. rewrite Hb, Hnth, Hh in Hok. cbn [negb orb] in Hok.
    specialize (Hok ltac:(lia) ltac:(lia)).
    apply andb_true_iff in Hok. destruct Hok as [_ Hok]. now apply Nat.ltb_lt in Hok.
Qed.

Lemma chunk_ranges_tile_witness :
  existsb (fun l => isBlankLine l && negb (length l =? 0)) (splitOn 10 crlfDocument) = true /\
  map (fun c => (startLine c, endLine c)) (chunkMarkdown crlfDocument) = [(1, 2); (3, 4)] /\
  tiles (chunkMarkdown crlfDocument) 1 5 /\
  map chunkIndex (chunkFile (str "/notes/a.md") crlfDocument) = [0; 1].
Proof.
  destruct (chunk_ranges_tile (str "/notes/a.md") crlfDocument)
    as [[m [_ [Htiles [_ Hlast]]]] [_ Hindex]].
  - vm_compute. reflexivity.
  - apply blocksOk_small. vm_compute. reflexivity.
  - split; [vm_compute; reflexivity|]. split; [vm_compute; reflexivity|].
    split.
    + rewrite (Hlast ltac:(vm_compute; reflexivity)) in Htiles.
      replace 5 with (S (length (splitOn 10 crlfDocument))) by (vm_compute; reflexivity).
      exact Htiles.
    + rewrite Hindex. vm_compute. reflexivity.
Defined.

(** C5, as stated, fails.  A paragraph of 300 tokens followed by two empty
    lines: the chunk is flushed at the first empty line, the second one is
    pending at the end and is discarded, so line 3 of 3 is in no range.  A
    line of 1200 spaces followed by text: the blank pending chunk is
    discarded at the boundary without moving the start line, and the only
    range, 1..1, is that of line 2.  A line of 400 spaces followed by a
    heading: the blank pending chunk is discarded at the heading, and the
    only range, 1..2, is that of lines 2 and 3. *)
Lemma chunk_ranges_counterexample :
  (length (splitOn 10 trailingBlankDocument) = 3 /\
   existsb isCodeFence (splitOn 10 trailingBlankDocument) = false /\
   existsb isHeading (splitOn 10 trailingBlankDocument) = false /\
   map (fun c => (startLine c, endLine c)) (chunkMarkdown trailingBlankDocument) = [(1, 2)] /\
   ~ tiles (chunkMarkdown trailingBlankDocument) 1 (S 3)) /\
  (length (splitOn 10 leadingSpacesDocument) = 2 /\
   existsb isCodeFence (splitOn 10 leadingSpacesDocument) = false /\
   existsb isHeading (splitOn 10 leadingSpacesDocument) = false /\
   map (fun c => (startLine c, endLine c)) (chunkMarkdown leadingSpacesDocument) = [(1, 1)] /\
   map text (chunkMarkdown leadingSpacesDocument) = [str "text"] /\
   ~ tiles (chunkMarkdown leadingSpacesDocument) 1 (S 2)) /\
  (length (splitOn 10 spacesBeforeHeadingDocument) = 3 /\
   existsb isCodeFence (splitOn 10 spacesBeforeHeadingDocument) = false /\
   map (fun c => (startLine c, endLine c)) (chunkMarkdown spacesBeforeHeadingDocument)
   = [(1, 2)] /\
   map text (chunkMarkdown spacesBeforeHeadingDocument)
   = [str "# Title" ++ [10]%N ++ str "text"] /\
   ~ tiles (chunkMarkdown spacesBeforeHeadingDocument) 1 (S 3)).
Proof.
  split; [|split].
  - split; [vm_compute; reflexivity|]. split; [vm_compute; reflexivity|].
    split; [vm_compute; reflexivity|]. split; [vm_compute; reflexivity|].
    intros H.
    assert (E : map (fun c => (startLine c, endLine c))
                    (chunkMarkdown trailingBlankDocument) = [(1, 2)])
      by (vm_compute; reflexivity).
    destruct (chunkMarkdown trailingBlankDocument) as [|c [|c' r]];
      try discriminate.
    simpl in H, E. injection E as E1 E2. lia.
  - split; [vm_compute; reflexivity|]. split; [vm_compute; reflexivity|].
    split; [vm_compute; reflexivity|]. split; [vm_compute; reflexivity|].
    split; [vm_compute; reflexivity|].
    intros H.
    assert (E : map (fun c => (startLine c, endLine c))
                    (chunkMarkdown leadingSpacesDocument) = [(1, 1)])
      by (vm_compute; reflexivity).
    destruct (chunkMarkdown leadingSpacesDocument) as [|c [|c' r]];
      try discriminate.
    simpl in H, E. injection E as E1 E2. lia.
  - split; [vm_compute; reflexivity|]. split; [vm_compute; reflexivity|].
    split; [vm_compute; reflexivity|]. split; [vm_compute; reflexivity|].
    intros H.
    assert (E : map (fun c => (startLine c, endLine c))
                    (chunkMarkdown spacesBeforeHeadingDocument) = [(1, 2)])
      by (vm_compute; reflexivity).
    destruct (chunkMarkdown spacesBeforeHeadingDocument) as [|c [|c' r]];
      try discriminate.
    simpl in H, E. injection E as E1 E2. lia.
Qed.

(** C4: what the code does for a fence that is never closed.  The inner loop
    appends the remaining lines, but [i] is only moved when a closing fence
    was found, so the outer loop reads the same lines again.  In a small
    document the one chunk holds the line after the fence twice and ends at
    line 3 of 2; when the fence chunk is flushed at the target size, the
    next chunk repeats its lines and the two ranges overlap. *)
Theorem unterminated_fence_is_rescanned :
  chunkMarkdown (str "```" ++ [10]%N ++ str "a")
  = [mkChunk (str "```" ++ [10]%N ++ str "a" ++ [10]%N ++ str "a") 1 3 2] /\
  length (splitOn 10 (str "```" ++ [10]%N ++ str "a")) = 2 /\
  let body := repeat 97%N 1200 in
  chunkMarkdown (str "```" ++ [10]%N ++ body)
  = [mkChunk (str "```" ++ [10]%N ++ body) 1 2 301; mkChunk body 2 2 300].
Proof.
  split; [vm_compute; reflexivity|]. split; vm_compute; reflexivity.
Qed.

(** ** The indexer (src/indexer.js) *)

Module StoreFacts.
Import StoreSpec ListFacts.

Lemma str_eqb_eq (a b : jsstring) : str_eqb a b = true <-> a = b.
Proof.
  unfold str_eqb. destruct (list_eq_dec N.eq_dec a b); split; congruence.
Qed.

Lemma str_eqb_refl (a : jsstring) : str_eqb a a = true.
Proof. now apply str_eqb_eq. Qed.

Lemma in_files (p : jsstring) (files : list jsstring) :
  existsb (str_eqb p) files = true <-> In p files.
Proof.
  rewrite existsb_exists. split.
  - intros [x [Hx E]]. apply str_eqb_eq in E. now subst.
  - intros H. exists p. split; [exact H | apply str_eqb_refl].
Qed.

Lemma memZ_In (x : Z) (l : list Z) : memZ x l = true <-> In x l.
Proof.
  unfold memZ. rewrite existsb_exists. split.
  - intros [y [Hy E]]. apply Z.eqb_eq in E. now subst.
  - intros H. exists x. split; [exact H | apply Z.eqb_refl].
Qed.

Lemma maxId_ge (ids : list Z) (x : Z) : In x ids -> (x <= maxId ids)%Z.
Proof.
  induction ids as [|y ids IH]; simpl; [tauto|].
  intros [->|H]; [lia|]. specialize (IH H). lia.
Qed.

Lemma nextRowid_fresh (seq : Z) (ids : list Z) :
  (seq < nextRowid seq ids)%Z /\ forall x, In x ids -> (x < nextRowid seq ids)%Z.
Proof.
  unfold nextRowid. split; [lia|]. intros x Hx. apply maxId_ge in Hx. lia.
Qed.

Lemma filter_all {A : Type} (p : A -> bool) (l : list A) :
  (forall x, In x l -> p x = true) -> filter p l = l.
Proof.
  induction l as [|x l IH]; simpl; [reflexivity|]. intros H.
  rewrite (H x) by now left. rewrite IH; [reflexivity|]. intros y Hy. apply H. now right.
Qed.

Lemma filter_comm {A : Type} (p q : A -> bool) (l : list A) :
  filter p (filter q l) = filter q (filter p l).
Proof.
  induction l as [|x l IH]; simpl; [reflexivity|].
  destruct (p x) eqn:Ep, (q x) eqn:Eq; simpl; rewrite ?Ep, ?Eq, IH; reflexivity.
Qed.

Lemma find_filter {A : Type} (p q : A -> bool) (l : list A) :
  find (fun x => p x && q x) l = find q (filter p l).
Proof.
  induction l as [|x l IH]; simpl; [reflexivity|].
  destruct (p x); simpl; [destruct (q x); auto | auto].
Qed.

Lemma find_app {A : Type} (q : A -> bool) (l : list A) (x : A) :
  find q (l ++ [x]) =
  match find q l with
  | Some y => Some y
  | None => if q x then Some x else None
  end.
Proof.
  induction l as [|y l IH]; simpl; [reflexivity|].
  destruct (q y); [reflexivity | exact IH].
Qed.

Lemma find_filter_keep {A : Type} (q g : A -> bool) (l : list A) :
  (forall x, In x l -> q x = true -> g x = true) ->
  find q (filter g l) = find q l.
Proof.
  induction l as [|x l IH]; simpl; [reflexivity|]. intros H.
  destruct (g x) eqn:Eg; simpl.
  - destruct (q x); [reflexivity|]. apply IH. intros y Hy. apply H. now right.
  - destruct (q x) eqn:Eq.
    + rewrite (H x) in Eg by (auto; now left). discriminate.
    + apply IH. intros y Hy. apply H. now right.
Qed.

Lemma find_none_iff {A : Type} (q : A -> bool) (l : list A) :
  find q l = None <-> forall x, In x l -> q x = false.
Proof.
  split; [apply find_none|].
  induction l as [|y l IH]; simpl; [reflexivity|]. intros H.
  rewrite (H y) by now left. apply IH. intros x Hx. apply H. now right.
Qed.

Lemma NoDup_map_inj {A B : Type} (f : A -> B) (l : list A) (a b : A) :
  NoDup (map f l) -> In a l -> In b l -> f a = f b -> a = b.
Proof.
  induction l as [|x l IH]; simpl; [tauto|]. intros H Ha Hb E.
  inversion H as [|? ? Hx Hl]; subst.
  destruct Ha as [->|Ha], Hb as [->|Hb]; auto.
  - exfalso. apply Hx. rewrite E. now apply in_map.
  - exfalso. apply Hx. rewrite <- E. now apply in_map.
Qed.

Lemma NoDup_map_snoc {A B : Type} (f : A -> B) (l : list A) (x : A) :
  NoDup (map f l) -> ~ In (f x) (map f l) -> NoDup (map f (l ++ [x])).
Proof.
  intros Hl Hx. rewrite map_app. simpl.
  apply NoDup_rev in Hl. rewrite <- (rev_involutive (map f l ++ [f x])).
  apply NoDup_rev. rewrite rev_app_distr. simpl.
  constructor; [|exact Hl]. now rewrite <- in_rev.
Qed.

Lemma Forall_filter {A : Type} (P : A -> Prop) (p : A -> bool) (l : list A) :
  Forall P l -> Forall P (filter p l).
Proof.
  rewrite !Forall_forall. intros H x Hx. apply filter_In in Hx. now apply H.
Qed.

(** *** DELETE with its cascades *)

Lemma delete_keys (id : Z) (d : db) : keys d -> keys (deleteFileMetadata id d).
Proof.
  intros [K1 K2 K3 K4 K5 K6]. constructor; cbn.
  - exact K1.
  - now apply NoDup_map_filter.
  - now apply NoDup_map_filter.
  - now apply NoDup_map_filter.
  - now apply Forall_filter.
  - now apply Forall_filter.
Qed.

Lemma delete_rowsOf (id cid : Z) (d : db) :
  rowsOf cid (deleteFileMetadata id d)
  = filter (fun f => negb (fm_id f =? id)%Z) (rowsOf cid d).
Proof. unfold rowsOf. cbn. apply filter_comm. Qed.

Lemma delete_rowsOf_other (id cid : Z) (d : db) :
  (forall r, In r (rowsOf cid d) -> fm_id r <> id) ->
  rowsOf cid (deleteFileMetadata id d) = rowsOf cid d.
Proof.
  intros H. rewrite delete_rowsOf. apply filter_all.
  intros r Hr. apply negb_true_iff, Z.eqb_neq. now apply H.
Qed.

(** *** INSERT *)

Lemma insertFile_keys (now cid : Z) (p h : jsstring) (d : db) :
  keys d ->
  (forall f, In f (db_file_metadata d) ->
             ~ (fm_collection_id f = cid /\ fm_file_path f = p)) ->
  keys (snd (insertFileMetadata now cid p h d)).
Proof.
  intros [K1 K2 K3 K4 K5 K6] Hfresh.
  destruct (nextRowid_fresh (seq_file_metadata d) (map fm_id (db_file_metadata d)))
    as [Hseq Hids].
  constructor; cbn.
  - exact K1.
  - apply NoDup_map_snoc; [exact K2|]. cbn. intros Hin. apply Hids in Hin. lia.
  - apply NoDup_map_snoc; [exact K3|]. cbn. intros Hin.
    apply in_map_iff in Hin. destruct Hin as [f [E Hf]].
    injection E as E1 E2. now apply (Hfresh f Hf).
  - exact K4.
  - apply Forall_app. split.
    + eapply Forall_impl; [|exact K5]. cbn. intros f Hf. lia.
    + constructor; [cbn; lia | constructor].
  - exact K6.
Qed.

Lemma insertChunk_keys (fmid : Z) (c : fileChunk) (d : db) :
  keys d -> keys (insertChunk fmid c d).
Proof.
  intros [K1 K2 K3 K4 K5 K6].
  destruct (nextRowid_fresh (seq_chunks d) (map ch_id (db_chunks d))) as [Hseq Hids].
  constructor; cbn; try assumption.
  - apply NoDup_map_snoc; [exact K4|]. cbn. intros Hin. apply Hids in Hin. lia.
  - apply Forall_app. split.
    + eapply Forall_impl; [|exact K6]. cbn. intros f Hf. lia.
    + constructor; [cbn; lia | constructor].
Qed.

Lemma insertChunks_keys (fmid : Z) (cs : list fileChunk) (d : db) :
  keys d -> keys (fold_left (fun acc c => insertChunk fmid c acc) cs d).
Proof.
  revert d. induction cs as [|c cs IH]; intros d K; simpl; [exact K|].
  apply IH. now apply insertChunk_keys.
Qed.

Lemma insertChunks_file_metadata (fmid : Z) (cs : list fileChunk) (d : db) :
  db_file_metadata (fold_left (fun acc c => insertChunk fmid c acc) cs d)
  = db_file_metadata d /\
  db_collections (fold_left (fun acc c => insertChunk fmid c acc) cs d)
  = db_collections d.
Proof.
  revert d. induction cs as [|c cs IH]; intros d; simpl; [tauto|].
  destruct (IH (insertChunk fmid c d)) as [-> ->]. split; reflexivity.
Qed.

End StoreFacts.

Module IndexerFacts.
Import StoreSpec IndexerSpec ListFacts StoreFacts Indexer.

Lemma removeDeleted_spec (files : list jsstring) (snapshot : list file_metadata_row) :
  forall k d,
    removeDeleted files snapshot (k, d)
    = (addRemoved
         (length (filter (fun f => negb (existsb (str_eqb (fm_file_path f)) files)) snapshot)) k,
       deleteAll (filter (fun f => negb (existsb (str_eqb (fm_file_path f)) files)) snapshot) d).
Proof.
  unfold removeDeleted.
  induction snapshot as [|e snapshot IH]; intros k d; simpl.
  - destruct k. unfold addRemoved. simpl. now rewrite Nat.add_0_r.
  - destruct (negb (existsb (str_eqb (fm_file_path e)) files)); simpl.
    + rewrite IH. unfold addRemoved. simpl. f_equal. f_equal. lia.
    + apply IH.
Qed.

Lemma hasKey_true (cid : Z) (p : jsstring) (f : file_metadata_row) :
  hasKey cid p f = true <-> fm_collection_id f = cid /\ fm_file_path f = p.
Proof.
  unfold hasKey. rewrite andb_true_iff, Z.eqb_eq, str_eqb_eq. tauto.
Qed.

Section Disk.

Variable existsSync : jsstring -> bool.
Variable readFileSync : jsstring -> readResult.
Variable toStringUtf8 : Utils.buffer -> jsstring.
Variable hashContent : jsstring -> jsstring.
Variable pathJoin : jsstring -> jsstring -> jsstring.
Variable fgSync : jsstring -> list jsstring.

Local Abbreviation indexFile := (indexFile existsSync readFileSync toStringUtf8 hashContent).
Local Abbreviation indexFiles := (indexFiles existsSync readFileSync toStringUtf8 hashContent).
Local Abbreviation discoverFiles := (discoverFiles pathJoin fgSync).
Local Abbreviation indexCollection :=
  (indexCollection existsSync readFileSync toStringUtf8 hashContent pathJoin fgSync).
Local Abbreviation indexEach :=
  (indexEach existsSync readFileSync toStringUtf8 hashContent pathJoin fgSync).
Local Abbreviation indexCollections :=
  (indexCollections existsSync readFileSync toStringUtf8 hashContent pathJoin fgSync).
Local Abbreviation fileStep := (IndexerSpec.fileStep hashContent).
Local Abbreviation fileCurrent :=
  (IndexerSpec.fileCurrent existsSync readFileSync toStringUtf8 hashContent).
Local Abbreviation upToDate :=
  (IndexerSpec.upToDate existsSync readFileSync toStringUtf8 hashContent
     (Indexer.discoverFiles pathJoin fgSync)).
Local Abbreviation filesOf := (IndexerSpec.filesOf (Indexer.discoverFiles pathJoin fgSync)).

Lemma selectExisting_rows (cid : Z) (p : jsstring) (d : db) :
  selectExisting cid p d = find (fun f => str_eqb (fm_file_path f) p) (rowsOf cid d).
Proof. unfold selectExisting, rowsOf. apply find_filter. Qed.

Lemma selectExisting_some (cid : Z) (p : jsstring) (d : db) (e : file_metadata_row) :
  selectExisting cid p d = Some e ->
  In e (db_file_metadata d) /\ fm_collection_id e = cid /\ fm_file_path e = p.
Proof.
  unfold selectExisting. intros H. apply find_some in H.
  destruct H as [Hin Hk]. apply (hasKey_true cid p e) in Hk. tauto.
Qed.

Lemma selectExisting_none (cid : Z) (p : jsstring) (d : db) :
  selectExisting cid p d = None <->
  forall f, In f (db_file_metadata d) -> ~ (fm_collection_id f = cid /\ fm_file_path f = p).
Proof.
  unfold selectExisting. rewrite find_none_iff. split; intros H f Hf.
  - intros Hk. apply (hasKey_true cid p f) in Hk. specialize (H f Hf).
    unfold hasKey in Hk. congruence.
  - destruct (hasKey cid p f) eqn:E; [|exact E].
    apply hasKey_true in E. exfalso. now apply (H f Hf).
Qed.

Lemma indexFile_step (now cid : Z) (p : jsstring) (force : bool) (d : db) :
  fileStep now cid p d (fst (indexFile now cid p force d)) (snd (indexFile now cid p force d)).
Proof.
  unfold Indexer.indexFile.
  destruct (negb (existsSync p)); [apply StepSame; discriminate|].
  destruct (readFileSync p) as [bytes|msg]; [|apply StepSame; discriminate].
  destruct (readFileSafe toStringUtf8 bytes) as [content|]; [|apply StepBinary].
  destruct (match selectExisting cid p d with
            | Some e => str_eqb (fm_file_hash e) (hashContent content) && negb force
            | None => false
            end); [apply StepSame; discriminate|].
  destruct (insertFileMetadata now cid p (hashContent content)
              (deleteExisting (selectExisting cid p d) d)) as [id d2] eqn:E.
  pose proof (StepIndexed hashContent now cid p d content) as H. cbv zeta in H.
  rewrite E in H. exact H.
Qed.

Lemma deleteExisting_keys (ex : option file_metadata_row) (d : db) :
  keys d -> keys (deleteExisting ex d).
Proof. destruct ex; simpl; [apply delete_keys | auto]. Qed.

Lemma deleteExisting_no_key (cid : Z) (p : jsstring) (d : db) :
  keys d ->
  forall f, In f (db_file_metadata (deleteExisting (selectExisting cid p d) d)) ->
            ~ (fm_collection_id f = cid /\ fm_file_path f = p).
Proof.
  intros K f Hf [Hc Hp].
  destruct (selectExisting cid p d) as [e|] eqn:E.
  - apply selectExisting_some in E. destruct E as [He [Hec Hep]].
    cbn in Hf. apply filter_In in Hf. destruct Hf as [Hf Hid].
    apply negb_true_iff, Z.eqb_neq in Hid. apply Hid. f_equal.
    apply (NoDup_map_inj (fun f => (fm_collection_id f, fm_file_path f))
             (db_file_metadata d)); [apply (unique_file_path d K) | assumption.. |].
    cbn. congruence.
  - simpl in Hf. apply (proj1 (selectExisting_none cid p d) E f Hf). tauto.
Qed.

Lemma fileStep_keys (now cid : Z) (p : jsstring) (d : db) (r : fileResult) (d' : db) :
  keys d -> fileStep now cid p d r d' -> keys d'.
Proof.
  intros K [why _| |content]; [exact K | now apply deleteExisting_keys |].
  cbv zeta. apply insertChunks_keys, insertFile_keys.
  - now apply deleteExisting_keys.
  - now apply deleteExisting_no_key.
Qed.

Lemma deleteExisting_collections (ex : option file_metadata_row) (d : db) :
  db_collections (deleteExisting ex d) = db_collections d.
Proof. destruct ex; reflexivity. Qed.

Lemma fileStep_collections (now cid : Z) (p : jsstring) (d : db) (r : fileResult) (d' : db) :
  fileStep now cid p d r d' -> db_collections d' = db_collections d.
Proof.
  intros [why _| |content]; [reflexivity | apply deleteExisting_collections |].
  cbv zeta. rewrite (proj2 (insertChunks_file_metadata _ _ _)). cbn.
  apply deleteExisting_collections.
Qed.

(** The documents of another collection are not touched. *)
Lemma deleteExisting_frame (cid cid0 : Z) (p : jsstring) (d : db) :
  keys d -> cid <> cid0 ->
  rowsOf cid0 (deleteExisting (selectExisting cid p d) d) = rowsOf cid0 d.
Proof.
  intros K Hne. destruct (selectExisting cid p d) as [e|] eqn:E; [|reflexivity].
  apply selectExisting_some in E. destruct E as [He [Hec _]]. cbn [deleteExisting].
  apply delete_rowsOf_other. intros r Hr Hid.
  apply filter_In in Hr. destruct Hr as [Hr Hrc]. apply Z.eqb_eq in Hrc.
  assert (r = e) by (eapply NoDup_map_inj; [apply (key_file_metadata d K) | eauto..]).
  subst r. congruence.
Qed.

Lemma fileStep_frame (now cid cid0 : Z) (p : jsstring) (d : db) (r : fileResult) (d' : db) :
  keys d -> cid <> cid0 -> fileStep now cid p d r d' ->
  rowsOf cid0 d' = rowsOf cid0 d.
Proof.
  intros K Hne [why _| |content]; [reflexivity | now apply deleteExisting_frame |].
  cbv zeta. unfold rowsOf. rewrite (proj1 (insertChunks_file_metadata _ _ _)). cbn.
  rewrite filter_app. cbn. destruct (Z.eqb_spec cid cid0) as [|_]; [contradiction|].
  rewrite app_nil_r. now apply deleteExisting_frame.
Qed.

Lemma upToDate_rows (c : collection_row) (d d' : db) :
  rowsOf (col_id c) d' = rowsOf (col_id c) d -> upToDate c d -> upToDate c d'.
Proof.
  intros E [H1 H2]. split.
  - now rewrite E.
  - intros p Hp Hex bytes Hread. specialize (H2 p Hp Hex bytes Hread).
    now rewrite selectExisting_rows, E, <- selectExisting_rows.
Qed.

Lemma inserted_current (now cid : Z) (p h : jsstring) (d : db) (cs : list fileChunk) :
  keys d ->
  let ins := insertFileMetadata now cid p h (deleteExisting (selectExisting cid p d) d) in
  exists e,
    selectExisting cid p (fold_left (fun acc c => insertChunk (fst ins) c acc) cs (snd ins))
    = Some e /\ fm_file_hash e = h.
Proof.
  intros K ins. unfold selectExisting.
  rewrite (proj1 (insertChunks_file_metadata _ _ _)). cbn.
  rewrite find_app.
  replace (find _ (db_file_metadata (deleteExisting (selectExisting cid p d) d)))
    with (@None file_metadata_row).
  - cbn. rewrite Z.eqb_refl, str_eqb_refl. cbn. eexists. split; reflexivity.
  - symmetry. apply (proj2 (selectExisting_none cid p _)).
    now apply deleteExisting_no_key.
Qed.

Lemma indexFile_current (now cid : Z) (p : jsstring) (force : bool) (d : db) :
  keys d -> fileCurrent cid p (snd (indexFile now cid p force d)).
Proof.
  intros K Hex bytes Hread. unfold Indexer.indexFile. rewrite Hex, Hread. cbn [negb].
  destruct (readFileSafe toStringUtf8 bytes) as [content|]; cbn [snd].
  - destruct (match selectExisting cid p d with
              | Some e => str_eqb (fm_file_hash e) (hashContent content) && negb force
              | None => false
              end) eqn:Hc.
    + cbn [snd]. destruct (selectExisting cid p d) as [e|]; [|discriminate].
      apply andb_true_iff in Hc. destruct Hc as [Hh _]. apply str_eqb_eq in Hh.
      exists e. split; [reflexivity | exact Hh].
    + pose proof (inserted_current now cid p (hashContent content) d
                    (chunkFile p content) K) as H. cbv zeta in H.
      destruct (insertFileMetadata now cid p (hashContent content)
                  (deleteExisting (selectExisting cid p d) d)) as [id d2].
      exact H.
  - apply selectExisting_none. now apply deleteExisting_no_key.
Qed.

(** The records of other paths are found as before. *)
Lemma deleteExisting_other (cid : Z) (p p' : jsstring) (d : db) :
  keys d -> p' <> p ->
  selectExisting cid p' (deleteExisting (selectExisting cid p d) d)
  = selectExisting cid p' d.
Proof.
  intros K Hne. destruct (selectExisting cid p d) as [e|] eqn:E; [|reflexivity].
  apply selectExisting_some in E. destruct E as [He [Hec Hep]].
  unfold selectExisting. cbn. apply find_filter_keep.
  intros x Hx Hk. apply (hasKey_true cid p' x) in Hk. destruct Hk as [_ Hxp].
  apply negb_true_iff, Z.eqb_neq. intros Hid.
  assert (x = e) by (eapply NoDup_map_inj; [apply (key_file_metadata d K) | eauto..]).
  subst x. congruence.
Qed.

Lemma selectExisting_snoc (cid : Z) (p' : jsstring) (d1 d' : db) (f : file_metadata_row) :
  db_file_metadata d' = db_file_metadata d1 ++ [f] ->
  hasKey cid p' f = false ->
  selectExisting cid p' d' = selectExisting cid p' d1.
Proof.
  intros E Hk. unfold selectExisting. rewrite E, find_app.
  fold (hasKey cid p' f). rewrite Hk.
  now destruct (find _ (db_file_metadata d1)).
Qed.

Lemma fileStep_other (now cid : Z) (p p' : jsstring) (d : db) (r : fileResult) (d' : db) :
  keys d -> p' <> p -> fileStep now cid p d r d' ->
  selectExisting cid p' d' = selectExisting cid p' d.
Proof.
  intros K Hne [why _| |content]; [reflexivity | now apply deleteExisting_other |].
  cbv zeta. rewrite <- (deleteExisting_other cid p p' d K Hne).
  eapply selectExisting_snoc.
  - rewrite (proj1 (insertChunks_file_metadata _ _ _)). reflexivity.
  - unfold hasKey. cbn. apply andb_false_iff. right.
    destruct (str_eqb p p') eqn:Hs; [apply str_eqb_eq in Hs; congruence | reflexivity].
Qed.

Lemma fileStep_current_other (now cid : Z) (p p' : jsstring) (d : db) (r : fileResult) (d' : db) :
  keys d -> p' <> p -> fileStep now cid p d r d' ->
  fileCurrent cid p' d -> fileCurrent cid p' d'.
Proof.
  intros K Hne Hstep H Hex bytes Hread. specialize (H Hex bytes Hread).
  now rewrite (fileStep_other now cid p p' d r d' K Hne Hstep).
Qed.

(** A record of the store after [indexFile] was there before, or is the one
    just inserted. *)
Lemma fileStep_rows (now cid : Z) (p : jsstring) (d : db) (r : fileResult) (d' : db) :
  fileStep now cid p d r d' ->
  forall f, In f (db_file_metadata d') ->
    In f (db_file_metadata d) \/ (fm_collection_id f = cid /\ fm_file_path f = p).
Proof.
  assert (Hdel : forall ex f, In f (db_file_metadata (deleteExisting ex d)) ->
                              In f (db_file_metadata d)).
  { intros [e|] f; cbn; [|auto]. intros H. now apply filter_In in H. }
  intros [why _| |content] f Hf; [now left | left; eapply Hdel; eauto |].
  cbv zeta in Hf. rewrite (proj1 (insertChunks_file_metadata _ _ _)) in Hf. cbn in Hf.
  apply in_app_iff in Hf. destruct Hf as [Hf|[<-|[]]].
  - left. eapply Hdel; eauto.
  - right. split; reflexivity.
Qed.

(** *** The first loop *)

Lemma deleteAll_keys (dead : list file_metadata_row) (d : db) :
  keys d -> keys (deleteAll dead d).
Proof.
  revert d. induction dead as [|e dead IH]; intros d K; simpl; [exact K|].
  apply IH. now apply delete_keys.
Qed.

Lemma deleteAll_collections (dead : list file_metadata_row) (d : db) :
  db_collections (deleteAll dead d) = db_collections d.
Proof.
  revert d. induction dead as [|e dead IH]; intros d; simpl; [reflexivity|].
  now rewrite IH.
Qed.

Lemma deleteAll_file_metadata (dead : list file_metadata_row) (d : db) :
  db_file_metadata (deleteAll dead d)
  = filter (fun f => negb (memZ (fm_id f) (map fm_id dead))) (db_file_metadata d).
Proof.
  revert d. induction dead as [|e dead IH]; intros d; simpl.
  - symmetry. now apply filter_all.
  - rewrite IH. cbn. induction (db_file_metadata d) as [|f l IHl]; [reflexivity|].
    cbn. rewrite (Z.eqb_sym (fm_id f) (fm_id e)).
    destruct (fm_id e =? fm_id f)%Z; cbn; rewrite IHl; reflexivity.
Qed.

Lemma deleteAll_rowsOf (dead : list file_metadata_row) (cid : Z) (d : db) :
  rowsOf cid (deleteAll dead d)
  = filter (fun f => negb (memZ (fm_id f) (map fm_id dead))) (rowsOf cid d).
Proof. unfold rowsOf. rewrite deleteAll_file_metadata. apply filter_comm. Qed.

(** After the first loop every record of the collection has a path on disk. *)
Lemma removed_rows_on_disk (files : list jsstring) (cid : Z) (d : db) (f : file_metadata_row) :
  In f (rowsOf cid (deleteAll (missingFrom files cid d) d)) ->
  In f (rowsOf cid d) /\ In (fm_file_path f) files.
Proof.
  rewrite deleteAll_rowsOf. intros H. apply filter_In in H. destruct H as [Hf Hid].
  split; [exact Hf|].
  destruct (existsb (str_eqb (fm_file_path f)) files) eqn:E; [now apply in_files|].
  exfalso. apply negb_true_iff in Hid.
  assert (Hin : In (fm_id f) (map fm_id (missingFrom files cid d))).
  { apply in_map. unfold missingFrom. apply filter_In. split; [exact Hf|]. now rewrite E. }
  apply memZ_In in Hin. congruence.
Qed.

Lemma removed_frame (files : list jsstring) (cid cid0 : Z) (d : db) :
  keys d -> cid <> cid0 ->
  rowsOf cid0 (deleteAll (missingFrom files cid d) d) = rowsOf cid0 d.
Proof.
  intros K Hne. rewrite deleteAll_rowsOf. apply filter_all.
  intros r Hr. apply negb_true_iff.
  destruct (memZ (fm_id r) (map fm_id (missingFrom files cid d))) eqn:E; [|reflexivity].
  exfalso. apply memZ_In in E. apply in_map_iff in E. destruct E as [e [Hid He]].
  unfold missingFrom in He. apply filter_In in He. destruct He as [He _].
  apply filter_In in He. destruct He as [He Hec]. apply Z.eqb_eq in Hec.
  apply filter_In in Hr. destruct Hr as [Hr Hrc]. apply Z.eqb_eq in Hrc.
  assert (e = r) by (eapply NoDup_map_inj; [apply (key_file_metadata d K) | eauto..]).
  subst e. congruence.
Qed.

(** *** The second loop *)

Lemma indexFiles_cons (now cid : Z) (force : bool) (p : jsstring) (files : list jsstring)
  (k : counters) (d : db) :
  indexFiles now cid force (p :: files) (k, d)
  = indexFiles now cid force files
      (match fst (indexFile now cid p force d) with
       | Indexed n =>
           mkCounters (S (collectionIndexed k)) (collectionSkipped k)
                      (collectionChunks k + n) (collectionRemoved k)
       | NotIndexed _ =>
           mkCounters (collectionIndexed k) (S (collectionSkipped k))
                      (collectionChunks k) (collectionRemoved k)
       end,
       snd (indexFile now cid p force d)).
Proof.
  unfold Indexer.indexFiles. cbn [fold_left].
  destruct (indexFile now cid p force d) as [[why|n] d']; reflexivity.
Qed.

Lemma indexFiles_keys (now cid : Z) (force : bool) (files : list jsstring) :
  forall k d, keys d -> keys (snd (indexFiles now cid force files (k, d))).
Proof.
  induction files as [|p files IH]; intros k d K; [exact K|].
  rewrite indexFiles_cons. apply IH.
  eapply fileStep_keys; [exact K | apply indexFile_step].
Qed.

Lemma indexFiles_collections (now cid : Z) (force : bool) (files : list jsstring) :
  forall k d, db_collections (snd (indexFiles now cid force files (k, d))) = db_collections d.
Proof.
  induction files as [|p files IH]; intros k d; [reflexivity|].
  rewrite indexFiles_cons, IH.
  eapply fileStep_collections, indexFile_step.
Qed.

Lemma indexFiles_frame (now cid cid0 : Z) (force : bool) (files : list jsstring) :
  cid <> cid0 ->
  forall k d, keys d ->
    rowsOf cid0 (snd (indexFiles now cid force files (k, d))) = rowsOf cid0 d.
Proof.
  intros Hne. induction files as [|p files IH]; intros k d K; [reflexivity|].
  rewrite indexFiles_cons, IH.
  - eapply fileStep_frame; [exact K | exact Hne | apply indexFile_step].
  - eapply fileStep_keys; [exact K | apply indexFile_step].
Qed.

Lemma indexFiles_settle (now cid : Z) (force : bool) (all : list jsstring)
  (files : list jsstring) :
  forall done k d,
    keys d ->
    incl files all ->
    (forall f, In f (rowsOf cid d) -> In (fm_file_path f) all) ->
    (forall p, In p done -> fileCurrent cid p d) ->
    let d' := snd (indexFiles now cid force files (k, d)) in
    (forall f, In f (rowsOf cid d') -> In (fm_file_path f) all) /\
    (forall p, In p (done ++ files) -> fileCurrent cid p d').
Proof.
  induction files as [|p files IH]; intros done k d K Hincl Hrows Hdone.
  - cbn. rewrite app_nil_r. auto.
  - cbv zeta. rewrite indexFiles_cons.
    pose proof (indexFile_step now cid p force d) as Hstep.
    set (d1 := snd (indexFile now cid p force d)) in *.
    replace (done ++ p :: files) with ((done ++ [p]) ++ files) by now rewrite <- app_assoc.
    apply IH.
    + eapply fileStep_keys; eassumption.
    + intros x Hx. apply Hincl. now right.
    + intros f Hf. unfold rowsOf in Hf. apply filter_In in Hf. destruct Hf as [Hf Hc].
      destruct (fileStep_rows _ _ _ _ _ _ Hstep f Hf) as [Hold|[_ Hp]].
      * apply Hrows. unfold rowsOf. apply filter_In. auto.
      * rewrite Hp. apply Hincl. now left.
    + intros p' Hp'. apply in_app_iff in Hp'.
      destruct (list_eq_dec N.eq_dec p' p) as [->|Hne].
      * now apply indexFile_current.
      * destruct Hp' as [Hp'|[Hp'|[]]]; [|congruence].
        eapply fileStep_current_other; eauto.
Qed.

(** *** One collection pass *)

Lemma indexCollection_spec (now : Z) (force : bool) (c : collection_row) (d : db) :
  indexCollection now force c d
  = indexFiles now (col_id c) force (discoverFiles c)
      (mkCounters 0 0 0 (length (missingFrom (discoverFiles c) (col_id c) d)),
       deleteAll (missingFrom (discoverFiles c) (col_id c) d) d).
Proof.
  unfold Indexer.indexCollection. rewrite removeDeleted_spec. reflexivity.
Qed.

Lemma indexCollection_keys (now : Z) (force : bool) (c : collection_row) (d : db) :
  keys d -> keys (snd (indexCollection now force c d)).
Proof.
  intros K. rewrite indexCollection_spec. now apply indexFiles_keys, deleteAll_keys.
Qed.

Lemma indexCollection_collections (now : Z) (force : bool) (c : collection_row) (d : db) :
  db_collections (snd (indexCollection now force c d)) = db_collections d.
Proof.
  rewrite indexCollection_spec, indexFiles_collections. apply deleteAll_collections.
Qed.

Lemma indexCollection_frame (now : Z) (force : bool) (c : collection_row) (cid0 : Z) (d : db) :
  keys d -> col_id c <> cid0 ->
  rowsOf cid0 (snd (indexCollection now force c d)) = rowsOf cid0 d.
Proof.
  intros K Hne. rewrite indexCollection_spec, indexFiles_frame.
  - now apply removed_frame.
  - exact Hne.
  - now apply deleteAll_keys.
Qed.

Lemma indexCollection_settles (now : Z) (force : bool) (c : collection_row) (d : db) :
  keys d -> upToDate c (snd (indexCollection now force c d)).
Proof.
  intros K. rewrite indexCollection_spec.
  apply (indexFiles_settle now (col_id c) force (discoverFiles c) (discoverFiles c) []).
  - now apply deleteAll_keys.
  - apply incl_refl.
  - intros f Hf. now apply removed_rows_on_disk in Hf.
  - intros p [].
Qed.

(** *** A second pass over a collection that is up to date *)

Lemma indexFile_unchanged (now cid : Z) (p : jsstring) (d : db) :
  fileCurrent cid p d ->
  exists why, indexFile now cid p false d = (NotIndexed why, d).
Proof.
  intros H. unfold Indexer.indexFile.
  destruct (existsSync p) eqn:Hex; cbn [negb]; [|eauto].
  destruct (readFileSync p) as [bytes|msg] eqn:Hread; [|eauto].
  specialize (H Hex bytes Hread).
  destruct (readFileSafe toStringUtf8 bytes) as [content|].
  - destruct H as [e [-> Hh]]. rewrite Hh, str_eqb_refl. cbn. eauto.
  - rewrite H. cbn. eauto.
Qed.

Lemma indexFiles_unchanged (now cid : Z) (files : list jsstring) (d : db) :
  (forall p, In p files -> fileCurrent cid p d) ->
  forall k, indexFiles now cid false files (k, d) = (addSkipped (length files) k, d).
Proof.
  induction files as [|p files IH]; intros H k.
  - destruct k. unfold addSkipped. cbn. now rewrite Nat.add_0_r.
  - rewrite indexFiles_cons.
    destruct (indexFile_unchanged now cid p d (H p (or_introl eq_refl))) as [why ->].
    cbn [fst snd]. rewrite IH by (intros q Hq; apply H; now right).
    unfold addSkipped. cbn. f_equal. f_equal. lia.
Qed.

Lemma upToDate_nothing_missing (c : collection_row) (d : db) :
  upToDate c d -> missingFrom (discoverFiles c) (col_id c) d = [].
Proof.
  intros [H _]. unfold missingFrom.
  destruct (filter _ (rowsOf (col_id c) d)) as [|f l] eqn:E; [reflexivity|]. exfalso.
  assert (Hf : In f (filter (fun f => negb (existsb (str_eqb (fm_file_path f)) (discoverFiles c)))
                            (rowsOf (col_id c) d))) by (rewrite E; now left).
  apply filter_In in Hf. destruct Hf as [Hf Hm].
  apply negb_true_iff in Hm. specialize (H f Hf). apply in_files in H. congruence.
Qed.

Lemma indexCollection_unchanged (now : Z) (c : collection_row) (d : db) :
  upToDate c d ->
  indexCollection now false c d = (mkCounters 0 (length (discoverFiles c)) 0 0, d).
Proof.
  intros H. rewrite indexCollection_spec, (upToDate_nothing_missing c d H).
  cbn [deleteAll fold_left length].
  rewrite indexFiles_unchanged by apply H. reflexivity.
Qed.

Lemma filesOf_cons (c : collection_row) (cs : list collection_row) :
  filesOf (c :: cs) = length (discoverFiles c) + filesOf cs.
Proof. reflexivity. Qed.

Lemma indexEach_cons (now : Z) (force : bool) (c : collection_row) (cs : list collection_row)
  (r : results) (d : db) :
  indexEach now force (c :: cs) (r, d)
  = indexEach now force cs
      (let k := fst (indexCollection now force c d) in
       mkResults
         (r_collections r ++
          [mkCollectionResult (col_name c) (length (discoverFiles c)) (collectionIndexed k)
             (collectionSkipped k) (collectionRemoved k) (collectionChunks k)])
         (totalFiles r + length (discoverFiles c))
         (totalChunks r + collectionChunks k)
         (indexed r + collectionIndexed k)
         (skipped r + collectionSkipped k)
         (removed r + collectionRemoved k),
       snd (indexCollection now force c d)).
Proof.
  unfold Indexer.indexEach. cbn [fold_left].
  destruct (indexCollection now force c d) as [k d']. reflexivity.
Qed.

Lemma indexEach_totalFiles (now : Z) (force : bool) (cs : list collection_row) :
  forall r d,
    totalFiles (fst (indexEach now force cs (r, d))) = totalFiles r + filesOf cs.
Proof.
  induction cs as [|c cs IH]; intros r d; [cbn; lia|].
  rewrite indexEach_cons, IH, filesOf_cons. cbv zeta. cbn [totalFiles]. lia.
Qed.

Lemma indexEach_collections (now : Z) (force : bool) (cs : list collection_row) :
  forall r d, db_collections (snd (indexEach now force cs (r, d))) = db_collections d.
Proof.
  induction cs as [|c cs IH]; intros r d; [reflexivity|].
  rewrite indexEach_cons, IH. apply indexCollection_collections.
Qed.

Lemma indexEach_settles (now : Z) (force : bool) (cs : list collection_row) :
  forall done r d,
    keys d ->
    NoDup (map col_id cs) ->
    (forall c0, In c0 done -> upToDate c0 d /\ ~ In (col_id c0) (map col_id cs)) ->
    let d' := snd (indexEach now force cs (r, d)) in
    keys d' /\ forall c0, In c0 (done ++ cs) -> upToDate c0 d'.
Proof.
  induction cs as [|c cs IH]; intros done r d K Hnd Hdone.
  - cbn. rewrite app_nil_r. split; [exact K|]. intros c0 Hc0. now apply Hdone.
  - cbv zeta. rewrite indexEach_cons.
    replace (done ++ c :: cs) with ((done ++ [c]) ++ cs) by now rewrite <- app_assoc.
    inversion Hnd as [|? ? Hc Hcs]; subst.
    apply IH.
    + now apply indexCollection_keys.
    + exact Hcs.
    + intros c0 Hc0. apply in_app_iff in Hc0. destruct Hc0 as [Hc0|[<-|[]]].
      * destruct (Hdone c0 Hc0) as [Hup Hnot]. split.
        -- eapply upToDate_rows; [|exact Hup].
           apply indexCollection_frame; [exact K|].
           intros E. apply Hnot. cbn. now left.
        -- intros Hin. apply Hnot. cbn. now right.
      * split; [now apply indexCollection_settles | exact Hc].
Qed.

Lemma indexEach_unchanged (now : Z) (cs : list collection_row) (d : db) :
  (forall c, In c cs -> upToDate c d) ->
  forall r,
    snd (indexEach now false cs (r, d)) = d /\
    indexed (fst (indexEach now false cs (r, d))) = indexed r /\
    removed (fst (indexEach now false cs (r, d))) = removed r /\
    skipped (fst (indexEach now false cs (r, d))) = skipped r + filesOf cs.
Proof.
  induction cs as [|c cs IH]; intros H r.
  - cbn. repeat split; lia.
  - rewrite indexEach_cons.
    rewrite (indexCollection_unchanged now c d (H c (or_introl eq_refl))).
    cbn [fst snd].
    destruct (IH (fun c0 Hc0 => H c0 (or_intror Hc0))
                 (mkResults
                    (r_collections r ++
                     [mkCollectionResult (col_name c) (length (discoverFiles c))
                        (collectionIndexed (mkCounters 0 (length (discoverFiles c)) 0 0))
                        (collectionSkipped (mkCounters 0 (length (discoverFiles c)) 0 0))
                        (collectionRemoved (mkCounters 0 (length (discoverFiles c)) 0 0))
                        (collectionChunks (mkCounters 0 (length (discoverFiles c)) 0 0))])
                    (totalFiles r + length (discoverFiles c))
                    (totalChunks r + collectionChunks (mkCounters 0 (length (discoverFiles c)) 0 0))
                    (indexed r + collectionIndexed (mkCounters 0 (length (discoverFiles c)) 0 0))
                    (skipped r + collectionSkipped (mkCounters 0 (length (discoverFiles c)) 0 0))
                    (removed r + collectionRemoved (mkCounters 0 (length (discoverFiles c)) 0 0))))
      as [E1 [E2 [E3 E4]]].
    cbv zeta. rewrite E1, E2, E3, E4, filesOf_cons.
    cbn [indexed removed skipped collectionIndexed collectionSkipped collectionRemoved].
    repeat split; lia.
Qed.

Lemma getCollections_ext (name : option jsstring) (d d' : db) :
  db_collections d' = db_collections d ->
  getCollections name d' = getCollections name d.
Proof.
  intros E. unfold getCollections, getCollection. now rewrite E.
Qed.

Lemma getCollections_NoDup (name : option jsstring) (d : db) :
  keys d -> NoDup (map col_id (getCollections name d)).
Proof.
  intros K. unfold getCollections.
  destruct (truthy name) as [n|].
  - destruct (getCollection n d); repeat constructor. intros [].
  - eapply Permutation_NoDup; [|apply (key_collections d K)].
    apply Permutation_map. symmetry. apply SortFacts.sortBy_perm.
Qed.

Lemma indexCollections_run (now : Z) (o : options) (d : db) (r : results) (d' : db) :
  indexCollections now o d = (Done r, d') ->
  getCollections (collectionName o) d <> [] /\
  indexEach now (full o) (getCollections (collectionName o) d) (emptyResults, d) = (r, d').
Proof.
  unfold Indexer.indexCollections.
  destruct (getCollections (collectionName o) d) as [|c cs] eqn:E; cbn [length Nat.eqb].
  - discriminate.
  - destruct (indexEach now (full o) (c :: cs) (emptyResults, d)) as [r0 d0].
    intros [= -> ->]. split; [discriminate | reflexivity].
Qed.

(** *** Properties every statement keeps *)

Lemma kept_deleteExisting (P : db -> Prop) (ex : option file_metadata_row) (d : db) :
  kept P -> P d -> P (deleteExisting ex d).
Proof. intros [Hdel _] H. destruct ex; [now apply Hdel | exact H]. Qed.

Lemma kept_fileStep (P : db -> Prop) (now cid : Z) (p : jsstring) (d : db)
  (r : fileResult) (d' : db) :
  kept P -> P d -> fileStep now cid p d r d' -> P d'.
Proof.
  intros HP H [why _| |content]; [exact H | now apply kept_deleteExisting |].
  cbv zeta.
  change (P (insertDocument now cid p (hashContent content) (chunkFile p content)
               (deleteExisting (selectExisting cid p d) d))).
  apply (proj2 HP). now apply kept_deleteExisting.
Qed.

Lemma kept_deleteAll (P : db -> Prop) (dead : list file_metadata_row) (d : db) :
  kept P -> P d -> P (deleteAll dead d).
Proof.
  intros HP. revert d. induction dead as [|e dead IH]; intros d H; [exact H|].
  apply IH. now apply (proj1 HP).
Qed.

Lemma kept_indexFiles (P : db -> Prop) (now cid : Z) (force : bool) (files : list jsstring) :
  kept P -> forall k d, P d -> P (snd (indexFiles now cid force files (k, d))).
Proof.
  intros HP. induction files as [|p files IH]; intros k d H; [exact H|].
  rewrite indexFiles_cons. apply IH.
  eapply kept_fileStep; [exact HP | exact H | apply indexFile_step].
Qed.

Lemma kept_indexCollection (P : db -> Prop) (now : Z) (force : bool) (c : collection_row)
  (d : db) :
  kept P -> P d -> P (snd (indexCollection now force c d)).
Proof.
  intros HP H. rewrite indexCollection_spec.
  now apply kept_indexFiles, kept_deleteAll.
Qed.

Lemma kept_indexEach (P : db -> Prop) (now : Z) (force : bool) (cs : list collection_row) :
  kept P -> forall r d, P d -> P (snd (indexEach now force cs (r, d))).
Proof.
  intros HP. induction cs as [|c cs IH]; intros r d H; [exact H|].
  rewrite indexEach_cons. apply IH. now apply kept_indexCollection.
Qed.

End Disk.
End IndexerFacts.

Section Reindex.
Import StoreSpec IndexerSpec ListFacts StoreFacts Indexer IndexerFacts.

Variable existsSync : jsstring -> bool.
Variable readFileSync : jsstring -> readResult.
Variable toStringUtf8 : Utils.buffer -> jsstring.
Variable hashContent : jsstring -> jsstring.
Variable pathJoin : jsstring -> jsstring -> jsstring.
Variable fgSync : jsstring -> list jsstring.

Local Abbreviation indexFile := (indexFile existsSync readFileSync toStringUtf8 hashContent).
Local Abbreviation indexEach :=
  (indexEach existsSync readFileSync toStringUtf8 hashContent pathJoin fgSync).
Local Abbreviation indexCollections :=
  (indexCollections existsSync readFileSync toStringUtf8 hashContent pathJoin fgSync).

(** C7. After a successful run, a second run with [full] false over the same
    files on disk indexes nothing, skips every matched file and removes
    nothing, and leaves the store as it is.  A file whose record carries the
    hash of its content is skipped as unchanged without touching the store. *)
Theorem reindex_unchanged_corpus (now1 now2 : Z) (name : option jsstring) (full1 : bool)
  (d0 d1 : db) (r1 : results) :
  keys d0 ->
  indexCollections now1 (Indexer.mkOptions name full1) d0 = (Done r1, d1) ->
  (exists r2,
     indexCollections now2 (Indexer.mkOptions name false) d1 = (Done r2, d1) /\
     indexed r2 = 0 /\ skipped r2 = totalFiles r2 /\ removed r2 = 0 /\
     totalFiles r2 = totalFiles r1) /\
  (forall now cid p d bytes content e,
     existsSync p = true ->
     readFileSync p = ReadOk bytes ->
     readFileSafe toStringUtf8 bytes = Some content ->
     selectExisting cid p d = Some e ->
     fm_file_hash e = hashContent content ->
     indexFile now cid p false d = (NotIndexed unchanged, d)).
Proof.
  intros K Hrun. split.
  - apply (indexCollections_run existsSync readFileSync toStringUtf8 hashContent pathJoin
             fgSync) in Hrun.
    cbn [collectionName full] in Hrun.
    destruct Hrun as [Hne Hrun].
    set (cs := getCollections name d0) in *.
    assert (Hd1 : d1 = snd (indexEach now1 full1 cs (emptyResults, d0))) by now rewrite Hrun.
    assert (Hr1 : r1 = fst (indexEach now1 full1 cs (emptyResults, d0))) by now rewrite Hrun.
    destruct (indexEach_settles existsSync readFileSync toStringUtf8 hashContent pathJoin
                fgSync now1 full1 cs [] emptyResults d0 K
                (getCollections_NoDup name d0 K) (fun c0 (H : In c0 []) => match H with end))
      as [K1 Hup].
    cbn [app] in Hup. rewrite <- Hd1 in K1, Hup.
    assert (Hcs : getCollections name d1 = cs).
    { apply getCollections_ext. rewrite Hd1.
      apply (indexEach_collections existsSync readFileSync toStringUtf8 hashContent pathJoin
               fgSync). }
    destruct (indexEach_unchanged existsSync readFileSync toStringUtf8 hashContent pathJoin
                fgSync now2 cs d1 Hup emptyResults) as [E1 [E2 [E3 E4]]].
    pose proof (indexEach_totalFiles existsSync readFileSync toStringUtf8 hashContent pathJoin
                  fgSync now2 false cs emptyResults d1) as E5.
    pose proof (indexEach_totalFiles existsSync readFileSync toStringUtf8 hashContent pathJoin
                  fgSync now1 full1 cs emptyResults d0) as E6.
    exists (fst (indexEach now2 false cs (emptyResults, d1))).
    split.
    + unfold Indexer.indexCollections. cbn [collectionName full]. rewrite Hcs.
      destruct cs as [|c cs']; [congruence|]. cbn [length Nat.eqb].
      destruct (indexEach now2 false (c :: cs') (emptyResults, d1)) as [r2 d2].
      cbn [snd] in E1. cbn [fst]. now rewrite E1.
    + rewrite E2, E3, E4, E5, Hr1, E6. cbn. repeat split; lia.
  - intros now cid p d bytes content e Hex Hread Hsafe Hsel Hh.
    unfold Indexer.indexFile. rewrite Hex, Hread, Hsafe, Hsel, Hh, str_eqb_refl.
    reflexivity.
Qed.

End Reindex.

Module CascadeFacts.
Import StoreSpec IndexerSpec ListFacts StoreFacts.

Lemma insertChunks_shape (fmid : Z) (cs : list fileChunk) :
  forall d,
    let d' := fold_left (fun acc c => insertChunk fmid c acc) cs d in
    db_embeddings d' = db_embeddings d /\
    seq_file_metadata d' = seq_file_metadata d /\
    (seq_chunks d <= seq_chunks d')%Z /\
    exists fresh,
      db_chunks d' = db_chunks d ++ fresh /\
      forall c, In c fresh ->
        ch_file_metadata_id c = fmid /\ (seq_chunks d < ch_id c)%Z.
Proof.
  induction cs as [|c cs IH]; intros d; cbn [fold_left].
  - cbv zeta. repeat split; try lia. exists []. rewrite app_nil_r. split; [reflexivity | intros c []].
  - specialize (IH (insertChunk fmid c d)). cbv zeta in IH.
    destruct IH as [He [Hs [Hc [fresh [Hf Hfresh]]]]].
    destruct (nextRowid_fresh (seq_chunks d) (map ch_id (db_chunks d))) as [Hseq _].
    cbv zeta. rewrite He, Hs. cbn in Hc, Hf, Hfresh |- *.
    split; [reflexivity|]. split; [reflexivity|]. split; [lia|].
    eexists. rewrite Hf, <- app_assoc. split; [reflexivity|].
    intros x [<-|Hx]; cbn; [split; [reflexivity | lia]|].
    destruct (Hfresh x Hx). split; [assumption | lia].
Qed.

Lemma insertDocument_shape (now cid : Z) (p h : jsstring) (cs : list fileChunk) (d : db) :
  let d' := insertDocument now cid p h cs d in
  exists id fresh,
    (seq_file_metadata d < id)%Z /\
    db_file_metadata d' = db_file_metadata d ++ [mkFileMetadata id cid p h now] /\
    db_chunks d' = db_chunks d ++ fresh /\
    (forall c, In c fresh -> ch_file_metadata_id c = id /\ (seq_chunks d < ch_id c)%Z) /\
    db_embeddings d' = db_embeddings d /\
    seq_file_metadata d' = id /\
    (seq_chunks d <= seq_chunks d')%Z.
Proof.
  cbv zeta. unfold insertDocument.
  destruct (nextRowid_fresh (seq_file_metadata d) (map fm_id (db_file_metadata d))) as [Hseq _].
  destruct (insertChunks_shape (fst (insertFileMetadata now cid p h d)) cs
              (snd (insertFileMetadata now cid p h d)))
    as [Hemb [Hs [Hc [fresh [Hch Hfresh]]]]].
  exists (nextRowid (seq_file_metadata d) (map fm_id (db_file_metadata d))), fresh.
  split; [exact Hseq|].
  split; [rewrite (proj1 (insertChunks_file_metadata _ _ _)); reflexivity|].
  split; [exact Hch|]. split; [exact Hfresh|]. split; [exact Hemb|].
  split; [exact Hs | exact Hc].
Qed.

Lemma retired_kept (X : Z) (owned : list Z) : kept (retired X owned).
Proof.
  split.
  - intros id d H. exact H.
  - intros now cid p h cs d [Hx Ho].
    destruct (insertDocument_shape now cid p h cs d)
      as [id [fresh [Hid [_ [_ [_ [_ [Hs Hc]]]]]]]].
    split.
    + rewrite Hs. lia.
    + intros x Hxo. specialize (Ho x Hxo). lia.
Qed.

Lemma removedFor_kept (t : file_metadata_row) (owned : list Z) : kept (removedFor t owned).
Proof.
  split.
  - intros id d [Hr [Hf [Hc He]]]. split; [exact Hr|]. split; [|split].
    + intros f H. cbn in H. apply filter_In in H. now apply Hf.
    + intros c H. cbn in H. apply filter_In in H. now apply Hc.
    + intros e H. cbn in H. apply filter_In in H. now apply He.
  - intros now cid p h cs d [Hr [Hf [Hc He]]].
    split; [now apply (proj2 (retired_kept (fm_id t) owned))|].
    destruct Hr as [Hx Ho].
    destruct (insertDocument_shape now cid p h cs d)
      as [id [fresh [Hid [Hfm [Hch [Hfresh [Hemb _]]]]]]].
    split; [|split].
    + intros f H. rewrite Hfm in H.
      apply in_app_iff in H. destruct H as [H|[<-|[]]]; [now apply Hf|]. cbn. lia.
    + intros c H. rewrite Hch in H. apply in_app_iff in H.
      destruct H as [H|H]; [now apply Hc|].
      destruct (Hfresh c H) as [Hcid Hnew]. split; [lia|].
      intros Hin. specialize (Ho _ Hin). lia.
    + intros e H. rewrite Hemb in H. now apply He.
Qed.

Lemma filter_filter_keep {A : Type} (p q : A -> bool) (l : list A) :
  (forall x, p x = true -> q x = true) ->
  filter p (filter q l) = filter p l.
Proof.
  intros H. induction l as [|x l IH]; simpl; [reflexivity|].
  destruct (q x) eqn:Eq; simpl.
  - now rewrite IH.
  - destruct (p x) eqn:Ep; [|exact IH]. rewrite (H x Ep) in Eq. discriminate.
Qed.

Lemma delete_self_removed (t : file_metadata_row) (owned : list Z) (d : db) :
  tracked t owned d -> removedFor t owned (deleteFileMetadata (fm_id t) d).
Proof.
  intros [Hr [Hg|[Ht [Hown Hid]]]].
  - now apply (proj1 (removedFor_kept t owned)).
  - split; [exact Hr|]. split; [|split].
    + intros f H. cbn in H. apply filter_In in H. destruct H as [_ H].
      now apply negb_true_iff, Z.eqb_neq in H.
    + intros c H. cbn in H. apply filter_In in H. destruct H as [Hc H].
      apply negb_true_iff, Z.eqb_neq in H. split; [exact H|].
      intros Hin. apply H. now apply Hid.
    + intros e H. cbn in H. apply filter_In in H. destruct H as [_ H].
      apply negb_true_iff in H. intros Hin.
      rewrite <- Hown in Hin. apply memZ_In in Hin. congruence.
Qed.

Lemma tracked_kept (t : file_metadata_row) (owned : list Z) : kept (tracked t owned).
Proof.
  split.
  - intros id d H. destruct (Z.eq_dec id (fm_id t)) as [->|Hne].
    + destruct (delete_self_removed t owned d H) as [Hr Hg]. split; [exact Hr | now left].
    + destruct H as [Hr [Hg|[Ht [Hown Hid]]]].
      * destruct (proj1 (removedFor_kept t owned) id d (conj Hr Hg)) as [Hr' Hg'].
        split; [exact Hr' | now left].
      * split; [exact Hr|]. right. split; [|split].
        -- cbn. apply filter_In. split; [exact Ht|].
           apply negb_true_iff, Z.eqb_neq. congruence.
        -- cbn. rewrite filter_filter_keep; [exact Hown|].
           intros c Hc. apply Z.eqb_eq in Hc. apply negb_true_iff, Z.eqb_neq. congruence.
        -- intros c Hc. cbn in Hc. apply filter_In in Hc. now apply Hid.
  - intros now cid p h cs d [Hr [Hg|[Ht [Hown Hid]]]].
    + destruct (proj2 (removedFor_kept t owned) now cid p h cs d (conj Hr Hg)) as [Hr' Hg'].
      split; [exact Hr' | now left].
    + split; [now apply (proj2 (retired_kept (fm_id t) owned))|]. right.
      destruct Hr as [Hx Ho].
      destruct (insertDocument_shape now cid p h cs d)
        as [id [fresh [Hlt [Hfm [Hch [Hfresh _]]]]]].
      split; [|split].
      * rewrite Hfm. apply in_app_iff. now left.
      * rewrite Hch, filter_app, map_app.
        replace (filter (fun c => (ch_file_metadata_id c =? fm_id t)%Z) fresh)
          with (@nil chunk_row); [now rewrite app_nil_r|].
        symmetry.
        destruct (filter (fun c => (ch_file_metadata_id c =? fm_id t)%Z) fresh)
          as [|c l] eqn:E; [reflexivity|]. exfalso.
        assert (Hc : In c (filter (fun c => (ch_file_metadata_id c =? fm_id t)%Z) fresh))
          by (rewrite E; now left).
        apply filter_In in Hc. destruct Hc as [Hc Hm]. apply Z.eqb_eq in Hm.
        destruct (Hfresh c Hc) as [Hcid _]. lia.
      * intros c Hc Hin. rewrite Hch in Hc. apply in_app_iff in Hc.
        destruct Hc as [Hc|Hc]; [now apply Hid|].
        destruct (Hfresh c Hc) as [_ Hnew]. specialize (Ho _ Hin). lia.
Qed.

Lemma tracked_initial (t : file_metadata_row) (d : db) :
  keys d -> In t (db_file_metadata d) -> tracked t (chunksOf t d) d.
Proof.
  intros K Ht. split; [split|].
  - pose proof (seq_file_metadata_bound d K) as H. rewrite Forall_forall in H. now apply H.
  - intros id Hid. unfold chunksOf in Hid. apply in_map_iff in Hid.
    destruct Hid as [c [<- Hc]]. apply filter_In in Hc.
    pose proof (seq_chunks_bound d K) as H. rewrite Forall_forall in H. now apply H.
  - right. split; [exact Ht|]. split; [reflexivity|].
    intros c Hc Hin. unfold chunksOf in Hin. apply in_map_iff in Hin.
    destruct Hin as [c' [Hid Hc']]. apply filter_In in Hc'. destruct Hc' as [Hc' Hm].
    apply Z.eqb_eq in Hm.
    assert (c' = c) by (eapply NoDup_map_inj; [apply (key_chunks d K) | eauto..]).
    now subst c'.
Qed.

End CascadeFacts.

Section Removal.
Import StoreSpec IndexerSpec ListFacts StoreFacts Indexer IndexerFacts CascadeFacts.

Variable existsSync : jsstring -> bool.
Variable readFileSync : jsstring -> readResult.
Variable toStringUtf8 : Utils.buffer -> jsstring.
Variable hashContent : jsstring -> jsstring.
Variable pathJoin : jsstring -> jsstring -> jsstring.
Variable fgSync : jsstring -> list jsstring.

Local Abbreviation indexFile := (indexFile existsSync readFileSync toStringUtf8 hashContent).
Local Abbreviation indexFiles := (indexFiles existsSync readFileSync toStringUtf8 hashContent).
Local Abbreviation discoverFiles := (discoverFiles pathJoin fgSync).
Local Abbreviation indexCollection :=
  (indexCollection existsSync readFileSync toStringUtf8 hashContent pathJoin fgSync).
Local Abbreviation indexEach :=
  (indexEach existsSync readFileSync toStringUtf8 hashContent pathJoin fgSync).
Local Abbreviation indexCollections :=
  (indexCollections existsSync readFileSync toStringUtf8 hashContent pathJoin fgSync).
Local Abbreviation fileStep := (IndexerSpec.fileStep hashContent).
Local Abbreviation fileCurrent :=
  (IndexerSpec.fileCurrent existsSync readFileSync toStringUtf8 hashContent).
Local Abbreviation upToDate :=
  (IndexerSpec.upToDate existsSync readFileSync toStringUtf8 hashContent
     (Indexer.discoverFiles pathJoin fgSync)).
Local Abbreviation filesOf := (IndexerSpec.filesOf (Indexer.discoverFiles pathJoin fgSync)).

Lemma deleteAll_removes (t : file_metadata_row) (owned : list Z)
  (dead : list file_metadata_row) :
  forall d, tracked t owned d -> In t dead -> removedFor t owned (deleteAll dead d).
Proof.
  induction dead as [|e dead IH]; intros d Ht Hin; [destruct Hin|].
  destruct Hin as [->|Hin]; cbn [deleteAll fold_left].
  - apply (kept_deleteAll _ dead _ (removedFor_kept t owned)).
    now apply delete_self_removed.
  - apply IH; [|exact Hin]. now apply (proj1 (tracked_kept t owned)).
Qed.

Lemma indexCollection_removes (now : Z) (force : bool) (c : collection_row)
  (t : file_metadata_row) (owned : list Z) (d : db) :
  tracked t owned d ->
  fm_collection_id t = col_id c ->
  ~ In (fm_file_path t) (discoverFiles c) ->
  removedFor t owned (snd (indexCollection now force c d)).
Proof.
  intros Ht Hc Hmissing. rewrite indexCollection_spec.
  apply (kept_indexFiles existsSync readFileSync toStringUtf8 hashContent
           _ now (col_id c) force (discoverFiles c) (removedFor_kept t owned)).
  destruct Ht as [Hr [Hg|Hi]].
  - apply kept_deleteAll; [apply removedFor_kept | now split].
  - apply deleteAll_removes; [split; [exact Hr | now right]|].
    unfold missingFrom, rowsOf. apply filter_In. split.
    + apply filter_In. split; [apply Hi | now apply Z.eqb_eq].
    + apply negb_true_iff.
      destruct (existsb (str_eqb (fm_file_path t)) (discoverFiles c)) eqn:E; [|reflexivity].
      apply in_files in E. contradiction.
Qed.

Lemma indexEach_removes (now : Z) (force : bool) (c : collection_row)
  (t : file_metadata_row) (owned : list Z) (cs : list collection_row) :
  fm_collection_id t = col_id c ->
  ~ In (fm_file_path t) (discoverFiles c) ->
  In c cs ->
  forall r d, tracked t owned d -> removedFor t owned (snd (indexEach now force cs (r, d))).
Proof.
  intros Hc Hmissing. induction cs as [|c' cs IH]; intros Hin r d Ht; [destruct Hin|].
  rewrite (indexEach_cons existsSync readFileSync toStringUtf8 hashContent pathJoin fgSync).
  destruct Hin as [->|Hin].
  - apply (kept_indexEach existsSync readFileSync toStringUtf8 hashContent pathJoin fgSync
             _ now force cs (removedFor_kept t owned)).
    now apply indexCollection_removes.
  - apply IH; [exact Hin|].
    now apply (kept_indexCollection existsSync readFileSync toStringUtf8 hashContent
                 pathJoin fgSync _ now force c' d (tracked_kept t owned)).
Qed.

Lemma indexFiles_removed (now cid : Z) (force : bool) (files : list jsstring) :
  forall k d,
    collectionRemoved (fst (indexFiles now cid force files (k, d))) = collectionRemoved k.
Proof.
  induction files as [|p files IH]; intros k d; [reflexivity|].
  rewrite (indexFiles_cons existsSync readFileSync toStringUtf8 hashContent), IH.
  now destruct (fst (indexFile now cid p force d)).
Qed.

Lemma indexCollection_removed (now : Z) (force : bool) (c : collection_row) (d : db) :
  collectionRemoved (fst (indexCollection now force c d))
  = length (missingFrom (discoverFiles c) (col_id c) d).
Proof.
  rewrite (indexCollection_spec existsSync readFileSync toStringUtf8 hashContent pathJoin fgSync).
  now rewrite indexFiles_removed.
Qed.

Lemma missingTotal_frame (cs : list collection_row) (d d' : db) :
  (forall c, In c cs -> rowsOf (col_id c) d' = rowsOf (col_id c) d) ->
  missingTotal discoverFiles cs d' = missingTotal discoverFiles cs d.
Proof.
  induction cs as [|c cs IH]; intros H; [reflexivity|].
  cbn [missingTotal fold_right]. fold (missingTotal discoverFiles cs d').
  fold (missingTotal discoverFiles cs d).
  rewrite IH by (intros c0 Hc0; apply H; now right).
  unfold missingFrom. rewrite (H c) by now left. reflexivity.
Qed.

Lemma indexEach_removed (now : Z) (force : bool) (cs : list collection_row) :
  forall r d,
    keys d -> NoDup (map col_id cs) ->
    removed (fst (indexEach now force cs (r, d)))
    = removed r + missingTotal discoverFiles cs d.
Proof.
  induction cs as [|c cs IH]; intros r d K Hnd; [cbn; lia|].
  inversion Hnd as [|? ? Hc Hcs]; subst.
  rewrite (indexEach_cons existsSync readFileSync toStringUtf8 hashContent pathJoin fgSync).
  rewrite IH; [|now apply indexCollection_keys | exact Hcs].
  rewrite (missingTotal_frame cs d).
  - cbv zeta. cbn [removed]. rewrite indexCollection_removed.
    cbn [missingTotal fold_right]. fold (missingTotal discoverFiles cs d). lia.
  - intros c0 Hc0. apply indexCollection_frame; [exact K|].
    intros E. apply Hc. rewrite E. now apply in_map.
Qed.

Lemma missingTotal_positive (cs : list collection_row) (c : collection_row)
  (t : file_metadata_row) (d : db) :
  In c cs -> In t (missingFrom (discoverFiles c) (col_id c) d) ->
  1 <= missingTotal discoverFiles cs d.
Proof.
  induction cs as [|c' cs IH]; intros Hin Ht; [destruct Hin|].
  destruct Hin as [->|Hin];
    cbn [missingTotal fold_right]; fold (missingTotal discoverFiles cs d).
  - destruct (missingFrom (discoverFiles c) (col_id c) d); [destruct Ht | simpl; lia].
  - specialize (IH Hin Ht). lia.
Qed.

(** C1. A run of the indexer removes every document of a processed
    collection whose path is no longer matched on disk: [removed] is the
    number of such documents (1 for one deleted file), and for each of them
    the store afterwards holds no record with its id, no chunk of it, none of
    the chunks it owned and no embedding of such a chunk. *)
Theorem reindex_removes_deleted_documents (now : Z) (name : option jsstring) (full : bool)
  (d0 d1 : db) (r : results) :
  keys d0 ->
  indexCollections now (Indexer.mkOptions name full) d0 = (Done r, d1) ->
  removed r = missingTotal discoverFiles (getCollections name d0) d0 /\
  forall c t,
    In c (getCollections name d0) ->
    In t (missingFrom (discoverFiles c) (col_id c) d0) ->
    1 <= removed r /\
    gone (fm_id t) (chunksOf t d0) d1 /\
    (forall c0, In c0 (db_chunks d0) -> ch_file_metadata_id c0 = fm_id t ->
       (forall c1, In c1 (db_chunks d1) -> ch_id c1 <> ch_id c0) /\
       (forall e, In e (db_embeddings d1) -> em_chunk_id e <> ch_id c0)).
Proof.
  intros K Hrun.
  apply (indexCollections_run existsSync readFileSync toStringUtf8 hashContent pathJoin fgSync)
    in Hrun.
  cbn [collectionName Indexer.full] in Hrun. destruct Hrun as [_ Hrun].
  assert (Hd1 : d1 = snd (indexEach now full (getCollections name d0) (emptyResults, d0)))
    by now rewrite Hrun.
  assert (Hr : r = fst (indexEach now full (getCollections name d0) (emptyResults, d0)))
    by now rewrite Hrun.
  assert (Hremoved : removed r = missingTotal discoverFiles (getCollections name d0) d0).
  { rewrite Hr, indexEach_removed; [reflexivity | exact K |].
    now apply getCollections_NoDup. }
  split; [exact Hremoved|].
  intros c t Hc Ht.
  split; [rewrite Hremoved; eapply missingTotal_positive; eassumption|].
  unfold missingFrom, rowsOf in Ht. apply filter_In in Ht. destruct Ht as [Ht Hmiss].
  apply filter_In in Ht. destruct Ht as [Ht Hcid]. apply Z.eqb_eq in Hcid.
  assert (Hgone : removedFor t (chunksOf t d0) d1).
  { rewrite Hd1. apply (indexEach_removes now full c); [exact Hcid | | exact Hc |].
    - intros Hin. apply in_files in Hin. rewrite Hin in Hmiss. discriminate.
    - now apply tracked_initial. }
  destruct Hgone as [_ Hgone]. split; [exact Hgone|].
  intros c0 Hc0 Hown.
  assert (Hin : In (ch_id c0) (chunksOf t d0)).
  { unfold chunksOf. apply in_map. apply filter_In. split; [exact Hc0 | now apply Z.eqb_eq]. }
  destruct Hgone as [_ [Hch Hemb]]. split.
  - intros c1 Hc1 E. apply (proj2 (Hch c1 Hc1)). now rewrite E.
  - intros e He E. apply (Hemb e He). now rewrite E.
Qed.

End Removal.

(** ** The properties on the sample corpus *)

Section Examples.
Import Search SearchSpec StoreSpec IndexerSpec Indexer Samples.

Lemma sampleStore_keys : keys sampleStore.
Proof.
  constructor; cbn;
    repeat (constructor; [cbn; intuition (try discriminate; try lia)|]);
    try constructor.
Qed.

Lemma reindex_removes_deleted_documents_witness :
  keys sampleStore /\
  indexCollections diskExists diskRead utf8 textHash joinPath glob 1000 incremental sampleStore
  = (Done runResults, afterRun) /\
  removed runResults = 1 /\
  gone 2 [4; 5]%Z afterRun.
Proof.
  assert (Hrun : indexCollections diskExists diskRead utf8 textHash joinPath glob 1000
                   incremental sampleStore = (Done runResults, afterRun))
    by (vm_compute; reflexivity).
  destruct (reindex_removes_deleted_documents diskExists diskRead utf8 textHash joinPath glob
              1000 None false sampleStore afterRun runResults sampleStore_keys Hrun)
    as [Hremoved Hdocs].
  split; [exact sampleStore_keys|]. split; [exact Hrun|]. split; [exact Hremoved|].
  destruct (Hdocs notes docOld) as [_ [Hgone _]].
  - vm_compute. now left.
  - vm_compute. now left.
  - exact Hgone.
Defined.

Lemma reindex_unchanged_corpus_witness :
  keys sampleStore /\
  indexCollections diskExists diskRead utf8 textHash joinPath glob 1000 incremental sampleStore
  = (Done runResults, afterRun) /\
  exists r2,
    indexCollections diskExists diskRead utf8 textHash joinPath glob 2000 incremental afterRun
    = (Done r2, afterRun) /\
    indexed r2 = 0 /\ skipped r2 = totalFiles r2 /\ removed r2 = 0.
Proof.
  assert (Hrun : indexCollections diskExists diskRead utf8 textHash joinPath glob 1000
                   incremental sampleStore = (Done runResults, afterRun))
    by (vm_compute; reflexivity).
  destruct (reindex_unchanged_corpus diskExists diskRead utf8 textHash joinPath glob
              1000 2000 None false sampleStore afterRun runResults sampleStore_keys Hrun)
    as [[r2 [H2 [Hi [Hs [Hr _]]]]] _].
  split; [exact sampleStore_keys|]. split; [exact Hrun|].
  exists r2. repeat split; assumption.
Defined.

Lemma hybrid_fusion_contract_witness :
  (1 <= 2 <= 100)%Z /\
  searchBM25 ranking sampleStore query (Search.mkOptions (Some 6%Z) None None None)
  = (lexicalEvents, Ok lexicalResults) /\
  exists ev results rest,
    searchHybrid ranking provider reading root tableOrder sampleStore query top2
    = (ev, Ok results) /\
    map h_chunkId results = [1; 4]%Z /\
    (forall r x, In r results -> In x rest -> (h_score x <= h_score r)%Q) /\
    (forall r, In r results ->
       h_score r = (bm25Score r * (4 # 10) + vectorScore r * (6 # 10))%Q) /\
    descending h_score results.
Proof.
  assert (Hk : (1 <= 2 <= 100)%Z) by lia.
  assert (Hlex : searchBM25 ranking sampleStore query (Search.mkOptions (Some 6%Z) None None None)
                 = (lexicalEvents, Ok lexicalResults)) by (vm_compute; reflexivity).
  destruct (hybrid_fusion_contract ranking provider reading root tableOrder sampleStore query
              top2 lexicalEvents lexicalResults Hk Hlex)
    as [_ [_ [m [results [rest [Hrun [_ [_ [_ [_ [Htop [Hscore Hsorted]]]]]]]]]]]].
  split; [exact Hk|]. split; [exact Hlex|].
  eexists. exists results, rest. split; [exact Hrun|].
  split; [|split; [exact Htop|split; [|exact Hsorted]]].
  - assert (E : searchHybrid ranking provider reading root tableOrder sampleStore query top2
                = (Cases.hybridEvents, Ok Cases.hybridResults)) by (vm_compute; reflexivity).
    rewrite E in Hrun. apply (f_equal snd) in Hrun. cbn [snd] in Hrun.
    injection Hrun as <-. reflexivity.
  - intros r Hr. exact (proj1 (Hscore r Hr)).
Defined.


Lemma hybrid_degrades_to_lexical_witness :
  keys sampleStore /\
  searchBM25 ranking sampleStore query (legOptions top2) = (lexicalEvents, Ok lexicalResults) /\
  searchVector noProvider reading root tableOrder sampleStore query (legOptions top2)
  = (fst failedLeg, Throw (str "OpenAI API key not found")) /\
  searchHybrid ranking noProvider reading root tableOrder sampleStore query top2
  = (lexicalEvents ++ fst failedLeg ++ [ConsoleWarn],
     Ok (firstn 2 (sortDescending h_score
                     (map (lexicalOnly (4 # 10) (6 # 10)) lexicalResults)))).
Proof.
  assert (Hlex : searchBM25 ranking sampleStore query (legOptions top2)
                 = (lexicalEvents, Ok lexicalResults)) by (vm_compute; reflexivity).
  assert (Hvec : searchVector noProvider reading root tableOrder sampleStore query (legOptions top2)
                 = (fst failedLeg, Throw (str "OpenAI API key not found")))
    by (vm_compute; reflexivity).
  split; [exact sampleStore_keys|]. split; [exact Hlex|]. split; [exact Hvec|].
  exact (proj1 (hybrid_degrades_to_lexical ranking noProvider reading root tableOrder
                  sampleStore query top2 lexicalEvents (fst failedLeg) lexicalResults
                  (str "OpenAI API key not found") sampleStore_keys Hlex Hvec)).
Defined.

Lemma vector_search_top_k_witness :
  (1 <= 3 <= 100)%Z /\
  provider query = Ok [Utils.F32Bits 1; Utils.F32Bits 0] /\
  Forall (fun row => length (em_embedding (fst row)) / 4 = 2)
         (embeddingRows sampleStore None) /\
  exists ev results (rows : list (embedding_row * joined)) entries rest,
    searchVector provider reading root reverseOrder sampleStore query top3
    = (ev, Ok results) /\
    map (fun row => em_chunk_id (fst row)) rows = [5; 4; 3; 2; 1]%Z /\
    map chunkId results = [1; 4; 3]%Z /\
    length entries = 5 /\
    selected 3 entries results rest /\
    descending score results.
Proof.
  assert (Hk : (1 <= 3 <= 100)%Z) by lia.
  assert (Hdim : Forall (fun row => length (em_embedding (fst row)) / 4 = 2)
                        (embeddingRows sampleStore None))
    by (vm_compute; repeat constructor).
  destruct (vector_search_top_k provider reading root reverseOrder sampleStore query top3 3
              [Utils.F32Bits 1; Utils.F32Bits 0] eq_refl Hk eq_refl
              (proj1 (Forall_forall _ _) Hdim))
    as [[ev [results [rows [entries [rest
          [Hrun [Hrows [_ [Hscored [_ [Hsel [Hsorted _]]]]]]]]]]]] _].
  split; [exact Hk|]. split; [reflexivity|]. split; [exact Hdim|].
  exists ev, results, rows, entries, rest. split; [exact Hrun|].
  split; [rewrite Hrows; vm_compute; reflexivity|].
  split; [|split; [|split; assumption]].
  - assert (E : searchVector provider reading root reverseOrder sampleStore query top3
                = (vectorEvents, Ok vectorResults)) by (vm_compute; reflexivity).
    rewrite E in Hrun. injection Hrun as _ <-. reflexivity.
  - rewrite <- (Forall2_length Hscored), Hrows. vm_compute. reflexivity.
Defined.

Lemma vector_search_without_embeddings_witness :
  countEmbeddings unembeddedStore None = 0 /\
  searchVector provider reading root tableOrder unembeddedStore query top3
  = ([StoreQuery COUNT_SQL], Ok []).
Proof.
  split; [reflexivity|].
  exact (proj1 (vector_search_without_embeddings provider reading root tableOrder
                  unembeddedStore query top3 eq_refl)).
Defined.

End Examples.

(* ------------------------------------------------------------------ *)
(** * Further properties *)

(** ** Binary detection (src/utils.js) *)

Module BinaryFacts.
Import Utils UtilsSpec.

Lemma firstn_min {A : Type} (n : nat) (l : list A) :
  firstn (Nat.min (length l) n) l = firstn n l.
Proof.
  destruct (Nat.le_ge_cases n (length l)) as [H|H].
  - now rewrite Nat.min_r.
  - rewrite Nat.min_l by exact H. now rewrite !firstn_all2 by lia.
Qed.

Lemma binaryScan_count (sample : list N) :
  forall n,
    binaryScan sample n
    = if existsb (N.eqb 0) sample then None else Some (n + nonPrintableIn sample).
Proof.
  unfold nonPrintableIn.
  induction sample as [|byte r IH]; intros n; cbn [binaryScan existsb filter].
  - now rewrite Nat.add_0_r.
  - rewrite (N.eqb_sym 0 byte). destruct (byte =? 0)%N eqn:E; cbn [orb]; [reflexivity|].
    rewrite IH. destruct (existsb (N.eqb 0) r); [reflexivity|].
    destruct (isPrintable byte); cbn [negb length]; f_equal; lia.
Qed.

End BinaryFacts.


Section UtilsProperties.
Import Utils UtilsSpec CodecSpec BinaryFacts.

(** X1. [isProbablyBinary] looks at the first 8000 bytes only.  A buffer is
    binary exactly when that sample holds a zero byte, or when more than
    three tenths of its bytes are neither tab, line feed, carriage return nor
    printable ASCII. *)
Theorem binary_detection_rule (buf : buffer) :
  let sample := firstn 8000 buf in
  isProbablyBinary buf = true <->
  In 0%N sample \/ 3 * length sample < 10 * nonPrintableIn sample.
Proof.
  intros sample. unfold isProbablyBinary. rewrite firstn_min. fold sample.
  assert (Hsize : Nat.min (length buf) 8000 = length sample).
  { unfold sample. rewrite length_firstn. apply Nat.min_comm. }
  rewrite Hsize, binaryScan_count. cbn [Nat.add].
  destruct (existsb (N.eqb 0) sample) eqn:E.
  - split; [|reflexivity]. intros _. left.
    apply existsb_exists in E. destruct E as [x [Hx E]].
    apply N.eqb_eq in E. now subst x.
  - rewrite Nat.ltb_lt. split; [now right|]. intros [Hin|Hlt]; [|exact Hlt].
    exfalso. assert (Ht : existsb (N.eqb 0) sample = true); [|congruence].
    apply existsb_exists. exists 0%N. now split.
Qed.

(** X2. Encoding numbers (elements that are not NaN) writes, for every
    element in order, the four bytes of its binary32 pattern, lowest first:
    nothing of what [Buffer.allocUnsafe] handed out is left in the buffer. *)
Theorem encoded_bytes_are_little_endian (bits : list N) (junk : buffer) :
  Forall (fun b => (b < 2 ^ 32)%N /\ isNaNPattern b = false) bits ->
  length junk = length bits * 4 ->
  float32ArrayToBuffer (map F32Bits bits) junk = Some (flat_map littleEndian bits) /\
  Forall (fun byte => (byte < 256)%N) (flat_map littleEndian bits).
Proof.
  intros _ Hjunk. split.
  - assert (E : float32ArrayToBuffer (map F32Bits bits) junk
                 = Some (flat_map CodecSpec.bytesOf (map F32Bits bits))).
    { unfold float32ArrayToBuffer.
      apply (CodecFacts.encode_loop (map F32Bits bits) [] junk).
      rewrite length_map. lia. }
    rewrite E. f_equal.
    clear E Hjunk. induction bits as [|b bits IH]; [reflexivity|].
    cbn [map flat_map]. rewrite IH. f_equal.
    unfold CodecSpec.bytesOf, littleEndian, f32_pattern.
    change 255%N with (N.ones 8). rewrite !N.land_ones, !N.shiftr_div_pow2.
    reflexivity.
  - apply Forall_forall. intros byte Hin.
    apply in_flat_map in Hin. destruct Hin as [b [_ Hin]].
    unfold littleEndian in Hin. cbn [In] in Hin.
    destruct Hin as [<-|[<-|[<-|[<-|[]]]]]; now apply N.mod_lt.
Qed.

End UtilsProperties.

(** ** The chunker on every document (src/chunker.js) *)

Module ChunkFacts.
Import ChunkerSpec ChunkSpec TrimFacts ChunkerFacts.

Lemma dropWhile_idempotent {A : Type} (p : A -> bool) (l : list A) :
  dropWhile p (dropWhile p l) = dropWhile p l.
Proof.
  induction l as [|x l IH]; [reflexivity|]. cbn [dropWhile].
  destruct (p x) eqn:E; [exact IH|]. cbn [dropWhile]. now rewrite E.
Qed.

Lemma dropWhile_suffix {A : Type} (p : A -> bool) (l : list A) :
  exists pre, l = pre ++ dropWhile p l.
Proof.
  induction l as [|x l [pre IH]]; [now exists []|]. cbn [dropWhile].
  destruct (p x); [|now exists []]. exists (x :: pre). cbn. now rewrite <- IH.
Qed.

Lemma dropWhile_head {A : Type} (p : A -> bool) (l : list A) (x : A) (r : list A) :
  dropWhile p l = x :: r -> p x = false.
Proof.
  induction l as [|y l IH]; [discriminate|]. cbn [dropWhile].
  destruct (p y) eqn:E; [exact IH|]. now intros [= <- _].
Qed.

Lemma dropWhile_fixed {A : Type} (p : A -> bool) (l : list A) :
  match l with [] => True | x :: _ => p x = false end -> dropWhile p l = l.
Proof. destruct l as [|x l]; [reflexivity|]. cbn [dropWhile]. now intros ->. Qed.

Lemma trim_idempotent (s : jsstring) : trim (trim s) = trim s.
Proof.
  unfold trim, trimEnd, trimStart.
  set (t := dropWhile isWhiteSpace s).
  set (u := rev (dropWhile isWhiteSpace (rev t))).
  assert (Hstart : dropWhile isWhiteSpace u = u).
  { apply dropWhile_fixed. destruct u as [|x u'] eqn:Eu; [exact I|].
    destruct (dropWhile_suffix isWhiteSpace (rev t)) as [pre Hpre].
    assert (Ht : t = u ++ rev pre).
    { unfold u. rewrite <- rev_app_distr, <- Hpre. now rewrite rev_involutive. }
    rewrite Eu in Ht. cbn in Ht.
    apply (dropWhile_head isWhiteSpace s x (u' ++ rev pre)). exact Ht. }
  rewrite Hstart. unfold u. rewrite rev_involutive.
  now rewrite dropWhile_idempotent.
Qed.

Lemma estimate_positive (s : jsstring) : s <> [] -> 1 <= Utils.estimateTokens s.
Proof.
  intros H. unfold Utils.estimateTokens.
  destruct s as [|c s]; [contradiction|]. cbn [length].
  apply (Nat.div_le_lower_bound (S (length s) + 3) 4 1); lia.
Qed.

Lemma flush_sound (next : option nat) (s : state) :
  match next with Some n => 1 <= n | None => True end ->
  sound s -> sound (flushChunk next s).
Proof.
  intros Hnext [Hall Hstart]. unfold flushChunk.
  destruct (length (currentChunk s) =? 0) eqn:El; [now split|].
  destruct (length (trim (join LF (currentChunk s))) =? 0) eqn:Et; [now split|].
  apply Nat.eqb_neq in El, Et.
  assert (Htext : trim (join LF (currentChunk s)) <> []).
  { intros E. rewrite E in Et. now apply Et. }
  split; cbn [chunks chunkStartLine].
  - apply Forall_app. split; [exact Hall|]. constructor; [|constructor].
    unfold wellFormed. cbn [text tokenCount startLine endLine].
    split; [exact Htext|]. split; [apply trim_idempotent|].
    split; [reflexivity|]. split; [now apply estimate_positive|]. lia.
  - destruct next as [n|]; [exact Hnext | lia].
Qed.

Lemma push_sound (line : jsstring) (s : state) : sound s -> sound (pushLine line s).
Proof. intros H. exact H. Qed.

Lemma fenceBody_sound (rest : list jsstring) :
  forall j s, sound s -> sound (snd (fenceBody rest j s)).
Proof.
  induction rest as [|l rest IH]; intros j s H; cbn [fenceBody]; [exact H|].
  destruct (isCodeFence l); [exact H|]. apply IH. now apply push_sound.
Qed.

Lemma loopBody_sound (lines : list jsstring) (i : nat) (line : jsstring) (s : state) :
  sound s -> sound (snd (loopBody lines i line s)).
Proof.
  intros H. unfold loopBody.
  set (s1 := if isHeading line && (0 <? length (currentChunk s))
                && (MIN_CHUNK_SIZE <=? currentTokens s)
             then flushChunk (Some (i + 1)) s else s).
  assert (H1 : sound s1).
  { unfold s1. destruct (_ && _); [apply flush_sound; [lia | exact H] | exact H]. }
  destruct (isCodeFence line).
  - pose proof (fenceBody_sound (skipn (i + 1) lines) (i + 1) (pushLine line s1)
                  (push_sound line s1 H1)) as H3.
    destruct (fenceBody (skipn (i + 1) lines) (i + 1) (pushLine line s1)) as [j s3].
    cbn [snd] in H3.
    destruct (nth_error lines j) as [closing|].
    + destruct (TARGET_CHUNK_SIZE <=? currentTokens (pushLine closing s3)); cbn [snd];
        [apply flush_sound; [lia|] |]; now apply push_sound.
    + destruct (TARGET_CHUNK_SIZE <=? currentTokens s3); cbn [snd];
        [apply flush_sound; [lia | exact H3] | exact H3].
  - cbn [snd]. destruct (TARGET_CHUNK_SIZE <=? currentTokens (pushLine line s1));
      [|now apply push_sound].
    destruct (isBlankLine line || isHorizontalRule line || (i =? length lines - 1));
      [apply flush_sound; [lia|] |]; now apply push_sound.
Qed.

Lemma forLoop_sound (lines : list jsstring) (fuel : nat) :
  forall i s, sound s -> sound (forLoop fuel lines i s).
Proof.
  induction fuel as [|fuel IH]; intros i s H; cbn [forLoop]; [exact H|].
  destruct (nth_error lines i) as [line|]; [|exact H].
  pose proof (loopBody_sound lines i line s H) as H'.
  destruct (loopBody lines i line s) as [i' s']. now apply IH.
Qed.

(** *** Blank documents *)

Lemma allWs_split (s : jsstring) :
  allWs s = true -> forallb allWs (splitOn 10 s) = true.
Proof.
  unfold allWs. induction s as [|c r IH]; [reflexivity|]. cbn [forallb splitOn].
  intros H. apply andb_true_iff in H. destruct H as [Hc Hr].
  specialize (IH Hr).
  destruct (c =? 10)%N; [exact IH|].
  destruct (splitOn 10 r) as [|p ps]; cbn [forallb] in *.
  - now rewrite Hc.
  - apply andb_true_iff in IH. destruct IH as [Hp Hps]. now rewrite Hc, Hp, Hps.
Qed.

Lemma blank_not_fence (l : jsstring) : allWs l = true -> isCodeFence l = false.
Proof.
  unfold allWs. destruct l as [|c l]; [reflexivity|]. cbn [forallb]. intros H.
  apply andb_true_iff in H. destruct H as [Hc _].
  cbn [isCodeFence].
  destruct (N.eq_dec c 96) as [->|Hne]; [discriminate Hc|].
  destruct c as [|p]; [reflexivity|].
  repeat (destruct p as [p|p|]; try reflexivity); exfalso; now apply Hne.
Qed.

Lemma flush_blank (next : option nat) (s : state) :
  blankSoFar s -> blankSoFar (flushChunk next s).
Proof.
  intros [Hc Hb]. unfold flushChunk.
  destruct (length (currentChunk s) =? 0); [now split|].
  assert (Ht : trim (join LF (currentChunk s)) = []).
  { apply trim_nil. now rewrite allWs_join. }
  rewrite Ht. cbn. now split.
Qed.

Lemma push_blank (line : jsstring) (s : state) :
  allWs line = true -> blankSoFar s -> blankSoFar (pushLine line s).
Proof.
  intros Hl [Hc Hb]. split; [exact Hc|]. cbn [pushLine currentChunk].
  rewrite forallb_app, Hb. cbn. now rewrite Hl.
Qed.

Lemma loopBody_blank (lines : list jsstring) (i : nat) (line : jsstring) (s : state) :
  allWs line = true -> blankSoFar s ->
  fst (loopBody lines i line s) = i /\ blankSoFar (snd (loopBody lines i line s)).
Proof.
  intros Hl H. unfold loopBody. rewrite (blank_not_fence line Hl).
  cbn [fst snd]. split; [reflexivity|].
  set (s1 := if isHeading line && (0 <? length (currentChunk s))
                && (MIN_CHUNK_SIZE <=? currentTokens s)
             then flushChunk (Some (i + 1)) s else s).
  assert (H1 : blankSoFar s1).
  { unfold s1. destruct (_ && _); [now apply flush_blank | exact H]. }
  destruct (TARGET_CHUNK_SIZE <=? currentTokens (pushLine line s1));
    [|now apply push_blank].
  destruct (isBlankLine line || isHorizontalRule line || (i =? length lines - 1));
    [apply flush_blank|]; now apply push_blank.
Qed.

Lemma forLoop_blank (lines : list jsstring) (fuel : nat) :
  forallb allWs lines = true ->
  forall i s, blankSoFar s -> blankSoFar (forLoop fuel lines i s).
Proof.
  intros Hall. induction fuel as [|fuel IH]; intros i s H; cbn [forLoop]; [exact H|].
  destruct (nth_error lines i) as [line|] eqn:En; [|exact H].
  assert (Hl : allWs line = true).
  { apply nth_error_In in En. rewrite forallb_forall in Hall. now apply Hall. }
  destruct (loopBody_blank lines i line s Hl H) as [_ H'].
  destruct (loopBody lines i line s) as [i' s']. now apply IH.
Qed.

(** *** Short documents *)

Lemma splitOn_nonempty (c : N) (s : jsstring) : splitOn c s <> [].
Proof.
  induction s as [|x r IH]; cbn [splitOn]; [discriminate|].
  destruct (x =? c)%N; [discriminate|]. destruct (splitOn c r); discriminate.
Qed.

Lemma join_splitOn (s : jsstring) : join LF (splitOn 10 s) = s.
Proof.
  induction s as [|x r IH]; [reflexivity|]. cbn [splitOn].
  pose proof (splitOn_nonempty 10 r) as Hne.
  destruct (x =? 10)%N eqn:E.
  - apply N.eqb_eq in E. subst x.
    destruct (splitOn 10 r) as [|p ps]; [contradiction|].
    change (join LF ([] :: p :: ps)) with ([] ++ LF ++ join LF (p :: ps)).
    now rewrite IH.
  - destruct (splitOn 10 r) as [|p ps]; [contradiction|].
    destruct ps as [|q ps].
    + cbn [join] in *. now rewrite IH.
    + change (join LF ((x :: p) :: q :: ps)) with (x :: (p ++ LF ++ join LF (q :: ps))).
      change (join LF (p :: q :: ps)) with (p ++ LF ++ join LF (q :: ps)) in IH.
      now rewrite IH.
Qed.

Lemma tokensOf_firstn (i : nat) (lines : list jsstring) :
  tokensOf (firstn i lines) <= tokensOf lines.
Proof.
  rewrite <- (firstn_skipn i lines) at 2. rewrite tokensOf_app. lia.
Qed.

Lemma forLoop_pending (lines : list jsstring) (fuel : nat) :
  tokensOf lines < MIN_CHUNK_SIZE ->
  forallb (fun l => negb (isCodeFence l)) lines = true ->
  forall i s,
    length lines - i <= fuel -> i <= length lines ->
    pendingAll lines i s ->
    pendingAll lines (length lines) (forLoop fuel lines i s).
Proof.
  intros Hsmall Hnf. induction fuel as [|fuel IH]; intros i s Hfuel Hi H.
  - cbn [forLoop]. now replace (length lines) with i by lia.
  - cbn [forLoop]. destruct (nth_error lines i) as [line|] eqn:En.
    + assert (Hlt : i < length lines) by (apply nth_error_Some; congruence).
      destruct H as [Hc [Hp [Ht Hs]]].
      assert (Hfence : isCodeFence line = false).
      { apply nth_error_In in En. rewrite forallb_forall in Hnf.
        specialize (Hnf line En). now apply negb_true_iff in Hnf. }
      pose proof (tokensOf_firstn i lines) as Hle.
      pose proof (tokensOf_firstn (S i) lines) as Hle'.
      unfold MIN_CHUNK_SIZE in Hsmall.
      assert (Hmin : (MIN_CHUNK_SIZE <=? currentTokens s) = false).
      { apply Nat.leb_gt. unfold MIN_CHUNK_SIZE. lia. }
      unfold loopBody. rewrite Hmin, andb_false_r, Hfence.
      assert (Hpush : pendingAll lines (S i) (pushLine line s)).
      { unfold pendingAll. cbn [pushLine chunks currentChunk currentTokens chunkStartLine].
        rewrite (firstn_snoc lines i line En), tokensOf_app, Hp, Ht.
        repeat split; try assumption. cbn [tokensOf fold_right]. lia. }
      assert (Htarget : (TARGET_CHUNK_SIZE <=? currentTokens (pushLine line s)) = false).
      { apply Nat.leb_gt. destruct Hpush as [_ [_ [Ht' _]]]. rewrite Ht'.
        unfold TARGET_CHUNK_SIZE. lia. }
      rewrite Htarget. apply IH; [lia | lia | exact Hpush].
    + apply nth_error_None in En. now replace (length lines) with i by lia.
Qed.

End ChunkFacts.

Section ChunkProperties.
Import ChunkerSpec ChunkSpec TrimFacts ChunkerFacts ChunkFacts.

(** X3. Whatever the document, every chunk has a text that is not empty and
    has no white space at either end, a token count that is the estimate of
    that text and at least 1, and a line range that is not empty and starts
    at line 1 or later. *)
Theorem chunks_are_well_formed (content : jsstring) :
  Forall wellFormed (chunkMarkdown content).
Proof.
  unfold chunkMarkdown, chunkLines.
  apply flush_sound; [exact I|]. apply forLoop_sound.
  split; [constructor | cbn; lia].
Qed.

(** X4. A document of white space only, the empty document included, gives no
    chunk. *)
Theorem blank_document_has_no_chunks (content : jsstring) :
  allWs content = true -> chunkMarkdown content = [].
Proof.
  intros H. unfold chunkMarkdown, chunkLines.
  apply flush_blank. apply forLoop_blank; [now apply allWs_split | now split].
Qed.

(** X5. A document without a code fence whose lines add up to fewer than 100
    estimated tokens, and that is not blank, is one chunk: its text is the
    trimmed document and its range is all the lines. *)
Theorem short_document_is_one_chunk (content : jsstring) :
  let lines := splitOn 10 content in
  tokensOf lines < MIN_CHUNK_SIZE ->
  forallb (fun l => negb (isCodeFence l)) lines = true ->
  allWs content = false ->
  chunkMarkdown content
  = [mkChunk (trim content) 1 (length lines) (Utils.estimateTokens (trim content))].
Proof.
  intros lines Hsmall Hnf Hws. unfold chunkMarkdown, chunkLines. fold lines.
  destruct (forLoop_pending lines (length lines) Hsmall Hnf 0 init) as [Hc [Hp [_ Hs]]];
    [lia | lia | now repeat split|].
  rewrite firstn_all in Hp.
  rewrite flush_keeps.
  - cbn [chunks]. rewrite Hc, Hp, Hs. unfold lines at 1 3. rewrite join_splitOn.
    cbn [app]. do 2 f_equal. lia.
  - rewrite Hp. apply splitOn_nonempty.
  - rewrite Hp. unfold lines. rewrite join_splitOn. intros E.
    apply trim_nil in E. congruence.
Qed.

End ChunkProperties.

(** ** Searches on every store (src/search.js) *)

Module SearchFacts.
Import Search SearchSpec StoreSpec ListFacts SortFacts FusionFacts LegFacts TopKFacts
       Dispatch DispatchSpec.

Lemma Qplus_nonneg (p q : Q) : (0 <= p -> 0 <= q -> 0 <= p + q)%Q.
Proof.
  intros Hp Hq. setoid_replace 0%Q with (0 + 0)%Q by ring. now apply Qplus_le_compat.
Qed.

Lemma descending_filter {A : Type} (sc : A -> Q) (p : A -> bool) (l : list A) :
  descending sc l -> descending sc (filter p l).
Proof.
  unfold descending. induction 1 as [|x l Hs IH Hall]; cbn [filter]; [constructor|].
  destruct (p x); [|exact IH]. constructor; [exact IH|].
  apply Forall_forall. intros y Hy. apply filter_In in Hy.
  rewrite Forall_forall in Hall. now apply Hall.
Qed.

Lemma descending_after {A : Type} (sc : A -> Q) (pre : list A) (x : A) (post : list A) :
  descending sc (pre ++ x :: post) -> forall y, In y post -> (sc y <= sc x)%Q.
Proof.
  unfold descending. induction pre as [|z pre IH]; cbn [app]; intros H.
  - apply StronglySorted_inv in H. destruct H as [_ Hall].
    rewrite Forall_forall in Hall. exact Hall.
  - apply StronglySorted_inv in H. now apply IH.
Qed.

Lemma descending_map {A B : Type} (f : A -> B) (sc : B -> Q) (l : list A) :
  descending (fun x => sc (f x)) l -> descending sc (map f l).
Proof.
  unfold descending. induction 1 as [|x l Hs IH Hall]; cbn [map]; constructor;
    [exact IH|].
  apply Forall_forall. intros y Hy. apply in_map_iff in Hy.
  destruct Hy as [z [<- Hz]]. rewrite Forall_forall in Hall. now apply Hall.
Qed.

Lemma in_setAt {A : Type} (i : nat) (x y : A) (l : list A) :
  In y (Utils.setAt i x l) -> y = x \/ In y l.
Proof.
  revert i. induction l as [|z l IH]; intros [|i]; cbn; try tauto.
  - intros [<-|H]; auto.
  - intros [<-|H]; [auto|]. destruct (IH i H); auto.
Qed.

Lemma offer_in (lim : Z) (top : list SearchResult) (e x : SearchResult) :
  In x (offer lim top e) -> x = e \/ In x top.
Proof.
  unfold offer. destruct (Z.of_nat (length top) <? lim)%Z.
  - intros H. apply in_app_iff in H. destruct H as [H|[<-|[]]]; auto.
  - destruct (Qltb _ _); [apply in_setAt | auto].
Qed.

Lemma offer_all_in (lim : Z) (entries : list SearchResult) :
  forall top x, In x (fold_left (offer lim) entries top) -> In x entries \/ In x top.
Proof.
  induction entries as [|e entries IH]; intros top x H; cbn [fold_left] in H; [now right|].
  destruct (IH _ _ H) as [Hin|Hin]; [left; now right|].
  destruct (offer_in _ _ _ _ Hin) as [->|Hin']; [left; now left | now right].
Qed.

Lemma Forall2_in_right {A B : Type} (R : A -> B -> Prop) (l : list A) (l' : list B) (y : B) :
  Forall2 R l l' -> In y l' -> exists x, In x l /\ R x y.
Proof.
  induction 1 as [|a b l l' Hab _ IH]; [intros []|].
  intros [<-|H]; [exists a; split; [now left | exact Hab]|].
  destruct (IH H) as [x [Hx HR]]. exists x. split; [now right | exact HR].
Qed.

Lemma joinChunk_collection (d : db) (name n : jsstring) (id : Z) (j : joined) :
  n <> [] ->
  In j (joinChunk d (Some n) id) -> col_name (j_collection j) = n.
Proof.
  intros Hn. unfold joinChunk.
  assert (Ht : truthy (Some n) = Some n) by (destruct n; [contradiction | reflexivity]).
  rewrite Ht. intros H.
  apply in_flat_map in H. destruct H as [c [_ H]].
  apply in_flat_map in H. destruct H as [fm [_ H]].
  apply in_flat_map in H. destruct H as [col [_ H]].
  destruct (str_eqb (col_name col) n) eqn:E; [|destruct H].
  destruct H as [<-|[]]. cbn. now apply StoreFacts.str_eqb_eq.
Qed.

Lemma mapSet_in_any (k k' : Z) (v e' : fusionEntry) (m : scoreMap) :
  In (k', e') (mapSet k v m) -> e' = v \/ In (k', e') m.
Proof.
  induction m as [|[k0 v0] m IH]; cbn [mapSet].
  - intros [[= _ <-]|[]]. now left.
  - destruct (k0 =? k)%Z.
    + intros [[= _ <-]|H]; [now left | right; now right].
    + intros [H|H]; [right; now left|]. destruct (IH H); [now left | right; now right].
Qed.

(** Every entry of the score map carries a result of one of the legs. *)
Lemma addBm25_from (lex : list SearchResult) :
  forall m all,
    (forall k e, In (k, e) m -> In (e_result e) all) ->
    incl lex all ->
    forall k e, In (k, e) (fold_left addBm25 lex m) -> In (e_result e) all.
Proof.
  induction lex as [|l lex IH]; intros m all Hm Hincl k e; cbn [fold_left]; [apply Hm|].
  apply IH.
  - intros k' e' H. unfold addBm25 in H. apply mapSet_in_any in H.
    destruct H as [->|H]; [cbn; apply Hincl; now left | now apply (Hm k')].
  - intros x Hx. apply Hincl. now right.
Qed.

Lemma addVector_from (vec : list SearchResult) :
  forall m all,
    (forall k e, In (k, e) m -> In (e_result e) all) ->
    incl vec all ->
    forall k e, In (k, e) (fold_left addVector vec m) -> In (e_result e) all.
Proof.
  induction vec as [|v vec IH]; intros m all Hm Hincl k e; cbn [fold_left]; [apply Hm|].
  apply IH.
  - intros k' e' H. unfold addVector in H.
    destruct (mapGet (chunkId v) m) as [existing|] eqn:Eg; apply mapSet_in_any in H;
      (destruct H as [->|H]; [cbn | now apply (Hm k')]).
    + apply mapGet_Some in Eg. now apply (Hm (chunkId v)).
    + apply Hincl. now left.
  - intros x Hx. apply Hincl. now right.
Qed.

Lemma fuse_from_legs (wl wv : Q) (lim : Z) (lex vec : list SearchResult) (r : HybridResult) :
  In r (fuse wl wv lim lex vec) ->
  exists l, In l (lex ++ vec) /\ copyOf l r.
Proof.
  unfold fuse. intros H. apply in_firstn in H.
  apply (Permutation_in r (sortBy_perm _ _)) in H.
  apply in_map_iff in H. destruct H as [[k e] [<- Hin]].
  exists (e_result e). split; [|now repeat split].
  apply (addVector_from vec (fold_left addBm25 lex []) (lex ++ vec)) with (k := k);
    [| intros x Hx; apply in_app_iff; now right | exact Hin].
  apply (addBm25_from lex [] (lex ++ vec)); [intros ? ? [] |].
  intros x Hx. apply in_app_iff. now left.
Qed.

Lemma fuse_distinct (wl wv : Q) (lim : Z) (lex vec : list SearchResult) :
  NoDup (map h_chunkId (fuse wl wv lim lex vec)).
Proof.
  unfold fuse. apply NoDup_map_firstn.
  apply (Permutation_NoDup (l := map h_chunkId
           (map (fun kv => combine wl wv (snd kv))
                (fold_left addVector vec (fold_left addBm25 lex []))))).
  - apply Permutation_map. symmetry. apply sortBy_perm.
  - destruct (fused_legs lex vec) as [Hnd [_ Hent]].
    set (m := fold_left addVector vec (fold_left addBm25 lex [])) in *.
    replace (map h_chunkId (map (fun kv => combine wl wv (snd kv)) m)) with (keysOf m);
      [exact Hnd|].
    unfold keysOf. rewrite map_map. apply map_ext_in.
    intros [k e] Hin. cbn. symmetry. now apply (Hent k e Hin).
Qed.

Lemma fuse_descending (wl wv : Q) (lim : Z) (lex vec : list SearchResult) :
  descending h_score (fuse wl wv lim lex vec).
Proof. unfold fuse. apply descending_firstn, sortDescending_descending. Qed.

Lemma fuse_length (wl wv : Q) (lim : Z) (lex vec : list SearchResult) :
  length (fuse wl wv lim lex vec) <= Z.to_nat (clampLimit lim).
Proof. unfold fuse. apply length_firstn_le. Qed.

Lemma fuse_scores (wl wv : Q) (lim : Z) (lex vec : list SearchResult) (r : HybridResult) :
  In r (fuse wl wv lim lex vec) ->
  h_score r = (bm25Score r * wl + vectorScore r * wv)%Q /\
  contribution lex (h_chunkId r) (bm25Score r) /\
  contribution vec (h_chunkId r) (vectorScore r).
Proof.
  unfold fuse. intros H. apply in_firstn in H.
  apply (Permutation_in r (sortBy_perm _ _)) in H.
  apply in_map_iff in H. destruct H as [[k e] [<- Hin]].
  destruct (fused_legs lex vec) as [_ [_ Hent]].
  destruct (Hent k e Hin) as [Hkey [Hb Hv]]. cbn. rewrite Hkey.
  split; [reflexivity|]. split; assumption.
Qed.

Lemma clamp01_unit (x : Q) : (0 <= clamp01 x <= 1)%Q.
Proof.
  unfold clamp01. split; [apply Q.le_max_l|].
  apply Q.max_lub; [discriminate | apply Q.le_min_l].
Qed.

Lemma contribution_unit (leg : list SearchResult) (k : Z) (x : Q) :
  (forall l, In l leg -> (0 <= score l <= 1)%Q) ->
  contribution leg k x -> (0 <= x <= 1)%Q.
Proof.
  intros Hleg [Hin Hout].
  destruct (in_dec Z.eq_dec k (map chunkId leg)) as [H|H].
  - destruct (Hin H) as [l [Hl [_ ->]]]. now apply Hleg.
  - rewrite (Hout H). split; discriminate.
Qed.

Section Legs.

Variable fts5 : list chunk_row -> jsstring -> outcome (Z -> option Q).
Variable generateQueryEmbedding : jsstring -> outcome (list Utils.f32).
Variable numberOf : Utils.f32 -> Q.
Variable sqrt : Q -> Q.
Variable planAfter : embedding_row * joined -> embedding_row * joined -> bool.

Lemma searchBM25_unit (d : db) (q : jsstring) (o : Search.options)
  (ev : list event) (results : list SearchResult) :
  searchBM25 fts5 d q o = (ev, Ok results) ->
  forall r, In r results -> (0 <= score r <= 1)%Q.
Proof.
  unfold searchBM25.
  destruct (length (escapeFtsQuery q) =? 0); [intros [= _ <-] r []|].
  destruct (fts5 (db_chunks d) (escapeFtsQuery q)) as [rank|message].
  - cbn. intros [= _ <-] r Hr. exact (proj2 (proj2 (bm25_scores _) r Hr)).
  - destruct (includes (str "fts5") message); [intros [= _ <-] r [] | discriminate].
Qed.

Lemma searchBM25_joined (d : db) (q : jsstring) (o : Search.options)
  (ev : list event) (results : list SearchResult) (r : SearchResult) :
  searchBM25 fts5 d q o = (ev, Ok results) ->
  In r results ->
  exists c j, In c (db_chunks d) /\ In j (joinChunk d (collectionName o) (ch_id c)) /\
              collection r = col_name (j_collection j).
Proof.
  intros H Hr. apply (searchBM25_rows fts5) in H. destruct H as [->|[rank [m ->]]];
    [destruct Hr|].
  apply in_map_iff in Hr. destruct Hr as [[j s] [<- Hin]].
  unfold bm25Rows in Hin. apply in_firstn in Hin.
  apply (Permutation_in _ (sortBy_perm _ _)) in Hin.
  apply in_flat_map in Hin. destruct Hin as [c [Hc Hin]].
  destruct (rank (ch_id c)); [|destruct Hin].
  apply in_map_iff in Hin. destruct Hin as [j' [E Hj]].
  injection E as E _. subst j'. exists c, j. now repeat split.
Qed.

Lemma searchVector_scored (d : db) (q : jsstring) (o : Search.options)
  (ev : list event) (results : list SearchResult) (r : SearchResult) :
  searchVector generateQueryEmbedding numberOf sqrt planAfter d q o = (ev, Ok results) ->
  In r results ->
  exists qe row, In row (embeddingRows d (collectionName o)) /\
                 scoredAs numberOf sqrt qe row r.
Proof.
  unfold searchVector. cbn.
  destruct (countEmbeddings d (collectionName o) =? 0); [intros [= _ <-] []|].
  destruct (generateQueryEmbedding q) as [qe|]; cbn; [|discriminate].
  destruct (scan _ _ _ _ _ _) as [top|] eqn:Hscan; cbn; [|discriminate].
  intros [= _ <-] Hr.
  destruct (scan_entries numberOf sqrt _ qe _ _ _ Hscan) as [entries [Hscored ->]].
  apply (Permutation_in r (sortBy_perm _ _)) in Hr.
  apply offer_all_in in Hr. destruct Hr as [Hr|[]].
  destruct (Forall2_in_right _ _ _ _ Hscored Hr) as [row [Hrow Hs]].
  exists qe, row. split; [|exact Hs].
  exact (Permutation_in row (sortBy_perm _ _) Hrow).
Qed.

Lemma searchVector_unit (d : db) (q : jsstring) (o : Search.options)
  (ev : list event) (results : list SearchResult) :
  searchVector generateQueryEmbedding numberOf sqrt planAfter d q o = (ev, Ok results) ->
  forall r, In r results -> (0 <= score r <= 1)%Q.
Proof.
  intros H r Hr. destruct (searchVector_scored d q o ev results r H Hr)
    as [qe [row [_ [emb [sim [_ [_ ->]]]]]]].
  cbn. apply clamp01_unit.
Qed.

Lemma searchVector_descending (d : db) (q : jsstring) (o : Search.options)
  (ev : list event) (results : list SearchResult) :
  searchVector generateQueryEmbedding numberOf sqrt planAfter d q o = (ev, Ok results) ->
  descending score results.
Proof.
  unfold searchVector. cbn.
  destruct (countEmbeddings d (collectionName o) =? 0); [intros [= _ <-]; constructor|].
  destruct (generateQueryEmbedding q) as [qe|]; cbn; [|discriminate].
  destruct (scan _ _ _ _ _ _) as [top|]; cbn; [|discriminate].
  intros [= _ <-]. apply sortDescending_descending.
Qed.

Lemma searchHybrid_legs (d : db) (q : jsstring) (o : Search.options)
  (ev : list event) (results : list HybridResult) :
  searchHybrid fts5 generateQueryEmbedding numberOf sqrt planAfter d q o = (ev, Ok results) ->
  exists evb lex,
    searchBM25 fts5 d q (legOptions o) = (evb, Ok lex) /\
    results = fuse (orDefault (4 # 10)%Q (bm25Weight o)) (orDefault (6 # 10)%Q (vectorWeight o))
                (orDefault 10%Z (limit o)) lex
                (caught (searchVector generateQueryEmbedding numberOf sqrt planAfter d q
                           (legOptions o))).
Proof.
  unfold searchHybrid. fold (legOptions o).
  destruct (searchBM25 fts5 d q (legOptions o)) as [evb [lex|message]]; [|discriminate].
  destruct (searchVector generateQueryEmbedding numberOf sqrt planAfter d q (legOptions o))
    as [evv [vec|message]]; cbn; intros [= _ <-]; now exists evb, lex.
Qed.

(** What [search] returned when it returns: the results of the search its
    mode names, filtered by the minimum score when that is positive. *)
Lemma search_cases (d : db) (q : jsstring) (o : Dispatch.options)
  (ev : list event) (results : list result) :
  search fts5 generateQueryEmbedding numberOf sqrt planAfter d q o = (ev, Ok results) ->
  exists base,
    results = (if Qltb 0 (orDefault 0%Q (minScore o))
               then filter (fun r => Qle_bool (orDefault 0%Q (minScore o)) (scoreOf r)) base
               else base) /\
    ((orDefault (str "hybrid") (mode o) = str "bm25" /\
      exists ev' l, searchBM25 fts5 d q (legs o) = (ev', Ok l) /\ base = map Plain l) \/
     (orDefault (str "hybrid") (mode o) = str "vector" /\
      exists ev' l,
        searchVector generateQueryEmbedding numberOf sqrt planAfter d q (legs o) = (ev', Ok l) /\
        base = map Plain l) \/
     (orDefault (str "hybrid") (mode o) = str "hybrid" /\
      exists ev' l,
        searchHybrid fts5 generateQueryEmbedding numberOf sqrt planAfter d q (legs o)
        = (ev', Ok l) /\
        base = map Fused l)).
Proof.
  unfold search.
  destruct (str_eqb (orDefault (str "hybrid") (mode o)) (str "bm25")) eqn:Eb.
  { apply StoreFacts.str_eqb_eq in Eb.
    destruct (searchBM25 fts5 d q (legs o)) as [ev' [l|message]]; cbn; [|discriminate].
    intros [= _ <-]. exists (map Plain l). split; [reflexivity|]. left. eauto. }
  destruct (str_eqb (orDefault (str "hybrid") (mode o)) (str "vector")) eqn:Ev.
  { apply StoreFacts.str_eqb_eq in Ev.
    destruct (searchVector generateQueryEmbedding numberOf sqrt planAfter d q (legs o))
      as [ev' [l|message]]; cbn; [|discriminate].
    intros [= _ <-]. exists (map Plain l). split; [reflexivity|]. right. left. eauto. }
  destruct (str_eqb (orDefault (str "hybrid") (mode o)) (str "hybrid")) eqn:Eh.
  { apply StoreFacts.str_eqb_eq in Eh.
    destruct (searchHybrid fts5 generateQueryEmbedding numberOf sqrt planAfter d q (legs o))
      as [ev' [l|message]]; cbn; [|discriminate].
    intros [= _ <-]. exists (map Fused l). split; [reflexivity|]. right. right. eauto. }
  cbn. discriminate.
Qed.

(** What holds of every result of the three searches holds of every result
    of [search]. *)
Lemma search_all (P : result -> Prop) (d : db) (q : jsstring) (o : Dispatch.options)
  (ev : list event) (results : list result) :
  (forall ev' l, searchBM25 fts5 d q (legs o) = (ev', Ok l) ->
                 forall r, In r l -> P (Plain r)) ->
  (forall ev' l,
     searchVector generateQueryEmbedding numberOf sqrt planAfter d q (legs o) = (ev', Ok l) ->
                 forall r, In r l -> P (Plain r)) ->
  (forall ev' l,
     searchHybrid fts5 generateQueryEmbedding numberOf sqrt planAfter d q (legs o) = (ev', Ok l) ->
     forall r, In r l -> P (Fused r)) ->
  search fts5 generateQueryEmbedding numberOf sqrt planAfter d q o = (ev, Ok results) ->
  forall r, In r results -> P r.
Proof.
  intros Hb Hv Hh Hrun r Hr.
  destruct (search_cases d q o ev results Hrun) as [base [-> Hcase]].
  assert (Hbase : In r base).
  { destruct (Qltb 0 (orDefault 0%Q (minScore o))); [|exact Hr].
    apply filter_In in Hr. tauto. }
  destruct Hcase as [[_ [ev' [l [Hl ->]]]]|[[_ [ev' [l [Hl ->]]]]|[_ [ev' [l [Hl ->]]]]]];
    apply in_map_iff in Hbase; destruct Hbase as [x [<- Hx]]; eauto.
Qed.

End Legs.

(** *** [getUniqueFiles] *)

Lemma getUniqueFiles_from (results : list result) :
  forall seen files,
    fold_left
      (fun '(fileSet, files) result =>
         if existsb (str_eqb (filePathOf result)) fileSet then (fileSet, files)
         else (fileSet ++ [filePathOf result],
               files ++ [mkFileHit (filePathOf result) (collectionOf result)
                           (scoreOf result)]))
      results (seen, files)
    = (seen ++ map filePathOf (firstHits seen results),
       files ++ map hitOf (firstHits seen results)).
Proof.
  induction results as [|r rest IH]; intros seen files; cbn [fold_left firstHits].
  - now rewrite !app_nil_r.
  - destruct (existsb (str_eqb (filePathOf r)) seen); [apply IH|].
    rewrite IH. cbn [map]. now rewrite <- !app_assoc.
Qed.

Lemma firstHits_fresh (results : list result) :
  forall seen r, In r (firstHits seen results) -> ~ In (filePathOf r) seen.
Proof.
  induction results as [|x rest IH]; intros seen r; cbn [firstHits]; [intros []|].
  destruct (existsb (str_eqb (filePathOf x)) seen) eqn:E; [apply IH|].
  intros [<-|H].
  - intros Hin. apply StoreFacts.in_files in Hin. congruence.
  - intros Hin. apply (IH _ _ H). apply in_app_iff. now left.
Qed.

Lemma firstHits_NoDup (results : list result) :
  forall seen, NoDup (map filePathOf (firstHits seen results)).
Proof.
  induction results as [|x rest IH]; intros seen; cbn [firstHits]; [constructor|].
  destruct (existsb (str_eqb (filePathOf x)) seen); [apply IH|].
  cbn [map]. constructor; [|apply IH].
  intros Hin. apply in_map_iff in Hin. destruct Hin as [r [Hp Hr]].
  apply (firstHits_fresh _ _ _ Hr). apply in_app_iff. right. rewrite Hp. now left.
Qed.

Lemma firstHits_paths (results : list result) :
  forall seen p,
    In p (map filePathOf results) ->
    In p seen \/ In p (map filePathOf (firstHits seen results)).
Proof.
  induction results as [|x rest IH]; intros seen p; cbn [firstHits map]; [intros []|].
  destruct (existsb (str_eqb (filePathOf x)) seen) eqn:E.
  - intros [<-|H]; [left; now apply StoreFacts.in_files | now apply IH].
  - intros [<-|H]; [right; now left|].
    destruct (IH (seen ++ [filePathOf x]) p H) as [Hs|Hf]; [|right; now right].
    apply in_app_iff in Hs. destruct Hs as [Hs|[<-|[]]]; [now left | right; now left].
Qed.

Lemma firstHits_first (results : list result) :
  forall seen r,
    In r (firstHits seen results) ->
    exists pre post,
      results = pre ++ r :: post /\ ~ In (filePathOf r) (map filePathOf pre).
Proof.
  induction results as [|x rest IH]; intros seen r; cbn [firstHits]; [intros []|].
  destruct (existsb (str_eqb (filePathOf x)) seen) eqn:E.
  - intros H. pose proof (firstHits_fresh _ _ _ H) as Hfresh.
    destruct (IH _ _ H) as [pre [post [-> Hpre]]].
    exists (x :: pre), post. split; [reflexivity|]. cbn [map].
    intros [Hx|Hin]; [|now apply Hpre].
    apply Hfresh. rewrite <- Hx. now apply StoreFacts.in_files.
  - intros [<-|H]; [exists [], rest; split; [reflexivity | intros []]|].
    pose proof (firstHits_fresh _ _ _ H) as Hfresh.
    destruct (IH _ _ H) as [pre [post [-> Hpre]]].
    exists (x :: pre), post. split; [reflexivity|]. cbn [map].
    intros [Hx|Hin]; [|now apply Hpre].
    apply Hfresh. apply in_app_iff. right. now left.
Qed.

End SearchFacts.

Section SearchProperties.
Import Search SearchSpec StoreSpec ListFacts SortFacts FusionFacts LegFacts
       Dispatch DispatchSpec SearchFacts.

Variable fts5 : list chunk_row -> jsstring -> outcome (Z -> option Q).
Variable generateQueryEmbedding : jsstring -> outcome (list Utils.f32).
Variable numberOf : Utils.f32 -> Q.
Variable sqrt : Q -> Q.
Variable planAfter : embedding_row * joined -> embedding_row * joined -> bool.

Local Abbreviation search := (Dispatch.search fts5 generateQueryEmbedding numberOf sqrt planAfter).
Local Abbreviation searchHybrid :=
  (Search.searchHybrid fts5 generateQueryEmbedding numberOf sqrt planAfter).

(** X6. Whatever limit is asked for, in whatever mode, [search] returns at most
    100 results, and at most the limit when the limit is 1 or more. *)
Theorem search_never_exceeds_the_cap (d : db) (q : jsstring) (o : Dispatch.options)
  (ev : list event) (results : list result) :
  search d q o = (ev, Ok results) ->
  length results <= 100 /\
  forall k, limit (legs o) = Some k -> (1 <= k)%Z -> length results <= Z.to_nat k.
Proof.
  intros Hrun.
  assert (Hlen : length results <= Z.to_nat (clampLimit (orDefault 10%Z (limit (legs o))))).
  { destruct (search_cases fts5 generateQueryEmbedding numberOf sqrt planAfter d q o ev results
                Hrun)
      as [base [-> Hcase]].
    apply Nat.le_trans with (length base).
    { destruct (Qltb 0 (orDefault 0%Q (minScore o))); [apply filter_length_le | lia]. }
    destruct Hcase as [[_ [ev' [l [Hl ->]]]]|[[_ [ev' [l [Hl ->]]]]|[_ [ev' [l [Hl ->]]]]]];
      rewrite length_map.
    - now apply (searchBM25_length fts5 d q (legs o) ev').
    - now apply (searchVector_length generateQueryEmbedding numberOf sqrt planAfter d q
                   (legs o) ev').
    - destruct (searchHybrid_legs _ _ _ _ _ _ _ _ _ _ Hl) as [evb [lex [_ ->]]].
      apply fuse_length. }
  pose proof (clampLimit_bounds (orDefault 10%Z (limit (legs o)))) as Hb.
  split; [lia|]. intros k Hk Hpos. rewrite Hk in Hlen. cbn [orDefault] in Hlen.
  pose proof (clampLimit_le k Hpos). lia.
Qed.

(** X7. In vector and in hybrid mode, the hybrid default included, the results
    of [search] are in descending order of score. *)
Theorem search_ranking_is_descending (d : db) (q : jsstring) (o : Dispatch.options)
  (ev : list event) (results : list result) :
  mode o <> Some (str "bm25") ->
  search d q o = (ev, Ok results) ->
  descending scoreOf results.
Proof.
  intros Hmode Hrun.
  destruct (search_cases fts5 generateQueryEmbedding numberOf sqrt planAfter d q o ev results Hrun)
    as [base [-> Hcase]].
  assert (Hbase : descending scoreOf base).
  { destruct Hcase as [[Hb _]|[[_ [ev' [l [Hl ->]]]]|[_ [ev' [l [Hl ->]]]]]].
    - exfalso. apply Hmode. destruct (mode o) as [m|]; [cbn in Hb; now subst | discriminate Hb].
    - apply descending_map. cbn [scoreOf].
      now apply (searchVector_descending generateQueryEmbedding numberOf sqrt planAfter d q
                   (legs o) ev').
    - apply descending_map. cbn [scoreOf].
      destruct (searchHybrid_legs _ _ _ _ _ _ _ _ _ _ Hl) as [evb [lex [_ ->]]].
      apply fuse_descending. }
  destruct (Qltb 0 (orDefault 0%Q (minScore o))); [now apply descending_filter | exact Hbase].
Qed.

(** X8. With a collection name, every result of [search] is a chunk of the
    collection of that name. *)
Theorem search_respects_collection_filter (d : db) (q : jsstring) (o : Dispatch.options)
  (name : jsstring) (ev : list event) (results : list result) :
  collectionName (legs o) = Some name ->
  name <> [] ->
  search d q o = (ev, Ok results) ->
  forall r, In r results -> collectionOf r = name.
Proof.
  intros Hname Hne Hrun.
  assert (Hlex : forall o' ev' l,
             collectionName o' = Some name ->
             searchBM25 fts5 d q o' = (ev', Ok l) ->
             forall r, In r l -> collection r = name).
  { intros o' ev' l Ho Hl r Hr.
    destruct (searchBM25_joined fts5 d q o' ev' l r Hl Hr) as [c [j [_ [Hj ->]]]].
    rewrite Ho in Hj. now apply (joinChunk_collection d name name (ch_id c)). }
  assert (Hvec : forall o' ev' l,
             collectionName o' = Some name ->
             searchVector generateQueryEmbedding numberOf sqrt planAfter d q o' = (ev', Ok l) ->
             forall r, In r l -> collection r = name).
  { intros o' ev' l Ho Hl r Hr.
    destruct (searchVector_scored generateQueryEmbedding numberOf sqrt planAfter d q o' ev' l r
                Hl Hr)
      as [qe [row [Hrow [emb [sim [_ [_ ->]]]]]]].
    cbn. rewrite Ho in Hrow. unfold embeddingRows in Hrow.
    apply in_flat_map in Hrow. destruct Hrow as [e [_ Hrow]].
    apply in_map_iff in Hrow. destruct Hrow as [j [<- Hj]]. cbn.
    now apply (joinChunk_collection d name name (em_chunk_id e)). }
  apply (search_all fts5 generateQueryEmbedding numberOf sqrt planAfter
           (fun r => collectionOf r = name) d q o ev results); [| | |exact Hrun].
  - intros ev' l Hl r Hr. cbn. now apply (Hlex (legs o) ev' l).
  - intros ev' l Hl r Hr. cbn. now apply (Hvec (legs o) ev' l).
  - intros ev' l Hl r Hr. cbn.
    destruct (searchHybrid_legs _ _ _ _ _ _ _ _ _ _ Hl) as [evb [lex [Hb ->]]].
    destruct (fuse_from_legs _ _ _ _ _ _ Hr) as [x [Hx [_ [_ [_ [_ [_ ->]]]]]]].
    apply in_app_iff in Hx. destruct Hx as [Hx|Hx].
    + now apply (Hlex (legOptions (legs o)) evb lex).
    + destruct (Search.searchVector generateQueryEmbedding numberOf sqrt planAfter d q
                  (legOptions (legs o))) as [evv [vec|message]] eqn:Ev; [|destruct Hx].
      now apply (Hvec (legOptions (legs o)) evv vec).
Qed.

(** X9. The scores of [search] lie between 0 and 1: always in the modes bm25
    and vector, whatever the weights are, and in hybrid mode when the two
    weights are not negative and add up to at most 1, as the default weights
    do. *)
Theorem search_scores_in_unit_range (d : db) (q : jsstring) (o : Dispatch.options)
  (ev : list event) (results : list result) :
  let wLex := orDefault (4 # 10)%Q (bm25Weight (legs o)) in
  let wVec := orDefault (6 # 10)%Q (vectorWeight (legs o)) in
  (orDefault (str "hybrid") (mode o) = str "hybrid" ->
   (0 <= wLex)%Q /\ (0 <= wVec)%Q /\ (wLex + wVec <= 1)%Q) ->
  search d q o = (ev, Ok results) ->
  forall r, In r results -> (0 <= scoreOf r <= 1)%Q.
Proof.
  intros wLex wVec Hweights Hrun r Hr.
  destruct (search_cases fts5 generateQueryEmbedding numberOf sqrt planAfter d q o ev results
              Hrun) as [base [-> Hcase]].
  assert (Hin : In r base).
  { destruct (Qltb 0 (orDefault 0%Q (minScore o))); [|exact Hr].
    apply filter_In in Hr. tauto. }
  clear Hr.
  destruct Hcase as [[_ [ev' [l [Hrun' ->]]]]
                    |[[_ [ev' [l [Hrun' ->]]]]
                     |[Hmode [ev' [l [Hrun' ->]]]]]];
    apply in_map_iff in Hin; destruct Hin as [x [<- Hx]]; cbn.
  - now apply (searchBM25_unit fts5 d q (legs o) ev' l).
  - now apply (searchVector_unit generateQueryEmbedding numberOf sqrt planAfter d q (legs o)
                 ev' l).
  - destruct (Hweights Hmode) as [Hl [Hv Hsum]].
    destruct (searchHybrid_legs _ _ _ _ _ _ _ _ _ _ Hrun') as [evb [lex [Hb ->]]].
    destruct (fuse_scores _ _ _ _ _ _ Hx) as [-> [Cb Cv]].
    fold wLex wVec.
    assert (Ub : (0 <= bm25Score x <= 1)%Q).
    { apply (contribution_unit lex (h_chunkId x)); [|exact Cb].
      now apply (searchBM25_unit fts5 d q (legOptions (legs o)) evb lex). }
    assert (Uv : (0 <= vectorScore x <= 1)%Q).
    { eapply contribution_unit; [|exact Cv]. intros l Hin.
      destruct (Search.searchVector generateQueryEmbedding numberOf sqrt planAfter d q
                  (legOptions (legs o))) as [evv [vec|message]] eqn:Ev; [|destruct Hin].
      now apply (searchVector_unit generateQueryEmbedding numberOf sqrt planAfter d q
                   (legOptions (legs o)) evv vec). }
    destruct Ub as [Ub0 Ub1]. destruct Uv as [Uv0 Uv1]. split.
    + apply Qplus_nonneg; now apply Qmult_le_0_compat.
    + apply Qle_trans with (1 * wLex + 1 * wVec)%Q.
      * apply Qplus_le_compat; now apply Qmult_le_compat_r.
      * now rewrite !Qmult_1_l.
Qed.

(** X10. The results of a hybrid search are distinct chunks, and each of them
    carries the text, the path, the lines and the collection of a result of
    one of the two legs. *)
Theorem hybrid_results_are_distinct_leg_results (d : db) (q : jsstring)
  (o : Search.options) (ev : list event) (results : list HybridResult) :
  searchHybrid d q o = (ev, Ok results) ->
  NoDup (map h_chunkId results) /\
  exists evb lex,
    searchBM25 fts5 d q (legOptions o) = (evb, Ok lex) /\
    forall r, In r results ->
      exists l,
        In l (lex ++ caught (searchVector generateQueryEmbedding numberOf sqrt planAfter d q
                               (legOptions o))) /\
        copyOf l r.
Proof.
  intros Hrun.
  destruct (searchHybrid_legs _ _ _ _ _ _ _ _ _ _ Hrun) as [evb [lex [Hb ->]]].
  split; [apply fuse_distinct|].
  exists evb, lex. split; [exact Hb|]. intros r Hr. now apply fuse_from_legs in Hr.
Qed.

End SearchProperties.

Section UniqueFiles.
Import Search SearchSpec SortFacts Dispatch DispatchSpec SearchFacts.

(** X11. [getUniqueFiles] lists every path of the results once, in the order of
    its first result and with the collection and the score of that result;
    when the results are in descending order of score, that score is the
    best of the file. *)
Theorem unique_files_are_first_hits (results : list result) :
  let files := getUniqueFiles results in
  files = map hitOf (firstHits [] results) /\
  NoDup (map hit_path files) /\
  (forall p, In p (map hit_path files) <-> In p (map filePathOf results)) /\
  (forall f, In f files ->
     exists pre r post,
       results = pre ++ r :: post /\ f = hitOf r /\
       ~ In (hit_path f) (map filePathOf pre)) /\
  (descending scoreOf results ->
   forall f r, In f files -> In r results -> filePathOf r = hit_path f ->
               (scoreOf r <= hit_score f)%Q).
Proof.
  intros files.
  assert (E : files = map hitOf (firstHits [] results)).
  { unfold files, getUniqueFiles. now rewrite getUniqueFiles_from. }
  assert (Hfirst : forall f, In f files ->
            exists pre r post,
              results = pre ++ r :: post /\ f = hitOf r /\
              ~ In (hit_path f) (map filePathOf pre)).
  { intros f Hf. rewrite E in Hf. apply in_map_iff in Hf. destruct Hf as [r [<- Hr]].
    destruct (firstHits_first _ _ _ Hr) as [pre [post [Hres Hpre]]].
    now exists pre, r, post. }
  split; [exact E|]. split; [|split; [|split; [exact Hfirst|]]].
  - rewrite E, map_map. apply (firstHits_NoDup results []).
  - intros p. rewrite E, map_map. split.
    + intros H. apply in_map_iff in H. destruct H as [r [<- Hr]].
      destruct (firstHits_first _ _ _ Hr) as [pre [post [-> _]]].
      rewrite map_app. apply in_app_iff. right. now left.
    + intros H. destruct (firstHits_paths results [] p H) as [[]|H']. exact H'.
  - intros Hdesc f r Hf Hr Hp.
    destruct (Hfirst f Hf) as [pre [r0 [post [Hres [-> Hpre]]]]].
    cbn [hitOf hit_path hit_score] in *.
    rewrite Hres in Hr, Hdesc. apply in_app_iff in Hr. destruct Hr as [Hr|[<-|Hr]].
    + exfalso. apply Hpre. rewrite <- Hp. now apply in_map.
    + apply Qle_refl.
    + now apply (descending_after scoreOf pre r0 post).
Qed.

End UniqueFiles.

(** ** The embeddings of the chunks (src/indexer.js, src/ddsearch.js) *)

Module EmbeddingFacts.
Import Search IndexerEmbeddings EmbeddingSpec StoreFacts.

Lemma no_match_iff (d : db) (id : Z) :
  filter (fun e => (em_chunk_id e =? id)%Z) (db_embeddings d) = [] <->
  memZ id (embeddedIds d) = false.
Proof.
  unfold embeddedIds, memZ. induction (db_embeddings d) as [|e l IH]; cbn; [tauto|].
  rewrite (Z.eqb_sym id). destruct (em_chunk_id e =? id)%Z; cbn; [|exact IH].
  split; discriminate.
Qed.

(** The LEFT JOIN with its IS NULL test selects the chunks without an
    embedding. *)
Lemma getUnembbeddedChunks_spec (limit : option Z) (d : db) :
  getUnembbeddedChunks limit d = sqlLimit (orDefault 1000%Z limit) (withoutEmbedding d).
Proof.
  unfold getUnembbeddedChunks, withoutEmbedding. f_equal.
  induction (db_chunks d) as [|c l IH]; [reflexivity|]. cbn [flat_map map filter].
  rewrite IH. unfold notIn at 2. cbn [fst].
  destruct (filter (fun e => (em_chunk_id e =? ch_id c)%Z) (db_embeddings d)) eqn:E.
  - apply no_match_iff in E. now rewrite E.
  - assert (H : memZ (ch_id c) (embeddedIds d) = true).
    { destruct (memZ (ch_id c) (embeddedIds d)) eqn:M; [reflexivity|].
      apply no_match_iff in M. congruence. }
    now rewrite H.
Qed.

Lemma sqlLimit_incl {A : Type} (lim : Z) (l : list A) (x : A) :
  In x (sqlLimit lim l) -> In x l.
Proof. unfold sqlLimit. destruct (lim <? 0)%Z; [auto | apply ListFacts.in_firstn]. Qed.

Lemma sqlLimit_nil {A : Type} (lim : Z) (l : list A) :
  lim <> 0%Z -> sqlLimit lim l = [] -> l = [].
Proof.
  unfold sqlLimit. intros Hz. destruct (Z.ltb_spec lim 0); [auto|].
  destruct l as [|x l]; [reflexivity|].
  destruct (Z.to_nat lim) eqn:E; [lia | discriminate].
Qed.

Lemma sqlLimit_prefix {A : Type} (lim : Z) (l : list A) :
  exists k, sqlLimit lim l = firstn k l.
Proof.
  unfold sqlLimit. destruct (lim <? 0)%Z; [|eauto].
  exists (length l). now rewrite firstn_all.
Qed.

Lemma insertRow_in (e x : embedding_row) (rows : list embedding_row) :
  In x (insertRow e rows) <-> x = e \/ In x rows.
Proof.
  induction rows as [|r rows IH]; cbn [insertRow].
  - cbn. intuition.
  - destruct (em_chunk_id e <? em_chunk_id r)%Z; cbn [In]; [intuition|].
    rewrite IH. intuition.
Qed.

Lemma insertRow_perm (e : embedding_row) (rows : list embedding_row) :
  Permutation (insertRow e rows) (e :: rows).
Proof.
  induction rows as [|r rows IH]; cbn [insertRow]; [reflexivity|].
  destruct (em_chunk_id e <? em_chunk_id r)%Z; [reflexivity|].
  rewrite IH. apply perm_swap.
Qed.

(** One INSERT OR REPLACE. *)
Lemma replaceEmbedding_spec (now : Z) (x : chunkEmbedding) (d d' : db) :
  replaceEmbedding now x d = Some d' ->
  In (ce_chunkId x) (map ch_id (db_chunks d)) /\
  sameDocuments d d' /\
  (forall e, In e (db_embeddings d') <->
             e = rowOf now x \/ (In e (db_embeddings d) /\ em_chunk_id e <> ce_chunkId x)) /\
  Permutation (embeddedIds d')
    (ce_chunkId x :: filter (fun id => negb (id =? ce_chunkId x)%Z) (embeddedIds d)).
Proof.
  unfold replaceEmbedding.
  destruct (memZ (ce_chunkId x) (map ch_id (db_chunks d))) eqn:M; [|discriminate].
  intros [= <-]. apply memZ_In in M.
  split; [exact M|]. split; [now repeat split|]. split.
  - intros e. cbn [db_embeddings]. rewrite insertRow_in, filter_In, negb_true_iff, Z.eqb_neq.
    reflexivity.
  - unfold embeddedIds. cbn [db_embeddings].
    rewrite (Permutation_map em_chunk_id (insertRow_perm _ _)). cbn [map em_chunk_id].
    constructor. clear M. induction (db_embeddings d) as [|e l IH]; [reflexivity|].
    cbn [filter map]. destruct (em_chunk_id e =? ce_chunkId x)%Z; cbn [negb map];
      [exact IH | now constructor].
Qed.

Lemma replaceEmbedding_total (now : Z) (x : chunkEmbedding) (d : db) :
  In (ce_chunkId x) (map ch_id (db_chunks d)) ->
  exists d', replaceEmbedding now x d = Some d'.
Proof.
  intros H. unfold replaceEmbedding. apply memZ_In in H. rewrite H. eauto.
Qed.

Lemma replaceEmbedding_keys (now : Z) (x : chunkEmbedding) (d d' : db) :
  replaceEmbedding now x d = Some d' -> embeddingKeys d -> embeddingKeys d'.
Proof.
  intros H [Hnd Hfk].
  destruct (replaceEmbedding_spec now x d d' H) as [Hin [[_ [_ [Hc _]]] [Hrows Hperm]]].
  split.
  - apply (Permutation_NoDup (Permutation_sym Hperm)). constructor.
    + intros Hf. apply filter_In in Hf. destruct Hf as [_ Hf].
      now rewrite Z.eqb_refl in Hf.
    + now apply NoDup_filter.
  - intros e He. rewrite Hc. apply Hrows in He. destruct He as [->|[He _]];
      [exact Hin | now apply Hfk].
Qed.

(** The statements of one transaction. *)
Lemma runAll_spec (now : Z) (xs : list chunkEmbedding) :
  forall d d',
    runAll now xs d = Some d' ->
    sameDocuments d d' /\
    (forall x, In x xs -> In (ce_chunkId x) (map ch_id (db_chunks d))) /\
    (forall e, In e (db_embeddings d') ->
               (exists x, In x xs /\ e = rowOf now x) \/
               (In e (db_embeddings d) /\ ~ In (em_chunk_id e) (map ce_chunkId xs))) /\
    (forall e, In e (db_embeddings d) -> ~ In (em_chunk_id e) (map ce_chunkId xs) ->
               In e (db_embeddings d')) /\
    (forall id, In id (embeddedIds d') <->
                In id (map ce_chunkId xs) \/ In id (embeddedIds d)) /\
    (embeddingKeys d -> embeddingKeys d').
Proof.
  induction xs as [|x xs IH]; intros d d'; cbn [runAll].
  - intros [= <-]. split; [now repeat split|]. split; [intros x []|].
    split; [intros e He; right; split; [exact He | intros []]|].
    split; [auto|]. split; [cbn; tauto | auto].
  - destruct (replaceEmbedding now x d) as [d1|] eqn:E1; [|discriminate].
    intros H. destruct (IH d1 d' H) as [Hs [Hall [Hrows [Hkeep [Hids Hk]]]]].
    destruct (replaceEmbedding_spec now x d d1 E1) as [Hin [Hs1 [Hrows1 Hperm1]]].
    assert (Hc1 : db_chunks d1 = db_chunks d) by apply Hs1.
    split; [|split; [|split; [|split; [|split]]]].
    + destruct Hs as [A [B [C [D E]]]]. destruct Hs1 as [A1 [B1 [C1 [D1 E1']]]].
      repeat split; congruence.
    + intros y [<-|Hy]; [exact Hin|]. rewrite <- Hc1. now apply Hall.
    + intros e He. destruct (Hrows e He) as [[y [Hy ->]]|[He1 Hn]].
      * left. exists y. split; [now right | reflexivity].
      * apply Hrows1 in He1. destruct He1 as [->|[He0 Hne]].
        -- left. exists x. split; [now left | reflexivity].
        -- right. split; [exact He0|]. cbn [map]. intros [Hx|Hx]; [congruence | contradiction].
    + intros e He Hn. cbn [map] in Hn. apply Hkeep.
      * apply Hrows1. right. split; [exact He|]. intros Heq. apply Hn. now left.
      * intros Hx. apply Hn. now right.
    + intros id. rewrite Hids. cbn [map In].
      assert (H1 : In id (embeddedIds d1) <-> id = ce_chunkId x \/ In id (embeddedIds d)).
      { split.
        - intros Hid. apply (Permutation_in id Hperm1) in Hid.
          destruct Hid as [<-|Hid]; [now left|]. apply filter_In in Hid. tauto.
        - intros Hid. apply (Permutation_in id (Permutation_sym Hperm1)).
          destruct (Z.eq_dec id (ce_chunkId x)) as [->|Hne]; [now left|].
          right. apply filter_In. split; [tauto|]. apply negb_true_iff. now apply Z.eqb_neq. }
      rewrite H1. intuition.
    + intros K. apply Hk. now apply (replaceEmbedding_keys now x d d1).
Qed.

Lemma runAll_total (now : Z) (xs : list chunkEmbedding) :
  forall d,
    (forall x, In x xs -> In (ce_chunkId x) (map ch_id (db_chunks d))) ->
    exists d', runAll now xs d = Some d'.
Proof.
  induction xs as [|x xs IH]; intros d H; cbn [runAll]; [eauto|].
  destruct (replaceEmbedding_total now x d) as [d1 E1]; [apply H; now left|].
  rewrite E1. apply IH. intros y Hy.
  destruct (replaceEmbedding_spec now x d d1 E1) as [_ [[_ [_ [Hc _]]] _]].
  rewrite Hc. apply H. now right.
Qed.

(** The rows of a unique chunk id end as the row of its element. *)
Lemma runAll_last (now : Z) (xs : list chunkEmbedding) :
  forall d d',
    runAll now xs d = Some d' ->
    NoDup (map ce_chunkId xs) ->
    forall x, In x xs -> In (rowOf now x) (db_embeddings d').
Proof.
  induction xs as [|x xs IH]; intros d d' H Hnd y Hy; [destruct Hy|].
  cbn [runAll] in H. destruct (replaceEmbedding now x d) as [d1|] eqn:E1; [|discriminate].
  cbn [map] in Hnd. apply NoDup_cons_iff in Hnd. destruct Hnd as [Hfresh Hnd].
  destruct Hy as [<-|Hy]; [|now apply (IH d1 d' H Hnd)].
  destruct (runAll_spec now xs d1 d' H) as [_ [_ [_ [Hkeep _]]]].
  apply Hkeep; [|exact Hfresh].
  apply (replaceEmbedding_spec now x d d1 E1). now left.
Qed.

Lemma withoutEmbedding_after (d d' : db) (ids : list Z) :
  db_chunks d' = db_chunks d ->
  (forall id, In id (embeddedIds d') <-> In id ids \/ In id (embeddedIds d)) ->
  withoutEmbedding d' = filter (notIn ids) (withoutEmbedding d).
Proof.
  intros Hc Hids. unfold withoutEmbedding. rewrite Hc.
  induction (map (fun c => (ch_id c, ch_chunk_text c)) (db_chunks d)) as [|row l IH];
    [reflexivity|].
  cbn [filter]. rewrite IH.
  assert (E : notIn (embeddedIds d') row = notIn (embeddedIds d) row && notIn ids row).
  { unfold notIn. destruct (memZ (fst row) (embeddedIds d')) eqn:M'; cbn [negb].
    - apply memZ_In, Hids in M'. destruct M' as [M|M]; apply memZ_In in M; rewrite M;
        cbn; [now rewrite andb_false_r | reflexivity].
    - destruct (memZ (fst row) (embeddedIds d)) eqn:M.
      { apply memZ_In in M. assert (T : memZ (fst row) (embeddedIds d') = true).
        { apply memZ_In, Hids. now right. } congruence. }
      destruct (memZ (fst row) ids) eqn:Mi; [|reflexivity].
      apply memZ_In in Mi. assert (T : memZ (fst row) (embeddedIds d') = true).
      { apply memZ_In, Hids. now left. } congruence. }
  rewrite E. destruct (notIn (embeddedIds d) row); cbn [andb filter]; reflexivity.
Qed.

Lemma filter_shorter {A : Type} (p : A -> bool) (l : list A) (x : A) :
  In x l -> p x = false -> length (filter p l) < length l.
Proof.
  induction l as [|y l IH]; [intros []|]. cbn [filter length].
  intros [<-|H] Hp.
  - rewrite Hp. pose proof (filter_length_le p l). lia.
  - specialize (IH H Hp). destruct (p y); cbn [length]; lia.
Qed.

(** On rows with distinct ids, dropping the ids of the first [k] rows drops
    those rows. *)
Lemma filter_firstn_ids (l : list (Z * jsstring)) :
  NoDup (map fst l) ->
  forall k, filter (notIn (map fst (firstn k l))) l = skipn k l.
Proof.
  induction l as [|row l IH]; intros Hnd k; [now destruct k|].
  cbn [map] in Hnd. apply NoDup_cons_iff in Hnd. destruct Hnd as [Hfresh Hnd].
  destruct k as [|k].
  - cbn [firstn map skipn]. apply filter_all. intros x _. reflexivity.
  - cbn [firstn map skipn filter]. unfold notIn at 1. cbn [memZ existsb].
    rewrite Z.eqb_refl. cbn [orb negb]. rewrite <- (IH Hnd k).
    apply filter_ext_in. intros x Hx. unfold notIn. cbn [memZ existsb].
    destruct (fst x =? fst row)%Z eqn:E; [|reflexivity].
    apply Z.eqb_eq in E. exfalso. apply Hfresh. rewrite <- E. now apply in_map.
Qed.

Lemma withoutEmbedding_ids (d : db) :
  NoDup (map ch_id (db_chunks d)) -> NoDup (map fst (withoutEmbedding d)).
Proof.
  intros H. unfold withoutEmbedding. apply ListFacts.NoDup_map_filter.
  now rewrite map_map.
Qed.

Lemma withoutEmbedding_chunk (d : db) (row : Z * jsstring) :
  In row (withoutEmbedding d) ->
  In (fst row) (map ch_id (db_chunks d)) /\ ~ In (fst row) (embeddedIds d).
Proof.
  unfold withoutEmbedding. intros H. apply filter_In in H. destruct H as [Hin Hn].
  apply in_map_iff in Hin. destruct Hin as [c [<- Hc]]. cbn [fst] in *. split.
  - now apply in_map.
  - unfold notIn in Hn. cbn [fst] in Hn. apply negb_true_iff in Hn.
    intros Hid. apply memZ_In in Hid. congruence.
Qed.

End EmbeddingFacts.

Module EmbedFacts.
Import Search IndexerEmbeddings EmbeddingSpec StoreFacts EmbeddingFacts Cli.

Section Embed.

Variable generateEmbeddings : list jsstring -> outcome (list (list Utils.f32)).
Variable allocUnsafe : nat -> Utils.buffer.

Local Abbreviation chunkEmbeddingsFrom := (Cli.chunkEmbeddingsFrom allocUnsafe).
Local Abbreviation embedLoop := (Cli.embedLoop generateEmbeddings allocUnsafe).

Lemma unembedded_all (d : db) : unembedded d = withoutEmbedding d.
Proof. unfold unembedded. now rewrite getUnembbeddedChunks_spec. Qed.

Lemma batchSizeOf_nonzero (parsed : option Z) : batchSizeOf parsed <> 0%Z.
Proof.
  unfold batchSizeOf. destruct parsed as [n|]; [|discriminate].
  destruct (Z.eqb_spec n 0); [discriminate | assumption].
Qed.

Lemma chunkEmbeddingsFrom_ids (chunks : list (Z * jsstring))
  (embeddings : list (list Utils.f32)) :
  forall i l,
    chunkEmbeddingsFrom i chunks embeddings = Ok l ->
    map ce_chunkId l = map fst chunks.
Proof.
  induction chunks as [|chunk rest IH]; intros i l; cbn [Cli.chunkEmbeddingsFrom].
  - now intros [= <-].
  - destruct (nth_error embeddings i) as [arr|]; [|discriminate].
    destruct (Utils.float32ArrayToBuffer arr _) as [buffer|]; [|discriminate].
    destruct (chunkEmbeddingsFrom (S i) rest embeddings) as [l'|] eqn:E; [|discriminate].
    intros [= <-]. cbn [map ce_chunkId]. f_equal. now apply (IH (S i)).
Qed.

(** One round of the loop that stores its batch. *)
Lemma round_progress (now : Z) (d d1 : db) (chunks : list (Z * jsstring))
  (l : list chunkEmbedding) :
  (forall row, In row chunks -> In row (withoutEmbedding d)) ->
  map ce_chunkId l = map fst chunks ->
  runAll now l d = Some d1 ->
  sameDocuments d d1 /\
  (forall e, In e (db_embeddings d) -> In e (db_embeddings d1)) /\
  withoutEmbedding d1 = filter (notIn (map fst chunks)) (withoutEmbedding d).
Proof.
  intros Hsub Hids Hrun.
  destruct (runAll_spec now l d d1 Hrun) as [Hs [_ [_ [Hkeep [Hin _]]]]].
  split; [exact Hs|]. split.
  - intros e He. apply Hkeep; [exact He|]. rewrite Hids. intros Hid.
    apply in_map_iff in Hid. destruct Hid as [row [Hrow Hc]].
    apply Hsub, withoutEmbedding_chunk in Hc. destruct Hc as [_ Hc].
    apply Hc. rewrite Hrow. now apply in_map.
  - rewrite <- Hids. apply withoutEmbedding_after; [apply Hs | exact Hin].
Qed.

Lemma embedLoop_ends (now batchSize : Z) :
  batchSize <> 0%Z ->
  forall fuel totalEmbedded d,
    length (withoutEmbedding d) < fuel ->
    exists r d',
      embedLoop fuel now batchSize totalEmbedded d = Some (r, d') /\
      sameDocuments d d' /\
      (forall e, In e (db_embeddings d) -> In e (db_embeddings d')) /\
      match r with
      | Ok _ => withoutEmbedding d' = []
      | Throw _ => True
      end.
Proof.
  intros Hb. induction fuel as [|fuel IH]; intros total d Hfuel; [lia|].
  cbn [Cli.embedLoop]. rewrite getUnembbeddedChunks_spec. cbn [orDefault].
  set (chunks := sqlLimit batchSize (withoutEmbedding d)).
  assert (Hsub : forall row, In row chunks -> In row (withoutEmbedding d))
    by (intros row; apply sqlLimit_incl).
  destruct chunks as [|row chunks'] eqn:Ec.
  { cbn. exists (Ok total), d. split; [reflexivity|]. split; [now repeat split|].
    split; [auto|]. now apply (sqlLimit_nil batchSize). }
  rewrite <- Ec in *. replace (length chunks =? 0) with false
    by (rewrite Ec; reflexivity).
  destruct (generateEmbeddings (map snd chunks)) as [embeddings|message].
  2:{ exists (Throw message), d. split; [reflexivity|]. split; [now repeat split | auto]. }
  destruct (chunkEmbeddingsFrom 0 chunks embeddings) as [l|message] eqn:El.
  2:{ exists (Throw message), d. split; [reflexivity|]. split; [now repeat split | auto]. }
  unfold storeEmbeddings. destruct (runAll now l d) as [d1|] eqn:Erun.
  2:{ eexists _, d. split; [reflexivity|]. split; [now repeat split | auto]. }
  destruct (round_progress now d d1 chunks l Hsub (chunkEmbeddingsFrom_ids _ _ _ _ El) Erun)
    as [Hs [Hkeep Hw]].
  assert (Hless : length (withoutEmbedding d1) < length (withoutEmbedding d)).
  { rewrite Hw. apply (filter_shorter _ _ row).
    - apply Hsub. rewrite Ec. now left.
    - unfold notIn. rewrite Ec. cbn [map memZ existsb]. now rewrite Z.eqb_refl. }
  destruct (IH (total + length chunks) d1) as [r [d' [Hloop [Hs' [Hkeep' Hend]]]]]; [lia|].
  exists r, d'. split; [exact Hloop|]. split.
  - destruct Hs as [A [B [C [D E]]]]. destruct Hs' as [A' [B' [C' [D' E']]]].
    repeat split; congruence.
  - split; [auto | exact Hend].
Qed.

Section Provider.

(** A provider that answers every text with its vector, and an allocator
    that returns buffers of the size asked for. *)
Variable embedOne : jsstring -> list Utils.f32.
Hypothesis provider_answers :
  forall texts, generateEmbeddings texts = Ok (map embedOne texts).
Hypothesis alloc_size : forall n, length (allocUnsafe n) = n.

Local Abbreviation encoded := (EmbeddingSpec.encoded embedOne).

Lemma chunkEmbeddingsFrom_answers (chunks : list (Z * jsstring)) :
  forall i embeddings rest,
    skipn i embeddings = map embedOne (map snd chunks) ++ rest ->
    chunkEmbeddingsFrom i chunks embeddings
    = Ok (map (fun row => mkChunkEmbedding (fst row)
                            (flat_map CodecSpec.bytesOf (embedOne (snd row))) MODEL)
              chunks).
Proof.
  induction chunks as [|chunk chunks IH]; intros i embeddings rest Hskip;
    cbn [Cli.chunkEmbeddingsFrom map]; [reflexivity|].
  cbn [map app] in Hskip.
  destruct (ChunkerFacts.skipn_cons_nth _ _ _ _ Hskip) as [Hnth [Hrest _]].
  rewrite Hnth.
  assert (Henc : Utils.float32ArrayToBuffer (embedOne (snd chunk))
                   (allocUnsafe (length (embedOne (snd chunk)) * 4))
                 = Some (flat_map CodecSpec.bytesOf (embedOne (snd chunk)))).
  { unfold Utils.float32ArrayToBuffer.
    apply (CodecFacts.encode_loop (embedOne (snd chunk)) []). rewrite alloc_size. lia. }
  rewrite Henc, (IH (S i) embeddings rest Hrest). reflexivity.
Qed.

Lemma embedLoop_completes (now batchSize : Z) :
  batchSize <> 0%Z ->
  forall fuel totalEmbedded d,
    NoDup (map ch_id (db_chunks d)) ->
    length (withoutEmbedding d) < fuel ->
    exists d',
      embedLoop fuel now batchSize totalEmbedded d
      = Some (Ok (totalEmbedded + length (withoutEmbedding d)), d') /\
      sameDocuments d d' /\
      (forall e, In e (db_embeddings d) -> In e (db_embeddings d')) /\
      withoutEmbedding d' = [] /\
      (forall row, In row (withoutEmbedding d) -> In (encoded now row) (db_embeddings d')).
Proof.
  intros Hb. induction fuel as [|fuel IH]; intros total d Hnd Hfuel; [lia|].
  cbn [Cli.embedLoop]. rewrite getUnembbeddedChunks_spec. cbn [orDefault].
  destruct (sqlLimit_prefix batchSize (withoutEmbedding d)) as [k Hk].
  set (W := withoutEmbedding d) in *.
  destruct (sqlLimit batchSize W) as [|row chunks'] eqn:Ec.
  { cbn. exists d. rewrite (sqlLimit_nil batchSize W Hb Ec). cbn [length].
    rewrite Nat.add_0_r. split; [reflexivity|]. split; [now repeat split|].
    split; [auto|]. split; [now apply (sqlLimit_nil batchSize W) | intros r []]. }
  rewrite <- Ec in *. set (chunks := sqlLimit batchSize W) in *.
  replace (length chunks =? 0) with false by (rewrite Ec; reflexivity).
  rewrite provider_answers.
  rewrite (chunkEmbeddingsFrom_answers chunks 0 _ []) by (cbn [skipn]; now rewrite app_nil_r).
  set (l := map (fun row => mkChunkEmbedding (fst row)
                              (flat_map CodecSpec.bytesOf (embedOne (snd row))) MODEL)
                chunks).
  assert (Hids : map ce_chunkId l = map fst chunks).
  { unfold l. rewrite map_map. reflexivity. }
  assert (Hsub : forall r, In r chunks -> In r W).
  { intros r. unfold chunks. apply sqlLimit_incl. }
  destruct (runAll_total now l d) as [d1 Erun].
  { intros x Hx. apply in_map_iff in Hx. destruct Hx as [r [<- Hr]]. cbn [ce_chunkId].
    now apply withoutEmbedding_chunk, Hsub. }
  unfold storeEmbeddings. rewrite Erun.
  destruct (round_progress now d d1 chunks l Hsub Hids Erun) as [Hs [Hkeep Hw]].
  fold W in Hw. rewrite Hk in Hw.
  rewrite (filter_firstn_ids W (withoutEmbedding_ids d Hnd) k) in Hw.
  assert (Hnd1 : NoDup (map ch_id (db_chunks d1))).
  { destruct Hs as [_ [_ [C _]]]. now rewrite C. }
  destruct (IH (total + length chunks) d1 Hnd1) as [d' [Hloop [Hs' [Hkeep' [Hend Hrows]]]]].
  { rewrite Hw, length_skipn. assert (0 < length W /\ 0 < k); [|lia].
    assert (Hin : In row W) by (apply Hsub; rewrite Ec; now left).
    split; [destruct W; [destruct Hin | cbn; lia]|].
    destruct k; [rewrite Hk in Ec; discriminate Ec | lia]. }
  exists d'. split.
  { rewrite Hloop. do 3 f_equal. rewrite Hw. rewrite Hk, length_firstn, length_skipn. lia. }
  split.
  { destruct Hs as [A [B [C [D E]]]]. destruct Hs' as [A' [B' [C' [D' E']]]].
    repeat split; congruence. }
  split; [auto|]. split; [exact Hend|].
  intros r Hr. rewrite <- (firstn_skipn k W) in Hr. apply in_app_iff in Hr.
  destruct Hr as [Hr|Hr].
  - apply Hkeep'.
    assert (Hl : In (mkChunkEmbedding (fst r)
                       (flat_map CodecSpec.bytesOf (embedOne (snd r))) MODEL) l).
    { unfold l. apply in_map_iff. exists r. split; [reflexivity|]. now rewrite Hk. }
    apply (runAll_last now l d d1 Erun) in Hl; [exact Hl|].
    rewrite Hids, Hk. apply ListFacts.NoDup_map_firstn. now apply withoutEmbedding_ids.
  - apply Hrows. now rewrite Hw.
Qed.

End Provider.

End Embed.

End EmbedFacts.

Section EmbeddingProperties.
Import Search IndexerEmbeddings EmbeddingSpec StoreFacts EmbeddingFacts Cli EmbedFacts.

(** X12. [getUnembbeddedChunks] returns, in the order of the table, the chunks
    that have no embedding: at most [limit] of them (1000 by default), and
    all of them for a negative limit. *)
Theorem unembedded_chunks_query (limit : option Z) (d : db) :
  let lim := orDefault 1000%Z limit in
  let rows := getUnembbeddedChunks limit d in
  rows = (if (lim <? 0)%Z then withoutEmbedding d
          else firstn (Z.to_nat lim) (withoutEmbedding d)) /\
  (forall row, In row rows ->
     (exists c, In c (db_chunks d) /\ row = (ch_id c, ch_chunk_text c)) /\
     forall e, In e (db_embeddings d) -> em_chunk_id e <> fst row) /\
  ((0 <= lim)%Z -> length rows <= Z.to_nat lim).
Proof.
  intros lim rows.
  assert (E : rows = sqlLimit lim (withoutEmbedding d)) by apply getUnembbeddedChunks_spec.
  split; [exact E|]. split.
  - intros row Hrow. rewrite E in Hrow. apply sqlLimit_incl in Hrow.
    split.
    + unfold withoutEmbedding in Hrow. apply filter_In in Hrow. destruct Hrow as [Hrow _].
      apply in_map_iff in Hrow. destruct Hrow as [c [<- Hc]]. now exists c.
    + apply withoutEmbedding_chunk in Hrow. destruct Hrow as [_ Hn].
      intros e He Hid. apply Hn. rewrite <- Hid. now apply in_map.
  - intros Hpos. rewrite E. unfold sqlLimit.
    destruct (Z.ltb_spec lim 0); [lia | apply ListFacts.length_firstn_le].
Qed.

(** X13. [storeEmbeddings] is all or nothing: it stores when every chunk id
    exists, and otherwise throws the FOREIGN KEY error and leaves the store as
    it was. *)
Theorem store_embeddings_is_all_or_nothing (now : Z) (xs : list chunkEmbedding) (d : db) :
  if forallb (fun x => memZ (ce_chunkId x) (map ch_id (db_chunks d))) xs
  then exists d', storeEmbeddings now xs d = (Ok tt, d')
  else storeEmbeddings now xs d = (Throw (str "FOREIGN KEY constraint failed"), d).
Proof.
  unfold storeEmbeddings.
  destruct (forallb _ xs) eqn:E.
  - destruct (runAll_total now xs d) as [d' H].
    + intros x Hx. rewrite forallb_forall in E. now apply memZ_In, E.
    + rewrite H. now exists d'.
  - destruct (runAll now xs d) as [d'|] eqn:H; [|reflexivity].
    destruct (runAll_spec now xs d d' H) as [_ [Hall _]].
    assert (T : forallb (fun x => memZ (ce_chunkId x) (map ch_id (db_chunks d))) xs = true);
      [|congruence].
    apply forallb_forall. intros x Hx. now apply memZ_In, Hall.
Qed.

(** X14. After [storeEmbeddings] stored embeddings for distinct chunks, each of
    them is in the table with its blob and its model, no other row of theirs
    is left, the rows of the other chunks are as before, none of the chunks
    is reported as unembedded, only the table of embeddings has changed, and
    its key constraints still hold. *)
Theorem stored_embeddings_are_found (now : Z) (xs : list chunkEmbedding) (d d' : db) :
  NoDup (map ce_chunkId xs) ->
  storeEmbeddings now xs d = (Ok tt, d') ->
  sameDocuments d d' /\
  (forall x, In x xs -> In (rowOf now x) (db_embeddings d')) /\
  (forall e, In e (db_embeddings d') ->
     (exists x, In x xs /\ e = rowOf now x) \/
     (In e (db_embeddings d) /\ ~ In (em_chunk_id e) (map ce_chunkId xs))) /\
  (forall e, In e (db_embeddings d) -> ~ In (em_chunk_id e) (map ce_chunkId xs) ->
             In e (db_embeddings d')) /\
  (forall limit row, In row (getUnembbeddedChunks limit d') ->
                     ~ In (fst row) (map ce_chunkId xs)) /\
  (embeddingKeys d -> embeddingKeys d').
Proof.
  intros Hnd. unfold storeEmbeddings.
  destruct (runAll now xs d) as [d1|] eqn:H; [|discriminate]. intros [= <-].
  destruct (runAll_spec now xs d d1 H) as [Hs [_ [Hrows [Hkeep [Hids Hk]]]]].
  split; [exact Hs|]. split; [now apply (runAll_last now xs d d1 H)|].
  split; [exact Hrows|]. split; [exact Hkeep|]. split; [|exact Hk].
  intros limit row Hrow Hin. rewrite getUnembbeddedChunks_spec in Hrow.
  apply sqlLimit_incl, withoutEmbedding_chunk in Hrow. destruct Hrow as [_ Hn].
  apply Hn, Hids. now left.
Qed.

Variable generateEmbeddings : list jsstring -> outcome (list (list Utils.f32)).
Variable allocUnsafe : nat -> Utils.buffer.

Local Abbreviation embed := (Cli.embed generateEmbeddings allocUnsafe).

(** X15. The loop of the [embed] command always ends, whatever the provider
    does.  It changes nothing but the table of embeddings, it leaves every
    embedding that was stored before in place, and when it ends without an
    error no chunk is left without an embedding. *)
Theorem embed_always_ends (now : Z) (parsed : option Z) (d : db) :
  exists r d',
    embed now parsed d = Some (r, d') /\
    sameDocuments d d' /\
    (forall e, In e (db_embeddings d) -> In e (db_embeddings d')) /\
    match r with
    | Ok _ => getUnembbeddedChunks (Some (-1)%Z) d' = []
    | Throw _ => True
    end.
Proof.
  unfold Cli.embed.
  destruct (embedLoop_ends generateEmbeddings allocUnsafe now (batchSizeOf parsed)
              (batchSizeOf_nonzero parsed) (S (length (unembedded d))) 0 d)
    as [r [d' [Hloop [Hs [Hkeep Hend]]]]].
  { rewrite unembedded_all. lia. }
  exists r, d'. split; [exact Hloop|]. split; [exact Hs|]. split; [exact Hkeep|].
  destruct r; [|exact I]. fold (unembedded d'). now rewrite unembedded_all.
Qed.

(** X16. With a provider that answers every text with its vector and an
    allocator that returns buffers of the size asked for, the [embed] command
    on a store with distinct chunk ids reports as many embeddings as there
    were chunks without one, and for each of those chunks the table then
    holds the little-endian bytes of the vector of its text, which decode to
    that vector when its elements are values of a Float32Array. *)
Theorem embed_pass_embeds_every_chunk (embedOne : jsstring -> list Utils.f32)
  (now : Z) (parsed : option Z) (d : db) :
  (forall texts, generateEmbeddings texts = Ok (map embedOne texts)) ->
  (forall n, length (allocUnsafe n) = n) ->
  NoDup (map ch_id (db_chunks d)) ->
  exists d',
    embed now parsed d = Some (Ok (length (withoutEmbedding d)), d') /\
    sameDocuments d d' /\
    (forall e, In e (db_embeddings d) -> In e (db_embeddings d')) /\
    getUnembbeddedChunks (Some (-1)%Z) d' = [] /\
    forall row, In row (withoutEmbedding d) ->
      In (encoded embedOne now row) (db_embeddings d') /\
      (Forall Utils.f32_valid (embedOne (snd row)) ->
       Utils.bufferToFloat32Array (em_embedding (encoded embedOne now row))
       = Some (embedOne (snd row))).
Proof.
  intros Hprov Halloc Hnd. unfold Cli.embed.
  destruct (embedLoop_completes generateEmbeddings allocUnsafe embedOne Hprov Halloc
              now (batchSizeOf parsed) (batchSizeOf_nonzero parsed)
              (S (length (unembedded d))) 0 d Hnd)
    as [d' [Hloop [Hs [Hkeep [Hend Hrows]]]]].
  { rewrite unembedded_all. lia. }
  exists d'. split; [exact Hloop|]. split; [exact Hs|]. split; [exact Hkeep|].
  split; [fold (unembedded d'); now rewrite unembedded_all|].
  intros row Hrow. split; [now apply Hrows|].
  intros Hvalid. cbn [encoded em_embedding].
  unfold Utils.bufferToFloat32Array.
  rewrite CodecFacts.length_bytes, Nat.mul_comm, Nat.div_mul by lia.
  now apply (CodecFacts.decode_loop (embedOne (snd row)) (embedOne (snd row)) []).
Qed.

End EmbeddingProperties.

(** ** The requests to the provider (src/embeddings.js) *)

Module ProviderFacts.
Import Search Provider.

Lemma slice_batch {A : Type} (i : nat) (l : list A) :
  slice i (i + BATCH_SIZE) l = firstn BATCH_SIZE (skipn i l).
Proof. unfold slice. now replace (i + BATCH_SIZE - i) with BATCH_SIZE by lia. Qed.

Lemma skipn_add {A : Type} (i j : nat) (l : list A) :
  skipn (i + j) l = skipn j (skipn i l).
Proof.
  revert l. induction i as [|i IH]; intros l; [reflexivity|].
  destruct l as [|x l]; [now destruct j|]. cbn [Nat.add skipn]. apply IH.
Qed.

Lemma batchLoop_spec (texts : list jsstring) (fuel : nat) :
  forall i,
    length texts - i <= fuel ->
    concat (batchLoop fuel i texts) = skipn i texts /\
    Forall (fun b => 1 <= length b <= BATCH_SIZE) (batchLoop fuel i texts) /\
    Forall (fun b => length b = BATCH_SIZE) (removelast (batchLoop fuel i texts)).
Proof.
  induction fuel as [|fuel IH]; intros i Hfuel; cbn [batchLoop].
  - split; [|split; constructor]. cbn. symmetry. apply skipn_all2. lia.
  - destruct (Nat.ltb_spec i (length texts)) as [Hlt|Hge].
    + destruct (IH (i + BATCH_SIZE)) as [Hc [Hall Hfull]]; [unfold BATCH_SIZE; lia|].
      rewrite slice_batch. split; [|split].
      * cbn [concat]. rewrite Hc, skipn_add. apply firstn_skipn.
      * constructor; [|exact Hall].
        rewrite length_firstn, length_skipn. unfold BATCH_SIZE. lia.
      * destruct (batchLoop fuel (i + BATCH_SIZE) texts) as [|b rest] eqn:E;
          [constructor|].
        cbn [removelast]. constructor; [|exact Hfull].
        rewrite length_firstn, length_skipn.
        assert (Hmore : i + BATCH_SIZE < length texts).
        { destruct fuel as [|fuel']; [discriminate E|]. cbn [batchLoop] in E.
          destruct (Nat.ltb_spec (i + BATCH_SIZE) (length texts)); [assumption | discriminate E]. }
        unfold BATCH_SIZE in *. lia.
    + split; [|split; constructor]. cbn. symmetry. now apply skipn_all2.
Qed.

Lemma batchLoop_fuel (texts : list jsstring) (fuel : nat) :
  forall fuel' i,
    length texts - i <= fuel -> length texts - i <= fuel' ->
    batchLoop fuel i texts = batchLoop fuel' i texts.
Proof.
  induction fuel as [|fuel IH]; intros fuel' i H H'.
  - destruct fuel' as [|fuel']; [reflexivity|]. cbn [batchLoop].
    destruct (Nat.ltb_spec i (length texts)); [lia | reflexivity].
  - destruct fuel' as [|fuel']; cbn [batchLoop];
      destruct (Nat.ltb_spec i (length texts)); try reflexivity; try lia.
    f_equal. apply IH; unfold BATCH_SIZE; lia.
Qed.

Section Api.

Variable getApiKey : outcome jsstring.
Variable embeddingsApi : jsstring -> list jsstring -> outcome (list (list Utils.f32)).

Local Abbreviation requestAll := (Provider.requestAll embeddingsApi).

Lemma requestAll_ok (apiKey : jsstring) (batches : list (list jsstring)) :
  forall acc sent embeddings,
    requestAll apiKey batches acc = (sent, Ok embeddings) ->
    sent = batches /\
    exists responses,
      Forall2 (fun b r => embeddingsApi apiKey b = Ok r) batches responses /\
      embeddings = acc ++ concat responses.
Proof.
  induction batches as [|b rest IH]; intros acc sent embeddings; cbn [Provider.requestAll].
  - intros [= <- <-]. split; [reflexivity|]. exists []. split; [constructor|].
    now rewrite app_nil_r.
  - destruct (embeddingsApi apiKey b) as [r|message] eqn:E; [|discriminate].
    destruct (requestAll apiKey rest (acc ++ r)) as [sent' out] eqn:Er.
    intros [= <- ->]. destruct (IH _ _ _ Er) as [-> [responses [Hall ->]]].
    split; [reflexivity|]. exists (r :: responses). split; [now constructor|].
    cbn [concat]. now rewrite app_assoc.
Qed.

Lemma requestAll_throw (apiKey : jsstring) (batches : list (list jsstring)) :
  forall acc sent message,
    requestAll apiKey batches acc = (sent, Throw message) ->
    exists pre b post,
      batches = pre ++ b :: post /\ sent = pre ++ [b] /\
      embeddingsApi apiKey b = Throw message /\
      Forall (fun b' => exists r, embeddingsApi apiKey b' = Ok r) pre.
Proof.
  induction batches as [|b rest IH]; intros acc sent message; cbn [Provider.requestAll];
    [discriminate|].
  destruct (embeddingsApi apiKey b) as [r|m] eqn:E.
  - destruct (requestAll apiKey rest (acc ++ r)) as [sent' out] eqn:Er.
    intros [= <- ->]. destruct (IH _ _ _ Er) as [pre [b' [post [-> [-> [Hb Hpre]]]]]].
    exists (b :: pre), b', post. repeat split; try assumption.
    constructor; [eauto | exact Hpre].
  - intros [= <- <-]. exists [], b, rest. repeat split; [exact E | constructor].
Qed.

Lemma requestAll_pointwise (embedOne : jsstring -> list Utils.f32) (apiKey : jsstring)
  (batches : list (list jsstring)) :
  (forall batch, embeddingsApi apiKey batch = Ok (map embedOne batch)) ->
  forall acc,
    requestAll apiKey batches acc = (batches, Ok (acc ++ map embedOne (concat batches))).
Proof.
  intros Hapi. induction batches as [|b rest IH]; intros acc; cbn [Provider.requestAll].
  - cbn. now rewrite app_nil_r.
  - rewrite Hapi, IH. cbn [concat]. now rewrite map_app, app_assoc.
Qed.

End Api.

End ProviderFacts.

Section ProviderProperties.
Import Search Provider ProviderFacts.

(** X17. The batches [generateEmbeddings] makes are the texts cut in order into
    pieces of 100, the last one holding what is left: no batch is empty, and
    the loop that makes them ends because it reaches the end of the texts. *)
Theorem batches_partition_the_texts (texts : list jsstring) :
  concat (batchesOf texts) = texts /\
  Forall (fun b => 1 <= length b <= 100) (batchesOf texts) /\
  Forall (fun b => length b = 100) (removelast (batchesOf texts)) /\
  forall fuel, length texts <= fuel -> batchLoop fuel 0 texts = batchesOf texts.
Proof.
  unfold batchesOf.
  destruct (batchLoop_spec texts (length texts) 0) as [Hc [Hall Hfull]]; [lia|].
  split; [exact Hc|]. split; [exact Hall|]. split; [exact Hfull|].
  intros fuel Hfuel. apply batchLoop_fuel; lia.
Qed.

Variable getApiKey : outcome jsstring.
Variable embeddingsApi : jsstring -> list jsstring -> outcome (list (list Utils.f32)).

Local Abbreviation generateEmbeddings :=
  (Provider.generateEmbeddings getApiKey embeddingsApi).

(** X18. For no text [generateEmbeddings] returns the empty list at once,
    whether a key can be found or not, and sends nothing.  For some texts and
    no key it throws the error of the key and sends nothing.  With a key, it
    sends the batches in order; when it returns, all of them were sent and
    the result is the answers put end to end; when it throws, the batch sent
    last is the first one the provider refused, and no vector of the earlier
    batches is returned. *)
Theorem provider_requests_in_order (texts : list jsstring) :
  generateEmbeddings [] = ([], Ok []) /\
  (texts <> [] ->
   (forall message,
      getApiKey = Throw message -> generateEmbeddings texts = ([], Throw message)) /\
   (forall apiKey,
      getApiKey = Ok apiKey ->
      (forall sent embeddings,
         generateEmbeddings texts = (sent, Ok embeddings) ->
         sent = batchesOf texts /\
         exists responses,
           Forall2 (fun b r => embeddingsApi apiKey b = Ok r) (batchesOf texts) responses /\
           embeddings = concat responses) /\
      (forall sent message,
         generateEmbeddings texts = (sent, Throw message) ->
         exists pre b post,
           batchesOf texts = pre ++ b :: post /\ sent = pre ++ [b] /\
           embeddingsApi apiKey b = Throw message /\
           Forall (fun b' => exists r, embeddingsApi apiKey b' = Ok r) pre))).
Proof.
  split; [reflexivity|]. intros Hne.
  unfold Provider.generateEmbeddings.
  destruct texts as [|t texts]; [contradiction|]. cbn [length Nat.eqb].
  split.
  - intros message Hkey. now rewrite Hkey.
  - intros apiKey Hkey. rewrite Hkey. split.
    + intros sent embeddings H. apply requestAll_ok in H. exact H.
    + intros sent message H. now apply requestAll_throw in H.
Qed.

(** X19. When the provider answers every batch with the vectors of its texts,
    [generateEmbeddings] answers every list of texts with the vectors of its
    texts, in order; and [generateQueryEmbedding] makes one request, of the
    query alone, and returns its vector. *)
Theorem batching_is_transparent (embedOne : jsstring -> list Utils.f32)
  (apiKey : jsstring) (texts : list jsstring) (query : jsstring) :
  getApiKey = Ok apiKey ->
  (forall batch, embeddingsApi apiKey batch = Ok (map embedOne batch)) ->
  snd (generateEmbeddings texts) = Ok (map embedOne texts) /\
  Provider.generateQueryEmbedding getApiKey embeddingsApi query
  = ([[query]], Ok (Some (embedOne query))).
Proof.
  intros Hkey Hapi. split.
  - unfold Provider.generateEmbeddings.
    destruct texts as [|t texts]; [reflexivity|]. cbn [length Nat.eqb]. rewrite Hkey.
    rewrite (requestAll_pointwise embeddingsApi embedOne apiKey _ Hapi). cbn [snd app].
    unfold batchesOf.
    destruct (batchLoop_spec (t :: texts) (length (t :: texts)) 0) as [Hc _]; [lia|].
    now rewrite Hc.
  - unfold Provider.generateQueryEmbedding, Provider.generateEmbeddings.
    cbn [length Nat.eqb]. rewrite Hkey.
    rewrite (requestAll_pointwise embeddingsApi embedOne apiKey _ Hapi). reflexivity.
Qed.

End ProviderProperties.

(** ** The collections (src/collections.js) *)

Module CollectionFacts.
Import Search Indexer StoreSpec StoreFacts Collections CollectionSpec.

Lemma startsWith_app (p s : jsstring) :
  startsWith p s = true <-> exists rest, s = p ++ rest.
Proof.
  revert s. induction p as [|a p IH]; intros s; cbn [startsWith].
  - split; [intros _; now exists s | reflexivity].
  - destruct s as [|b s]; [split; [discriminate | intros [rest H]; discriminate H]|].
    rewrite andb_true_iff, N.eqb_eq, IH. split.
    + intros [-> [rest ->]]. now exists rest.
    + intros [rest H]. cbn in H. injection H as -> ->. split; [reflexivity | now exists rest].
Qed.

Lemma memZ_false (x : Z) (l : list Z) : memZ x l = false <-> ~ In x l.
Proof.
  split.
  - intros H Hin. apply memZ_In in Hin. congruence.
  - intros H. destruct (memZ x l) eqn:E; [|reflexivity]. apply memZ_In in E. contradiction.
Qed.

Lemma filter_and {A : Type} (p q : A -> bool) (l : list A) :
  filter p (filter q l) = filter (fun x => q x && p x) l.
Proof.
  induction l as [|x l IH]; [reflexivity|]. cbn [filter].
  destruct (q x); cbn [filter andb]; now rewrite IH.
Qed.

Lemma filter_none {A : Type} (p : A -> bool) (l : list A) :
  (forall x, In x l -> p x = false) -> filter p l = [].
Proof.
  induction l as [|x l IH]; intros H; [reflexivity|]. cbn [filter].
  rewrite (H x) by now left. apply IH. intros y Hy. apply H. now right.
Qed.

Lemma memZ_cons (x y : Z) (l : list Z) : memZ x (y :: l) = (x =? y)%Z || memZ x l.
Proof. reflexivity. Qed.

(** The tables after the deletes of a list of documents. *)
Lemma deleteAll_tables (dead : list file_metadata_row) :
  forall d,
    db_chunks (deleteAll dead d)
    = filter (fun c => negb (memZ (ch_file_metadata_id c) (map fm_id dead))) (db_chunks d) /\
    db_embeddings (deleteAll dead d)
    = filter (fun e => negb (memZ (em_chunk_id e) (chunkIdsOf (map fm_id dead) d)))
             (db_embeddings d).
Proof.
  unfold deleteAll, chunkIdsOf.
  induction dead as [|x dead IH]; intros d; cbn [fold_left map].
  - split; symmetry; apply filter_all; intros y _; [reflexivity|].
    rewrite (filter_none (fun c => memZ (ch_file_metadata_id c) [])); reflexivity.
  - destruct (IH (deleteFileMetadata (fm_id x) d)) as [Hc He]. rewrite Hc, He.
    cbn [deleteFileMetadata db_chunks db_embeddings]. split.
    + rewrite filter_and. apply filter_ext. intros c.
      now rewrite memZ_cons, negb_orb.
    + rewrite filter_and. apply filter_ext_in. intros e _.
      rewrite <- negb_orb. f_equal.
      apply eq_true_iff_eq. rewrite orb_true_iff. rewrite !memZ_In, !in_map_iff.
      split.
      * intros [[c [Hid Hc']]|[c [Hid Hc']]]; exists c; (split; [exact Hid|]);
          apply filter_In in Hc'; destruct Hc' as [Hin Hp]; apply filter_In.
        -- split; [exact Hin|]. rewrite memZ_cons, Hp. reflexivity.
        -- apply filter_In in Hin. destruct Hin as [Hin Hne]. split; [exact Hin|].
           rewrite memZ_cons, Hp. apply orb_true_r.
      * intros [c [Hid Hc']]. apply filter_In in Hc'. destruct Hc' as [Hin Hp].
        rewrite memZ_cons in Hp.
        destruct (ch_file_metadata_id c =? fm_id x)%Z eqn:E.
        -- left. exists c. split; [exact Hid|]. apply filter_In. now split.
        -- right. exists c. split; [exact Hid|]. apply filter_In. split; [|exact Hp].
           apply filter_In. split; [exact Hin | now rewrite E].
Qed.

Lemma getCollection_spec (name : jsstring) (d : db) (c : collection_row) :
  getCollection name d = Some c -> In c (db_collections d) /\ col_name c = name.
Proof.
  unfold getCollection. intros H. apply find_some in H. destruct H as [Hin Hn].
  split; [exact Hin | now apply str_eqb_eq].
Qed.

Lemma getCollection_none (name : jsstring) (d : db) :
  getCollection name d = None <-> ~ In name (map col_name (db_collections d)).
Proof.
  unfold getCollection. rewrite find_none_iff. split.
  - intros H Hin. apply in_map_iff in Hin. destruct Hin as [c [Hn Hc]].
    specialize (H c Hc). rewrite Hn, str_eqb_refl in H. discriminate.
  - intros H c Hc. destruct (str_eqb (col_name c) name) eqn:E; [|reflexivity].
    apply str_eqb_eq in E. exfalso. apply H. rewrite <- E. now apply in_map.
Qed.

Lemma name_taken (name : jsstring) (l : list collection_row) :
  existsb (fun c => str_eqb (col_name c) name) l = true <-> In name (map col_name l).
Proof.
  rewrite existsb_exists, in_map_iff. split; intros [c H]; exists c.
  - destruct H as [Hc E]. apply str_eqb_eq in E. now split.
  - destruct H as [E Hc]. split; [exact Hc | now apply str_eqb_eq].
Qed.

End CollectionFacts.

Section CollectionProperties.
Import Search Indexer StoreSpec StoreFacts IndexerFacts Collections CollectionSpec
       CollectionFacts.

(** X20. Removing a collection that exists removes its row, its documents, the
    chunks of those documents and the embeddings of those chunks, and nothing
    else; the key constraints still hold, and the name is free again when
    names are unique. *)
Theorem removed_collection_takes_its_documents (name : jsstring) (d : db)
  (c : collection_row) :
  keys d ->
  getCollection name d = Some c ->
  exists d',
    removeCollection name d = (Ok name, d') /\
    db_collections d'
    = filter (fun x => negb (col_id x =? col_id c)%Z) (db_collections d) /\
    db_file_metadata d'
    = filter (fun f => negb (fm_collection_id f =? col_id c)%Z) (db_file_metadata d) /\
    db_chunks d'
    = filter (fun ch => negb (memZ (ch_file_metadata_id ch) (documentIds (col_id c) d)))
             (db_chunks d) /\
    db_embeddings d'
    = filter (fun e => negb (memZ (em_chunk_id e)
                                  (chunkIdsOf (documentIds (col_id c) d) d)))
             (db_embeddings d) /\
    keys d' /\
    (NoDup (map col_name (db_collections d)) -> getCollection name d' = None).
Proof.
  intros K Hget. unfold removeCollection. rewrite Hget.
  eexists. split; [reflexivity|]. unfold deleteCollection.
  change (fold_left (fun acc f => deleteFileMetadata (fm_id f) acc)
            (filter (fun f => (fm_collection_id f =? col_id c)%Z) (db_file_metadata d)) d)
    with (deleteAll (rowsOf (col_id c) d) d).
  assert (K1 : keys (mkDb
                      (filter (fun x => negb (col_id x =? col_id c)%Z)
                              (db_collections (deleteAll (rowsOf (col_id c) d) d)))
                      (db_file_metadata (deleteAll (rowsOf (col_id c) d) d))
                      (db_chunks (deleteAll (rowsOf (col_id c) d) d))
                      (db_embeddings (deleteAll (rowsOf (col_id c) d) d))
                      (seq_file_metadata (deleteAll (rowsOf (col_id c) d) d))
                      (seq_chunks (deleteAll (rowsOf (col_id c) d) d)))).
  { destruct (deleteAll_keys (rowsOf (col_id c) d) d K) as [A B C D E F].
    constructor; cbn [db_collections db_file_metadata db_chunks seq_file_metadata seq_chunks];
      try assumption.
    now apply ListFacts.NoDup_map_filter. }
  revert K1. generalize (seq_file_metadata (deleteAll (rowsOf (col_id c) d) d)).
  generalize (seq_chunks (deleteAll (rowsOf (col_id c) d) d)).
  cbn [db_collections db_file_metadata db_chunks db_embeddings].
  destruct (deleteAll_tables (rowsOf (col_id c) d) d) as [Hc He].
  rewrite deleteAll_collections, deleteAll_file_metadata, Hc, He.
  intros sc sf K1.
  split; [reflexivity|]. split.
  { apply filter_ext_in. intros f Hf. f_equal.
    apply eq_true_iff_eq. rewrite memZ_In, in_map_iff, Z.eqb_eq. split.
    - intros [g [Hid Hg]]. apply filter_In in Hg. destruct Hg as [Hg Hcid].
      apply Z.eqb_eq in Hcid.
      now rewrite (NoDup_map_inj fm_id _ g f (key_file_metadata d K) Hg Hf Hid) in Hcid.
    - intros Hcid. exists f. split; [reflexivity|]. apply filter_In.
      split; [exact Hf | now apply Z.eqb_eq]. }
  split; [reflexivity|]. split; [reflexivity|]. split; [exact K1|].
  intros Hnames. apply getCollection_none. cbn [db_collections].
  destruct (getCollection_spec name d c Hget) as [Hin Hname].
  intros H. apply in_map_iff in H. destruct H as [x [Hx Hxin]].
  apply filter_In in Hxin. destruct Hxin as [Hxin Hne].
  assert (x = c).
  { apply (NoDup_map_inj col_name (db_collections d)); try assumption. congruence. }
  subst x. now rewrite Z.eqb_refl in Hne.
Qed.

Variable resolve : jsstring -> jsstring.
Variable existsSync : jsstring -> bool.
Variable isDirectory : jsstring -> outcome bool.
Variable realpathSync : jsstring -> outcome jsstring.
Variable sep : jsstring.

Local Abbreviation addCollection := (Collections.addCollection resolve existsSync isDirectory).
Local Abbreviation resolveFileInCollections :=
  (Collections.resolveFileInCollections existsSync realpathSync sep).

(** X21. When [addCollection] returns, the resolved base path exists and is a
    directory and the name was free; the collection is the new last row, with
    a fresh id, the resolved path and the mask, and it is the one its name
    looks up; the other names look up what they did, the other tables are
    untouched and the key constraints still hold. *)
Theorem added_collection_is_found (now : Z) (name basePath : jsstring)
  (globMask : option jsstring) (s s' : catalog) (a : added) :
  catalogKeys s ->
  addCollection now name basePath globMask s = (Ok a, s') ->
  let mask := orDefault (str "**/*.md") globMask in
  let row := mkCollection (seq_collections s') name (resolve basePath) mask now in
  existsSync (resolve basePath) = true /\
  isDirectory (resolve basePath) = Ok true /\
  ~ In name (map col_name (db_collections (tables s))) /\
  a = mkAdded name (resolve basePath) mask /\
  (seq_collections s < seq_collections s')%Z /\
  db_collections (tables s') = db_collections (tables s) ++ [row] /\
  getCollection name (tables s') = Some row /\
  (forall other, other <> name ->
     getCollection other (tables s') = getCollection other (tables s)) /\
  db_file_metadata (tables s') = db_file_metadata (tables s) /\
  db_chunks (tables s') = db_chunks (tables s) /\
  db_embeddings (tables s') = db_embeddings (tables s) /\
  catalogKeys s'.
Proof.
  intros [Kid [Kname Kseq]]. unfold Collections.addCollection.
  destruct (existsSync (resolve basePath)) eqn:Ex; cbn [negb]; [|discriminate].
  destruct (isDirectory (resolve basePath)) as [[|]|message] eqn:Edir; try discriminate.
  unfold insertCollection.
  destruct (existsb (fun c => str_eqb (col_name c) name) (db_collections (tables s)))
    eqn:Etaken; [discriminate|].
  cbv beta iota zeta. intros E. injection E as <- <-.
  cbn [tables seq_collections db_collections db_file_metadata db_chunks db_embeddings] in *.
  assert (Hfree : ~ In name (map col_name (db_collections (tables s)))).
  { intros H. apply name_taken in H. congruence. }
  destruct (nextRowid_fresh (seq_collections s) (map col_id (db_collections (tables s))))
    as [Hseq Hfresh].
  split; [reflexivity|]. split; [reflexivity|]. split; [exact Hfree|].
  split; [reflexivity|]. split; [exact Hseq|]. split; [reflexivity|].
  split; [|split; [|split; [reflexivity|split; [reflexivity|split; [reflexivity|]]]]].
  - unfold getCollection. cbn [db_collections]. rewrite find_app.
    assert (Hnone : find (fun c => str_eqb (col_name c) name) (db_collections (tables s))
                    = None).
    { apply find_none_iff. intros c Hc.
      destruct (str_eqb (col_name c) name) eqn:E; [|reflexivity].
      apply str_eqb_eq in E. exfalso. apply Hfree. rewrite <- E. now apply in_map. }
    rewrite Hnone. cbn [col_name]. now rewrite str_eqb_refl.
  - intros other Hother. unfold getCollection. cbn [db_collections]. rewrite find_app.
    destruct (find _ (db_collections (tables s))); [reflexivity|]. cbn [col_name].
    destruct (str_eqb name other) eqn:E; [|reflexivity].
    apply str_eqb_eq in E. congruence.
  - unfold catalogKeys. cbn [tables seq_collections db_collections]. split; [|split].
    + apply NoDup_map_snoc; [exact Kid|]. cbn [col_id]. intros H.
      specialize (Hfresh _ H). lia.
    + apply NoDup_map_snoc; [exact Kname | exact Hfree].
    + apply Forall_app. split.
      * eapply Forall_impl; [|exact Kseq]. cbn. intros c Hc. lia.
      * constructor; [cbn; lia | constructor].
Qed.

(** X22. Removing a collection right after it was added gives back the tables
    as they were, when every document belongs to a collection of the store. *)
Theorem add_then_remove_restores_the_tables (now : Z) (name basePath : jsstring)
  (globMask : option jsstring) (s s' : catalog) (a : added) :
  catalogKeys s ->
  (forall f, In f (db_file_metadata (tables s)) ->
             In (fm_collection_id f) (map col_id (db_collections (tables s)))) ->
  addCollection now name basePath globMask s = (Ok a, s') ->
  removeCollection name (tables s') = (Ok name, tables s).
Proof.
  intros [Kid [Kname Kseq]] Hfk. unfold Collections.addCollection.
  destruct (existsSync (resolve basePath)); cbn [negb]; [|discriminate].
  destruct (isDirectory (resolve basePath)) as [[|]|message]; try discriminate.
  unfold insertCollection.
  destruct (existsb (fun c => str_eqb (col_name c) name) (db_collections (tables s)))
    eqn:Etaken; [discriminate|].
  cbv beta iota zeta. intros E. injection E as _ <-.
  assert (Hfree : ~ In name (map col_name (db_collections (tables s)))).
  { intros H. apply name_taken in H. congruence. }
  destruct (nextRowid_fresh (seq_collections s) (map col_id (db_collections (tables s))))
    as [Hseq Hfresh].
  set (id := nextRowid (seq_collections s) (map col_id (db_collections (tables s)))) in *.
  unfold removeCollection, getCollection. cbn [tables db_collections]. rewrite find_app.
  assert (Hnone : find (fun c => str_eqb (col_name c) name) (db_collections (tables s))
                  = None).
  { apply find_none_iff. intros c Hc.
    destruct (str_eqb (col_name c) name) eqn:E; [|reflexivity].
    apply str_eqb_eq in E. exfalso. apply Hfree. rewrite <- E. now apply in_map. }
  rewrite Hnone. cbn [col_name col_id]. rewrite str_eqb_refl. f_equal.
  unfold deleteCollection. cbn [db_file_metadata].
  rewrite (filter_none (fun f => (fm_collection_id f =? id)%Z)).
  - cbn [fold_left db_collections db_file_metadata db_chunks db_embeddings
              seq_file_metadata seq_chunks].
    rewrite filter_app. cbn [filter col_id]. rewrite Z.eqb_refl. cbn [negb].
    rewrite app_nil_r, filter_all; [now destruct (tables s)|].
    intros c Hc. apply negb_true_iff, Z.eqb_neq. intros E.
    specialize (Hfresh (col_id c) (in_map col_id _ c Hc)). lia.
  - intros f Hf. apply Z.eqb_neq. intros E. specialize (Hfresh _ (Hfk f Hf)). lia.
Qed.

(** X23. A file that [resolveFileInCollections] grants exists, and its real path
    is the real base path of a collection of the store or lies below it. *)
Theorem resolved_file_is_inside_a_collection (filePath : jsstring) (d : db)
  (c : collection_row) (p : jsstring) :
  resolveFileInCollections filePath d = Ok (Some (c, p)) ->
  existsSync filePath = true /\
  realpathSync filePath = Ok p /\
  In c (db_collections d) /\
  exists base, realpathSync (col_base_path c) = Ok base /\ inside sep base p.
Proof.
  unfold Collections.resolveFileInCollections.
  destruct (length (getCollections None d) =? 0); [discriminate|].
  destruct (existsSync filePath); cbn [negb]; [|discriminate].
  destruct (realpathSync filePath) as [resolved|message]; [|discriminate].
  assert (Hloop : forall cs,
             firstContaining realpathSync sep resolved cs = Ok (Some (c, p)) ->
             p = resolved /\ In c cs /\
             exists base, realpathSync (col_base_path c) = Ok base /\ inside sep base p).
  { induction cs as [|x cs IH]; cbn [firstContaining]; [discriminate|].
    destruct (realpathSync (col_base_path x)) as [base|message] eqn:Eb; [|discriminate].
    destruct (str_eqb resolved base || startsWith (base ++ sep) resolved) eqn:E.
    - intros [= <- <-]. split; [reflexivity|]. split; [now left|].
      exists base. split; [exact Eb|]. apply orb_true_iff in E. destruct E as [E|E].
      + left. now apply str_eqb_eq.
      + right. apply startsWith_app in E. destruct E as [rest ->].
        exists rest. now rewrite <- app_assoc.
    - intros H. destruct (IH H) as [A [B C]]. split; [exact A|]. split; [now right | exact C]. }
  intros H. destruct (Hloop _ H) as [-> [Hin Hbase]].
  split; [reflexivity|]. split; [reflexivity|]. split; [|exact Hbase].
  unfold getCollections in Hin. cbn [truthy] in Hin.
  now apply (Permutation_in c (SortFacts.sortBy_perm _ _)) in Hin.
Qed.

End CollectionProperties.

(** ** The listing of the collections (src/collections.js) *)

Module ListingFacts.
Import StoreSpec IndexSpec ListingSpec Collections ListFacts StoreFacts.

Lemma count_app {A B : Type} (x : A -> option B) (l1 l2 : list A) :
  count x (l1 ++ l2) = count x l1 + count x l2.
Proof. unfold count. now rewrite filter_app, length_app. Qed.

Lemma count_flat_map {A B C : Type} (x : A -> option B) (f : C -> list A) (n : C -> nat)
  (l : list C) :
  (forall c, In c l -> count x (f c) = n c) ->
  count x (flat_map f l) = list_sum (map n l).
Proof.
  induction l as [|c l IH]; intros H; [reflexivity|].
  cbn [flat_map map list_sum]. rewrite count_app, (H c) by now left.
  rewrite IH; [reflexivity|]. intros c' Hc'. apply H. now right.
Qed.

Lemma length_flat_map_sum {A B : Type} (f : A -> list B) (l : list A) :
  length (flat_map f l) = list_sum (map (fun a => length (f a)) l).
Proof.
  induction l as [|a l IH]; [reflexivity|].
  cbn [flat_map map list_sum]. now rewrite length_app, IH.
Qed.

Lemma filter_flat_map {A B : Type} (p : B -> bool) (f : A -> list B) (l : list A) :
  filter p (flat_map f l) = flat_map (fun a => filter p (f a)) l.
Proof.
  induction l as [|a l IH]; [reflexivity|].
  cbn [flat_map]. now rewrite filter_app, IH.
Qed.

Lemma one_embedding (id : Z) (es : list embedding_row) :
  NoDup (map em_chunk_id es) ->
  filter (fun e => (em_chunk_id e =? id)%Z) es = [] /\ memZ id (map em_chunk_id es) = false \/
  exists e, filter (fun e => (em_chunk_id e =? id)%Z) es = [e] /\
            memZ id (map em_chunk_id es) = true.
Proof.
  induction es as [|e es IH]; intros Hnd; [left; split; reflexivity|].
  cbn [map] in Hnd. apply NoDup_cons_iff in Hnd. destruct Hnd as [Hnot Hnd].
  cbn [filter map]. rewrite CollectionFacts.memZ_cons.
  destruct (em_chunk_id e =? id)%Z eqn:E.
  - apply Z.eqb_eq in E. right. exists e. rewrite Z.eqb_sym, (proj2 (Z.eqb_eq _ _) E).
    split; [|reflexivity]. f_equal.
    apply CollectionFacts.filter_none. intros e' He'. apply Z.eqb_neq. intros E'.
    apply Hnot. rewrite E, <- E'. now apply in_map.
  - rewrite Z.eqb_sym, E. cbn [orb]. exact (IH Hnd).
Qed.

Section Rows.

Variable d : db.
Hypothesis oneEach : NoDup (map em_chunk_id (db_embeddings d)).

Local Abbreviation embeddingsJoined := (embeddingsJoined d).
Local Abbreviation chunksJoined := (chunksJoined d).

Lemma embeddingsJoined_chunk (fm : option file_metadata_row) (ch : chunk_row) :
  count chCol (embeddingsJoined fm (Some ch)) = 1 /\
  count eCol (embeddingsJoined fm (Some ch)) = (if hasEmbedding d ch then 1 else 0) /\
  exists r rest, embeddingsJoined fm (Some ch) = r :: rest /\
    forall r', In r' (embeddingsJoined fm (Some ch)) -> fst (fst r') = fm.
Proof.
  unfold ListingSpec.embeddingsJoined, leftJoin, hasEmbedding.
  destruct (one_embedding (ch_id ch) (db_embeddings d) oneEach) as [[-> ->]|[e [-> ->]]].
  - cbn. split; [reflexivity|]. split; [reflexivity|].
    eexists _, _. split; [reflexivity|]. intros r' [<-|[]]. reflexivity.
  - cbn. split; [reflexivity|]. split; [reflexivity|].
    eexists _, _. split; [reflexivity|]. intros r' [<-|[]]. reflexivity.
Qed.

Lemma chunksJoined_some (fm : file_metadata_row) (cs : list chunk_row) :
  count chCol (flat_map (embeddingsJoined (Some fm)) (map Some cs)) = length cs /\
  count eCol (flat_map (embeddingsJoined (Some fm)) (map Some cs))
  = length (filter (hasEmbedding d) cs) /\
  forall r', In r' (flat_map (embeddingsJoined (Some fm)) (map Some cs)) ->
             fst (fst r') = Some fm.
Proof.
  induction cs as [|c cs [IH1 [IH2 IH3]]]; [cbn; repeat split; intros r' []|].
  cbn [map flat_map]. rewrite !count_app, IH1, IH2.
  destruct (embeddingsJoined_chunk (Some fm) c) as [H1 [H2 [r [rest [_ H3]]]]].
  rewrite H1, H2. cbn [filter].
  split; [reflexivity|]. split.
  - destruct (hasEmbedding d c); reflexivity.
  - intros r' Hr'. apply in_app_iff in Hr'. destruct Hr' as [Hr'|Hr']; [now apply H3 | now apply IH3].
Qed.

Lemma chunksJoined_file (fm : file_metadata_row) :
  count chCol (chunksJoined (Some fm)) = length (chunkRows (fm_id fm) d) /\
  count eCol (chunksJoined (Some fm))
  = length (filter (hasEmbedding d) (chunkRows (fm_id fm) d)) /\
  (forall r', In r' (chunksJoined (Some fm)) -> fst (fst r') = Some fm) /\
  exists r', In r' (chunksJoined (Some fm)).
Proof.
  unfold ListingSpec.chunksJoined, leftJoin. fold (chunkRows (fm_id fm) d).
  destruct (chunkRows (fm_id fm) d) as [|c cs] eqn:E.
  - cbn. split; [reflexivity|]. split; [reflexivity|]. split.
    + intros r' [<-|[]]. reflexivity.
    + eexists. left. reflexivity.
  - destruct (chunksJoined_some fm (c :: cs)) as [H1 [H2 H3]].
    split; [exact H1|]. split; [exact H2|]. split; [exact H3|].
    cbn [map flat_map].
    destruct (embeddingsJoined_chunk (Some fm) c) as [_ [_ [r [rest [Er _]]]]].
    exists r. rewrite Er. now left.
Qed.

Lemma idsOf_files (fs : list file_metadata_row) (x : Z) :
  In x (idsOf (flat_map chunksJoined (map Some fs))) <-> In x (map fm_id fs).
Proof.
  unfold idsOf. rewrite in_flat_map, in_map_iff. split.
  - intros [r [Hr Hx]]. apply in_flat_map in Hr. destruct Hr as [ofm [Hofm Hr]].
    apply in_map_iff in Hofm. destruct Hofm as [fm [<- Hfm]].
    destruct (chunksJoined_file fm) as [_ [_ [H3 _]]].
    exists fm. split; [|exact Hfm]. unfold fmCol in Hx. rewrite (H3 r Hr) in Hx.
    cbn in Hx. destruct Hx as [Hx|[]]. exact Hx.
  - intros [fm [<- Hfm]].
    destruct (chunksJoined_file fm) as [_ [_ [H3 [r Hr]]]].
    exists r. split.
    + apply in_flat_map. exists (Some fm). split; [now apply in_map | exact Hr].
    + unfold fmCol. rewrite (H3 r Hr). now left.
Qed.

Lemma joinedRows_counts (c : collection_row) :
  NoDup (map fm_id (db_file_metadata d)) ->
  countDistinct fmCol (joinedRows c d) = length (rowsOf (col_id c) d) /\
  count chCol (joinedRows c d) = length (chunksIn (col_id c) d) /\
  count eCol (joinedRows c d) = length (filter (hasEmbedding d) (chunksIn (col_id c) d)).
Proof.
  intros Hnd.
  change (joinedRows c d)
    with (flat_map chunksJoined
            (leftJoin (fun c fm => (fm_collection_id fm =? col_id c)%Z) (Some c)
                      (db_file_metadata d))).
  unfold leftJoin. fold (rowsOf (col_id c) d). unfold chunksIn.
  assert (Hfs : NoDup (map fm_id (rowsOf (col_id c) d))) by now apply NoDup_map_filter.
  destruct (rowsOf (col_id c) d) as [|f fs] eqn:E; [cbn; repeat split; reflexivity|].
  revert Hfs. generalize (f :: fs). clear E f fs. intros fs Hfs.
  split; [|split].
  - unfold countDistinct. fold (idsOf (flat_map chunksJoined (map Some fs))).
    rewrite <- (length_map fm_id fs).
    apply Permutation_length, NoDup_Permutation; [apply NoDup_nodup | exact Hfs|].
    intros x. rewrite nodup_In. apply idsOf_files.
  - rewrite length_flat_map_sum.
    rewrite (count_flat_map chCol chunksJoined
               (fun o => match o with
                         | Some fm => length (chunkRows (fm_id fm) d)
                         | None => 0
                         end)).
    + now rewrite map_map.
    + intros o Ho. apply in_map_iff in Ho. destruct Ho as [fm [<- _]].
      apply chunksJoined_file.
  - rewrite filter_flat_map, length_flat_map_sum.
    rewrite (count_flat_map eCol chunksJoined
               (fun o => match o with
                         | Some fm => length (filter (hasEmbedding d) (chunkRows (fm_id fm) d))
                         | None => 0
                         end)).
    + now rewrite map_map.
    + intros o Ho. apply in_map_iff in Ho. destruct Ho as [fm [<- _]].
      apply chunksJoined_file.
Qed.

End Rows.
End ListingFacts.

Section ListingProperties.
Import StoreSpec IndexSpec ListingSpec EmbeddingSpec Collections Indexer.

(** X24. [listCollections] lists the collections in the order of
    [getCollections()], and on a store that satisfies its PRIMARY KEYs the
    counts of a line are those of the collection: its documents, the chunks
    of these documents, and the chunks among them that have an embedding. *)
Theorem collection_list_counts (d : db) :
  keys d -> NoDup (embeddedIds d) ->
  map l_collection (listCollections d) = getCollections None d /\
  forall l, In l (listCollections d) ->
    file_count l = length (rowsOf (col_id (l_collection l)) d) /\
    chunk_count l = length (chunksIn (col_id (l_collection l)) d) /\
    embedded_count l = length (filter (hasEmbedding d) (chunksIn (col_id (l_collection l)) d)).
Proof.
  intros K He. unfold listCollections. split.
  - rewrite map_map. cbn [l_collection]. apply map_id.
  - intros l Hl. apply in_map_iff in Hl. destruct Hl as [c [<- _]].
    cbn [l_collection file_count chunk_count embedded_count].
    exact (ListingFacts.joinedRows_counts d He c (key_file_metadata d K)).
Qed.

End ListingProperties.

(** ** The indexer on every run (src/indexer.js) *)

Module IndexFacts.
Import StoreSpec IndexerSpec IndexSpec ListFacts StoreFacts Indexer IndexerFacts CascadeFacts.

Lemma insertChunks_rows (fmid : Z) (cs : list fileChunk) :
  forall d,
    exists fresh,
      db_chunks (fold_left (fun acc c => insertChunk fmid c acc) cs d)
      = db_chunks d ++ fresh /\
      map storedChunk fresh = map producedChunk cs /\
      forall c, In c fresh -> ch_file_metadata_id c = fmid.
Proof.
  induction cs as [|c cs IH]; intros d; cbn [fold_left].
  - exists []. rewrite app_nil_r. split; [reflexivity|]. split; [reflexivity | intros c []].
  - destruct (IH (insertChunk fmid c d)) as [fresh [Hc [Hp Hf]]].
    eexists (_ :: fresh). rewrite Hc. cbn [insertChunk db_chunks].
    rewrite <- app_assoc. split; [reflexivity|]. split.
    + cbn [map]. now rewrite Hp.
    + intros x [<-|Hx]; [reflexivity | now apply Hf].
Qed.

Lemma untouched_kept (t : file_metadata_row) (owned : list Z) (C : list chunk_row)
  (Y : list embedding_row) :
  kept (untouched t owned C Y).
Proof.
  split.
  - intros id d [Ht H].
    split; [now apply (proj1 (tracked_kept t owned))|].
    destruct (Z.eq_dec id (fm_id t)) as [->|Hne].
    { left. now destruct (delete_self_removed t owned d Ht). }
    destruct Ht as [Hr [Hg|[Hin [Hown Hid]]]].
    { left. now destruct (proj1 (removedFor_kept t owned) id d (conj Hr Hg)). }
    destruct H as [Hg|[HC HY]].
    { left. now destruct (proj1 (removedFor_kept t owned) id d (conj Hr Hg)). }
    right. unfold chunkRows, embeddingRowsOf in *. cbn [deleteFileMetadata db_chunks db_embeddings].
    split.
    + rewrite filter_filter_keep; [exact HC|].
      intros c Hc. apply Z.eqb_eq in Hc. apply negb_true_iff, Z.eqb_neq. congruence.
    + rewrite filter_filter_keep; [exact HY|].
      intros e Hm. apply negb_true_iff. apply CollectionFacts.memZ_false.
      intros Hdead. apply in_map_iff in Hdead. destruct Hdead as [c [Hcid Hc]].
      apply filter_In in Hc. destruct Hc as [Hc Hfile]. apply Z.eqb_eq in Hfile.
      apply memZ_In in Hm. rewrite <- Hcid in Hm. specialize (Hid c Hc Hm). congruence.
  - intros now cid p h cs d [Ht H].
    split; [now apply (proj2 (tracked_kept t owned))|].
    destruct Ht as [Hr Ht].
    destruct H as [Hg|[HC HY]].
    { left. now destruct (proj2 (removedFor_kept t owned) now cid p h cs d (conj Hr Hg)). }
    right. destruct Hr as [Hx Ho].
    destruct (insertDocument_shape now cid p h cs d)
      as [id [fresh [Hlt [_ [Hch [Hfresh [Hemb _]]]]]]].
    unfold chunkRows, embeddingRowsOf in *. rewrite Hch, Hemb, filter_app. split; [|exact HY].
    rewrite (CollectionFacts.filter_none _ fresh); [now rewrite app_nil_r|].
    intros c Hc. apply Z.eqb_neq. destruct (Hfresh c Hc) as [Hcid _]. lia.
Qed.

Lemma insertChunks_fresh (fmid : Z) (cs : list fileChunk) :
  forall d,
    let d' := fold_left (fun acc c => insertChunk fmid c acc) cs d in
    db_embeddings d' = db_embeddings d /\
    db_file_metadata d' = db_file_metadata d /\
    exists fresh,
      db_chunks d' = db_chunks d ++ fresh /\
      map storedChunk fresh = map producedChunk cs /\
      forall c, In c fresh -> ch_file_metadata_id c = fmid /\ (seq_chunks d < ch_id c)%Z.
Proof.
  intros d. cbv zeta.
  destruct (insertChunks_shape fmid cs d) as [He [_ [_ [fresh [Hc Hf]]]]].
  destruct (insertChunks_rows fmid cs d) as [fresh' [Hc' [Hp _]]].
  split; [exact He|]. split; [apply insertChunks_file_metadata|].
  exists fresh. split; [exact Hc|]. split; [|exact Hf].
  rewrite Hc in Hc'. apply app_inv_head in Hc'. now subst fresh'.
Qed.

Lemma references_kept : kept references.
Proof.
  split.
  - intros id d [Hc He]. split.
    + intros c H. cbn in H |- *. apply filter_In in H. destruct H as [H Hid].
      apply negb_true_iff, Z.eqb_neq in Hid.
      specialize (Hc c H). apply in_map_iff in Hc. destruct Hc as [f [Ef Hf]].
      apply in_map_iff. exists f. split; [exact Ef|]. apply filter_In. split; [exact Hf|].
      apply negb_true_iff, Z.eqb_neq. congruence.
    + intros e H. cbn in H |- *. apply filter_In in H. destruct H as [H Hdead].
      apply negb_true_iff, CollectionFacts.memZ_false in Hdead.
      specialize (He e H). apply in_map_iff in He. destruct He as [c [Ec Hc']].
      apply in_map_iff. exists c. split; [exact Ec|]. apply filter_In. split; [exact Hc'|].
      apply negb_true_iff, Z.eqb_neq. intros Hfile. apply Hdead.
      apply in_map_iff. exists c. split; [exact Ec|]. apply filter_In. split; [exact Hc'|].
      now apply Z.eqb_eq.
  - intros now cid p h cs d [Hc He].
    destruct (insertDocument_shape now cid p h cs d)
      as [id [fresh [_ [Hfm [Hch [Hfresh [Hemb _]]]]]]].
    split.
    + intros c H. rewrite Hfm, map_app, in_app_iff. rewrite Hch, in_app_iff in H.
      destruct H as [H|H]; [left; now apply Hc|].
      right. cbn. left. symmetry. now apply Hfresh.
    + intros e H. rewrite Hemb in H. rewrite Hch, map_app, in_app_iff. left. now apply He.
Qed.

Lemma deleteExisting_seq (ex : option file_metadata_row) (d : db) :
  seq_file_metadata (deleteExisting ex d) = seq_file_metadata d /\
  seq_chunks (deleteExisting ex d) = seq_chunks d.
Proof. destruct ex; split; reflexivity. Qed.

Lemma deleteExisting_clears (cid : Z) (p : jsstring) (d : db) :
  keys d ->
  forall f, In f (db_file_metadata (deleteExisting (selectExisting cid p d) d)) ->
            ~ (fm_collection_id f = cid /\ fm_file_path f = p).
Proof.
  exact (deleteExisting_no_key (fun _ => true) (fun _ => ReadThrows []) (fun b => b)
           (fun h => h) (fun a _ => a) (fun _ => []) cid p d).
Qed.

Lemma selectExisting_found (cid : Z) (p : jsstring) (d : db) (e : file_metadata_row) :
  selectExisting cid p d = Some e -> In e (db_file_metadata d).
Proof.
  intros H.
  exact (proj1 (selectExisting_some (fun _ => true) (fun _ => ReadThrows []) (fun b => b)
                  (fun h => h) (fun a _ => a) (fun _ => []) cid p d e H)).
Qed.

Lemma reindexed_shape (now cid : Z) (p h : jsstring) (cs : list fileChunk) (d : db) :
  keys d -> references d ->
  let d' := insertDocument now cid p h cs (deleteExisting (selectExisting cid p d) d) in
  exists id,
    (seq_file_metadata d < id)%Z /\
    selectExisting cid p d' = Some (mkFileMetadata id cid p h now) /\
    map storedChunk (chunkRows id d') = map producedChunk cs /\
    embeddingRowsOf (map ch_id (chunkRows id d')) d' = [] /\
    forall e, selectExisting cid p d = Some e -> gone (fm_id e) (chunksOf e d) d'.
Proof.
  intros K R. cbv zeta.
  set (d1 := deleteExisting (selectExisting cid p d) d).
  assert (K1 : keys d1) by now apply deleteExisting_keys.
  assert (R1 : references d1)  by (apply kept_deleteExisting; [apply references_kept | exact R]).
  destruct (deleteExisting_seq (selectExisting cid p d) d) as [Hs1 Hs2]. fold d1 in Hs1, Hs2.
  destruct (nextRowid_fresh (seq_file_metadata d1) (map fm_id (db_file_metadata d1)))
    as [Hseq Hids].
  set (id := nextRowid (seq_file_metadata d1) (map fm_id (db_file_metadata d1))) in *.
  destruct (insertChunks_fresh id cs (snd (insertFileMetadata now cid p h d1)))
    as [Hemb [Hfm [fresh [Hch [Hp Hfresh]]]]].
  change (fold_left (fun acc c => insertChunk id c acc) cs
            (snd (insertFileMetadata now cid p h d1)))
    with (insertDocument now cid p h cs d1) in Hemb, Hfm, Hch.
  cbn [insertFileMetadata snd db_embeddings db_file_metadata db_chunks seq_chunks]
    in Hemb, Hfm, Hch, Hfresh.
  fold id in Hfm.
  assert (Hrows : chunkRows id (insertDocument now cid p h cs d1) = fresh).
  { unfold chunkRows. rewrite Hch, filter_app.
    rewrite (CollectionFacts.filter_none _ (db_chunks d1)).
    - cbn [app]. apply filter_all. intros c Hc. apply Z.eqb_eq. now apply Hfresh.
    - intros c Hc. apply Z.eqb_neq. intros E.
      destruct R1 as [R1 _]. specialize (R1 c Hc). rewrite E in R1.
      specialize (Hids id R1). lia. }
  exists id. split; [lia|]. split; [|split; [|split]].
  - unfold selectExisting. rewrite Hfm, find_app.
    fold (selectExisting cid p d1).
    replace (selectExisting cid p d1) with (@None file_metadata_row).
    + cbn [fm_collection_id fm_file_path]. now rewrite Z.eqb_refl, str_eqb_refl.
    + symmetry. apply selectExisting_none. unfold d1.
      now apply deleteExisting_clears.
  - now rewrite Hrows.
  - rewrite Hrows. unfold embeddingRowsOf. rewrite Hemb.
    apply CollectionFacts.filter_none. intros e He.
    apply CollectionFacts.memZ_false. intros Hin.
    apply in_map_iff in Hin. destruct Hin as [c [Ec Hc]].
    destruct (Hfresh c Hc) as [_ Hlt].
    destruct R1 as [_ R1]. specialize (R1 e He).
    apply in_map_iff in R1. destruct R1 as [c1 [Ec1 Hc1]].
    pose proof (seq_chunks_bound d1 K1) as Hb. rewrite Forall_forall in Hb.
    specialize (Hb c1 Hc1). lia.
  - intros e He.
    assert (Hin : In e (db_file_metadata d))  by now apply selectExisting_found in He.
    pose proof (delete_self_removed e (chunksOf e d) d (tracked_initial e d K Hin)) as Hrm.
    apply (proj2 (removedFor_kept e (chunksOf e d)) now cid p h cs) in Hrm.
    unfold d1. rewrite He. exact (proj2 Hrm).
Qed.

Section Disk.

Variable existsSync : jsstring -> bool.
Variable readFileSync : jsstring -> readResult.
Variable toStringUtf8 : Utils.buffer -> jsstring.
Variable hashContent : jsstring -> jsstring.
Variable pathJoin : jsstring -> jsstring -> jsstring.
Variable fgSync : jsstring -> list jsstring.

Local Abbreviation indexFile := (indexFile existsSync readFileSync toStringUtf8 hashContent).
Local Abbreviation indexFiles := (indexFiles existsSync readFileSync toStringUtf8 hashContent).
Local Abbreviation discoverFiles := (discoverFiles pathJoin fgSync).
Local Abbreviation indexCollection :=
  (indexCollection existsSync readFileSync toStringUtf8 hashContent pathJoin fgSync).
Local Abbreviation indexEach :=
  (indexEach existsSync readFileSync toStringUtf8 hashContent pathJoin fgSync).

Lemma indexFiles_counted (now cid : Z) (force : bool) (files : list jsstring) :
  forall k d,
    let k' := fst (indexFiles now cid force files (k, d)) in
    collectionIndexed k' + collectionSkipped k'
    = collectionIndexed k + collectionSkipped k + length files.
Proof.
  induction files as [|p files IH]; intros k d; [cbn; lia|].
  cbv zeta. rewrite (indexFiles_cons existsSync readFileSync toStringUtf8 hashContent).
  specialize (IH (match fst (indexFile now cid p force d) with
                  | Indexed n =>
                      mkCounters (S (collectionIndexed k)) (collectionSkipped k)
                                 (collectionChunks k + n) (collectionRemoved k)
                  | NotIndexed _ =>
                      mkCounters (collectionIndexed k) (S (collectionSkipped k))
                                 (collectionChunks k) (collectionRemoved k)
                  end) (snd (indexFile now cid p force d))).
  cbv zeta in IH. rewrite IH.
  destruct (fst (indexFile now cid p force d)); cbn; lia.
Qed.

Lemma indexCollection_counted (now : Z) (force : bool) (c : collection_row) (d : db) :
  let k := fst (indexCollection now force c d) in
  collectionIndexed k + collectionSkipped k = length (discoverFiles c).
Proof.
  cbv zeta. rewrite (indexCollection_spec existsSync readFileSync toStringUtf8 hashContent
                       pathJoin fgSync).
  pose proof (indexFiles_counted now (col_id c) force (discoverFiles c)
                (mkCounters 0 0 0 (length (missingFrom (discoverFiles c) (col_id c) d)))
                (deleteAll (missingFrom (discoverFiles c) (col_id c) d) d)) as H.
  cbv zeta in H. rewrite H. cbn. lia.
Qed.

Lemma indexEach_counted (now : Z) (force : bool) (cs : list collection_row) :
  forall r d,
    let r' := fst (indexEach now force cs (r, d)) in
    indexed r' + skipped r' = indexed r + skipped r + filesOf discoverFiles cs /\
    map cr_name (r_collections r') = map cr_name (r_collections r) ++ map col_name cs /\
    (Forall (fun x => cr_indexed x + cr_skipped x = cr_files x) (r_collections r) ->
     Forall (fun x => cr_indexed x + cr_skipped x = cr_files x) (r_collections r')).
Proof.
  induction cs as [|c cs IH]; intros r d; cbv zeta.
  - cbn. rewrite app_nil_r. repeat split; [lia | auto].
  - rewrite (indexEach_cons existsSync readFileSync toStringUtf8 hashContent pathJoin fgSync).
    cbv zeta.
    pose proof (indexCollection_counted now force c d) as Hk. cbv zeta in Hk.
    match goal with
    | |- context [indexEach now force cs (?r1, ?d1)] =>
        destruct (IH r1 d1) as [Hsum [Hnames Hall]]
    end.
    cbv zeta in Hsum, Hnames, Hall. cbn [indexed skipped r_collections] in Hsum, Hnames, Hall.
    split; [|split].
    + rewrite Hsum. cbn [filesOf fold_right]. fold (filesOf discoverFiles cs). lia.
    + rewrite Hnames, map_app, <- app_assoc. reflexivity.
    + intros H. apply Hall. apply Forall_app. split; [exact H|].
      constructor; [|constructor]. cbn. exact Hk.
Qed.

Lemma indexEach_frame (now : Z) (force : bool) (cid0 : Z) (cs : list collection_row) :
  (forall c, In c cs -> col_id c <> cid0) ->
  forall r d, keys d -> NoDup (map col_id cs) ->
    rowsOf cid0 (snd (indexEach now force cs (r, d))) = rowsOf cid0 d.
Proof.
  induction cs as [|c cs IH]; intros Hne r d K Hnd; [reflexivity|].
  rewrite (indexEach_cons existsSync readFileSync toStringUtf8 hashContent pathJoin fgSync).
  cbn [map] in Hnd. apply NoDup_cons_iff in Hnd. destruct Hnd as [_ Hnd].
  rewrite IH.
  - apply (indexCollection_frame existsSync readFileSync toStringUtf8 hashContent
             pathJoin fgSync); [exact K | apply Hne; now left].
  - intros c' Hc'. apply Hne. now right.
  - now apply (indexCollection_keys existsSync readFileSync toStringUtf8 hashContent
                 pathJoin fgSync).
  - exact Hnd.
Qed.

End Disk.

End IndexFacts.

Section IndexProperties.
Import StoreSpec IndexerSpec IndexSpec EmbeddingSpec ListFacts StoreFacts Indexer IndexerFacts
  CascadeFacts IndexFacts.

Variable existsSync : jsstring -> bool.
Variable readFileSync : jsstring -> readResult.
Variable toStringUtf8 : Utils.buffer -> jsstring.
Variable hashContent : jsstring -> jsstring.
Variable pathJoin : jsstring -> jsstring -> jsstring.
Variable fgSync : jsstring -> list jsstring.

Local Abbreviation indexFile := (indexFile existsSync readFileSync toStringUtf8 hashContent).
Local Abbreviation discoverFiles := (discoverFiles pathJoin fgSync).
Local Abbreviation indexEach :=
  (indexEach existsSync readFileSync toStringUtf8 hashContent pathJoin fgSync).
Local Abbreviation indexCollections :=
  (indexCollections existsSync readFileSync toStringUtf8 hashContent pathJoin fgSync).
Local Abbreviation upToDate :=
  (upToDate existsSync readFileSync toStringUtf8 hashContent discoverFiles).

(** X25. An indexing run keeps the constraints of the schema, whatever is on
    disk: from a store that satisfies the PRIMARY KEY and UNIQUE constraints
    and the FOREIGN KEYs of chunks and embeddings, it leaves one that does. *)
Theorem indexing_keeps_the_constraints (now : Z) (o : Indexer.options) (d : db) :
  keys d -> references d ->
  keys (snd (indexCollections now o d)) /\ references (snd (indexCollections now o d)).
Proof.
  intros K R.
  destruct (indexEach_settles existsSync readFileSync toStringUtf8 hashContent pathJoin
              fgSync now (full o) (getCollections (collectionName o) d) [] emptyResults d K
              (getCollections_NoDup (collectionName o) d K)
              (fun c0 (H : In c0 []) => match H with end)) as [K1 _].
  pose proof (kept_indexEach existsSync readFileSync toStringUtf8 hashContent pathJoin fgSync
                references now (full o) (getCollections (collectionName o) d)
                references_kept emptyResults d R) as R1.
  unfold Indexer.indexCollections.
  destruct (length (getCollections (collectionName o) d) =? 0); [now split|].
  destruct (indexEach now (full o) (getCollections (collectionName o) d) (emptyResults, d)).
  now split.
Qed.

(** X26. When a run reports results, every collection it went over is indexed as
    it is on disk: each record of the collection is of a matched file, a
    matched text file has a record with the hash of its content, and a
    matched binary file has none. *)
Theorem indexing_mirrors_the_disk (now : Z) (o : Indexer.options) (d d' : db) (r : results) :
  keys d ->
  indexCollections now o d = (Done r, d') ->
  forall c, In c (getCollections (collectionName o) d) -> upToDate c d'.
Proof.
  intros K Hrun.
  apply (indexCollections_run existsSync readFileSync toStringUtf8 hashContent pathJoin
           fgSync) in Hrun.
  destruct Hrun as [_ Hrun].
  destruct (indexEach_settles existsSync readFileSync toStringUtf8 hashContent pathJoin
              fgSync now (full o) (getCollections (collectionName o) d) [] emptyResults d K
              (getCollections_NoDup (collectionName o) d K)
              (fun c0 (H : In c0 []) => match H with end)) as [_ Hup].
  rewrite Hrun in Hup. exact Hup.
Qed.

(** X27. The counters of a run add up: every matched file is counted once, as
    indexed or as skipped, in the totals and in the line of each collection,
    and the lines name the collections in the order of the run. *)
Theorem every_file_is_indexed_or_skipped (now : Z) (o : Indexer.options) (d d' : db)
  (r : results) :
  indexCollections now o d = (Done r, d') ->
  indexed r + skipped r = totalFiles r /\
  totalFiles r = filesOf discoverFiles (getCollections (collectionName o) d) /\
  map cr_name (r_collections r) = map col_name (getCollections (collectionName o) d) /\
  Forall (fun x => cr_indexed x + cr_skipped x = cr_files x) (r_collections r).
Proof.
  intros Hrun.
  apply (indexCollections_run existsSync readFileSync toStringUtf8 hashContent pathJoin
           fgSync) in Hrun.
  destruct Hrun as [_ Hrun].
  destruct (indexEach_counted existsSync readFileSync toStringUtf8 hashContent pathJoin fgSync
              now (full o) (getCollections (collectionName o) d) emptyResults d)
    as [Hsum [Hnames Hall]].
  pose proof (indexEach_totalFiles existsSync readFileSync toStringUtf8 hashContent pathJoin
                fgSync now (full o) (getCollections (collectionName o) d) emptyResults d) as Ht.
  rewrite Hrun in Hsum, Hnames, Hall, Ht. cbn [fst] in Hsum, Hnames, Hall, Ht.
  cbn in Hsum, Ht, Hnames. split; [lia|]. split; [exact Ht|]. split; [exact Hnames|].
  apply Hall. constructor.
Qed.

(** X28. A run leaves the collections it does not go over as they are: the same
    documents, each with the same chunks and the same embeddings of them. *)
Theorem other_collections_are_untouched (now : Z) (o : Indexer.options) (d : db) (cid : Z) :
  keys d ->
  (forall c, In c (getCollections (collectionName o) d) -> col_id c <> cid) ->
  let d' := snd (indexCollections now o d) in
  rowsOf cid d' = rowsOf cid d /\
  forall t, In t (rowsOf cid d) ->
    chunkRows (fm_id t) d' = chunkRows (fm_id t) d /\
    embeddingRowsOf (chunksOf t d) d' = embeddingRowsOf (chunksOf t d) d.
Proof.
  intros K Hne. cbv zeta.
  assert (Hd : snd (indexCollections now o d)
               = snd (indexEach now (full o) (getCollections (collectionName o) d)
                        (emptyResults, d)) \/
               snd (indexCollections now o d) = d).
  { unfold Indexer.indexCollections.
    destruct (length (getCollections (collectionName o) d) =? 0); [now right|].
    destruct (indexEach now (full o) (getCollections (collectionName o) d) (emptyResults, d)).
    now left. }
  destruct Hd as [-> | ->]; [|split; [reflexivity | intros; split; reflexivity]].
  assert (Hrows : rowsOf cid (snd (indexEach now (full o)
                                     (getCollections (collectionName o) d) (emptyResults, d)))
                  = rowsOf cid d).
  { apply (indexEach_frame existsSync readFileSync toStringUtf8 hashContent pathJoin fgSync);
      [exact Hne | exact K | now apply getCollections_NoDup]. }
  split; [exact Hrows|].
  intros t Ht.
  assert (Hin : In t (db_file_metadata d)) by (apply filter_In in Ht; tauto).
  assert (H0 : untouched t (chunksOf t d) (chunkRows (fm_id t) d)
                 (embeddingRowsOf (chunksOf t d) d) d).
  { split; [now apply tracked_initial|]. right. split; reflexivity. }
  apply (kept_indexEach existsSync readFileSync toStringUtf8 hashContent pathJoin fgSync
           _ now (full o) (getCollections (collectionName o) d)
           (untouched_kept t _ _ _) emptyResults d) in H0.
  destruct H0 as [_ [[Hg _]|H]]; [|exact H].
  exfalso. rewrite <- Hrows in Ht. apply filter_In in Ht. destruct Ht as [Ht _].
  now apply (Hg t Ht).
Qed.

End IndexProperties.

Section FileProperties.
Import StoreSpec IndexerSpec IndexSpec ListFacts StoreFacts Indexer IndexerFacts CascadeFacts
  IndexFacts.

Variable existsSync : jsstring -> bool.
Variable readFileSync : jsstring -> readResult.
Variable toStringUtf8 : Utils.buffer -> jsstring.
Variable hashContent : jsstring -> jsstring.

Local Abbreviation indexFile := (indexFile existsSync readFileSync toStringUtf8 hashContent).

(** X29. A file that [isProbablyBinary] finds binary is not indexed: [indexFile]
    answers "binary", the record the path had is deleted with its chunks and
    their embeddings, and nothing else of the store changes when it had none. *)
Theorem binary_file_loses_its_record (now cid : Z) (p : jsstring) (force : bool) (d : db)
  (bytes : Utils.buffer) :
  keys d ->
  existsSync p = true ->
  readFileSync p = ReadOk bytes ->
  Utils.isProbablyBinary bytes = true ->
  let d' := snd (indexFile now cid p force d) in
  fst (indexFile now cid p force d) = NotIndexed binary /\
  selectExisting cid p d' = None /\
  (forall e, selectExisting cid p d = Some e -> gone (fm_id e) (chunksOf e d) d') /\
  (selectExisting cid p d = None -> d' = d).
Proof.
  intros K Hex Hread Hbin. cbv zeta.
  unfold Indexer.indexFile, readFileSafe. rewrite Hex, Hread, Hbin. cbn [negb fst snd].
  split; [reflexivity|]. split; [|split].
  - apply selectExisting_none.
    now apply deleteExisting_clears.
  - intros e He. rewrite He. cbn [deleteExisting].
    assert (Hin : In e (db_file_metadata d)) by now apply selectExisting_found in He.
    exact (proj2 (delete_self_removed e (chunksOf e d) d (tracked_initial e d K Hin))).
  - intros ->. reflexivity.
Qed.

(** X30. A text file that is new, changed or indexed with [full] is stored anew:
    [indexFile] reports the number of chunks of [chunkFile]; the path has one
    record, with a rowid never used before, the hash of the content and the
    time of the run; its chunks are those of [chunkFile], in order; they have
    no embedding; and the record the path had before is gone with its chunks
    and their embeddings. *)
Theorem changed_file_is_reindexed (now cid : Z) (p : jsstring) (force : bool) (d : db)
  (bytes : Utils.buffer) (content : jsstring) :
  keys d -> references d ->
  existsSync p = true ->
  readFileSync p = ReadOk bytes ->
  readFileSafe toStringUtf8 bytes = Some content ->
  (force = true \/
   forall e, selectExisting cid p d = Some e -> fm_file_hash e <> hashContent content) ->
  let d' := snd (indexFile now cid p force d) in
  fst (indexFile now cid p force d) = Indexed (length (chunkFile p content)) /\
  exists id,
    (seq_file_metadata d < id)%Z /\
    selectExisting cid p d' = Some (mkFileMetadata id cid p (hashContent content) now) /\
    map storedChunk (chunkRows id d') = map producedChunk (chunkFile p content) /\
    embeddingRowsOf (map ch_id (chunkRows id d')) d' = [] /\
    forall e, selectExisting cid p d = Some e -> gone (fm_id e) (chunksOf e d) d'.
Proof.
  intros K R Hex Hread Hsafe Hnew. cbv zeta.
  unfold Indexer.indexFile. rewrite Hex, Hread, Hsafe. cbn [negb].
  replace (match selectExisting cid p d with
           | Some e => str_eqb (fm_file_hash e) (hashContent content) && negb force
           | None => false
           end) with false.
  - destruct (insertFileMetadata now cid p (hashContent content)
                (deleteExisting (selectExisting cid p d) d)) as [id d2] eqn:E.
    cbn [fst snd]. split; [reflexivity|].
    pose proof (reindexed_shape now cid p (hashContent content) (chunkFile p content) d K R) as H.
    cbv zeta in H. unfold insertDocument in H. rewrite E in H. exact H.
  - destruct (selectExisting cid p d) as [e|]; [|reflexivity].
    destruct Hnew as [-> | Hne]; [now rewrite andb_false_r|].
    destruct (str_eqb (fm_file_hash e) (hashContent content)) eqn:Eh; [|reflexivity].
    apply str_eqb_eq in Eh. now destruct (Hne e eq_refl).
Qed.

End FileProperties.

(** ** The further properties on the samples *)

Section FurtherExamples.
Import Search SearchSpec StoreSpec IndexerSpec IndexSpec ListingSpec EmbeddingSpec CollectionSpec
  DispatchSpec CodecSpec ChunkerSpec Indexer Dispatch IndexerEmbeddings Collections Samples Cases.

Lemma encoded_bytes_are_little_endian_witness :
  Utils.float32ArrayToBuffer [Utils.F32Bits 1065353216; Utils.F32Bits 3212836864] (dirty 8)
  = Some [0; 0; 128; 63; 0; 0; 128; 191]%N.
Proof.
  refine (proj1 (encoded_bytes_are_little_endian [1065353216; 3212836864]%N (dirty 8) _ eq_refl)).
  repeat constructor.
Defined.

Lemma blank_document_has_no_chunks_witness :
  chunkMarkdown [32; 10; 9; 32]%N = [].
Proof.
  exact (blank_document_has_no_chunks [32; 10; 9; 32]%N eq_refl).
Defined.

Lemma short_document_is_one_chunk_witness :
  chunkMarkdown (str "alpha beta") = [mkChunk (str "alpha beta") 1 1 3].
Proof.
  apply (short_document_is_one_chunk (str "alpha beta")).
  - vm_compute. lia.
  - reflexivity.
  - reflexivity.
Defined.

Lemma search_never_exceeds_the_cap_witness :
  search ranking provider reading root tableOrder sampleStore query inNotes
  = (searchEvents, Ok searchResults) /\
  length searchResults <= 2.
Proof.
  assert (Hrun : search ranking provider reading root tableOrder sampleStore query inNotes
                 = (searchEvents, Ok searchResults)) by (vm_compute; reflexivity).
  split; [exact Hrun|].
  apply (proj2 (search_never_exceeds_the_cap ranking provider reading root tableOrder
                  sampleStore query inNotes searchEvents searchResults Hrun) 2%Z); [reflexivity | lia].
Defined.

Lemma search_ranking_is_descending_witness :
  descending scoreOf searchResults.
Proof.
  apply (search_ranking_is_descending ranking provider reading root tableOrder sampleStore
           query inNotes searchEvents searchResults).
  - discriminate.
  - vm_compute. reflexivity.
Defined.

Lemma search_respects_collection_filter_witness :
  Forall (fun r => collectionOf r = str "notes") searchResults.
Proof.
  apply Forall_forall.
  apply (search_respects_collection_filter ranking provider reading root tableOrder
           sampleStore query inNotes (str "notes") searchEvents searchResults).
  - reflexivity.
  - discriminate.
  - vm_compute. reflexivity.
Defined.

Lemma search_scores_in_unit_range_witness :
  bm25Weight (legs heavyLexical) = Some 2%Q /\
  search ranking provider reading root tableOrder sampleStore query heavyLexical
  = (heavyEvents, Ok heavyResults) /\
  map scoreOf heavyResults = [2 # 2; 1 # 4]%Q /\
  Forall (fun r => (0 <= scoreOf r <= 1)%Q) heavyResults /\
  Forall (fun r => (0 <= scoreOf r <= 1)%Q) searchResults.
Proof.
  split; [reflexivity|].
  assert (Hrun : search ranking provider reading root tableOrder sampleStore query heavyLexical
                 = (heavyEvents, Ok heavyResults)) by (vm_compute; reflexivity).
  split; [exact Hrun|]. split; [vm_compute; reflexivity|]. split.
  - apply Forall_forall.
    apply (search_scores_in_unit_range ranking provider reading root tableOrder sampleStore
             query heavyLexical heavyEvents heavyResults); [|exact Hrun].
    vm_compute. discriminate.
  - apply Forall_forall.
    apply (search_scores_in_unit_range ranking provider reading root tableOrder sampleStore
             query inNotes searchEvents searchResults); [|vm_compute; reflexivity].
    intros _. vm_compute. repeat split; discriminate.
Defined.

Lemma hybrid_results_are_distinct_leg_results_witness :
  searchHybrid ranking provider reading root tableOrder sampleStore query top2
  = (hybridEvents, Ok hybridResults) /\
  NoDup (map h_chunkId hybridResults).
Proof.
  assert (Hrun : searchHybrid ranking provider reading root tableOrder sampleStore query top2
                 = (hybridEvents, Ok hybridResults)) by (vm_compute; reflexivity).
  split; [exact Hrun|].
  exact (proj1 (hybrid_results_are_distinct_leg_results ranking provider reading root tableOrder
                  sampleStore query top2 hybridEvents hybridResults Hrun)).
Defined.

Lemma stored_embeddings_are_found_witness :
  storeEmbeddings 7 oneEmbedding unembeddedStore = (Ok tt, stored) /\
  In (mkEmbedding 1 (blob 1 0) (str "m") 7) (db_embeddings stored) /\
  getUnembbeddedChunks None stored = [].
Proof.
  assert (Hrun : storeEmbeddings 7 oneEmbedding unembeddedStore = (Ok tt, stored))
    by (vm_compute; reflexivity).
  assert (Hnd : NoDup (map ce_chunkId oneEmbedding))
    by (constructor; [intros [] | constructor]).
  destruct (stored_embeddings_are_found 7 oneEmbedding unembeddedStore stored Hnd Hrun)
    as [_ [Hin _]].
  split; [exact Hrun|]. split; [|reflexivity].
  apply (Hin (mkChunkEmbedding 1 (blob 1 0) (str "m"))). now left.
Defined.

Lemma embed_pass_embeds_every_chunk_witness :
  exists d',
    Cli.embed answering dirty 7 None unembeddedStore = Some (Ok 1, d') /\
    getUnembbeddedChunks (Some (-1)%Z) d' = [].
Proof.
  destruct (embed_pass_embeds_every_chunk answering dirty unitVector 7 None unembeddedStore)
    as [d' [Hrun [_ [_ [Hnone _]]]]].
  - intros texts. reflexivity.
  - intros n. apply repeat_length.
  - constructor; [intros [] | constructor].
  - exists d'. split; [exact Hrun | exact Hnone].
Defined.

Lemma provider_requests_in_order_witness :
  Provider.generateEmbeddings noKey api [] = ([], Ok []) /\
  Provider.generateEmbeddings noKey api manyTexts = ([], Throw (str "no key")) /\
  length (Provider.batchesOf manyTexts) = 2 /\
  fst (Provider.generateEmbeddings key api manyTexts) = Provider.batchesOf manyTexts /\
  Provider.generateEmbeddings key fullBatches manyTexts
  = (Provider.batchesOf manyTexts, Throw (str "short")) /\
  exists pre b post,
    Provider.batchesOf manyTexts = pre ++ b :: post /\
    Provider.batchesOf manyTexts = pre ++ [b] /\
    fullBatches (str "sk") b = Throw (str "short") /\
    Forall (fun b' => exists r, fullBatches (str "sk") b' = Ok r) pre.
Proof.
  assert (Hne : manyTexts <> []) by discriminate.
  split; [exact (proj1 (provider_requests_in_order noKey api manyTexts))|].
  split.
  { exact (proj1 (proj2 (provider_requests_in_order noKey api manyTexts) Hne) _ eq_refl). }
  split; [vm_compute; reflexivity|].
  split.
  { destruct (Provider.generateEmbeddings key api manyTexts) as [sent [vectors|message]] eqn:E.
    - exact (proj1 (proj1 (proj2 (proj2 (provider_requests_in_order key api manyTexts) Hne)
                             (str "sk") eq_refl) sent vectors E)).
    - vm_compute in E. discriminate. }
  assert (Hrun : Provider.generateEmbeddings key fullBatches manyTexts
                 = (Provider.batchesOf manyTexts, Throw (str "short")))
    by (vm_compute; reflexivity).
  split; [exact Hrun|].
  exact (proj2 (proj2 (proj2 (provider_requests_in_order key fullBatches manyTexts) Hne)
                  (str "sk") eq_refl) _ _ Hrun).
Defined.

Lemma batching_is_transparent_witness :
  snd (Provider.generateEmbeddings key api [str "a"; str "b"])
  = Ok [unitVector (str "a"); unitVector (str "b")] /\
  Provider.generateQueryEmbedding key api query = ([[query]], Ok (Some (unitVector query))).
Proof.
  apply (batching_is_transparent key api unitVector (str "sk") [str "a"; str "b"] query).
  - reflexivity.
  - intros batch. reflexivity.
Defined.

Lemma removed_collection_takes_its_documents_witness :
  exists d',
    removeCollection (str "notes") sampleStore = (Ok (str "notes"), d') /\
    db_file_metadata d' = [] /\ db_chunks d' = [] /\ db_embeddings d' = [].
Proof.
  destruct (removed_collection_takes_its_documents (str "notes") sampleStore notes
              sampleStore_keys eq_refl)
    as [d' [Hrun [_ [Hf [Hc [He _]]]]]].
  exists d'. split; [exact Hrun|]. rewrite Hf, Hc, He. repeat split; reflexivity.
Defined.

Lemma catalogue_keys : catalogKeys catalogue.
Proof.
  split; [|split]; cbn.
  - constructor; [intros [] | constructor].
  - constructor; [intros [] | constructor].
  - constructor; [vm_compute; discriminate | constructor].
Qed.

Lemma added_collection_is_found_witness :
  addCollection asGiven diskExists isDir 5 (str "docs") (str "/docs") None catalogue
  = (Ok (mkAdded (str "docs") (str "/docs") (str "**/*.md")), withDocs) /\
  getCollection (str "docs") (tables withDocs)
  = Some (mkCollection 2 (str "docs") (str "/docs") (str "**/*.md") 5).
Proof.
  assert (Hrun : addCollection asGiven diskExists isDir 5 (str "docs") (str "/docs") None
                   catalogue
                 = (Ok (mkAdded (str "docs") (str "/docs") (str "**/*.md")), withDocs))
    by (vm_compute; reflexivity).
  split; [exact Hrun|].
  exact (proj1 (proj2 (proj2 (proj2 (proj2 (proj2 (proj2
           (added_collection_is_found asGiven diskExists isDir 5 (str "docs") (str "/docs")
              None catalogue withDocs _ catalogue_keys Hrun)))))))).
Defined.

Lemma add_then_remove_restores_the_tables_witness :
  removeCollection (str "docs") (tables withDocs) = (Ok (str "docs"), sampleStore).
Proof.
  apply (add_then_remove_restores_the_tables asGiven diskExists isDir 5 (str "docs")
           (str "/docs") None catalogue withDocs
           (mkAdded (str "docs") (str "/docs") (str "**/*.md")) catalogue_keys).
  - intros f [<-|[<-|[]]]; left; reflexivity.
  - vm_compute. reflexivity.
Defined.

Lemma resolved_file_is_inside_a_collection_witness :
  resolveFileInCollections diskExists realPath slash (str "/notes/a.md") sampleStore
  = Ok (Some (notes, str "/notes/a.md")) /\
  exists base, realPath (col_base_path notes) = Ok base /\
               inside slash base (str "/notes/a.md").
Proof.
  assert (Hrun : resolveFileInCollections diskExists realPath slash (str "/notes/a.md")
                   sampleStore = Ok (Some (notes, str "/notes/a.md")))
    by (vm_compute; reflexivity).
  split; [exact Hrun|].
  exact (proj2 (proj2 (proj2 (resolved_file_is_inside_a_collection diskExists realPath slash
                                (str "/notes/a.md") sampleStore notes (str "/notes/a.md")
                                Hrun)))).
Defined.

Lemma twoCollections_keys : keys twoCollections.
Proof.
  constructor; cbn;
    repeat (constructor; [cbn; intuition (try discriminate; try lia)|]);
    try constructor.
Qed.

Lemma twoCollections_references : references twoCollections.
Proof.
  split.
  - intros c Hc. cbn in Hc |- *. intuition (subst; cbn; tauto).
  - intros e He. cbn in He |- *. intuition (subst; cbn; tauto).
Qed.

Lemma collection_list_counts_witness :
  map l_collection (listCollections twoCollections) = [docs; notes] /\
  Forall (fun l =>
            file_count l = length (rowsOf (col_id (l_collection l)) twoCollections) /\
            chunk_count l = length (chunksIn (col_id (l_collection l)) twoCollections))
         (listCollections twoCollections).
Proof.
  destruct (collection_list_counts twoCollections twoCollections_keys) as [Hnames H].
  - cbn. repeat (constructor; [cbn; intuition (try discriminate; try lia)|]). constructor.
  - split; [rewrite Hnames; reflexivity|].
    apply Forall_forall. intros l Hl. destruct (H l Hl) as [Hf [Hc _]]. split; assumption.
Defined.

Lemma indexing_keeps_the_constraints_witness :
  keys (snd (indexCollections diskExists diskRead utf8 textHash joinPath glob 1000 onlyNotes
               twoCollections)) /\
  references (snd (indexCollections diskExists diskRead utf8 textHash joinPath glob 1000
                     onlyNotes twoCollections)).
Proof.
  exact (indexing_keeps_the_constraints diskExists diskRead utf8 textHash joinPath glob 1000
           onlyNotes twoCollections twoCollections_keys twoCollections_references).
Defined.

Lemma indexing_mirrors_the_disk_witness :
  upToDate diskExists diskRead utf8 textHash (discoverFiles joinPath glob) notes afterRun.
Proof.
  apply (indexing_mirrors_the_disk diskExists diskRead utf8 textHash joinPath glob 1000
           incremental sampleStore afterRun runResults sampleStore_keys).
  - vm_compute. reflexivity.
  - vm_compute. now left.
Defined.

Lemma every_file_is_indexed_or_skipped_witness :
  indexed runResults + skipped runResults = totalFiles runResults /\
  totalFiles runResults = 1.
Proof.
  destruct (every_file_is_indexed_or_skipped diskExists diskRead utf8 textHash joinPath glob
              1000 incremental sampleStore afterRun runResults)
    as [Hsum [Hfiles _]]; [vm_compute; reflexivity|].
  split; [exact Hsum | reflexivity].
Defined.

Lemma other_collections_are_untouched_witness :
  rowsOf 2 (snd (indexCollections diskExists diskRead utf8 textHash joinPath glob 1000
                   onlyNotes twoCollections)) = [docB].
Proof.
  destruct (other_collections_are_untouched diskExists diskRead utf8 textHash joinPath glob
              1000 onlyNotes twoCollections 2 twoCollections_keys) as [Hrows _].
  - intros c [<-|[]]. discriminate.
  - exact Hrows.
Defined.

Lemma binary_file_loses_its_record_witness :
  fst (indexFile diskExists binaryRead utf8 textHash 9 1 (str "/notes/a.md") false sampleStore)
  = NotIndexed binary /\
  gone 1 [1; 2; 3]%Z
       (snd (indexFile diskExists binaryRead utf8 textHash 9 1 (str "/notes/a.md") false
               sampleStore)).
Proof.
  destruct (binary_file_loses_its_record diskExists binaryRead utf8 textHash 9 1
              (str "/notes/a.md") false sampleStore [0; 1; 2]%N sampleStore_keys
              eq_refl eq_refl eq_refl) as [Hres [_ [Hgone _]]].
  split; [exact Hres|]. exact (Hgone docA eq_refl).
Defined.

Lemma sampleStore_references : references sampleStore.
Proof.
  split.
  - intros c Hc. cbn in Hc |- *. intuition (subst; cbn; tauto).
  - intros e He. cbn in He |- *. intuition (subst; cbn; tauto).
Qed.

Lemma changed_file_is_reindexed_witness :
  fst (indexFile diskExists diskRead utf8 textHash 9 1 (str "/notes/a.md") true sampleStore)
  = Indexed 1 /\
  gone 1 [1; 2; 3]%Z
       (snd (indexFile diskExists diskRead utf8 textHash 9 1 (str "/notes/a.md") true
               sampleStore)).
Proof.
  destruct (changed_file_is_reindexed diskExists diskRead utf8 textHash 9 1
              (str "/notes/a.md") true sampleStore (str "alpha beta") (str "alpha beta")
              sampleStore_keys sampleStore_references eq_refl eq_refl eq_refl
              (or_introl eq_refl)) as [Hres [id [_ [_ [_ [_ Hgone]]]]]].
  split; [exact Hres|]. exact (Hgone docA eq_refl).
Defined.

End FurtherExamples.
